(** * Connection and command-dispatch core of the Aerospike C client

    A shallow embedding of the parts of [as_node.c] (node creation, aliases,
    synchronous connection pools, info requests, rack parsing) and of the
    libev driver [as_event_ev.c] (cross-thread wakeup, multi-block command
    reads) that the specification speaks about, with the properties that
    hold of them.

    The sections after the command reads go on with the code around these
    parts: policy defaults and resolution ([as_policy.c], [_policy.c]), the
    write parameters of [cl_write.h], the attributes of operate commands
    and the cluster features ([aerospike_key.c]), the address block of a
    node and the walk that opens a socket, the connection search on one
    sub-pool, partition refreshes and what a refresh leaves behind, the
    rack lookup ([as_node.c]), the wakeup queue, the read buffer and the
    write step of the libev driver, and the workers of the benchmark's
    linear write ([linear_write.c]).

    Conventions.  C integers are [Z] with the wrap-around of their width
    written out ([u32]); arrays indexed by position are lists read with
    stdpp's lookup; a [while] loop is a [Fixpoint] on a fuel argument
    together with a lemma giving the fuel that always suffices, and a loop
    whose end is up to the TLS layer is cut by a bound that is a parameter;
    what the code receives from the network, the clock or the allocator is
    an explicit argument. *)

From Stdlib Require Import ZArith Lia Bool Ascii String.
From Stdlib Require Strings.Byte.
From stdpp Require Import base numbers list.
Import Stdlib.Init.Byte.

Local Open Scope Z_scope.

(** ** Machine integers and status codes *)

(** [uint32_t] arithmetic. *)
Definition u32 (x : Z) : Z := x mod 2 ^ 32.

Definition is_u32 (x : Z) : Prop := 0 <= x < 2 ^ 32.

(** The members of [as_status] that these files return. *)
Inductive as_status : Type :=
| AEROSPIKE_OK
| AEROSPIKE_ERR_CLIENT
| AEROSPIKE_ERR_NO_MORE_CONNECTIONS
| AEROSPIKE_ERR_INVALID_NODE
| AEROSPIKE_ERR_ASYNC_CONNECTION
| AEROSPIKE_ERR_TLS_ERROR
| AEROSPIKE_ERR_CONNECTION
| AEROSPIKE_ERR_TIMEOUT
| AEROSPIKE_NOT_AUTHENTICATED.

Definition as_status_eqb (a b : as_status) : bool :=
  match a, b with
  | AEROSPIKE_OK, AEROSPIKE_OK
  | AEROSPIKE_ERR_CLIENT, AEROSPIKE_ERR_CLIENT
  | AEROSPIKE_ERR_NO_MORE_CONNECTIONS, AEROSPIKE_ERR_NO_MORE_CONNECTIONS
  | AEROSPIKE_ERR_INVALID_NODE, AEROSPIKE_ERR_INVALID_NODE
  | AEROSPIKE_ERR_ASYNC_CONNECTION, AEROSPIKE_ERR_ASYNC_CONNECTION
  | AEROSPIKE_ERR_TLS_ERROR, AEROSPIKE_ERR_TLS_ERROR
  | AEROSPIKE_ERR_CONNECTION, AEROSPIKE_ERR_CONNECTION
  | AEROSPIKE_ERR_TIMEOUT, AEROSPIKE_ERR_TIMEOUT
  | AEROSPIKE_NOT_AUTHENTICATED, AEROSPIKE_NOT_AUTHENTICATED => true
  | _, _ => false
  end.

(** [as_error]: the status code and the formatted message. *)
Record as_error : Type := mk_error {
  err_code : as_status;
  err_message : string
}.

Definition as_error_update (code : as_status) (msg : string) : as_error :=
  {| err_code := code; err_message := msg |}.

Lemma u32_small x : is_u32 x -> u32 x = x.
Proof. intros H. unfold u32. apply Z.mod_small. exact H. Qed.

(** ** Sockets and pool queues *)

(** The fields of [as_socket] that the pooling code reads or writes.
    [sock_pool] is the [pool] back pointer, kept as the index of the pool in
    the node's [sync_conn_pools] array. *)
Record as_socket : Type := mk_socket {
  sock_fd : Z;
  sock_last_used : Z;
  sock_pool : nat
}.

(** [as_queue] inside [as_conn_pool]: the idle connections from head to
    tail, the capacity, and [total], the count of connections opened or
    being opened against this pool (idle and leased). *)
Record as_queue : Type := mk_queue {
  q_items : list as_socket;
  q_capacity : Z;
  q_total : Z
}.

Definition as_queue_init (capacity : Z) : as_queue :=
  {| q_items := []; q_capacity := capacity; q_total := 0 |}.

(** ** Node creation: the connection budget over the sub-pools *)

Module NodePools.

(** The fields of [as_cluster] read by [as_node_create]. *)
Record as_cluster : Type := mk_cluster {
  max_conns_per_node : Z;
  conn_pools_per_node : Z;
  async_max_conns_per_node : Z;
  pipe_max_conns_per_node : Z
}.

(** [capacity = i < rem ? max + 1 : max] *)
Definition pool_capacity (max rem i : Z) : Z :=
  if i <? rem then u32 (max + 1) else max.

(** The body shared by the sync loop of [as_node_create] and by
    [as_node_create_async_pools]: [count] pools, pool [i] initialised with
    [pool_capacity max rem i].  The C division is undefined for
    [count = 0]; here it is [Z]'s. *)
Definition distribute_pools (budget count : Z) : list as_queue :=
  let max := budget / count in
  let rem := u32 (budget - u32 (max * count)) in
  List.map (fun i : nat => as_queue_init (pool_capacity max rem (Z.of_nat i)))
           (List.seq 0 (Z.to_nat count)).

Definition as_node_create_async_pools (as_event_loop_capacity max_conns_per_node : Z)
  : list as_queue :=
  distribute_pools max_conns_per_node as_event_loop_capacity.

(** The pool fields of [as_node]; [None] is the null pointer stored when
    no event loop exists. *)
Record as_node_pools : Type := mk_node_pools {
  sync_conn_pools : list as_queue;
  conn_iter : Z;
  async_conn_pools : option (list as_queue);
  pipe_conn_pools : option (list as_queue)
}.

Definition as_node_create (as_event_loop_capacity : Z) (cluster : as_cluster)
  : as_node_pools :=
  {| sync_conn_pools :=
       distribute_pools (max_conns_per_node cluster) (conn_pools_per_node cluster);
     conn_iter := 0;
     async_conn_pools :=
       if 0 <? as_event_loop_capacity
       then Some (as_node_create_async_pools as_event_loop_capacity
                    (async_max_conns_per_node cluster))
       else None;
     pipe_conn_pools :=
       if 0 <? as_event_loop_capacity
       then Some (as_node_create_async_pools as_event_loop_capacity
                    (pipe_max_conns_per_node cluster))
       else None |}.

(** Sum of the capacities of an array of pools. *)
Definition total_capacity (pools : list as_queue) : Z :=
  fold_right (fun p acc => q_capacity p + acc) 0 pools.

(** The pools behind a possibly null array pointer. *)
Definition pools_of (p : option (list as_queue)) : list as_queue :=
  match p with Some l => l | None => [] end.

Lemma total_capacity_seq (f : nat -> Z) (start len : nat) :
  total_capacity (List.map (fun i => as_queue_init (f i)) (List.seq start len))
  = fold_right (fun i acc => f i + acc) 0 (List.seq start len).
Proof.
  revert start. induction len as [|len IH]; intros start; simpl; [reflexivity|].
  unfold total_capacity in IH. unfold total_capacity. simpl. rewrite IH. reflexivity.
Qed.

(** Summing [a + 1] below [r] and [a] from [r] on. *)
Lemma sum_step_function (a r : Z) (len start : nat) :
  fold_right (fun (i : nat) acc => (if Z.of_nat i <? r then a + 1 else a) + acc) 0
             (List.seq start len)
  = Z.of_nat len * a
    + Z.max 0 (Z.min (Z.of_nat (start + len)) r - Z.of_nat start).
Proof.
  revert start. induction len as [|len IH]; intros start.
  - simpl. lia.
  - cbn [List.seq fold_right]. rewrite IH.
    destruct (Z.ltb_spec (Z.of_nat start) r); lia.
Qed.

Lemma pool_capacity_exact budget count i :
  is_u32 budget -> 0 < count -> 0 <= i ->
  pool_capacity (budget / count) (u32 (budget - u32 (budget / count * count))) i
  = if i <? budget mod count then budget / count + 1 else budget / count.
Proof.
  intros [Hb0 Hb1] Hc Hi.
  pose proof (Z.div_mod budget count ltac:(lia)) as Hdm.
  pose proof (Z.mod_pos_bound budget count Hc) as Hm.
  assert (Hq : 0 <= budget / count) by (apply Z.div_pos; lia).
  assert (Hmul : budget / count * count = budget - budget mod count) by lia.
  unfold pool_capacity.
  rewrite (u32_small (budget / count * count)) by (unfold is_u32; lia).
  rewrite Hmul.
  replace (budget - (budget - budget mod count)) with (budget mod count) by lia.
  rewrite (u32_small (budget mod count)) by (unfold is_u32; lia).
  destruct (Z.ltb_spec i (budget mod count)); [|reflexivity].
  apply u32_small. unfold is_u32.
  assert (budget / count * count <= budget - 1) by lia.
  assert (budget / count <= budget / count * count) by nia.
  lia.
Qed.

Lemma distribute_pools_length budget count :
  length (distribute_pools budget count) = Z.to_nat count.
Proof. unfold distribute_pools. rewrite length_map, length_seq. reflexivity. Qed.

Lemma distribute_pools_lookup budget count (i : nat) :
  is_u32 budget -> 0 < count -> (i < Z.to_nat count)%nat ->
  q_capacity <$> (distribute_pools budget count !! i)
  = Some (if Z.of_nat i <? budget mod count
          then budget / count + 1 else budget / count).
Proof.
  intros Hb Hc Hi. unfold distribute_pools.
  rewrite list_lookup_fmap.
  rewrite (lookup_seq_lt 0 (Z.to_nat count) i Hi). simpl.
  rewrite pool_capacity_exact by (assumption || lia). reflexivity.
Qed.

Lemma distribute_pools_total budget count :
  is_u32 budget -> 0 < count ->
  total_capacity (distribute_pools budget count) = budget.
Proof.
  intros Hb Hc. unfold distribute_pools.
  rewrite (total_capacity_seq
             (fun i => pool_capacity (budget / count)
                         (u32 (budget - u32 (budget / count * count))) (Z.of_nat i))).
  erewrite (foldr_ext _ (fun (i : nat) acc =>
              (if Z.of_nat i <? budget mod count
               then budget / count + 1 else budget / count) + acc));
    [| intros i acc; rewrite pool_capacity_exact by (assumption || lia); reflexivity
     | reflexivity | reflexivity ].
  rewrite sum_step_function.
  pose proof (Z.div_mod budget count ltac:(lia)).
  pose proof (Z.mod_pos_bound budget count Hc).
  lia.
Qed.

(** A pool array that splits [budget] over [count] pools with the remainder
    on the first pools. *)
Definition exact_partition (budget count : Z) (pools : list as_queue) : Prop :=
  length pools = Z.to_nat count /\
  total_capacity pools = budget /\
  forall (i : nat) (p : as_queue), pools !! i = Some p ->
    q_capacity p = budget / count + (if Z.of_nat i <? budget mod count then 1 else 0).

Lemma distribute_pools_exact budget count :
  is_u32 budget -> 0 < count ->
  exact_partition budget count (distribute_pools budget count).
Proof.
  intros Hb Hc. split; [apply distribute_pools_length|].
  split; [apply distribute_pools_total; assumption|].
  intros i p Hp.
  assert (Hi : (i < Z.to_nat count)%nat).
  { apply lookup_lt_Some in Hp. rewrite distribute_pools_length in Hp. exact Hp. }
  pose proof (distribute_pools_lookup budget count i Hb Hc Hi) as Hl.
  rewrite Hp in Hl. simpl in Hl. injection Hl as ->.
  destruct (Z.of_nat i <? budget mod count); lia.
Qed.

(** C9, as stated, fails when the library runs without event loops: no
    async pool is created, so nothing holds the async budget. *)
Lemma as_node_create_no_event_loop_counterexample :
  let cluster := {| max_conns_per_node := 300; conn_pools_per_node := 1;
                    async_max_conns_per_node := 300;
                    pipe_max_conns_per_node := 64 |} in
  let node := as_node_create 0 cluster in
  async_conn_pools node = None /\
  total_capacity (pools_of (async_conn_pools node))
    <> async_max_conns_per_node cluster.
Proof. vm_compute. split; [reflexivity | discriminate]. Qed.

(** C9 (amended).  A node created with at least one sync sub-pool splits
    [max_conns_per_node] exactly over its [conn_pools_per_node] sync pools,
    the first [budget mod count] pools holding one slot more; with at least
    one event loop the async and the pipeline budgets are split the same
    way over one pool per event loop; without event loops no async or
    pipeline pool exists. *)
Theorem as_node_create_partitions_budget (as_event_loop_capacity : Z)
    (cluster : as_cluster) :
  is_u32 (max_conns_per_node cluster) ->
  is_u32 (async_max_conns_per_node cluster) ->
  is_u32 (pipe_max_conns_per_node cluster) ->
  0 < conn_pools_per_node cluster ->
  0 <= as_event_loop_capacity ->
  let node := as_node_create as_event_loop_capacity cluster in
  exact_partition (max_conns_per_node cluster) (conn_pools_per_node cluster)
                  (sync_conn_pools node) /\
  (0 < as_event_loop_capacity ->
     exists apools ppools,
       async_conn_pools node = Some apools /\
       pipe_conn_pools node = Some ppools /\
       exact_partition (async_max_conns_per_node cluster)
                       as_event_loop_capacity apools /\
       exact_partition (pipe_max_conns_per_node cluster)
                       as_event_loop_capacity ppools) /\
  (as_event_loop_capacity = 0 ->
     async_conn_pools node = None /\ pipe_conn_pools node = None).
Proof.
  intros Hs Ha Hp Hn He node. subst node. unfold as_node_create. cbn [sync_conn_pools async_conn_pools pipe_conn_pools].
  split; [apply distribute_pools_exact; assumption|].
  split.
  - intros Hpos. apply Z.ltb_lt in Hpos as Hb. rewrite Hb.
    eexists _, _. split; [reflexivity|]. split; [reflexivity|].
    split; apply distribute_pools_exact; assumption.
  - intros ->. simpl. split; reflexivity.
Qed.

Lemma as_node_create_partitions_budget_witness :
  let cluster := {| max_conns_per_node := 300; conn_pools_per_node := 7;
                    async_max_conns_per_node := 100;
                    pipe_max_conns_per_node := 64 |} in
  let node := as_node_create 3 cluster in
  exact_partition 300 7 (sync_conn_pools node) /\
  (0 < 3 ->
     exists apools ppools,
       async_conn_pools node = Some apools /\
       pipe_conn_pools node = Some ppools /\
       exact_partition 100 3 apools /\
       exact_partition 64 3 ppools) /\
  (3 = 0 -> async_conn_pools node = None /\ pipe_conn_pools node = None).
Proof.
  apply (as_node_create_partitions_budget 3
           {| max_conns_per_node := 300; conn_pools_per_node := 7;
              async_max_conns_per_node := 100;
              pipe_max_conns_per_node := 64 |});
    unfold is_u32; simpl; lia.
Defined.

End NodePools.

(** ** Node aliases *)

Module Alias.

(** [as_alias]: a host name held in a fixed [char name[AS_HOSTNAME_SIZE]]
    and a port. *)
Record as_alias : Type := mk_alias {
  alias_name : string;
  alias_port : Z
}.

(** [as_vector] of aliases.  Its size is the length of [v_items]; the
    capacity is fixed when the node is created, [as_node_add_alias] never
    lets the vector grow. *)
Record as_vector : Type := mk_vector {
  v_items : list as_alias;
  v_capacity : Z
}.

Definition v_size (v : as_vector) : Z := Z.of_nat (length (v_items v)).

(** [as_strncpy(trg, src, size)] of the common library: copy at most
    [size - 1] characters, terminate, and tell whether the source was cut
    (the caller logs "Hostname has been truncated" on [true]). *)
Definition as_strncpy (src : string) (size : nat) : bool * string :=
  if (String.length src <=? size - 1)%nat
  then (false, src)
  else (true, String.substring 0 (size - 1) src).

(** The search loop of [as_node_add_alias]:
    [strcmp(alias->name, hostname) == 0 && alias->port == port]. *)
Fixpoint alias_present (items : list as_alias) (hostname : string) (port : Z)
  : bool :=
  match items with
  | [] => false
  | alias :: rest =>
      if String.eqb (alias_name alias) hostname && (alias_port alias =? port)
      then true
      else alias_present rest hostname port
  end.

Section AddAlias.

(** [sizeof(a.name)], the constant [AS_HOSTNAME_SIZE] of [as_host.h]. *)
Variable AS_HOSTNAME_SIZE : nat.

Definition as_node_add_alias (aliases : as_vector) (hostname : string) (port : Z)
  : as_vector :=
  if alias_present (v_items aliases) hostname port then
    (* Already exists. *)
    aliases
  else
    let a := {| alias_name := snd (as_strncpy hostname AS_HOSTNAME_SIZE);
                alias_port := port |} in
    if v_size aliases <? v_capacity aliases
    then {| v_items := v_items aliases ++ [a];
            v_capacity := v_capacity aliases |}
    else aliases.

Lemma alias_present_app items extra hostname port :
  alias_present (items ++ extra) hostname port
  = alias_present items hostname port || alias_present extra hostname port.
Proof.
  induction items as [|a items IH]; simpl; [reflexivity|].
  destruct (String.eqb (alias_name a) hostname && (alias_port a =? port));
    [reflexivity | exact IH].
Qed.

Lemma as_strncpy_fits hostname :
  (String.length hostname < AS_HOSTNAME_SIZE)%nat ->
  as_strncpy hostname AS_HOSTNAME_SIZE = (false, hostname).
Proof.
  intros H. unfold as_strncpy.
  destruct (Nat.leb_spec (String.length hostname) (AS_HOSTNAME_SIZE - 1));
    [reflexivity | lia].
Qed.

(** After a call with a host name that fits, the pair is in the vector or
    the vector is full. *)
Lemma as_node_add_alias_present_or_full aliases hostname port :
  (String.length hostname < AS_HOSTNAME_SIZE)%nat ->
  let aliases' := as_node_add_alias aliases hostname port in
  alias_present (v_items aliases') hostname port = true
  \/ (aliases' = aliases /\ v_capacity aliases <= v_size aliases).
Proof.
  intros Hfit. unfold as_node_add_alias.
  destruct (alias_present (v_items aliases) hostname port) eqn:Hp; [left; exact Hp|].
  destruct (Z.ltb_spec (v_size aliases) (v_capacity aliases)).
  - left. cbn [v_items]. rewrite alias_present_app, as_strncpy_fits by exact Hfit.
    simpl. rewrite String.eqb_refl, Z.eqb_refl. simpl. apply orb_true_r.
  - right. split; [reflexivity | lia].
Qed.

(** C4 (amended).  For a host name that fits the alias name buffer, a
    second [as_node_add_alias] with the same host name and port changes
    nothing: the vector, and so its length, is the one the first call
    left. *)
Theorem as_node_add_alias_idempotent aliases hostname port :
  (String.length hostname < AS_HOSTNAME_SIZE)%nat ->
  as_node_add_alias (as_node_add_alias aliases hostname port) hostname port
  = as_node_add_alias aliases hostname port.
Proof.
  intros Hfit.
  destruct (as_node_add_alias_present_or_full aliases hostname port Hfit)
    as [Hp | [Heq Hfull]].
  - unfold as_node_add_alias at 1. rewrite Hp. reflexivity.
  - rewrite Heq. unfold as_node_add_alias.
    destruct (alias_present (v_items aliases) hostname port); [reflexivity|].
    destruct (Z.ltb_spec (v_size aliases) (v_capacity aliases)); [lia | reflexivity].
Qed.

End AddAlias.

(** A host name of 256 characters, one more than a 256-byte name buffer
    holds. *)
Definition long_hostname : string :=
  String.concat "" (List.repeat "a"%string 256).

Definition no_aliases : as_vector := {| v_items := []; v_capacity := 2 |}.

(** C4, as stated, fails for a host name that does not fit the name
    buffer: the stored alias is the truncated name, the second call does
    not find the full name and appends again. *)
Lemma as_node_add_alias_truncated_counterexample :
  let once := as_node_add_alias 256 no_aliases long_hostname 3000 in
  let twice := as_node_add_alias 256 once long_hostname 3000 in
  length (v_items once) = 1%nat /\ length (v_items twice) = 2%nat.
Proof. vm_compute. split; reflexivity. Qed.

Lemma as_node_add_alias_idempotent_witness :
  as_node_add_alias 256
    (as_node_add_alias 256 no_aliases "db1.example.com" 3000)
    "db1.example.com" 3000
  = as_node_add_alias 256 no_aliases "db1.example.com" 3000.
Proof.
  apply (as_node_add_alias_idempotent 256 no_aliases "db1.example.com" 3000).
  vm_compute. lia.
Defined.

End Alias.

(** ** Synchronous connection pools *)

Module ConnPool.

(** *** Pool primitives

    The inline helpers of [as_node.h] and [as_socket.h] are not among the
    sources; each is written from the pool contract of the specification
    and from the way [as_node.c] calls it. *)

(** Modelled from the spec: [as_conn_pool_pop_head] of [as_node.h].
    [take_idle(pool) -> Connection | None], at the head of the queue. *)
Definition as_conn_pool_pop_head (pool : as_queue) : option (as_socket * as_queue) :=
  match q_items pool with
  | [] => None
  | s :: rest =>
      Some (s, {| q_items := rest; q_capacity := q_capacity pool;
                  q_total := q_total pool |})
  end.

(** Modelled from the spec: [as_conn_pool_pop_tail] of [as_node.h].
    [take_idle(pool) -> Connection | None], at the tail of the queue. *)
Definition as_conn_pool_pop_tail (pool : as_queue) : option (as_socket * as_queue) :=
  match List.rev (q_items pool) with
  | [] => None
  | s :: rest_rev =>
      Some (s, {| q_items := List.rev rest_rev; q_capacity := q_capacity pool;
                  q_total := q_total pool |})
  end.

(** Modelled from the spec: [as_conn_pool_push_tail] of [as_node.h].
    [return_idle(pool, conn) -> bool] "(push if space, else caller must
    close+decrement)", at the tail of the queue. *)
Definition as_conn_pool_push_tail (pool : as_queue) (s : as_socket) : option as_queue :=
  if q_capacity pool <=? Z.of_nat (length (q_items pool))
  then None
  else Some {| q_items := q_items pool ++ [s]; q_capacity := q_capacity pool;
               q_total := q_total pool |}.

(** Modelled from the spec: [as_conn_pool_incr] of [as_node.h].
    [try_reserve(pool) -> bool] "(atomic capacity check+increment)";
    [as_node_get_connection] decrements after a failed reservation, so the
    counter is incremented whether or not the check succeeds. *)
Definition as_conn_pool_incr (pool : as_queue) : bool * as_queue :=
  (q_total pool <? q_capacity pool,
   {| q_items := q_items pool; q_capacity := q_capacity pool;
      q_total := u32 (q_total pool + 1) |}).

(** Modelled from the spec: [as_conn_pool_decr] of [as_node.h].
    [release(pool)] "(decrement reservation)". *)
Definition as_conn_pool_decr (pool : as_queue) : as_queue :=
  {| q_items := q_items pool; q_capacity := q_capacity pool;
     q_total := u32 (q_total pool - 1) |}.

(** Modelled from the spec: [as_socket_current] of [as_socket.h].  A
    connection is "still within the idle budget" unless it is "older than a
    configured max-idle duration"; [now] is the clock reading
    [cf_getns()]. *)
Definition as_socket_current (now : Z) (s : as_socket) (max_socket_idle_ns : Z) : bool :=
  now - sock_last_used s <=? max_socket_idle_ns.

(** *** The node as the pooling code sees it *)

Record as_cluster : Type := mk_cluster {
  conn_pools_per_node : Z;
  max_conns_per_node : Z;
  max_socket_idle_ns : Z;
  cluster_user : bool
}.

(** [closed] lists the sockets handed to [as_socket_close], oldest first. *)
Record as_node : Type := mk_node {
  cluster : as_cluster;
  sync_conn_pools : list as_queue;
  conn_iter : Z;
  address_index : Z;
  perform_login : bool;
  closed : list as_socket
}.

Definition set_pools (node : as_node) (pools : list as_queue) : as_node :=
  {| cluster := cluster node; sync_conn_pools := pools;
     conn_iter := conn_iter node; address_index := address_index node;
     perform_login := perform_login node; closed := closed node |}.

Definition set_conn_iter (node : as_node) (iter : Z) : as_node :=
  {| cluster := cluster node; sync_conn_pools := sync_conn_pools node;
     conn_iter := iter; address_index := address_index node;
     perform_login := perform_login node; closed := closed node |}.

Definition set_address_index (node : as_node) (index : Z) : as_node :=
  {| cluster := cluster node; sync_conn_pools := sync_conn_pools node;
     conn_iter := conn_iter node; address_index := index;
     perform_login := perform_login node; closed := closed node |}.

Definition set_perform_login (node : as_node) (b : bool) : as_node :=
  {| cluster := cluster node; sync_conn_pools := sync_conn_pools node;
     conn_iter := conn_iter node; address_index := address_index node;
     perform_login := b; closed := closed node |}.

Definition as_socket_close (node : as_node) (s : as_socket) : as_node :=
  {| cluster := cluster node; sync_conn_pools := sync_conn_pools node;
     conn_iter := conn_iter node; address_index := address_index node;
     perform_login := perform_login node; closed := closed node ++ [s] |}.

(** Apply a pool primitive to [pools[i]] in place. *)
Definition update_pool (node : as_node) (i : nat) (f : as_queue -> as_queue) : as_node :=
  set_pools node (alter f i (sync_conn_pools node)).

Definition store_pool (node : as_node) (i : nat) (pool : as_queue) : as_node :=
  set_pools node (<[i := pool]> (sync_conn_pools node)).

(** Modelled from the spec: [as_node_close_connection] of [as_node.h].
    The invalid connection "is closed and its reservation released". *)
Definition as_node_close_connection (node : as_node) (s : as_socket) : as_node :=
  update_pool (as_socket_close node s) (sock_pool s) as_conn_pool_decr.

(** [as_node_signal_login]: request a login unless one is requested
    already (the wake-up of the tend thread is not modelled). *)
Definition as_node_signal_login (node : as_node) : as_node :=
  if perform_login node then node else set_perform_login node true.

(** What a call of [as_node_get_connection] can come to. *)
Inductive conn_result : Type :=
| ConnOk (sock : as_socket)
| ConnError (err : as_error)
| ConnOutOfBounds (index : nat)
| ConnNoFuel.

Section GetConnection.

(** The environment of a call: [as_socket_validate] ([as_socket.c]) probes
    an idle socket and returns 0 when it is usable; [connect] stands for
    the walk over the node's addresses in [as_node_create_socket], which
    yields the index of the address that accepted the connection, or a
    negative value, and the socket it opened; [as_authenticate]
    ([as_admin.c]) is the authentication exchange. *)
Variable as_socket_validate : as_socket -> Z -> Z.
Variable connect : as_node -> Z * as_socket.
Variable as_authenticate : as_node -> as_socket -> as_status.

Definition with_pool (s : as_socket) (pool : nat) : as_socket :=
  {| sock_fd := sock_fd s; sock_last_used := sock_last_used s; sock_pool := pool |}.

(** [as_node_create_socket] with a non-null [pool]; [inl] is the error of a
    failed call, [inr] the socket of an [AEROSPIKE_OK] one. *)
Definition as_node_create_socket (node : as_node) (pool : nat)
  : (as_error + as_socket) * as_node :=
  let index := address_index node in
  let '(rv, sock) := connect node in
  if rv <? 0 then
    (inl (as_error_update AEROSPIKE_ERR_CLIENT "Failed to connect"),
     update_pool node pool as_conn_pool_decr)
  else
    let sock := with_pool sock pool in
    let node := if rv =? index then node else set_address_index node rv in
    (inr sock, node).

Definition as_node_create_connection (node : as_node) (pool : nat)
  : conn_result * as_node :=
  match as_node_create_socket node pool with
  | (inl err, node) => (ConnError err, node)
  | (inr sock, node) =>
      (* Authenticate connection. *)
      if cluster_user (cluster node) then
        match as_authenticate node sock with
        | AEROSPIKE_OK => (ConnOk sock, node)
        | status =>
            let node := as_node_signal_login node in
            let node := as_socket_close node sock in
            let node := update_pool node pool as_conn_pool_decr in
            (ConnError (as_error_update status "Authentication failed"), node)
        end
      else (ConnOk sock, node)
  end.

(** The [while (true)] loop of [as_node_get_connection].  [pool] is the
    position in [sync_conn_pools] that the C pointer [pool] addresses;
    [pool = &pool[pool_index]] moves it by [pool_index] elements from where
    it stands.  Reading a pool outside the array is [ConnOutOfBounds]. *)
Fixpoint get_connection_loop (fuel : nat) (node : as_node)
    (max initial_index : Z) (pool : nat) (pool_index : Z) (backward : bool)
  : conn_result * as_node :=
  match fuel with
  | O => (ConnNoFuel, node)
  | S fuel =>
      match sync_conn_pools node !! pool with
      | None => (ConnOutOfBounds pool, node)
      | Some p =>
          match as_conn_pool_pop_head p with
          | Some (s, p') =>
              (* Found socket. *)
              let node := store_pool node pool p' in
              let len := as_socket_validate s (max_socket_idle_ns (cluster node)) in
              if len =? 0 then (ConnOk (with_pool s pool), node)
              else
                get_connection_loop fuel (as_node_close_connection node s)
                  max initial_index pool pool_index backward
          | None =>
              let '(available, p') := as_conn_pool_incr p in
              let node := store_pool node pool p' in
              if available then
                (* Socket not found and queue has available slot. *)
                as_node_create_connection node pool
              else
                (* Socket not found and queue is full.  Try another queue. *)
                let node := update_pool node pool as_conn_pool_decr in
                let all_full :=
                  (ConnError (as_error_update AEROSPIKE_ERR_NO_MORE_CONNECTIONS
                                "Max node connections would be exceeded"), node) in
                if backward then
                  if 0 <? pool_index then
                    let pool_index := pool_index - 1 in
                    get_connection_loop fuel node max initial_index
                      (pool + Z.to_nat pool_index) pool_index true
                  else
                    let pool_index := u32 (initial_index + 1) in
                    if max <=? pool_index then all_full
                    else
                      get_connection_loop fuel node max initial_index
                        (pool + Z.to_nat pool_index) pool_index false
                else
                  let pool_index := u32 (pool_index + 1) in
                  if max <=? pool_index then all_full
                  else
                    get_connection_loop fuel node max initial_index
                      (pool + Z.to_nat pool_index) pool_index false
          end
      end
  end.

Definition as_node_get_connection (fuel : nat) (node : as_node)
  : conn_result * as_node :=
  let max := conn_pools_per_node (cluster node) in
  if max =? 1 then
    get_connection_loop fuel node max 0 0%nat 0 false
  else
    let iter := conn_iter node in
    let node := set_conn_iter node (u32 (iter + 1)) in
    let initial_index := iter mod max in
    get_connection_loop fuel node max initial_index
      (Z.to_nat initial_index) initial_index true.

End GetConnection.

(** *** The idle sweep *)

(** The [while (as_conn_pool_pop_tail(pool, &s))] loop on one pool.
    Besides the pool it returns the sockets it closed and the sockets it
    looked at, both in the order of the calls. *)
Fixpoint close_idle_loop (fuel : nat) (now max_idle : Z) (pool : as_queue)
    (closed examined : list as_socket)
  : as_queue * list as_socket * list as_socket :=
  match fuel with
  | O => (pool, closed, examined)
  | S fuel =>
      match as_conn_pool_pop_tail pool with
      | None => (pool, closed, examined)
      | Some (s, pool) =>
          if as_socket_current now s max_idle then
            match as_conn_pool_push_tail pool s with
            | Some pool => (pool, closed, examined ++ [s])
            | None => (as_conn_pool_decr pool, closed ++ [s], examined ++ [s])
            end
          else
            close_idle_loop fuel now max_idle (as_conn_pool_decr pool)
              (closed ++ [s]) (examined ++ [s])
      end
  end.

(** One pool of the sweep; each turn of the loop removes a connection, so
    one turn per idle connection and one more to find the queue empty. *)
Definition close_idle_pool (now max_idle : Z) (pool : as_queue)
  : as_queue * list as_socket * list as_socket :=
  close_idle_loop (S (length (q_items pool))) now max_idle pool [] [].

(** The [for] loop of [as_node_close_idle_connections] from pool [i] on,
    [n] pools to go. *)
Fixpoint close_idle_from (now : Z) (node : as_node) (i n : nat) : as_node :=
  match n with
  | O => node
  | S n =>
      match sync_conn_pools node !! i with
      | None => node
      | Some pool =>
          let '(pool', closed_now, _) :=
            close_idle_pool now (max_socket_idle_ns (cluster node)) pool in
          let node := store_pool node i pool' in
          let node := fold_left as_socket_close closed_now node in
          close_idle_from now node (S i) n
      end
  end.

Definition as_node_close_idle_connections (now : Z) (node : as_node) : as_node :=
  close_idle_from now node 0 (Z.to_nat (conn_pools_per_node (cluster node))).

(** *** Properties of the connection search *)

Definition idle_socket (fd : Z) (used : Z) (pool : nat) : as_socket :=
  {| sock_fd := fd; sock_last_used := used; sock_pool := pool |}.

Definition full_pool (capacity : Z) : as_queue :=
  {| q_items := []; q_capacity := capacity; q_total := capacity |}.

(** An environment in which every idle socket is healthy, every connect
    succeeds on the preferred address and authentication succeeds. *)
Definition healthy (s : as_socket) (max_idle : Z) : Z := 0.
Definition connect_ok (node : as_node) : Z * as_socket :=
  (address_index node, idle_socket 99 0 0).
Definition authenticate_ok (node : as_node) (s : as_socket) : as_status :=
  AEROSPIKE_OK.

(** Two sub-pools: pool 0 holds an idle connection and has a free slot,
    pool 1 is full; the next command prefers pool 1. *)
Definition two_pool_node : as_node :=
  {| cluster := {| conn_pools_per_node := 2; max_conns_per_node := 4;
                   max_socket_idle_ns := 0; cluster_user := false |};
     sync_conn_pools :=
       [ {| q_items := [idle_socket 7 0 0]; q_capacity := 2; q_total := 1 |};
         full_pool 2 ];
     conn_iter := 1; address_index := 0; perform_login := false;
     closed := [] |}.

(** Three sub-pools, all full; the next command prefers pool 0. *)
Definition three_full_node : as_node :=
  {| cluster := {| conn_pools_per_node := 3; max_conns_per_node := 6;
                   max_socket_idle_ns := 0; cluster_user := false |};
     sync_conn_pools := [ full_pool 2; full_pool 2; full_pool 2 ];
     conn_iter := 0; address_index := 0; perform_login := false;
     closed := [] |}.

Definition no_more_connections : as_error :=
  as_error_update AEROSPIKE_ERR_NO_MORE_CONNECTIONS
    "Max node connections would be exceeded".

(** C1 (the code at the failing input).  With two sub-pools and pool 1
    preferred and full, the step back to index 0 computes [&pool[0]], the
    full pool 1 again; the walk then ends with "no more connections"
    although pool 0, never read, holds a healthy idle connection and a free
    slot.  The node is left as it was but for [conn_iter]. *)
Theorem as_node_get_connection_misses_pool :
  as_node_get_connection healthy connect_ok authenticate_ok 8 two_pool_node
  = (ConnError no_more_connections, set_conn_iter two_pool_node 2)
  /\ exists pool0 s,
       sync_conn_pools two_pool_node !! 0%nat = Some pool0
       /\ q_items pool0 = [s] /\ healthy s 0 = 0
       /\ q_total pool0 < q_capacity pool0.
Proof.
  split; [vm_compute; reflexivity|].
  eexists _, _. split; [reflexivity|]. split; [reflexivity|].
  split; [reflexivity | vm_compute; reflexivity].
Qed.

(** With three full sub-pools the same pointer step leaves the array: after
    pools 0 and 1 the code reads [pool[2]] from pool 1, the element at
    index 3 of a three-element array. *)
Lemma as_node_get_connection_leaves_array :
  fst (as_node_get_connection healthy connect_ok authenticate_ok 8 three_full_node)
  = ConnOutOfBounds 3.
Proof. vm_compute. reflexivity. Qed.

(** The preferred sub-pool is tried first: a healthy idle connection at its
    head is the one returned. *)
Lemma get_connection_loop_preferred validate connect auth fuel node
    max initial_index pool pool_index backward p s rest :
  sync_conn_pools node !! pool = Some p ->
  q_items p = s :: rest ->
  validate s (max_socket_idle_ns (cluster node)) = 0 ->
  fst (get_connection_loop validate connect auth (S fuel) node
         max initial_index pool pool_index backward)
  = ConnOk (with_pool s pool).
Proof.
  intros Hp Hitems Hvalid. cbn [get_connection_loop]. rewrite Hp.
  unfold as_conn_pool_pop_head. rewrite Hitems.
  cbn [store_pool set_pools cluster]. rewrite Hvalid. reflexivity.
Qed.

(** *** Properties of the idle sweep *)

Definition stale (now max_idle : Z) (s : as_socket) : Prop :=
  as_socket_current now s max_idle = false.

(** The pool invariant of the data model: the idle connections are among
    the counted ones, and the queue holds no more than its capacity. *)
Definition pool_wf (pool : as_queue) : Prop :=
  Z.of_nat (length (q_items pool)) <= q_total pool < 2 ^ 32
  /\ Z.of_nat (length (q_items pool)) <= q_capacity pool.

(** What the sweep does to one pool: it closes [closed_now], a run of stale
    connections at the tail taken tail first, and keeps the rest of the
    queue in place; it looks at the closed connections and at the first
    connection within the budget, which goes back to the tail. *)
Definition tail_sweep (now max_idle : Z) (pool pool' : as_queue)
    (closed_now examined : list as_socket) : Prop :=
  exists kept,
    q_items pool = kept ++ List.rev closed_now
    /\ Forall (stale now max_idle) closed_now
    /\ q_items pool' = kept
    /\ q_capacity pool' = q_capacity pool
    /\ q_total pool' = q_total pool - Z.of_nat (length closed_now)
    /\ ((kept = [] /\ examined = closed_now)
        \/ exists front s,
             kept = front ++ [s]
             /\ as_socket_current now s max_idle = true
             /\ examined = closed_now ++ [s]).

Lemma as_conn_pool_pop_tail_snoc items s capacity total :
  as_conn_pool_pop_tail
    {| q_items := items ++ [s]; q_capacity := capacity; q_total := total |}
  = Some (s, {| q_items := items; q_capacity := capacity; q_total := total |}).
Proof.
  unfold as_conn_pool_pop_tail. cbn [q_items q_capacity q_total].
  rewrite rev_unit, rev_involutive. reflexivity.
Qed.

Lemma close_idle_loop_run now max_idle capacity :
  forall closed_now kept total fuel closed examined,
    Forall (stale now max_idle) closed_now ->
    Z.of_nat (length (kept ++ List.rev closed_now)) <= total < 2 ^ 32 ->
    close_idle_loop (length closed_now + fuel) now max_idle
      {| q_items := kept ++ List.rev closed_now; q_capacity := capacity;
         q_total := total |} closed examined
    = close_idle_loop fuel now max_idle
        {| q_items := kept; q_capacity := capacity;
           q_total := total - Z.of_nat (length closed_now) |}
        (closed ++ closed_now) (examined ++ closed_now).
Proof.
  induction closed_now as [|s rest IH]; intros kept total fuel closed examined Hst Htot.
  - cbn [length List.rev Nat.add]. rewrite !app_nil_r.
    replace (total - Z.of_nat 0) with total by lia. reflexivity.
  - apply Forall_cons in Hst as [Hs Hrest].
    cbn [length List.rev Nat.add close_idle_loop].
    rewrite app_assoc, as_conn_pool_pop_tail_snoc.
    unfold stale in Hs. rewrite Hs.
    unfold as_conn_pool_decr. cbn [q_items q_capacity q_total].
    rewrite !length_app in Htot. cbn [length List.rev] in Htot.
    rewrite !length_app in Htot. cbn [length] in Htot.
    rewrite (u32_small (total - 1)) by (unfold is_u32; lia).
    rewrite IH; [| exact Hrest | rewrite length_app; lia ].
    rewrite <- !app_assoc. cbn [app].
    replace (total - 1 - Z.of_nat (length rest))
      with (total - Z.of_nat (S (length rest))) by lia.
    reflexivity.
Qed.

(** Every queue splits into the part the sweep keeps and the stale run at
    its tail. *)
Lemma stale_tail_split now max_idle (items : list as_socket) :
  exists kept closed_now,
    items = kept ++ List.rev closed_now
    /\ Forall (stale now max_idle) closed_now
    /\ (kept = []
        \/ exists front s,
             kept = front ++ [s] /\ as_socket_current now s max_idle = true).
Proof.
  induction items as [|s items IH] using rev_ind.
  - exists [], []. split; [reflexivity|]. split; [constructor | left; reflexivity].
  - destruct (as_socket_current now s max_idle) eqn:Hcur.
    + exists (items ++ [s]), []. rewrite app_nil_r.
      split; [reflexivity|]. split; [constructor|].
      right. exists items, s. split; [reflexivity | exact Hcur].
    + destruct IH as (kept & cl & Heq & Hst & Hkept).
      exists kept, (s :: cl). split.
      * rewrite Heq, <- app_assoc. reflexivity.
      * split; [| exact Hkept]. constructor; [exact Hcur | exact Hst].
Qed.

Lemma close_idle_pool_tail_sweep now max_idle pool :
  pool_wf pool ->
  tail_sweep now max_idle pool
    (close_idle_pool now max_idle pool).1.1
    (close_idle_pool now max_idle pool).1.2
    (close_idle_pool now max_idle pool).2.
Proof.
  intros [Htot Hcap]. destruct pool as [items capacity total].
  cbn [q_items q_capacity q_total] in *.
  destruct (stale_tail_split now max_idle items) as (kept & cl & Heq & Hst & Hkept).
  unfold close_idle_pool. cbn [q_items]. subst items.
  rewrite length_app, length_rev.
  replace (S (length kept + length cl)) with (length cl + S (length kept))%nat by lia.
  rewrite close_idle_loop_run by assumption.
  cbn [app]. rewrite length_app, length_rev in Hcap.
  destruct Hkept as [-> | (front & s & -> & Hcur)].
  - cbn [close_idle_loop length]. unfold as_conn_pool_pop_tail. cbn.
    exists []. cbn. repeat split; try assumption. left. split; reflexivity.
  - cbn [close_idle_loop]. rewrite as_conn_pool_pop_tail_snoc, Hcur.
    unfold as_conn_pool_push_tail. cbn [q_items q_capacity q_total].
    rewrite length_app in Hcap. cbn [length] in Hcap.
    destruct (Z.leb_spec capacity (Z.of_nat (length front))); [lia|].
    exists (front ++ [s]). cbn. repeat split; try assumption.
    right. exists front, s. repeat split. exact Hcur.
Qed.

Definition pool_after (now max_idle : Z) (pool : as_queue) : as_queue :=
  (close_idle_pool now max_idle pool).1.1.
Definition closed_by (now max_idle : Z) (pool : as_queue) : list as_socket :=
  (close_idle_pool now max_idle pool).1.2.
Definition examined_by (now max_idle : Z) (pool : as_queue) : list as_socket :=
  (close_idle_pool now max_idle pool).2.

Lemma fold_as_socket_close sockets : forall node,
  fold_left as_socket_close sockets node
  = {| cluster := cluster node; sync_conn_pools := sync_conn_pools node;
       conn_iter := conn_iter node; address_index := address_index node;
       perform_login := perform_login node;
       closed := closed node ++ sockets |}.
Proof.
  induction sockets as [|s sockets IH]; intros node.
  - cbn [fold_left]. rewrite app_nil_r. destruct node; reflexivity.
  - cbn [fold_left]. rewrite IH. unfold as_socket_close. cbn.
    rewrite <- app_assoc. reflexivity.
Qed.

Lemma close_idle_from_pools now : forall rest done node,
  sync_conn_pools node = done ++ rest ->
  let max_idle := max_socket_idle_ns (cluster node) in
  let node' := close_idle_from now node (length done) (length rest) in
  sync_conn_pools node' = done ++ List.map (pool_after now max_idle) rest
  /\ closed node'
     = closed node ++ List.concat (List.map (closed_by now max_idle) rest)
  /\ cluster node' = cluster node.
Proof.
  induction rest as [|pool rest IH]; intros done node Hpools.
  - cbn. rewrite Hpools, !app_nil_r. repeat split; reflexivity.
  - cbn [length close_idle_from]. rewrite Hpools.
    rewrite (list_lookup_middle done rest pool (length done) eq_refl).
    unfold pool_after, closed_by. cbn [List.map List.concat].
    destruct (close_idle_pool now (max_socket_idle_ns (cluster node)) pool)
      as [[pool' closed_now] examined] eqn:Hsweep.
    cbn [fst snd]. rewrite fold_as_socket_close.
    unfold store_pool, set_pools.
    cbn [cluster sync_conn_pools conn_iter address_index perform_login closed].
    rewrite Hpools.
    assert (Hins : <[length done := pool']> (done ++ pool :: rest)
                   = (done ++ [pool']) ++ rest).
    { rewrite insert_app_r_alt by lia. rewrite Nat.sub_diag, <- app_assoc.
      reflexivity. }
    rewrite Hins.
    match goal with
    | |- context [close_idle_from now ?n (S (length done)) (length rest)] =>
        specialize (IH (done ++ [pool']) n)
    end.
    cbn [cluster sync_conn_pools closed] in IH.
    rewrite length_app in IH. cbn [length] in IH.
    replace (length done + 1)%nat with (S (length done)) in IH by lia.
    destruct IH as (Hp & Hc & Hcl); [reflexivity|].
    unfold pool_after, closed_by in Hp, Hc.
    rewrite Hp, Hc, Hcl. rewrite <- !app_assoc. repeat split; reflexivity.
Qed.

(** C5 (amended).  On a node whose pools respect the pool invariant, the
    sweep works on every sub-pool from the tail of its queue: it closes the
    run of connections at the tail whose idle time exceeds the budget and
    nothing else, stops at the first connection from the tail that is
    within the budget and puts it back at the tail, and leaves the
    connections nearer the head unexamined. *)
Theorem as_node_close_idle_connections_sweeps_tail (now : Z) (node : as_node) :
  length (sync_conn_pools node)
    = Z.to_nat (conn_pools_per_node (cluster node)) ->
  Forall pool_wf (sync_conn_pools node) ->
  let max_idle := max_socket_idle_ns (cluster node) in
  let node' := as_node_close_idle_connections now node in
  sync_conn_pools node'
    = List.map (pool_after now max_idle) (sync_conn_pools node)
  /\ closed node'
     = closed node
       ++ List.concat (List.map (closed_by now max_idle) (sync_conn_pools node))
  /\ Forall (fun pool =>
               tail_sweep now max_idle pool (pool_after now max_idle pool)
                 (closed_by now max_idle pool) (examined_by now max_idle pool))
            (sync_conn_pools node).
Proof.
  intros Hlen Hwf max_idle node'. subst node'.
  unfold as_node_close_idle_connections. rewrite <- Hlen.
  destruct (close_idle_from_pools now (sync_conn_pools node) [] node eq_refl)
    as (Hp & Hc & _).
  cbn [length app] in Hp, Hc.
  split; [exact Hp|]. split; [exact Hc|].
  eapply Forall_impl; [exact Hwf|].
  intros pool Hpool. apply close_idle_pool_tail_sweep. exact Hpool.
Qed.

(** A pool in the order the claim describes, least recently used at the
    head: an old connection at the head, a fresh one at the tail. *)
Definition lru_head_pool : as_queue :=
  {| q_items := [idle_socket 5 0 0; idle_socket 6 100 0];
     q_capacity := 2; q_total := 2 |}.

(** C5, as stated, fails on that pool: at time 110 with a budget of 50 the
    sweep looks at the fresh connection at the tail only, not at the least
    recently used one, which is over the budget and stays in the pool. *)
Lemma close_idle_pool_lru_head_counterexample :
  examined_by 110 50 lru_head_pool = [idle_socket 6 100 0]
  /\ closed_by 110 50 lru_head_pool = []
  /\ pool_after 110 50 lru_head_pool = lru_head_pool
  /\ List.hd_error (q_items lru_head_pool) = Some (idle_socket 5 0 0)
  /\ sock_last_used (idle_socket 5 0 0) < sock_last_used (idle_socket 6 100 0)
  /\ stale 110 50 (idle_socket 5 0 0).
Proof. vm_compute. repeat split; intros; discriminate. Qed.

Definition swept_node : as_node :=
  {| cluster := {| conn_pools_per_node := 2; max_conns_per_node := 4;
                   max_socket_idle_ns := 50; cluster_user := false |};
     sync_conn_pools :=
       [ {| q_items := [idle_socket 5 100 0; idle_socket 6 0 0];
            q_capacity := 2; q_total := 2 |};
         {| q_items := [idle_socket 8 10 1]; q_capacity := 2; q_total := 2 |} ];
     conn_iter := 0; address_index := 0; perform_login := false;
     closed := [] |}.

Lemma as_node_close_idle_connections_sweeps_tail_witness :
  let node' := as_node_close_idle_connections 110 swept_node in
  sync_conn_pools node'
    = List.map (pool_after 110 50) (sync_conn_pools swept_node)
  /\ closed node'
     = closed swept_node
       ++ List.concat (List.map (closed_by 110 50) (sync_conn_pools swept_node))
  /\ Forall (fun pool =>
               tail_sweep 110 50 pool (pool_after 110 50 pool)
                 (closed_by 110 50 pool) (examined_by 110 50 pool))
            (sync_conn_pools swept_node).
Proof.
  apply (as_node_close_idle_connections_sweeps_tail 110 swept_node).
  - reflexivity.
  - unfold pool_wf. repeat constructor; simpl; lia.
Defined.

(** The witness closes both connections over the budget, one per pool. *)
Example swept_node_closed :
  closed (as_node_close_idle_connections 110 swept_node)
  = [idle_socket 6 0 0; idle_socket 8 10 1].
Proof. vm_compute. reflexivity. Qed.

End ConnPool.

(** ** Info requests on the tend connection *)

Module Info.

(** *** Bytes, buffers and the frame header *)

Definition Z_of_byte (b : byte) : Z := Z.of_N (Byte.to_N b).

Definition byte_of_Z (x : Z) : byte :=
  match Byte.of_N (Z.to_N (x mod 256)) with
  | Some b => b
  | None => x00
  end.

(** Replicas take ~2K per namespace, so this will cover most deployments. *)
Definition INFO_STACK_BUF_SIZE : Z := 16 * 1024.

(** [sizeof(as_proto)]. *)
Definition AS_PROTO_SIZE : nat := 8.

(** [AS_MESSAGE_VERSION] and [AS_INFO_MESSAGE_TYPE] of [as_proto.h]. *)
Definition AS_MESSAGE_VERSION : Z := 2.
Definition AS_INFO_MESSAGE_TYPE : Z := 1.

Record as_proto : Type := mk_proto {
  proto_version : Z;
  proto_type : Z;
  proto_sz : Z
}.

(** Modelled from the spec: [as_proto_swap_to_be] of [as_proto.h] and the
    layout of [as_proto].  The frame header is "fixed-size, fields = body
    size (big-endian on the wire, host-order in memory, byte-swapped at
    read/write boundary), protocol version byte, message-type byte": on the
    wire one version byte, one type byte and the size in the remaining six
    bytes. *)
Definition as_proto_to_wire (proto : as_proto) : list byte :=
  [ byte_of_Z (proto_version proto); byte_of_Z (proto_type proto);
    byte_of_Z (proto_sz proto / 2 ^ 40); byte_of_Z (proto_sz proto / 2 ^ 32);
    byte_of_Z (proto_sz proto / 2 ^ 24); byte_of_Z (proto_sz proto / 2 ^ 16);
    byte_of_Z (proto_sz proto / 2 ^ 8); byte_of_Z (proto_sz proto) ].

Definition big_endian (bytes : list byte) : Z :=
  fold_left (fun acc b => acc * 256 + Z_of_byte b) bytes 0.

(** Modelled from the spec: [as_proto_swap_from_be] of [as_proto.h], the
    reading of the same layout back into host order. *)
Definition as_proto_from_wire (header : list byte) : as_proto :=
  {| proto_version := big_endian (take 1 header);
     proto_type := big_endian (take 1 (drop 1 header));
     proto_sz := big_endian (take 6 (drop 2 header)) |}.

(** Modelled from the spec: what [as_proto_swap_from_be] leaves in the
    memory that holds the header, which it turns from wire order to host
    order in place.  The host is taken to be little-endian: the version
    byte and the type byte stay, and the six bytes of the size change
    places.  [as_proto_from_wire] reads the fields of the header off the
    bytes in wire order. *)
Definition as_proto_swap_from_be (mem : list byte) : list byte :=
  take 2 mem ++ reverse (take 6 (drop 2 mem)) ++ drop AS_PROTO_SIZE mem.

(** [memcpy] of [data] to offset [off] of a buffer of fixed length; [None]
    when the copy would run past the end of the buffer. *)
Definition store_bytes (off : nat) (data mem : list byte) : option (list byte) :=
  if (off + length data <=? length mem)%nat
  then Some (take off mem ++ data ++ drop (off + length data) mem)
  else None.

(** *** The peer and the allocator *)

(** What the tend socket will do: the status of a write, the bytes the
    server sends, the status a read reports when they run out before the
    requested count, and the bytes written so far. *)
Record wire : Type := mk_wire {
  write_status : as_status;
  incoming : list byte;
  read_failure : as_status;
  sent : list byte
}.

(** Modelled from the spec: [as_socket_write_deadline] of [as_socket.c], a
    "blocking write with a deadline": all of [data] or an error. *)
Definition as_socket_write_deadline (w : wire) (data : list byte)
  : as_status * wire :=
  match write_status w with
  | AEROSPIKE_OK =>
      (AEROSPIKE_OK,
       {| write_status := write_status w; incoming := incoming w;
          read_failure := read_failure w; sent := sent w ++ data |})
  | status => (status, w)
  end.

(** Modelled from the spec: [as_socket_read_deadline] of [as_socket.c], a
    "blocking read with a deadline": exactly [len] bytes or an error; a
    failed read has used up what was there. *)
Definition as_socket_read_deadline (w : wire) (len : nat)
  : option (list byte) * wire :=
  if (len <=? length (incoming w))%nat
  then (Some (take len (incoming w)),
        {| write_status := write_status w; incoming := drop len (incoming w);
           read_failure := read_failure w; sent := sent w |})
  else (None,
        {| write_status := write_status w; incoming := [];
           read_failure := read_failure w; sent := sent w |}).

(** [cf_malloc]: it may fail, and a fresh block holds arbitrary bytes. *)
Record allocator : Type := mk_allocator {
  malloc_fails : Z -> bool;
  heap_garbage : nat -> byte
}.

Definition cf_malloc (a : allocator) (size : Z) : option (list byte) :=
  if malloc_fails a size then None
  else Some (List.map (heap_garbage a) (List.seq 0 (Z.to_nat size))).

(** *** [as_node_get_info] *)

(** The pointer returned by [as_node_get_info] with the memory behind it:
    null (with the error set), the caller's stack buffer, or a heap block
    that the caller must free.  [InfoOutOfBounds] is a store outside the
    buffer it addresses. *)
Inductive info_outcome : Type :=
| InfoNull (err : as_error)
| InfoStack (stack_buf : list byte)
| InfoHeap (block : list byte)
| InfoOutOfBounds.

(** Read the response body into [rbuf] and terminate it. *)
Definition read_info_body (w : wire) (proto_sz : Z) (rbuf : list byte)
    (wrap : list byte -> info_outcome) : info_outcome * wire :=
  match as_socket_read_deadline w (Z.to_nat proto_sz) with
  | (None, w) =>
      (InfoNull (as_error_update (read_failure w) "Socket read error"), w)
  | (Some body, w) =>
      match store_bytes 0 body rbuf with
      | None => (InfoOutOfBounds, w)
      | Some rbuf =>
          (* Null-terminate the response body and return it. *)
          match store_bytes (Z.to_nat proto_sz) [x00] rbuf with
          | None => (InfoOutOfBounds, w)
          | Some rbuf => (wrap rbuf, w)
          end
      end
  end.

Definition as_node_get_info (a : allocator) (w : wire) (names : list byte)
    (stack_buf : list byte) : info_outcome * wire :=
  (* Prepare the write request buffer. *)
  let names_len := length names in
  let write_size := (AS_PROTO_SIZE + names_len)%nat in
  let proto := {| proto_version := AS_MESSAGE_VERSION;
                  proto_type := AS_INFO_MESSAGE_TYPE;
                  proto_sz := Z.of_nat names_len |} in
  match store_bytes 0 (as_proto_to_wire proto) stack_buf with
  | None => (InfoOutOfBounds, w)
  | Some stack_buf =>
  match store_bytes AS_PROTO_SIZE names stack_buf with
  | None => (InfoOutOfBounds, w)
  | Some stack_buf =>
  (* Write the request. *)
  match as_socket_write_deadline w (take write_size stack_buf) with
  | (AEROSPIKE_OK, w) =>
  (* Reuse the buffer, read the response - first 8 bytes contains body size. *)
  match as_socket_read_deadline w AS_PROTO_SIZE with
  | (None, w) =>
      (InfoNull (as_error_update (read_failure w) "Socket read error"), w)
  | (Some header, w) =>
  match store_bytes 0 header stack_buf with
  | None => (InfoOutOfBounds, w)
  | Some stack_buf =>
  let proto := as_proto_from_wire (take AS_PROTO_SIZE stack_buf) in
  let stack_buf := as_proto_swap_from_be stack_buf in
  (* Sanity check body size. *)
  if (proto_sz proto =? 0) || (512 * 1024 <? proto_sz proto) then
    (InfoNull (as_error_update AEROSPIKE_ERR_CLIENT "Invalid info response size"),
     w)
  else
    (* Allocate a buffer if the response is bigger than the stack buffer. *)
    let proto_sz := proto_sz proto in
    if INFO_STACK_BUF_SIZE <=? proto_sz then
      match cf_malloc a (proto_sz + 1) with
      | None =>
          (InfoNull (as_error_update AEROSPIKE_ERR_CLIENT
                       "Allocation failed for info response"), w)
      | Some rbuf => read_info_body w proto_sz rbuf InfoHeap
      end
    else read_info_body w proto_sz stack_buf InfoStack
  end
  end
  | (status, w) =>
      (InfoNull (as_error_update status "Socket write error"), w)
  end
  end
  end.

(** The size that the response header declares. *)
Definition declared_size (w : wire) : Z :=
  proto_sz (as_proto_from_wire (take AS_PROTO_SIZE (incoming w))).

(** The body bytes that follow the header. *)
Definition declared_body (w : wire) : list byte :=
  take (Z.to_nat (declared_size w)) (drop AS_PROTO_SIZE (incoming w)).

Definition returned_buffer (out : info_outcome) : option (list byte) :=
  match out with
  | InfoStack b | InfoHeap b => Some b
  | InfoNull _ | InfoOutOfBounds => None
  end.

Definition is_heap (out : info_outcome) : bool :=
  match out with InfoHeap _ => true | _ => false end.

(** *** [as_node_refresh] *)

Record as_cluster : Type := mk_cluster {
  cluster_user : bool;
  rack_aware : bool;
  use_services_alternate : bool
}.

(** The fields of [as_node] used when the node is refreshed.  The tend
    socket is open when its descriptor is not negative; [as_socket_close]
    leaves -1. *)
Record as_node : Type := mk_node {
  cluster : as_cluster;
  name : string;
  info_socket_fd : Z;
  session_token : list byte;
  session_expiration : Z;
  perform_login : bool;
  peers_generation : Z;
  partition_generation : Z;
  rebalance_generation : Z;
  partition_changed : bool;
  rebalance_changed : bool;
  active : bool
}.

(** [as_peers]: [services] collects the values handed to
    [as_peers_parse_services]. *)
Record as_peers : Type := mk_peers {
  use_peers : bool;
  gen_changed : bool;
  services : list string
}.

Definition set_info_socket_fd (node : as_node) (fd : Z) : as_node :=
  {| cluster := cluster node; name := name node; info_socket_fd := fd;
     session_token := session_token node;
     session_expiration := session_expiration node;
     perform_login := perform_login node;
     peers_generation := peers_generation node;
     partition_generation := partition_generation node;
     rebalance_generation := rebalance_generation node;
     partition_changed := partition_changed node;
     rebalance_changed := rebalance_changed node; active := active node |}.

Definition set_session (node : as_node) (token : list byte) (expiration : Z)
  : as_node :=
  {| cluster := cluster node; name := name node;
     info_socket_fd := info_socket_fd node;
     session_token := token; session_expiration := expiration;
     perform_login := false;
     peers_generation := peers_generation node;
     partition_generation := partition_generation node;
     rebalance_generation := rebalance_generation node;
     partition_changed := partition_changed node;
     rebalance_changed := rebalance_changed node; active := active node |}.

Definition set_partition_changed (node : as_node) : as_node :=
  {| cluster := cluster node; name := name node;
     info_socket_fd := info_socket_fd node;
     session_token := session_token node;
     session_expiration := session_expiration node;
     perform_login := perform_login node;
     peers_generation := peers_generation node;
     partition_generation := partition_generation node;
     rebalance_generation := rebalance_generation node;
     partition_changed := true;
     rebalance_changed := rebalance_changed node; active := active node |}.

Definition set_rebalance_changed (node : as_node) : as_node :=
  {| cluster := cluster node; name := name node;
     info_socket_fd := info_socket_fd node;
     session_token := session_token node;
     session_expiration := session_expiration node;
     perform_login := perform_login node;
     peers_generation := peers_generation node;
     partition_generation := partition_generation node;
     rebalance_generation := rebalance_generation node;
     partition_changed := partition_changed node;
     rebalance_changed := true; active := active node |}.

Definition set_inactive (node : as_node) : as_node :=
  {| cluster := cluster node; name := name node;
     info_socket_fd := info_socket_fd node;
     session_token := session_token node;
     session_expiration := session_expiration node;
     perform_login := perform_login node;
     peers_generation := peers_generation node;
     partition_generation := partition_generation node;
     rebalance_generation := rebalance_generation node;
     partition_changed := partition_changed node;
     rebalance_changed := rebalance_changed node; active := false |}.

(** [as_socket_close(&node->info_socket)]. *)
Definition close_info_socket (node : as_node) : as_node :=
  set_info_socket_fd node (-1).

Definition INFO_STR_CHECK_RACK : string :=
  "node" ++ String "010" ("peers-generation" ++ String "010"
    ("partition-generation" ++ String "010"
      ("rebalance-generation" ++ String "010" ""))).
Definition INFO_STR_CHECK_PEERS : string :=
  "node" ++ String "010" ("peers-generation" ++ String "010"
    ("partition-generation" ++ String "010" "")).
Definition INFO_STR_CHECK : string :=
  "node" ++ String "010" ("partition-generation" ++ String "010"
    ("services" ++ String "010" "")).
Definition INFO_STR_CHECK_SVCALT : string :=
  "node" ++ String "010" ("partition-generation" ++ String "010"
    ("services-alternate" ++ String "010" "")).

Section Refresh.

(** The collaborators of a refresh that are not among the sources or that
    depend on the network and the clock: [create_socket] is
    [as_node_create_socket] with a null pool (the error, or the descriptor
    of the connected socket), [as_cluster_login] the login exchange (the
    error, or the new token and its expiration), [as_authenticate] the
    authentication exchange, [cf_getns] the clock,
    [as_info_parse_multi_response] the split of a response into name/value
    pairs, [strtoul10] the C library's [strtoul(value, NULL, 10)]. *)
Variable create_socket : as_node -> as_error + Z.
Variable as_cluster_login : as_node -> Z -> as_error + (list byte * Z).
Variable as_authenticate : as_node -> Z -> as_status.
Variable cf_getns : Z.
Variable as_info_parse_multi_response : list byte -> list (string * string).
Variable strtoul10 : string -> Z.

Definition as_node_login (node : as_node) (sock : Z) : option as_error * as_node :=
  match as_cluster_login node sock with
  | inl err => (Some err, node)
  | inr (token, expiration) => (None, set_session node token expiration)
  end.

(** Returns the error if any, the [auth] flag and the node. *)
Definition as_node_ensure_login (node : as_node) (sock : Z)
  : option as_error * bool * as_node :=
  if perform_login node
     || ((0 <? session_expiration node) && (session_expiration node <=? cf_getns))
  then
    match as_node_login node sock with
    | (Some err, node) => (Some err, false, node)
    | (None, node) => (None, true, node)
    end
  else (None, false, node).

Definition as_node_get_tend_connection (node : as_node)
  : option as_error * as_node :=
  if info_socket_fd node <? 0 then
    (* Try to open a new socket. *)
    match create_socket node with
    | inl err => (Some err, node)
    | inr sock =>
        if cluster_user (cluster node) then
          match as_node_ensure_login node sock with
          | (Some err, _, node) => (Some err, node)
          | (None, auth, node) =>
              if auth then (None, set_info_socket_fd node sock)
              else
                match as_authenticate node sock with
                | AEROSPIKE_OK => (None, set_info_socket_fd node sock)
                | _ =>
                    (* Authentication failed.  Must login again. *)
                    match as_node_login node sock with
                    | (Some err, node) => (Some err, node)
                    | (None, node) => (None, set_info_socket_fd node sock)
                    end
                end
          end
        else (None, set_info_socket_fd node sock)
    end
  else if cluster_user (cluster node) then
    match as_node_ensure_login node (info_socket_fd node) with
    | (Some err, _, node) => (Some err, close_info_socket node)
    | (None, _, node) => (None, node)
    end
  else (None, node).

Definition as_node_verify_name (node : as_node) (value : string)
  : option as_error * as_node :=
  if String.eqb value "" then
    (Some (as_error_update AEROSPIKE_ERR_CLIENT
             "Node name not returned from info request."), node)
  else if negb (String.eqb (name node) value) then
    (* Set node to inactive immediately. *)
    (Some (as_error_update AEROSPIKE_ERR_CLIENT "Node name has changed."),
     set_inactive node)
  else (None, node).

Definition set_gen_changed (peers : as_peers) : as_peers :=
  {| use_peers := use_peers peers; gen_changed := true;
     services := services peers |}.

(** [as_peers_parse_services] ([as_peers.c]) is kept as the record of its
    argument. *)
Definition as_peers_parse_services (peers : as_peers) (value : string) : as_peers :=
  {| use_peers := use_peers peers; gen_changed := gen_changed peers;
     services := services peers ++ [value] |}.

Fixpoint as_node_process_response (node : as_node) (peers : as_peers)
    (values : list (string * string)) : option as_error * as_node * as_peers :=
  match values with
  | [] => (None, node, peers)
  | (nv_name, nv_value) :: values =>
      if String.eqb nv_name "node" then
        match as_node_verify_name node nv_value with
        | (Some err, node) => (Some err, node, peers)
        | (None, node) => as_node_process_response node peers values
        end
      else if String.eqb nv_name "peers-generation" then
        let gen := u32 (strtoul10 nv_value) in
        let peers := if peers_generation node =? gen then peers
                     else set_gen_changed peers in
        as_node_process_response node peers values
      else if String.eqb nv_name "partition-generation" then
        let gen := u32 (strtoul10 nv_value) in
        let node := if partition_generation node =? gen then node
                    else set_partition_changed node in
        as_node_process_response node peers values
      else if String.eqb nv_name "rebalance-generation" then
        let gen := u32 (strtoul10 nv_value) in
        let node := if rebalance_generation node =? gen then node
                    else set_rebalance_changed node in
        as_node_process_response node peers values
      else if String.eqb nv_name "services"
              || String.eqb nv_name "services-alternate" then
        as_node_process_response node (as_peers_parse_services peers nv_value)
          values
      else
        (Some (as_error_update AEROSPIKE_ERR_CLIENT
                 "Node did not request info"), node, peers)
  end.

Definition refresh_command (node : as_node) (peers : as_peers) : string :=
  if use_peers peers then
    if rack_aware (cluster node) then INFO_STR_CHECK_RACK
    else INFO_STR_CHECK_PEERS
  else
    if use_services_alternate (cluster node) then INFO_STR_CHECK_SVCALT
    else INFO_STR_CHECK.

Definition status_of (err : option as_error) : as_status :=
  match err with Some e => err_code e | None => AEROSPIKE_OK end.

(** The array [uint8_t stack_buf[INFO_STACK_BUF_SIZE]] of a caller's frame,
    holding whatever the stack holds. *)
Definition fresh_stack_buf (garbage : nat -> byte) : list byte :=
  List.map garbage (List.seq 0 (Z.to_nat INFO_STACK_BUF_SIZE)).

(** Request current status from server node.  The result is the status, the
    node, the peers and what is left on the wire; [None] stands for a store
    outside a buffer, after which the C program has no defined result. *)
Definition as_node_refresh (a : allocator) (w : wire) (garbage : nat -> byte)
    (node : as_node) (peers : as_peers)
  : option (as_status * as_node * as_peers * wire) :=
  match as_node_get_tend_connection node with
  | (Some err, node) => Some (err_code err, node, peers, w)
  | (None, node) =>
      let command := String.list_byte_of_string (refresh_command node peers) in
      let stack_buf := fresh_stack_buf garbage in
      match as_node_get_info a w command stack_buf with
      | (InfoNull err, w) =>
          Some (err_code err, close_info_socket node, peers, w)
      | (InfoOutOfBounds, w) => None
      | (InfoStack buf, w) | (InfoHeap buf, w) =>
          let values := as_info_parse_multi_response buf in
          match as_node_process_response node peers values with
          | (err, node, peers) =>
              let status := status_of err in
              let node := if as_status_eqb status AEROSPIKE_ERR_CLIENT
                          then close_info_socket node else node in
              Some (status, node, peers, w)
          end
      end
  end.

End Refresh.

(** *** Properties of [as_node_get_info] *)

Lemma store_bytes_Some off data mem mem' :
  store_bytes off data mem = Some mem' ->
  (off + length data <= length mem)%nat
  /\ mem' = take off mem ++ data ++ drop (off + length data) mem.
Proof.
  unfold store_bytes. destruct (Nat.leb_spec (off + length data) (length mem));
    [|discriminate].
  intros [= <-]. split; [assumption | reflexivity].
Qed.

Lemma store_bytes_front data mem mem' :
  store_bytes 0 data mem = Some mem' -> take (length data) mem' = data.
Proof.
  intros H. apply store_bytes_Some in H as [_ ->].
  change (take 0 mem) with (@nil byte). cbn [app].
  apply take_app_length.
Qed.

Lemma store_bytes_length off data mem mem' :
  store_bytes off data mem = Some mem' -> length mem' = length mem.
Proof.
  intros H. apply store_bytes_Some in H as [Hle ->].
  rewrite !length_app, length_take, length_drop. lia.
Qed.

Lemma as_proto_swap_from_be_length mem :
  (AS_PROTO_SIZE <= length mem)%nat ->
  length (as_proto_swap_from_be mem) = length mem.
Proof.
  intros Hle. unfold as_proto_swap_from_be, AS_PROTO_SIZE in *.
  rewrite !length_app, length_reverse, !length_take, !length_drop. lia.
Qed.

(** The header in host order occupies the place of the header. *)
Lemma store_bytes_swap_length header mem mem' :
  store_bytes 0 header mem = Some mem' -> length header = AS_PROTO_SIZE ->
  length (as_proto_swap_from_be mem') = length mem'.
Proof.
  intros Hs Hlen. apply as_proto_swap_from_be_length.
  rewrite (store_bytes_length _ _ _ _ Hs).
  apply store_bytes_Some in Hs as [Hle _]. lia.
Qed.

Lemma as_socket_read_deadline_Some w len bytes w' :
  as_socket_read_deadline w len = (Some bytes, w') ->
  bytes = take len (incoming w)
  /\ length bytes = len
  /\ incoming w' = drop len (incoming w)
  /\ (len <= length (incoming w))%nat.
Proof.
  unfold as_socket_read_deadline.
  destruct (Nat.leb_spec len (length (incoming w))); [|discriminate].
  intros [= <- <-]. cbn [incoming]. rewrite length_take.
  repeat split; lia.
Qed.

Lemma as_socket_write_deadline_incoming w data status w' :
  as_socket_write_deadline w data = (status, w') -> incoming w' = incoming w.
Proof.
  unfold as_socket_write_deadline.
  destruct (write_status w); intros [= <- <-]; reflexivity.
Qed.

(** The body read: a returned buffer starts with the body and has the
    terminator right behind it. *)
Lemma read_info_body_returns w proto_sz rbuf wrap out w' b :
  (forall x, returned_buffer (wrap x) = Some x) ->
  read_info_body w proto_sz rbuf wrap = (out, w') ->
  returned_buffer out = Some b ->
  out = wrap b
  /\ length b = length rbuf
  /\ (Z.to_nat proto_sz < length rbuf)%nat
  /\ (Z.to_nat proto_sz <= length (incoming w))%nat
  /\ take (Z.to_nat proto_sz) b = take (Z.to_nat proto_sz) (incoming w)
  /\ b !! Z.to_nat proto_sz = Some x00.
Proof.
  intros Hwrap. unfold read_info_body.
  destruct (as_socket_read_deadline w (Z.to_nat proto_sz)) as [[body|] w1] eqn:Hread;
    [| intros [= <- <-]; discriminate ].
  apply as_socket_read_deadline_Some in Hread as (Hbody & Hlen & _ & Hle).
  destruct (store_bytes 0 body rbuf) as [rbuf1|] eqn:Hs1;
    [| intros [= <- <-]; discriminate ].
  destruct (store_bytes (Z.to_nat proto_sz) [x00] rbuf1) as [rbuf2|] eqn:Hs2;
    [| intros [= <- <-]; discriminate ].
  intros [= <- <-] Hret. rewrite Hwrap in Hret. injection Hret as <-.
  pose proof (store_bytes_length _ _ _ _ Hs1) as Hl1.
  pose proof (store_bytes_length _ _ _ _ Hs2) as Hl2.
  pose proof (store_bytes_front _ _ _ Hs1) as Hfront. rewrite Hlen in Hfront.
  apply store_bytes_Some in Hs2 as [Hb2 ->]. cbn [length] in Hb2.
  split; [reflexivity|]. split; [lia|]. split; [lia|]. split; [exact Hle|].
  assert (Htk : length (take (Z.to_nat proto_sz) rbuf1) = Z.to_nat proto_sz)
    by (rewrite length_take; lia).
  split.
  - rewrite take_app_length' by (symmetry; exact Htk). rewrite Hfront. exact Hbody.
  - rewrite lookup_app_r by lia. rewrite Htk, Nat.sub_diag. reflexivity.
Qed.

(** Everything that holds when [as_node_get_info] returns a buffer. *)
Lemma as_node_get_info_returns a w names stack_buf out w' b :
  as_node_get_info a w names stack_buf = (out, w') ->
  returned_buffer out = Some b ->
  let sz := declared_size w in
  write_status w = AEROSPIKE_OK
  /\ 0 < sz <= 512 * 1024
  /\ is_heap out = (INFO_STACK_BUF_SIZE <=? sz)
  /\ (if is_heap out then length b = Z.to_nat (sz + 1)
      else length b = length stack_buf)
  /\ (Z.to_nat sz < length b)%nat
  /\ length (declared_body w) = Z.to_nat sz
  /\ take (Z.to_nat sz) b = declared_body w
  /\ b !! Z.to_nat sz = Some x00.
Proof.
  unfold as_node_get_info.
  destruct (store_bytes 0 _ stack_buf) as [stack1|] eqn:Hs1;
    [| intros [= <- <-]; discriminate ].
  destruct (store_bytes AS_PROTO_SIZE names stack1) as [stack2|] eqn:Hs2;
    [| intros [= <- <-]; discriminate ].
  destruct (as_socket_write_deadline w _) as [status w1] eqn:Hwrite.
  assert (Hinc1 : incoming w1 = incoming w)
    by (eapply as_socket_write_deadline_incoming; exact Hwrite).
  assert (Hok : status = AEROSPIKE_OK -> write_status w = AEROSPIKE_OK).
  { unfold as_socket_write_deadline in Hwrite.
    destruct (write_status w); injection Hwrite as <- _; congruence. }
  destruct status; try (intros [= <- <-]; discriminate).
  specialize (Hok eq_refl).
  destruct (as_socket_read_deadline w1 AS_PROTO_SIZE) as [[header|] w2] eqn:Hread;
    [| intros [= <- <-]; discriminate ].
  apply as_socket_read_deadline_Some in Hread as (Hhdr & Hhlen & Hinc2 & Hhle).
  destruct (store_bytes 0 header stack2) as [stack3|] eqn:Hs3;
    [| intros [= <- <-]; discriminate ].
  pose proof (store_bytes_front _ _ _ Hs3) as Hfront. rewrite Hhlen in Hfront.
  rewrite Hfront.
  assert (Hsz : proto_sz (as_proto_from_wire header) = declared_size w).
  { unfold declared_size. rewrite Hhdr, Hinc1. reflexivity. }
  rewrite Hsz.
  assert (Hlen3 : length (as_proto_swap_from_be stack3) = length stack_buf).
  { rewrite (store_bytes_swap_length _ _ _ Hs3 Hhlen).
    rewrite (store_bytes_length _ _ _ _ Hs3), (store_bytes_length _ _ _ _ Hs2).
    exact (store_bytes_length _ _ _ _ Hs1). }
  destruct (Z.eqb_spec (declared_size w) 0); [intros [= <- <-]; discriminate|].
  destruct (Z.ltb_spec (512 * 1024) (declared_size w));
    [intros [= <- <-]; discriminate|].
  cbn [orb].
  assert (Hpos : 0 < declared_size w <= 512 * 1024).
  { split; [|lia].
    assert (0 <= declared_size w); [|lia].
    unfold declared_size, as_proto_from_wire, big_endian. cbn [proto_sz].
    generalize (take 6 (drop 2 (take AS_PROTO_SIZE (incoming w)))). intros l.
    assert (Hgen : forall acc, 0 <= acc ->
              0 <= fold_left (fun acc b => acc * 256 + Z_of_byte b) l acc).
    { induction l as [|x l IH]; intros acc Hacc; cbn [fold_left]; [exact Hacc|].
      apply IH. unfold Z_of_byte. lia. }
    apply Hgen. lia. }
  assert (Hbody : forall b0,
            take (Z.to_nat (declared_size w)) b0
              = take (Z.to_nat (declared_size w)) (incoming w2) ->
            take (Z.to_nat (declared_size w)) b0 = declared_body w).
  { intros b0 ->. unfold declared_body. rewrite Hinc2, Hinc1. reflexivity. }
  assert (Hblen0 : (Z.to_nat (declared_size w) <= length (incoming w2))%nat ->
            length (declared_body w) = Z.to_nat (declared_size w)).
  { intros Hle. unfold declared_body. rewrite length_take, <- Hinc1, <- Hinc2. lia. }
  destruct (Z.leb_spec INFO_STACK_BUF_SIZE (declared_size w)) as [Hbig|Hsmall].
  - destruct (cf_malloc a (declared_size w + 1)) as [block|] eqn:Hm;
      [| intros [= <- <-]; discriminate ].
    assert (Hblen : length block = Z.to_nat (declared_size w + 1)).
    { unfold cf_malloc in Hm. destruct (malloc_fails a _); [discriminate|].
      injection Hm as <-. rewrite length_map, length_seq. reflexivity. }
    intros Hrun Hret.
    eapply read_info_body_returns in Hrun as (-> & Hl & Hlt & Hle & Htake & Hnul);
      [| intros x; reflexivity | exact Hret ].
    specialize (Hblen0 Hle). specialize (Hbody _ Htake).
    cbn [is_heap]. repeat split; try lia; try assumption.
  - intros Hrun Hret.
    eapply read_info_body_returns in Hrun as (-> & Hl & Hlt & Hle & Htake & Hnul);
      [| intros x; reflexivity | exact Hret ].
    specialize (Hblen0 Hle). specialize (Hbody _ Htake).
    cbn [is_heap]. repeat split; try lia; try assumption.
Qed.

Lemma store_bytes_fits off data mem :
  (off + length data <= length mem)%nat ->
  exists mem', store_bytes off data mem = Some mem' /\ length mem' = length mem.
Proof.
  intros Hle. unfold store_bytes.
  destruct (Nat.leb_spec (off + length data) (length mem)); [|lia].
  eexists. split; [reflexivity|].
  rewrite !length_app, length_take, length_drop. lia.
Qed.

Definition invalid_size_error : as_error :=
  as_error_update AEROSPIKE_ERR_CLIENT "Invalid info response size".

(** Once the request is written and the response header read, the call goes
    on with the declared size alone. *)
Lemma as_node_get_info_after_header a w names stack_buf :
  (AS_PROTO_SIZE + length names <= length stack_buf)%nat ->
  write_status w = AEROSPIKE_OK ->
  (AS_PROTO_SIZE <= length (incoming w))%nat ->
  exists stack3 w2,
    length stack3 = length stack_buf
    /\ incoming w2 = drop AS_PROTO_SIZE (incoming w)
    /\ as_node_get_info a w names stack_buf
       = if (declared_size w =? 0) || (512 * 1024 <? declared_size w)
         then (InfoNull invalid_size_error, w2)
         else if INFO_STACK_BUF_SIZE <=? declared_size w then
           match cf_malloc a (declared_size w + 1) with
           | None =>
               (InfoNull (as_error_update AEROSPIKE_ERR_CLIENT
                            "Allocation failed for info response"), w2)
           | Some rbuf => read_info_body w2 (declared_size w) rbuf InfoHeap
           end
         else read_info_body w2 (declared_size w) stack3 InfoStack.
Proof.
  intros Hfit Hok Hhdr. unfold as_node_get_info.
  destruct (store_bytes_fits 0
              (as_proto_to_wire
                 {| proto_version := AS_MESSAGE_VERSION;
                    proto_type := AS_INFO_MESSAGE_TYPE;
                    proto_sz := Z.of_nat (length names) |}) stack_buf)
    as (stack1 & -> & Hl1); [cbn [length as_proto_to_wire]; unfold AS_PROTO_SIZE in Hfit; lia|].
  destruct (store_bytes_fits AS_PROTO_SIZE names stack1) as (stack2 & -> & Hl2);
    [lia|].
  unfold as_socket_write_deadline. rewrite Hok.
  unfold as_socket_read_deadline at 1. cbn [incoming].
  destruct (Nat.leb_spec AS_PROTO_SIZE (length (incoming w))); [|lia].
  destruct (store_bytes_fits 0 (take AS_PROTO_SIZE (incoming w)) stack2)
    as (stack3 & Hs3 & Hl3); [rewrite length_take; unfold AS_PROTO_SIZE in *; lia|].
  rewrite Hs3.
  pose proof (store_bytes_front _ _ _ Hs3) as Hfront.
  rewrite length_take, Nat.min_l in Hfront by lia. rewrite Hfront.
  eexists (as_proto_swap_from_be stack3), _.
  split; [rewrite as_proto_swap_from_be_length by lia; lia|].
  split; [|reflexivity]. reflexivity.
Qed.

(** With a live peer that answers with a sane size and sends the whole
    body, and an allocator that does not fail, the call returns a buffer. *)
Lemma as_node_get_info_succeeds a w names stack_buf :
  Z.of_nat (length stack_buf) = INFO_STACK_BUF_SIZE ->
  (AS_PROTO_SIZE + length names <= length stack_buf)%nat ->
  write_status w = AEROSPIKE_OK ->
  (AS_PROTO_SIZE + Z.to_nat (declared_size w) <= length (incoming w))%nat ->
  0 < declared_size w <= 512 * 1024 ->
  malloc_fails a (declared_size w + 1) = false ->
  exists b, returned_buffer (as_node_get_info a w names stack_buf).1 = Some b.
Proof.
  intros Hstack Hfit Hok Havail Hsane Hmalloc.
  destruct (as_node_get_info_after_header a w names stack_buf Hfit Hok)
    as (stack3 & w2 & Hl3 & Hinc & ->); [lia|].
  destruct (Z.eqb_spec (declared_size w) 0); [lia|].
  destruct (Z.ltb_spec (512 * 1024) (declared_size w)); [lia|]. cbn [orb].
  assert (Hread : as_socket_read_deadline w2 (Z.to_nat (declared_size w))
                  = (Some (take (Z.to_nat (declared_size w)) (incoming w2)),
                     {| write_status := write_status w2;
                        incoming := drop (Z.to_nat (declared_size w)) (incoming w2);
                        read_failure := read_failure w2; sent := sent w2 |})).
  { unfold as_socket_read_deadline.
    destruct (Nat.leb_spec (Z.to_nat (declared_size w)) (length (incoming w2)));
      [reflexivity|].
    rewrite Hinc, length_drop in *. lia. }
  assert (Hbody : forall rbuf wrap,
            (forall x, returned_buffer (wrap x) = Some x) ->
            (Z.to_nat (declared_size w) < length rbuf)%nat ->
            exists b, returned_buffer
                        (read_info_body w2 (declared_size w) rbuf wrap).1 = Some b).
  { intros rbuf wrap Hwrap Hlt. unfold read_info_body. rewrite Hread.
    destruct (store_bytes_fits 0 (take (Z.to_nat (declared_size w)) (incoming w2)) rbuf)
      as (rbuf1 & -> & Hl1); [rewrite length_take; lia|].
    destruct (store_bytes_fits (Z.to_nat (declared_size w)) [x00] rbuf1)
      as (rbuf2 & -> & Hl2); [cbn [length]; lia|].
    exists rbuf2. cbn [fst]. apply Hwrap. }
  destruct (Z.leb_spec INFO_STACK_BUF_SIZE (declared_size w)).
  - unfold cf_malloc. rewrite Hmalloc. apply Hbody; [reflexivity|].
    rewrite length_map, length_seq. lia.
  - apply Hbody; [reflexivity | lia].
Qed.

(** With a stack buffer of the declared capacity no store of the call
    leaves the buffer it addresses. *)
Lemma read_info_body_in_bounds w proto_sz rbuf wrap :
  (forall x, wrap x <> InfoOutOfBounds) ->
  0 <= proto_sz -> (Z.to_nat proto_sz < length rbuf)%nat ->
  (read_info_body w proto_sz rbuf wrap).1 <> InfoOutOfBounds.
Proof.
  intros Hwrap Hpos Hlt. unfold read_info_body.
  destruct (as_socket_read_deadline w (Z.to_nat proto_sz)) as [[body|] w1] eqn:Hread;
    [| cbn; discriminate ].
  apply as_socket_read_deadline_Some in Hread as (_ & Hlen & _).
  destruct (store_bytes_fits 0 body rbuf) as (rbuf1 & -> & Hl1); [lia|].
  destruct (store_bytes_fits (Z.to_nat proto_sz) [x00] rbuf1) as (rbuf2 & -> & _);
    [cbn [length]; lia|].
  cbn [fst]. apply Hwrap.
Qed.

Lemma as_node_get_info_in_bounds a w names stack_buf :
  Z.of_nat (length stack_buf) = INFO_STACK_BUF_SIZE ->
  (AS_PROTO_SIZE + length names <= length stack_buf)%nat ->
  (as_node_get_info a w names stack_buf).1 <> InfoOutOfBounds.
Proof.
  intros Hstack Hfit. unfold as_node_get_info.
  destruct (store_bytes_fits 0
              (as_proto_to_wire
                 {| proto_version := AS_MESSAGE_VERSION;
                    proto_type := AS_INFO_MESSAGE_TYPE;
                    proto_sz := Z.of_nat (length names) |}) stack_buf)
    as (stack1 & -> & Hl1);
    [cbn [length as_proto_to_wire]; unfold AS_PROTO_SIZE in Hfit; lia|].
  destruct (store_bytes_fits AS_PROTO_SIZE names stack1) as (stack2 & -> & Hl2);
    [lia|].
  destruct (as_socket_write_deadline w _) as [status w1].
  destruct status; try (cbn; discriminate).
  destruct (as_socket_read_deadline w1 AS_PROTO_SIZE) as [[header|] w2] eqn:Hread;
    [| cbn; discriminate ].
  apply as_socket_read_deadline_Some in Hread as (_ & Hhlen & _).
  destruct (store_bytes_fits 0 header stack2) as (stack3 & -> & Hl3);
    [unfold AS_PROTO_SIZE in *; lia|].
  set (sz := proto_sz (as_proto_from_wire (take AS_PROTO_SIZE stack3))).
  destruct (Z.eqb_spec sz 0); [cbn; discriminate|].
  destruct (Z.ltb_spec (512 * 1024) sz); [cbn; discriminate|]. cbn [orb].
  assert (0 <= sz).
  { subst sz. unfold as_proto_from_wire, big_endian. cbn [proto_sz].
    generalize (take 6 (drop 2 (take AS_PROTO_SIZE stack3))). intros l.
    assert (Hgen : forall acc, 0 <= acc ->
              0 <= fold_left (fun acc b => acc * 256 + Z_of_byte b) l acc).
    { induction l as [|x l IH]; intros acc Hacc; cbn [fold_left]; [exact Hacc|].
      apply IH. unfold Z_of_byte. lia. }
    apply Hgen. lia. }
  destruct (Z.leb_spec INFO_STACK_BUF_SIZE sz).
  - destruct (cf_malloc a (sz + 1)) as [block|] eqn:Hm; [| cbn; discriminate ].
    apply read_info_body_in_bounds; [discriminate | lia |].
    unfold cf_malloc in Hm. destruct (malloc_fails a _); [discriminate|].
    injection Hm as <-. rewrite length_map, length_seq. lia.
  - apply read_info_body_in_bounds; [discriminate | lia |].
    rewrite as_proto_swap_from_be_length by (unfold AS_PROTO_SIZE in *; lia).
    lia.
Qed.

(** C6 (amended).  When [as_node_get_info] returns a buffer, it is a heap
    block exactly when the declared body size is not below
    [INFO_STACK_BUF_SIZE] (the body and its terminator do not fit the stack
    buffer), and it is the caller's stack buffer otherwise. *)
Theorem as_node_get_info_buffer_choice a w names stack_buf out w' b :
  as_node_get_info a w names stack_buf = (out, w') ->
  returned_buffer out = Some b ->
  (INFO_STACK_BUF_SIZE <= declared_size w -> out = InfoHeap b)
  /\ (declared_size w < INFO_STACK_BUF_SIZE -> out = InfoStack b).
Proof.
  intros Hrun Hret.
  destruct (as_node_get_info_returns _ _ _ _ _ _ _ Hrun Hret)
    as (_ & _ & Hheap & _).
  destruct out as [err|buf|buf|]; try discriminate;
    injection Hret as ->; cbn [is_heap] in Hheap; split; intros Hsz;
    try reflexivity; lia.
Qed.

(** C10.  Whenever [as_node_get_info] returns a buffer, the buffer starts
    with the declared number of body bytes and holds a NUL at index [sz],
    inside the buffer. *)
Theorem as_node_get_info_terminated a w names stack_buf out w' b :
  as_node_get_info a w names stack_buf = (out, w') ->
  returned_buffer out = Some b ->
  let sz := Z.to_nat (declared_size w) in
  length (declared_body w) = sz
  /\ take sz b = declared_body w
  /\ b !! sz = Some x00
  /\ (sz < length b)%nat.
Proof.
  intros Hrun Hret.
  destruct (as_node_get_info_returns _ _ _ _ _ _ _ Hrun Hret)
    as (_ & _ & _ & _ & Hlt & Hlen & Htake & Hnul).
  repeat split; assumption.
Qed.

(** The request strings of [as_node_refresh] fit the stack buffer. *)
Lemma refresh_command_fits garbage node peers :
  (AS_PROTO_SIZE
   + length (String.list_byte_of_string (refresh_command node peers))
   <= length (fresh_stack_buf garbage))%nat.
Proof.
  unfold fresh_stack_buf. rewrite length_map, length_seq.
  unfold refresh_command.
  destruct (use_peers peers), (rack_aware (cluster node)),
    (use_services_alternate (cluster node)); vm_compute; lia.
Qed.

(** C7.  When the response header declares a body size of zero or of more
    than 512 KiB, [as_node_get_info] fails with a client error and returns
    no buffer, having read the header only; [as_node_refresh] then closes
    the tend connection and returns that error. *)
Theorem as_node_refresh_rejects_bad_size
    (create_socket : as_node -> as_error + Z)
    (as_cluster_login : as_node -> Z -> as_error + (list byte * Z))
    (as_authenticate : as_node -> Z -> as_status) (cf_getns : Z)
    (as_info_parse_multi_response : list byte -> list (string * string))
    (strtoul10 : string -> Z)
    (a : allocator) (w : wire) (garbage : nat -> byte)
    (node tended : as_node) (peers : as_peers) :
  as_node_get_tend_connection create_socket as_cluster_login as_authenticate
    cf_getns node = (None, tended) ->
  write_status w = AEROSPIKE_OK ->
  (AS_PROTO_SIZE <= length (incoming w))%nat ->
  declared_size w = 0 \/ 512 * 1024 < declared_size w ->
  exists w',
    incoming w' = drop AS_PROTO_SIZE (incoming w)
    /\ as_node_get_info a w
         (String.list_byte_of_string (refresh_command tended peers))
         (fresh_stack_buf garbage)
       = (InfoNull invalid_size_error, w')
    /\ err_code invalid_size_error = AEROSPIKE_ERR_CLIENT
    /\ as_node_refresh create_socket as_cluster_login as_authenticate cf_getns
         as_info_parse_multi_response strtoul10 a w garbage node peers
       = Some (AEROSPIKE_ERR_CLIENT, close_info_socket tended, peers, w')
    /\ info_socket_fd (close_info_socket tended) = -1.
Proof.
  intros Htend Hok Hhdr Hbad.
  destruct (as_node_get_info_after_header a w
              (String.list_byte_of_string (refresh_command tended peers))
              (fresh_stack_buf garbage) (refresh_command_fits _ _ _) Hok Hhdr)
    as (stack3 & w2 & _ & Hinc & Hrun).
  assert (Hcond : (declared_size w =? 0) || (512 * 1024 <? declared_size w) = true).
  { destruct Hbad as [-> | Hbig]; [reflexivity|].
    apply orb_true_iff. right. apply Z.ltb_lt. exact Hbig. }
  rewrite Hcond in Hrun.
  exists w2. split; [exact Hinc|]. split; [exact Hrun|]. split; [reflexivity|].
  split; [|reflexivity].
  unfold as_node_refresh. rewrite Htend. cbv zeta. rewrite Hrun. reflexivity.
Qed.

(** *** A sample exchange *)

Definition sample_allocator : allocator :=
  {| malloc_fails := fun _ => false; heap_garbage := fun _ => xff |}.

Definition sample_garbage (i : nat) : byte := xaa.

Definition response_header (sz : Z) : list byte :=
  as_proto_to_wire {| proto_version := AS_MESSAGE_VERSION;
                      proto_type := AS_INFO_MESSAGE_TYPE; proto_sz := sz |}.

Definition answering (response : list byte) : wire :=
  {| write_status := AEROSPIKE_OK; incoming := response;
     read_failure := AEROSPIKE_ERR_TIMEOUT; sent := [] |}.

Definition node_request : list byte :=
  String.list_byte_of_string ("node" ++ String "010" "").

(** A short response, ["node<TAB>BB9<LF>"]. *)
Definition short_wire : wire :=
  answering (response_header 9
             ++ String.list_byte_of_string
                  ("node" ++ String "009" ("BB9" ++ String "010" ""))).

(** A response whose body is exactly as long as the stack buffer. *)
Definition brim_wire : wire :=
  answering (response_header INFO_STACK_BUF_SIZE
             ++ List.repeat x61 (Z.to_nat INFO_STACK_BUF_SIZE)).

(** A response that declares an empty body. *)
Definition empty_wire : wire := answering (response_header 0).

Definition short_run : info_outcome * wire :=
  as_node_get_info sample_allocator short_wire node_request
    (fresh_stack_buf sample_garbage).

Definition short_buffer : list byte :=
  match returned_buffer short_run.1 with Some b => b | None => [] end.

(** C6, as stated, fails for a body of exactly [INFO_STACK_BUF_SIZE]
    bytes: the size does not exceed the capacity of the stack buffer, yet
    the call returns a heap block. *)
Lemma as_node_get_info_brim_counterexample :
  declared_size brim_wire = INFO_STACK_BUF_SIZE
  /\ ~ INFO_STACK_BUF_SIZE < declared_size brim_wire
  /\ is_heap (as_node_get_info sample_allocator brim_wire node_request
                (fresh_stack_buf sample_garbage)).1 = true.
Proof.
  split; [vm_compute; reflexivity|].
  split; [vm_compute; discriminate|].
  vm_compute. reflexivity.
Qed.

Lemma as_node_get_info_buffer_choice_witness :
  (INFO_STACK_BUF_SIZE <= declared_size short_wire
   -> short_run.1 = InfoHeap short_buffer)
  /\ (declared_size short_wire < INFO_STACK_BUF_SIZE
      -> short_run.1 = InfoStack short_buffer).
Proof.
  apply (as_node_get_info_buffer_choice sample_allocator short_wire node_request
           (fresh_stack_buf sample_garbage) short_run.1 short_run.2 short_buffer);
    vm_compute; reflexivity.
Defined.

Lemma as_node_get_info_terminated_witness :
  let sz := Z.to_nat (declared_size short_wire) in
  length (declared_body short_wire) = sz
  /\ take sz short_buffer = declared_body short_wire
  /\ short_buffer !! sz = Some x00
  /\ (sz < length short_buffer)%nat.
Proof.
  apply (as_node_get_info_terminated sample_allocator short_wire node_request
           (fresh_stack_buf sample_garbage) short_run.1 short_run.2 short_buffer);
    vm_compute; reflexivity.
Defined.

(** The sample response is returned in the stack buffer, body first. *)
Example short_buffer_body :
  take 10 short_buffer
  = String.list_byte_of_string
      ("node" ++ String "009" ("BB9" ++ String "010" "")) ++ [x00]
  /\ is_heap short_run.1 = false.
Proof. vm_compute. split; reflexivity. Qed.

Definition open_node : as_node :=
  {| cluster := {| cluster_user := false; rack_aware := false;
                   use_services_alternate := false |};
     name := "BB9"; info_socket_fd := 4; session_token := [];
     session_expiration := 0; perform_login := false;
     peers_generation := 0; partition_generation := 0;
     rebalance_generation := 0; partition_changed := false;
     rebalance_changed := false; active := true |}.

Definition sample_peers : as_peers :=
  {| use_peers := true; gen_changed := false; services := [] |}.

Lemma as_node_refresh_rejects_bad_size_witness :
  exists w',
    incoming w' = drop AS_PROTO_SIZE (incoming empty_wire)
    /\ as_node_get_info sample_allocator empty_wire
         (String.list_byte_of_string (refresh_command open_node sample_peers))
         (fresh_stack_buf sample_garbage)
       = (InfoNull invalid_size_error, w')
    /\ err_code invalid_size_error = AEROSPIKE_ERR_CLIENT
    /\ as_node_refresh (fun _ => inr 5) (fun _ _ => inr ([], 0))
         (fun _ _ => AEROSPIKE_OK) 0 (fun _ => []) (fun _ => 0)
         sample_allocator empty_wire sample_garbage open_node sample_peers
       = Some (AEROSPIKE_ERR_CLIENT, close_info_socket open_node, sample_peers, w')
    /\ info_socket_fd (close_info_socket open_node) = -1.
Proof.
  apply (as_node_refresh_rejects_bad_size (fun _ => inr 5)
           (fun _ _ => inr ([], 0)) (fun _ _ => AEROSPIKE_OK) 0 (fun _ => [])
           (fun _ => 0) sample_allocator empty_wire sample_garbage
           open_node open_node sample_peers).
  - reflexivity.
  - reflexivity.
  - vm_compute. lia.
  - left. vm_compute. reflexivity.
Defined.

End Info.

(** ** Rack parsing *)

Module Racks.

(** *** Characters, C strings and [strtol] *)

Definition NUL : ascii := "000"%char.
Definition LF : ascii := "010"%char.
Definition COLON : ascii := ":"%char.
Definition SEMICOLON : ascii := ";"%char.

(** The C string that starts a piece of memory: the characters before the
    first NUL; [None] when the memory ends before a NUL is met. *)
Fixpoint c_string (suffix : list ascii) : option (list ascii) :=
  match suffix with
  | [] => None
  | c :: rest =>
      if Ascii.eqb c NUL then Some []
      else match c_string rest with
           | Some s => Some (c :: s)
           | None => None
           end
  end.

(** The C string at address [p] of the buffer [mem]. *)
Definition string_at (mem : list ascii) (p : nat) : option (list ascii) :=
  c_string (drop p mem).

Definition is_space (c : ascii) : bool :=
  let n := nat_of_ascii c in (n =? 32)%nat || ((9 <=? n)%nat && (n <=? 13)%nat).

Definition digit_value (c : ascii) : option Z :=
  let n := nat_of_ascii c in
  if ((48 <=? n)%nat && (n <=? 57)%nat) then Some (Z.of_nat n - 48) else None.

Fixpoint skip_spaces (s : list ascii) : list ascii :=
  match s with
  | c :: rest => if is_space c then skip_spaces rest else s
  | [] => []
  end.

Fixpoint strtol_digits (s : list ascii) (acc : Z) : Z :=
  match s with
  | c :: rest =>
      match digit_value c with
      | Some d => strtol_digits rest (acc * 10 + d)
      | None => acc
      end
  | [] => acc
  end.

Definition LONG_MAX : Z := 2 ^ 63 - 1.
Definition LONG_MIN : Z := - 2 ^ 63.

(** The C library's [strtol(s, NULL, 10)] with a 64-bit [long]: leading
    white space, an optional sign, decimal digits; out-of-range values
    saturate. *)
Definition strtol10 (s : list ascii) : Z :=
  match skip_spaces s with
  | c :: rest =>
      if Ascii.eqb c "-" then Z.max LONG_MIN (- strtol_digits rest 0)
      else if Ascii.eqb c "+" then Z.min LONG_MAX (strtol_digits rest 0)
      else Z.min LONG_MAX (strtol_digits (c :: rest) 0)
  | [] => 0
  end.

(** The conversion [(int)] of a [long]. *)
Definition int_of_long (x : Z) : Z := (x + 2 ^ 31) mod 2 ^ 32 - 2 ^ 31.

(** *** Rack snapshots *)

Record as_rack : Type := mk_rack {
  rack_ns : list ascii;
  rack_id : Z
}.

(** [as_racks]; [racks_array] holds the entries written so far, in
    order, of the [racks_size] allocated ones. *)
Record as_racks : Type := mk_racks {
  ref_count : Z;
  racks_rack_id : Z;
  racks_size : Z;
  racks_array : list as_rack
}.

(** The node's published snapshot and the cluster's garbage list. *)
Record rack_store : Type := mk_store {
  node_racks : option as_racks;
  gc : list as_racks
}.

(** [as_node_replace_racks] without shared memory: publish [racks] with one
    reference and put the old snapshot on the garbage collector stack. *)
Definition as_node_replace_racks (store : rack_store) (racks : as_racks)
  : rack_store :=
  let racks := {| ref_count := 1; racks_rack_id := racks_rack_id racks;
                  racks_size := racks_size racks;
                  racks_array := racks_array racks |} in
  match node_racks store with
  | Some old => {| node_racks := Some racks; gc := gc store ++ [old] |}
  | None => {| node_racks := Some racks; gc := gc store |}
  end.

(** *** [as_node_parse_racks] *)

Record prescan_state : Type := mk_prescan {
  ps_rack_id : Z;
  ps_first : bool;
  ps_same : bool;
  ps_size : Z
}.

(** What the first loop does with the rack id [r] read behind a colon. *)
Definition prescan_colon (st : prescan_state) (r : Z) : prescan_state :=
  if ps_same st then
    if ps_first st then
      {| ps_rack_id := r; ps_first := false; ps_same := true;
         ps_size := u32 (ps_size st + 1) |}
    else if negb (ps_rack_id st =? r) then
      {| ps_rack_id := ps_rack_id st; ps_first := false; ps_same := false;
         ps_size := u32 (ps_size st + 1) |}
    else
      {| ps_rack_id := ps_rack_id st; ps_first := false; ps_same := true;
         ps_size := u32 (ps_size st + 1) |}
  else
    {| ps_rack_id := ps_rack_id st; ps_first := ps_first st; ps_same := false;
       ps_size := u32 (ps_size st + 1) |}.

(** The first loop: are the rack ids the same, and how many are there.
    [None] is a read outside the buffer; each turn moves [p] forward, so
    the fuel of the caller, one more than the length of the buffer, lasts
    until such a read. *)
Fixpoint prescan (fuel : nat) (mem : list ascii) (p : nat) (st : prescan_state)
  : option prescan_state :=
  match fuel with
  | O => None
  | S fuel =>
      match mem !! p with
      | None => None
      | Some c =>
          if Ascii.eqb c NUL then Some st
          else if Ascii.eqb c COLON then
            let p := S p in
            if ps_same st then
              match string_at mem p with
              | None => None
              | Some s =>
                  prescan fuel mem p (prescan_colon st (int_of_long (strtol10 s)))
              end
            else prescan fuel mem p (prescan_colon st 0)
          else prescan fuel mem (S p) st
      end
  end.

(** The inner loop of the second pass: find the end of the rack id and
    terminate it there. *)
Fixpoint rack_end (fuel : nat) (mem : list ascii) (p : nat)
  : option (list ascii * nat) :=
  match fuel with
  | O => None
  | S fuel =>
      match mem !! p with
      | None => None
      | Some c =>
          if Ascii.eqb c NUL then Some (mem, p)
          else if Ascii.eqb c SEMICOLON || Ascii.eqb c LF
          then Some (<[p := NUL]> mem, p)
          else rack_end fuel mem (S p)
      end
  end.

Inductive parse_outcome : Type :=
| ParseDone (racks : list as_rack) (mem : list ascii)
| ParseError (err : as_error) (mem : list ascii)
| ParseOutOfBounds.

(** The second loop: one entry per namespace, written over the buffer. *)
Fixpoint parse_rack_array (fuel : nat) (mem : list ascii) (p ns : nat)
    (racks : list as_rack) : parse_outcome :=
  match fuel with
  | O => ParseOutOfBounds
  | S fuel =>
      match mem !! p with
      | None => ParseOutOfBounds
      | Some c =>
          if Ascii.eqb c NUL then ParseDone racks mem
          else if Ascii.eqb c COLON then
            (* Parse namespace. *)
            let mem := <[p := NUL]> mem in
            let len := Z.of_nat p - Z.of_nat ns in
            if (len <=? 0) || (32 <=? len) then
              ParseError (as_error_update AEROSPIKE_ERR_CLIENT
                            "Racks update. Invalid rack namespace") mem
            else
              let begin := S p in
              (* Parse rack. *)
              match rack_end fuel mem begin with
              | None => ParseOutOfBounds
              | Some (mem, p) =>
                  match string_at mem begin, string_at mem ns with
                  | Some id, Some name =>
                      let r := int_of_long (strtol10 id) in
                      parse_rack_array fuel mem (S p) (S p)
                        (racks ++ [{| rack_ns := name; rack_id := r |}])
                  | _, _ => ParseOutOfBounds
                  end
              end
          else parse_rack_array fuel mem (S p) ns racks
      end
  end.

(** What a call comes to: the status with the buffer and the store as the
    call leaves them, or a read outside the buffer. *)
Inductive racks_result : Type :=
| RacksOk (store : rack_store) (mem : list ascii)
| RacksError (err : as_error) (store : rack_store) (mem : list ascii)
| RacksOutOfBounds.

Definition as_node_parse_racks (store : rack_store) (buf : list ascii)
  : racks_result :=
  let fuel := S (length buf) in
  match prescan fuel buf 0
          {| ps_rack_id := 0; ps_first := true; ps_same := true; ps_size := 0 |}
  with
  | None => RacksOutOfBounds
  | Some st =>
      if ps_same st then
        (* Create optimized version of racks structure. *)
        RacksOk (as_node_replace_racks store
                   {| ref_count := 0; racks_rack_id := ps_rack_id st;
                      racks_size := 0; racks_array := [] |}) buf
      else
        (* Parse unoptimized version of racks structure. *)
        match parse_rack_array fuel buf 0 0 [] with
        | ParseDone racks mem =>
            RacksOk (as_node_replace_racks store
                       {| ref_count := 0; racks_rack_id := 0;
                          racks_size := ps_size st; racks_array := racks |}) mem
        | ParseError err mem => RacksError err store mem
        | ParseOutOfBounds => RacksOutOfBounds
        end
  end.

(** *** Fuel

    Each loop moves its pointer forward at every turn and stops at a read
    outside the buffer, so any fuel above the distance to the end of the
    buffer gives the same run; [as_node_parse_racks] starts at offset 0 with
    one more than the length of the buffer. *)

Lemma prescan_fuel fuel1 : forall fuel2 mem p st,
  (length mem - p < fuel1)%nat -> (length mem - p < fuel2)%nat ->
  prescan fuel1 mem p st = prescan fuel2 mem p st.
Proof.
  induction fuel1 as [|fuel1 IH]; intros fuel2 mem p st H1 H2; [lia|].
  destruct fuel2 as [|fuel2]; [lia|]. cbn [prescan].
  destruct (mem !! p) as [c|] eqn:Hc; [|reflexivity].
  apply lookup_lt_Some in Hc.
  destruct (Ascii.eqb c NUL); [reflexivity|].
  destruct (Ascii.eqb c COLON).
  - destruct (ps_same st); [destruct (string_at mem (S p)); [|reflexivity]|];
      apply IH; lia.
  - apply IH; lia.
Qed.

Lemma rack_end_fuel fuel1 : forall fuel2 mem p,
  (length mem - p < fuel1)%nat -> (length mem - p < fuel2)%nat ->
  rack_end fuel1 mem p = rack_end fuel2 mem p.
Proof.
  induction fuel1 as [|fuel1 IH]; intros fuel2 mem p H1 H2; [lia|].
  destruct fuel2 as [|fuel2]; [lia|]. cbn [rack_end].
  destruct (mem !! p) as [c|] eqn:Hc; [|reflexivity].
  apply lookup_lt_Some in Hc.
  destruct (Ascii.eqb c NUL); [reflexivity|].
  destruct (Ascii.eqb c SEMICOLON || Ascii.eqb c LF); [reflexivity|].
  apply IH; lia.
Qed.

Lemma rack_end_range fuel : forall mem p mem' p',
  rack_end fuel mem p = Some (mem', p') ->
  length mem' = length mem /\ (p <= p' < length mem)%nat.
Proof.
  induction fuel as [|fuel IH]; intros mem p mem' p'; cbn [rack_end];
    [discriminate|].
  destruct (mem !! p) as [c|] eqn:Hc; [|discriminate].
  apply lookup_lt_Some in Hc.
  destruct (Ascii.eqb c NUL); [intros [= <- <-]; lia|].
  destruct (Ascii.eqb c SEMICOLON || Ascii.eqb c LF).
  - intros [= <- <-]. rewrite length_insert. lia.
  - intros H. apply IH in H. lia.
Qed.

Lemma parse_rack_array_fuel fuel1 : forall fuel2 mem p ns racks,
  (length mem - p < fuel1)%nat -> (length mem - p < fuel2)%nat ->
  parse_rack_array fuel1 mem p ns racks = parse_rack_array fuel2 mem p ns racks.
Proof.
  induction fuel1 as [|fuel1 IH]; intros fuel2 mem p ns racks H1 H2; [lia|].
  destruct fuel2 as [|fuel2]; [lia|]. cbn [parse_rack_array].
  destruct (mem !! p) as [c|] eqn:Hc; [|reflexivity].
  apply lookup_lt_Some in Hc.
  destruct (Ascii.eqb c NUL); [reflexivity|].
  destruct (Ascii.eqb c COLON); [|apply IH; lia].
  destruct ((Z.of_nat p - Z.of_nat ns <=? 0) || (32 <=? Z.of_nat p - Z.of_nat ns));
    [reflexivity|].
  rewrite (rack_end_fuel fuel1 fuel2) by (rewrite length_insert; lia).
  destruct (rack_end fuel2 (<[p:=NUL]> mem) (S p)) as [[mem' p']|] eqn:Hend;
    [|reflexivity].
  apply rack_end_range in Hend as [Hlen Hp']. rewrite length_insert in Hlen, Hp'.
  destruct (string_at mem' (S p)); [|reflexivity].
  destruct (string_at mem' ns); [|reflexivity].
  apply IH; lia.
Qed.

(** *** Well-formed responses *)

(** A character that may stand in a namespace name: not the terminator
    and not the colon. *)
Definition plain (c : ascii) : bool :=
  negb (Ascii.eqb c NUL) && negb (Ascii.eqb c COLON).

Definition is_digit (c : ascii) : bool :=
  match digit_value c with Some _ => true | None => false end.

(** The number that a string of decimal digits denotes. *)
Definition decimal (id : list ascii) : Z := strtol_digits id 0.

(** One [ns:rackid] pair of a response: the namespace and the digits of
    the rack id. *)
Definition entry : Type := (list ascii * list ascii)%type.

Definition entry_wf (e : entry) : Prop :=
  forallb plain e.1 = true
  /\ e.2 <> []
  /\ forallb is_digit e.2 = true.

(** The rack id that the code reads from the digits [id]: [strtol]
    saturates at [LONG_MAX] and the conversion to [int] keeps the low 32
    bits, so that an id up to [2^31 - 1] is read as written and a larger
    one wraps. *)
Definition rack_int (id : list ascii) : Z :=
  int_of_long (Z.min LONG_MAX (decimal id)).

(** The length check of the second loop. *)
Definition ns_valid (e : entry) : bool :=
  (0 <? Z.of_nat (length e.1)) && (Z.of_nat (length e.1) <? 32).

Definition rack_of (e : entry) : as_rack :=
  {| rack_ns := e.1; rack_id := rack_int e.2 |}.

(** The text [ns:id;ns:id;...;ns:id] followed by [last], the character
    that ends the value: a line feed, or the NUL that the tokenizer of the
    info response has put in its place. *)
Fixpoint layout (entries : list entry) (last : ascii) : list ascii :=
  match entries with
  | [] => []
  | e :: rest =>
      e.1 ++ COLON :: e.2
      ++ match rest with
         | [] => [last]
         | _ :: _ => SEMICOLON :: layout rest last
         end
  end.

(** All rack ids, as the code reads them, equal the first one. *)
Definition same_rack (entries : list entry) : bool :=
  match entries with
  | [] => true
  | e :: rest => forallb (fun e' => rack_int e'.2 =? rack_int e.2) rest
  end.

Definition common_rack (entries : list entry) : Z :=
  match entries with
  | [] => 0
  | e :: _ => rack_int e.2
  end.

(** *** Scanning lemmas *)

Lemma is_digit_range c :
  is_digit c = true -> (48 <= nat_of_ascii c <= 57)%nat.
Proof.
  unfold is_digit, digit_value.
  destruct (Nat.leb_spec 48 (nat_of_ascii c)); cbn [andb]; [|discriminate].
  destruct (Nat.leb_spec (nat_of_ascii c) 57); [lia | discriminate].
Qed.

Lemma is_digit_not c d :
  is_digit c = true -> (nat_of_ascii d < 48 \/ 57 < nat_of_ascii d)%nat ->
  Ascii.eqb c d = false.
Proof.
  intros Hc Hd. apply is_digit_range in Hc.
  destruct (Ascii.eqb_spec c d) as [->|]; [lia | reflexivity].
Qed.

Lemma is_digit_plain c : is_digit c = true -> plain c = true.
Proof.
  intros H. unfold plain.
  rewrite (is_digit_not c NUL H), (is_digit_not c COLON H); [reflexivity | |];
    vm_compute; lia.
Qed.

Lemma is_digit_not_space c : is_digit c = true -> is_space c = false.
Proof.
  intros H. apply is_digit_range in H. unfold is_space.
  destruct (Nat.eqb_spec (nat_of_ascii c) 32); [lia|].
  destruct (Nat.leb_spec 9 (nat_of_ascii c)); [|reflexivity].
  destruct (Nat.leb_spec (nat_of_ascii c) 13); [lia | reflexivity].
Qed.

Lemma digit_value_bounds c d : digit_value c = Some d -> 0 <= d <= 9.
Proof.
  unfold digit_value.
  destruct (Nat.leb_spec 48 (nat_of_ascii c)); cbn [andb]; [|discriminate].
  destruct (Nat.leb_spec (nat_of_ascii c) 57); [|discriminate].
  intros [= <-]. lia.
Qed.

Lemma strtol_digits_nonneg s : forall acc, 0 <= acc -> 0 <= strtol_digits s acc.
Proof.
  induction s as [|c s IH]; intros acc Hacc; cbn [strtol_digits]; [exact Hacc|].
  destruct (digit_value c) as [d|] eqn:Hd; [|exact Hacc].
  apply IH. apply digit_value_bounds in Hd. lia.
Qed.

(** Digits followed by something that is not a digit: the scan stops
    there. *)
Lemma strtol_digits_stop ds rest : forall acc,
  forallb is_digit ds = true ->
  match rest with [] => True | c :: _ => is_digit c = false end ->
  strtol_digits (ds ++ rest) acc = strtol_digits ds acc.
Proof.
  induction ds as [|c ds IH]; intros acc Hds Hrest.
  - cbn [app]. destruct rest as [|c rest]; [reflexivity|].
    cbn [strtol_digits]. unfold is_digit in Hrest.
    destruct (digit_value c); [discriminate | reflexivity].
  - cbn [forallb] in Hds. apply andb_true_iff in Hds as [Hc Hds].
    cbn [app strtol_digits]. unfold is_digit in Hc.
    destruct (digit_value c); [|discriminate]. apply IH; assumption.
Qed.

(** [strtol] and the cast on a well-formed rack id. *)
Lemma strtol10_rack_id ds rest :
  ds <> [] -> forallb is_digit ds = true ->
  match rest with [] => True | c :: _ => is_digit c = false end ->
  int_of_long (strtol10 (ds ++ rest)) = rack_int ds.
Proof.
  intros Hne Hds Hrest.
  destruct ds as [|c ds]; [congruence|].
  pose proof Hds as Hall. cbn [forallb] in Hds.
  apply andb_true_iff in Hds as [Hc _].
  unfold strtol10. cbn [app skip_spaces].
  rewrite (is_digit_not_space c Hc).
  rewrite (is_digit_not c "-"%char Hc), (is_digit_not c "+"%char Hc);
    [| vm_compute; lia | vm_compute; lia ].
  change (c :: ds ++ rest) with ((c :: ds) ++ rest).
  rewrite strtol_digits_stop by assumption.
  fold (decimal (c :: ds)). reflexivity.
Qed.

(** An id within the range of [int] is read as written. *)
Lemma rack_int_small id : decimal id <= 2 ^ 31 - 1 -> rack_int id = decimal id.
Proof.
  intros Hmax. unfold rack_int, decimal in *.
  assert (0 <= strtol_digits id 0) by (apply strtol_digits_nonneg; lia).
  unfold int_of_long, LONG_MAX. rewrite Z.min_r by lia.
  rewrite Z.mod_small by lia. lia.
Qed.

(** With ids within the range of [int], the ids are the same as read
    exactly when they are the same as written. *)
Lemma same_rack_as_written (e : entry) (rest : list entry) :
  Forall (fun e' : entry => decimal e'.2 <= 2 ^ 31 - 1) (e :: rest) ->
  same_rack (e :: rest)
  = forallb (fun e' : entry => decimal e'.2 =? decimal e.2) rest.
Proof.
  intros Hsmall. cbn [same_rack].
  rewrite (rack_int_small e.2) by exact (Forall_inv Hsmall).
  apply Forall_inv_tail in Hsmall.
  induction Hsmall as [|e' rest He' _ IH]; [reflexivity|].
  cbn [forallb]. rewrite IH, (rack_int_small e'.2) by exact He'. reflexivity.
Qed.

Lemma c_string_plain cs rest :
  forallb plain cs = true ->
  c_string (cs ++ rest)
  = match c_string rest with Some s => Some (cs ++ s) | None => None end.
Proof.
  induction cs as [|c cs IH]; intros H; cbn [app].
  - destruct (c_string rest); reflexivity.
  - cbn [forallb] in H. apply andb_true_iff in H as [Hc Hcs].
    cbn [c_string]. unfold plain in Hc. apply andb_true_iff in Hc as [Hc _].
    apply negb_true_iff in Hc. rewrite Hc, (IH Hcs).
    destruct (c_string rest); reflexivity.
Qed.

Lemma c_string_terminated cs slack : exists s, c_string (cs ++ NUL :: slack) = Some s.
Proof.
  induction cs as [|c cs [s IH]]; cbn [app c_string].
  - exists []. reflexivity.
  - destruct (Ascii.eqb c NUL); [eexists; reflexivity|].
    rewrite IH. eexists; reflexivity.
Qed.

Lemma string_at_middle pre suffix :
  string_at (pre ++ suffix) (length pre) = c_string suffix.
Proof. unfold string_at. rewrite drop_app_length. reflexivity. Qed.

Lemma forallb_digit_plain ds :
  forallb is_digit ds = true -> forallb plain ds = true.
Proof.
  induction ds as [|c ds IH]; [reflexivity|]. cbn [forallb].
  intros H. apply andb_true_iff in H as [Hc Hds].
  rewrite (is_digit_plain c Hc), (IH Hds). reflexivity.
Qed.

Ltac lengths :=
  repeat first [rewrite length_app | progress cbn [length]]; lia.

Ltac reassoc :=
  repeat first [rewrite <- app_assoc | progress cbn [app]]; try reflexivity.

Lemma plain_chars c :
  plain c = true -> Ascii.eqb c NUL = false /\ Ascii.eqb c COLON = false.
Proof.
  unfold plain. intros H. apply andb_true_iff in H as [H1 H2].
  apply negb_true_iff in H1, H2. split; assumption.
Qed.

(** The first loop runs over characters that are neither NUL nor colon. *)
Lemma prescan_skip cs : forall pre post st fuel p,
  p = length pre -> forallb plain cs = true -> (length cs <= fuel)%nat ->
  prescan fuel (pre ++ cs ++ post) p st
  = prescan (fuel - length cs) (pre ++ cs ++ post) (p + length cs) st.
Proof.
  induction cs as [|c cs IH]; intros pre post st fuel p Hp Hcs Hfuel.
  - cbn [length]. rewrite Nat.sub_0_r, Nat.add_0_r. reflexivity.
  - cbn [forallb] in Hcs. apply andb_true_iff in Hcs as [Hc Hcs].
    cbn [length] in *. destruct fuel as [|fuel]; [lia|].
    cbn [prescan]. cbn [app].
    rewrite (list_lookup_middle pre (cs ++ post) c p Hp).
    destruct (plain_chars c Hc) as [-> ->].
    replace (pre ++ c :: cs ++ post) with ((pre ++ [c]) ++ cs ++ post) by reassoc.
    rewrite (IH (pre ++ [c]) post st fuel (S p));
      [| rewrite length_app; cbn [length]; lia | exact Hcs | lia ].
    replace (S p + length cs)%nat with (p + S (length cs))%nat by lia.
    reflexivity.
Qed.

Lemma prescan_colon_not_same st r r' :
  ps_same st = false -> prescan_colon st r = prescan_colon st r'.
Proof. intros H. unfold prescan_colon. rewrite H. reflexivity. Qed.

(** One [ns:id] pair in the first loop. *)
Lemma prescan_entry pre ns id c post st fuel p :
  p = length pre ->
  forallb plain ns = true ->
  id <> [] -> forallb is_digit id = true ->
  is_digit c = false ->
  (exists s, c_string (c :: post) = Some s) ->
  (length ns + 1 + length id <= fuel)%nat ->
  prescan fuel (pre ++ ns ++ COLON :: id ++ c :: post) p st
  = prescan (fuel - (length ns + 1 + length id))
      (pre ++ ns ++ COLON :: id ++ c :: post)
      (p + length ns + 1 + length id) (prescan_colon st (rack_int id)).
Proof.
  intros Hp Hns Hne Hid Hc [s Hs] Hfuel.
  rewrite prescan_skip by (assumption || lia).
  destruct (fuel - length ns)%nat as [|fuel1] eqn:Hf; [lia|].
  cbn [prescan].
  replace (pre ++ ns ++ COLON :: id ++ c :: post)
    with ((pre ++ ns) ++ COLON :: id ++ c :: post) by reassoc.
  rewrite (list_lookup_middle (pre ++ ns) _ COLON (p + length ns))
    by (rewrite length_app; lia).
  change (Ascii.eqb COLON NUL) with false.
  change (Ascii.eqb COLON COLON) with true. cbv iota.
  assert (Hstr : string_at ((pre ++ ns) ++ COLON :: id ++ c :: post)
                   (S (p + length ns)) = Some (id ++ s)).
  { replace ((pre ++ ns) ++ COLON :: id ++ c :: post)
      with ((pre ++ ns ++ [COLON]) ++ id ++ c :: post) by reassoc.
    replace (S (p + length ns)) with (length (pre ++ ns ++ [COLON]))
      by (rewrite !length_app; cbn [length]; lia).
    rewrite string_at_middle, c_string_plain by (apply forallb_digit_plain; exact Hid).
    rewrite Hs. reflexivity. }
  assert (Hstep : (if ps_same st
                   then match string_at ((pre ++ ns) ++ COLON :: id ++ c :: post)
                                (S (p + length ns)) with
                        | Some s0 =>
                            prescan fuel1 ((pre ++ ns) ++ COLON :: id ++ c :: post)
                              (S (p + length ns))
                              (prescan_colon st (int_of_long (strtol10 s0)))
                        | None => None
                        end
                   else prescan fuel1 ((pre ++ ns) ++ COLON :: id ++ c :: post)
                          (S (p + length ns)) (prescan_colon st 0))
                  = prescan fuel1 ((pre ++ ns) ++ COLON :: id ++ c :: post)
                      (S (p + length ns)) (prescan_colon st (rack_int id))).
  { destruct (ps_same st) eqn:Hsame.
    - rewrite Hstr. rewrite strtol10_rack_id; try assumption; [reflexivity|].
      cbn [c_string] in Hs. destruct (Ascii.eqb c NUL).
      + injection Hs as <-. exact I.
      + destruct (c_string post); [|discriminate]. injection Hs as <-. exact Hc.
    - rewrite (prescan_colon_not_same st 0 (rack_int id) Hsame). reflexivity. }
  rewrite Hstep.
  replace ((pre ++ ns) ++ COLON :: id ++ c :: post)
    with ((pre ++ ns ++ [COLON]) ++ id ++ c :: post) by reassoc.
  rewrite (prescan_skip id (pre ++ ns ++ [COLON]) (c :: post) _ fuel1
             (S (p + length ns)));
    [| rewrite !length_app; cbn [length]; lia
     | apply forallb_digit_plain; exact Hid | lia ].
  replace (fuel1 - length id)%nat with (fuel - (length ns + 1 + length id))%nat by lia.
  replace (S (p + length ns) + length id)%nat
    with (p + length ns + 1 + length id)%nat by lia.
  reflexivity.
Qed.

Definition prescan_entries (st : prescan_state) (entries : list entry)
  : prescan_state :=
  fold_left (fun st e => prescan_colon st (rack_int e.2)) entries st.

(** The first loop on a well-formed response. *)
Lemma prescan_layout entries : forall pre slack st fuel p last,
  p = length pre ->
  Forall entry_wf entries ->
  last = NUL \/ last = LF ->
  (length (layout entries last) + 1 <= fuel)%nat ->
  prescan fuel (pre ++ layout entries last ++ NUL :: slack) p st
  = Some (prescan_entries st entries).
Proof.
  induction entries as [|[ns id] rest IH]; intros pre slack st fuel p last Hp Hwf Hlast Hfuel.
  - cbn [layout app length] in *. destruct fuel as [|fuel]; [lia|].
    cbn [prescan]. rewrite (list_lookup_middle pre slack NUL p Hp).
    change (Ascii.eqb NUL NUL) with true. reflexivity.
  - apply Forall_cons in Hwf as [(Hns & Hne & Hid) Hwf].
    cbn [fst snd] in *.
    unfold prescan_entries. cbn [fold_left fst snd]. fold (prescan_entries (prescan_colon st (rack_int id)) rest).
    cbn [layout fst snd] in *.
    destruct rest as [|e' rest'].
    + rewrite length_app in Hfuel. cbn [length] in Hfuel.
      rewrite length_app in Hfuel. cbn [length] in Hfuel.
      replace (pre ++ (ns ++ COLON :: id ++ [last]) ++ NUL :: slack)
        with (pre ++ ns ++ COLON :: id ++ last :: NUL :: slack) by reassoc.
      rewrite prescan_entry; try assumption; try lia;
        [| destruct Hlast as [-> | ->]; reflexivity
         | destruct Hlast as [-> | ->]; eexists; reflexivity ].
      destruct (fuel - (length ns + 1 + length id))%nat as [|fuel1] eqn:Hf; [lia|].
      cbn [prescan prescan_entries fold_left].
      replace (pre ++ ns ++ COLON :: id ++ last :: NUL :: slack)
        with ((pre ++ ns ++ COLON :: id) ++ last :: NUL :: slack) by reassoc.
      rewrite (list_lookup_middle (pre ++ ns ++ COLON :: id) _ last)
        by lengths.
      destruct Hlast as [-> | ->].
      * reflexivity.
      * change (Ascii.eqb LF NUL) with false. change (Ascii.eqb LF COLON) with false.
        cbv iota. destruct fuel1 as [|fuel2]; [lia|]. cbn [prescan].
        replace ((pre ++ ns ++ COLON :: id) ++ LF :: NUL :: slack)
          with ((pre ++ ns ++ COLON :: id ++ [LF]) ++ NUL :: slack) by reassoc.
        rewrite (list_lookup_middle (pre ++ ns ++ COLON :: id ++ [LF]) _ NUL)
          by lengths.
        reflexivity.
    + remember (e' :: rest') as rest eqn:Hrest.
      rewrite length_app in Hfuel. cbn [length] in Hfuel.
      rewrite length_app in Hfuel. cbn [length] in Hfuel.
      replace (pre ++ (ns ++ COLON :: id ++ SEMICOLON :: layout rest last)
               ++ NUL :: slack)
        with (pre ++ ns ++ COLON :: id ++ SEMICOLON
              :: (layout rest last ++ NUL :: slack)) by reassoc.
      rewrite prescan_entry; try assumption; try lia; [| reflexivity |].
      2:{ change (SEMICOLON :: layout rest last ++ NUL :: slack)
            with ((SEMICOLON :: layout rest last) ++ NUL :: slack).
          apply c_string_terminated. }
      destruct (fuel - (length ns + 1 + length id))%nat as [|fuel1] eqn:Hf; [lia|].
      cbn [prescan].
      replace (pre ++ ns ++ COLON :: id ++ SEMICOLON
               :: (layout rest last ++ NUL :: slack))
        with ((pre ++ ns ++ COLON :: id) ++ SEMICOLON
              :: (layout rest last ++ NUL :: slack)) by reassoc.
      rewrite (list_lookup_middle (pre ++ ns ++ COLON :: id) _ SEMICOLON)
        by lengths.
      change (Ascii.eqb SEMICOLON NUL) with false.
      change (Ascii.eqb SEMICOLON COLON) with false. cbv iota.
      replace ((pre ++ ns ++ COLON :: id) ++ SEMICOLON
               :: (layout rest last ++ NUL :: slack))
        with ((pre ++ ns ++ COLON :: id ++ [SEMICOLON])
              ++ layout rest last ++ NUL :: slack) by reassoc.
      apply IH; try assumption.
      * lengths.
      * lia.
Qed.

Lemma prescan_entries_rest rest : forall r0 b sz,
  is_u32 sz ->
  prescan_entries {| ps_rack_id := r0; ps_first := false; ps_same := b;
                     ps_size := sz |} rest
  = {| ps_rack_id := r0; ps_first := false;
       ps_same := b && forallb (fun e : entry => rack_int e.2 =? r0) rest;
       ps_size := u32 (sz + Z.of_nat (length rest)) |}.
Proof.
  induction rest as [|e rest IH]; intros r0 b sz Hsz.
  - cbn [prescan_entries fold_left forallb length]. rewrite andb_true_r.
    rewrite Z.add_0_r, u32_small by exact Hsz. reflexivity.
  - unfold prescan_entries. cbn [fold_left].
    fold (prescan_entries
            (prescan_colon {| ps_rack_id := r0; ps_first := false; ps_same := b;
                              ps_size := sz |} (rack_int e.2)) rest).
    assert (Hstep : prescan_colon {| ps_rack_id := r0; ps_first := false;
                                     ps_same := b; ps_size := sz |} (rack_int e.2)
                    = {| ps_rack_id := r0; ps_first := false;
                         ps_same := b && (rack_int e.2 =? r0);
                         ps_size := u32 (sz + 1) |}).
    { unfold prescan_colon. cbn [ps_same ps_first ps_rack_id ps_size].
      rewrite (Z.eqb_sym (rack_int e.2) r0).
      destruct b; [|reflexivity]. destruct (r0 =? rack_int e.2); reflexivity. }
    rewrite Hstep, IH by (unfold is_u32, u32; apply Z.mod_pos_bound; lia).
    cbn [forallb length]. rewrite andb_assoc. f_equal.
    unfold u32. rewrite Zplus_mod_idemp_l. f_equal. lia.
Qed.

Lemma prescan_entries_initial entries :
  let st := prescan_entries {| ps_rack_id := 0; ps_first := true;
                               ps_same := true; ps_size := 0 |} entries in
  ps_rack_id st = common_rack entries
  /\ ps_same st = same_rack entries
  /\ ps_size st = u32 (Z.of_nat (length entries)).
Proof.
  destruct entries as [|e rest].
  - cbn. repeat split; reflexivity.
  - unfold prescan_entries. cbn [fold_left].
    change (prescan_colon {| ps_rack_id := 0; ps_first := true; ps_same := true;
                             ps_size := 0 |} (rack_int e.2))
      with {| ps_rack_id := rack_int e.2; ps_first := false; ps_same := true;
              ps_size := 1 |}.
    fold (prescan_entries {| ps_rack_id := rack_int e.2; ps_first := false;
                             ps_same := true; ps_size := 1 |} rest).
    rewrite prescan_entries_rest by (unfold is_u32; lia).
    cbn [ps_rack_id ps_same ps_size common_rack same_rack andb length].
    repeat split. f_equal. lia.
Qed.

Lemma insert_middle {A : Type} (pre : list A) (x y : A) (post : list A) (p : nat) :
  p = length pre -> <[p := y]> (pre ++ x :: post) = pre ++ y :: post.
Proof.
  intros ->. rewrite insert_app_r_alt by lia. rewrite Nat.sub_diag. reflexivity.
Qed.

(** The second loop runs over characters that are neither NUL nor colon. *)
Lemma parse_skip cs : forall pre post fuel p ns racks,
  p = length pre -> forallb plain cs = true -> (length cs <= fuel)%nat ->
  parse_rack_array fuel (pre ++ cs ++ post) p ns racks
  = parse_rack_array (fuel - length cs) (pre ++ cs ++ post) (p + length cs)
      ns racks.
Proof.
  induction cs as [|c cs IH]; intros pre post fuel p ns racks Hp Hcs Hfuel.
  - cbn [length]. rewrite Nat.sub_0_r, Nat.add_0_r. reflexivity.
  - cbn [forallb] in Hcs. apply andb_true_iff in Hcs as [Hc Hcs].
    cbn [length] in *. destruct fuel as [|fuel]; [lia|].
    cbn [parse_rack_array]. cbn [app].
    rewrite (list_lookup_middle pre (cs ++ post) c p Hp).
    destruct (plain_chars c Hc) as [-> ->].
    replace (pre ++ c :: cs ++ post) with ((pre ++ [c]) ++ cs ++ post) by reassoc.
    rewrite (IH (pre ++ [c]) post fuel (S p)); [| lengths | exact Hcs | lia ].
    replace (S p + length cs)%nat with (p + S (length cs))%nat by lia.
    reflexivity.
Qed.

(** The inner loop on the digits of a rack id. *)
Lemma rack_end_digits id : forall pre sep post fuel p,
  p = length pre -> forallb is_digit id = true ->
  sep = SEMICOLON \/ sep = LF \/ sep = NUL ->
  (length id + 1 <= fuel)%nat ->
  rack_end fuel (pre ++ id ++ sep :: post) p
  = Some (pre ++ id ++ NUL :: post, (p + length id)%nat).
Proof.
  induction id as [|c id IH]; intros pre sep post fuel p Hp Hid Hsep Hfuel.
  - cbn [app length] in *. destruct fuel as [|fuel]; [lia|]. cbn [rack_end].
    rewrite (list_lookup_middle pre post sep p Hp). rewrite Nat.add_0_r.
    destruct Hsep as [-> | [-> | ->]].
    + change (Ascii.eqb SEMICOLON NUL) with false.
      change (Ascii.eqb SEMICOLON SEMICOLON) with true. cbn [orb].
      rewrite insert_middle by exact Hp. reflexivity.
    + change (Ascii.eqb LF NUL) with false.
      change (Ascii.eqb LF SEMICOLON) with false.
      change (Ascii.eqb LF LF) with true. cbn [orb].
      rewrite insert_middle by exact Hp. reflexivity.
    + change (Ascii.eqb NUL NUL) with true. reflexivity.
  - cbn [forallb] in Hid. apply andb_true_iff in Hid as [Hc Hid].
    cbn [length] in *. destruct fuel as [|fuel]; [lia|]. cbn [rack_end app].
    rewrite (list_lookup_middle pre (id ++ sep :: post) c p Hp).
    rewrite (is_digit_not c NUL Hc), (is_digit_not c SEMICOLON Hc),
      (is_digit_not c LF Hc); [| vm_compute; lia ..].
    cbn [orb].
    replace (pre ++ c :: id ++ sep :: post)
      with ((pre ++ [c]) ++ id ++ sep :: post) by reassoc.
    rewrite (IH (pre ++ [c]) sep post fuel (S p)); [| lengths | assumption .. | lia].
    f_equal. f_equal; [reassoc | lia].
Qed.

Definition invalid_namespace : as_error :=
  as_error_update AEROSPIKE_ERR_CLIENT "Racks update. Invalid rack namespace".

(** One pair with an acceptable namespace in the second loop. *)
Lemma parse_entry_valid pre ns id sep post fuel p racks :
  p = length pre ->
  entry_wf (ns, id) -> ns_valid (ns, id) = true ->
  sep = SEMICOLON \/ sep = LF \/ sep = NUL ->
  (length ns + 1 + length id + 1 <= fuel)%nat ->
  parse_rack_array fuel (pre ++ ns ++ COLON :: id ++ sep :: post) p p racks
  = parse_rack_array (fuel - (length ns + 1))
      (pre ++ ns ++ NUL :: id ++ NUL :: post)
      (p + length ns + 1 + length id + 1) (p + length ns + 1 + length id + 1)
      (racks ++ [rack_of (ns, id)]).
Proof.
  intros Hp (Hns & Hne & Hid) Hvalid Hsep Hfuel. cbn [fst snd] in *.
  rewrite parse_skip by (assumption || lia).
  destruct (fuel - length ns)%nat as [|fuel1] eqn:Hf; [lia|].
  cbn [parse_rack_array].
  replace (pre ++ ns ++ COLON :: id ++ sep :: post)
    with ((pre ++ ns) ++ COLON :: id ++ sep :: post) by reassoc.
  rewrite (list_lookup_middle (pre ++ ns) _ COLON (p + length ns)) by lengths.
  change (Ascii.eqb COLON NUL) with false.
  change (Ascii.eqb COLON COLON) with true. cbv iota.
  rewrite (insert_middle (pre ++ ns) COLON NUL _ (p + length ns)) by lengths.
  unfold ns_valid in Hvalid. cbn [fst] in Hvalid.
  apply andb_true_iff in Hvalid as [Hlo Hhi].
  apply Z.ltb_lt in Hlo, Hhi.
  destruct (Z.leb_spec (Z.of_nat (p + length ns) - Z.of_nat p) 0); [lia|].
  destruct (Z.leb_spec 32 (Z.of_nat (p + length ns) - Z.of_nat p)); [lia|].
  cbn [orb].
  replace ((pre ++ ns) ++ NUL :: id ++ sep :: post)
    with ((pre ++ ns ++ [NUL]) ++ id ++ sep :: post) by reassoc.
  rewrite (rack_end_digits id (pre ++ ns ++ [NUL]) sep post fuel1
             (S (p + length ns))); [| lengths | assumption .. | lia ].
  assert (Hsid : string_at ((pre ++ ns ++ [NUL]) ++ id ++ NUL :: post)
                   (S (p + length ns)) = Some id).
  { replace (S (p + length ns)) with (length (pre ++ ns ++ [NUL])) by lengths.
    rewrite string_at_middle, c_string_plain by (apply forallb_digit_plain; exact Hid).
    cbn [c_string]. change (Ascii.eqb NUL NUL) with true. cbv iota.
    rewrite app_nil_r. reflexivity. }
  assert (Hsns : string_at ((pre ++ ns ++ [NUL]) ++ id ++ NUL :: post) p = Some ns).
  { replace ((pre ++ ns ++ [NUL]) ++ id ++ NUL :: post)
      with (pre ++ ns ++ NUL :: id ++ NUL :: post) by reassoc.
    rewrite Hp, string_at_middle, c_string_plain by exact Hns.
    cbn [c_string]. change (Ascii.eqb NUL NUL) with true. cbv iota.
    rewrite app_nil_r. reflexivity. }
  rewrite Hsid, Hsns.
  assert (Hr : int_of_long (strtol10 id) = rack_int id).
  { pose proof (strtol10_rack_id id [] Hne Hid I) as H1.
    rewrite app_nil_r in H1. exact H1. }
  rewrite Hr.
  replace ((pre ++ ns ++ [NUL]) ++ id ++ NUL :: post)
    with (pre ++ ns ++ NUL :: id ++ NUL :: post) by reassoc.
  replace (fuel - (length ns + 1))%nat with fuel1 by lia.
  replace (S (S (p + length ns) + length id))
    with (p + length ns + 1 + length id + 1)%nat by lia.
  reflexivity.
Qed.

(** One pair with a namespace of unacceptable length. *)
Lemma parse_entry_invalid pre ns post fuel p racks :
  p = length pre ->
  forallb plain ns = true ->
  (0 <? Z.of_nat (length ns)) && (Z.of_nat (length ns) <? 32) = false ->
  (length ns + 1 <= fuel)%nat ->
  parse_rack_array fuel (pre ++ ns ++ COLON :: post) p p racks
  = ParseError invalid_namespace (pre ++ ns ++ NUL :: post).
Proof.
  intros Hp Hns Hvalid Hfuel.
  rewrite parse_skip by (assumption || lia).
  destruct (fuel - length ns)%nat as [|fuel1] eqn:Hf; [lia|].
  cbn [parse_rack_array].
  replace (pre ++ ns ++ COLON :: post) with ((pre ++ ns) ++ COLON :: post) by reassoc.
  rewrite (list_lookup_middle (pre ++ ns) _ COLON (p + length ns)) by lengths.
  change (Ascii.eqb COLON NUL) with false.
  change (Ascii.eqb COLON COLON) with true. cbv iota.
  rewrite (insert_middle (pre ++ ns) COLON NUL _ (p + length ns)) by lengths.
  replace (Z.of_nat (p + length ns) - Z.of_nat p) with (Z.of_nat (length ns)) by lia.
  assert (Hguard : (Z.of_nat (length ns) <=? 0) || (32 <=? Z.of_nat (length ns)) = true).
  { apply andb_false_iff in Hvalid as [H | H].
    - apply Z.ltb_ge in H. apply orb_true_iff. left. apply Z.leb_le. exact H.
    - apply Z.ltb_ge in H. apply orb_true_iff. right. apply Z.leb_le. exact H. }
  rewrite Hguard. f_equal. reassoc.
Qed.

(** The second loop on a well-formed response: an entry per pair, or the
    client error at the first namespace of unacceptable length. *)
Lemma parse_layout entries : forall pre slack fuel p last racks,
  p = length pre ->
  Forall entry_wf entries ->
  last = NUL \/ last = LF ->
  (length (layout entries last) + 1 <= fuel)%nat ->
  exists mem',
    parse_rack_array fuel (pre ++ layout entries last ++ NUL :: slack) p p racks
    = if forallb ns_valid entries
      then ParseDone (racks ++ List.map rack_of entries) mem'
      else ParseError invalid_namespace mem'.
Proof.
  induction entries as [|[ns id] rest IH];
    intros pre slack fuel p last racks Hp Hwf Hlast Hfuel.
  - cbn [layout app length forallb List.map] in *.
    destruct fuel as [|fuel]; [lia|]. cbn [parse_rack_array].
    rewrite (list_lookup_middle pre slack NUL p Hp).
    change (Ascii.eqb NUL NUL) with true. cbv iota.
    rewrite app_nil_r. eexists. reflexivity.
  - apply Forall_cons in Hwf as [Hwf1 Hwf].
    cbn [forallb List.map]. cbn [layout fst snd] in *.
    assert (Hlen : (length ns + 1 + length id + 1 <= fuel)%nat).
    { destruct rest; rewrite length_app in Hfuel; cbn [length] in Hfuel;
        rewrite length_app in Hfuel; cbn [length] in Hfuel; lia. }
    destruct (ns_valid (ns, id)) eqn:Hvalid; cbn [andb].
    + destruct rest as [|e' rest'].
      * replace (pre ++ (ns ++ COLON :: id ++ [last]) ++ NUL :: slack)
          with (pre ++ ns ++ COLON :: id ++ last :: NUL :: slack) by reassoc.
        rewrite parse_entry_valid; try assumption;
          [| destruct Hlast as [-> | ->]; auto ].
        destruct (fuel - (length ns + 1))%nat as [|fuel1] eqn:Hf; [lia|].
        cbn [parse_rack_array forallb List.map].
        replace (pre ++ ns ++ NUL :: id ++ NUL :: NUL :: slack)
          with ((pre ++ ns ++ NUL :: id ++ [NUL]) ++ NUL :: slack) by reassoc.
        rewrite (list_lookup_middle (pre ++ ns ++ NUL :: id ++ [NUL]) _ NUL)
          by lengths.
        change (Ascii.eqb NUL NUL) with true. cbv iota.
        eexists. reflexivity.
      * remember (e' :: rest') as rest eqn:Hrest.
        rewrite length_app in Hfuel. cbn [length] in Hfuel.
        rewrite length_app in Hfuel. cbn [length] in Hfuel.
        replace (pre ++ (ns ++ COLON :: id ++ SEMICOLON :: layout rest last)
                 ++ NUL :: slack)
          with (pre ++ ns ++ COLON :: id ++ SEMICOLON
                :: (layout rest last ++ NUL :: slack)) by reassoc.
        rewrite parse_entry_valid; try assumption; [| auto ].
        replace (pre ++ ns ++ NUL :: id ++ NUL :: layout rest last ++ NUL :: slack)
          with ((pre ++ ns ++ NUL :: id ++ [NUL])
                ++ layout rest last ++ NUL :: slack) by reassoc.
        destruct (IH (pre ++ ns ++ NUL :: id ++ [NUL]) slack
                    (fuel - (length ns + 1))%nat
                    (p + length ns + 1 + length id + 1)%nat last
                    (racks ++ [rack_of (ns, id)]))
          as [mem' Hrun]; [lengths | assumption | assumption | lia |].
        exists mem'. rewrite Hrun.
        destruct (forallb ns_valid rest); [|reflexivity].
        f_equal. reassoc.
    + destruct Hwf1 as (Hns & _). cbn [fst] in Hns.
      eexists.
      replace (pre ++ (ns ++ COLON :: id
                       ++ match rest with
                          | [] => [last]
                          | _ :: _ => SEMICOLON :: layout rest last
                          end) ++ NUL :: slack)
        with (pre ++ ns ++ COLON
              :: (id ++ match rest with
                        | [] => [last]
                        | _ :: _ => SEMICOLON :: layout rest last
                        end ++ NUL :: slack)) by reassoc.
      apply parse_entry_invalid; try assumption; lia.
Qed.

(** C8 (amended).  For a well-formed rack-ids response (pairs [ns:id]
    joined by semicolons, ids in decimal digits of any number, ended by a
    line feed or by its terminator and followed by a NUL),
    [as_node_parse_racks] publishes the compact snapshot (size 0, the
    common rack id) exactly when all rack ids are the same as the code
    reads them, which is [rack_int]: [strtol], saturating at [LONG_MAX],
    converted to [int]; an id up to [2^31 - 1] is read as written.
    Otherwise, when every namespace is 1 to 31 characters long, it
    publishes an array with one entry per pair, the namespace as in the
    response and the id as read; otherwise it fails with a client error
    and publishes nothing. *)
Theorem as_node_parse_racks_well_formed (store : rack_store)
    (entries : list entry) (last : ascii) (slack : list ascii) :
  Forall entry_wf entries ->
  last = NUL \/ last = LF ->
  let buf := layout entries last ++ NUL :: slack in
  if same_rack entries then
    as_node_parse_racks store buf
    = RacksOk (as_node_replace_racks store
                 {| ref_count := 0; racks_rack_id := common_rack entries;
                    racks_size := 0; racks_array := [] |}) buf
  else if forallb ns_valid entries then
    exists mem',
      as_node_parse_racks store buf
      = RacksOk (as_node_replace_racks store
                   {| ref_count := 0; racks_rack_id := 0;
                      racks_size := u32 (Z.of_nat (length entries));
                      racks_array := List.map rack_of entries |}) mem'
  else
    exists mem',
      as_node_parse_racks store buf = RacksError invalid_namespace store mem'
      /\ err_code invalid_namespace = AEROSPIKE_ERR_CLIENT.
Proof.
  intros Hwf Hlast buf. unfold as_node_parse_racks.
  assert (Hfuel : (length (layout entries last) + 1 <= S (length buf))%nat).
  { subst buf. rewrite length_app. cbn [length]. lia. }
  pose proof (prescan_layout entries [] slack
                {| ps_rack_id := 0; ps_first := true; ps_same := true;
                   ps_size := 0 |} (S (length buf)) 0%nat last eq_refl Hwf Hlast Hfuel)
    as Hscan.
  cbn [app] in Hscan. fold buf in Hscan. rewrite Hscan.
  destruct (prescan_entries_initial entries) as (Hid & Hsame & Hsize).
  rewrite Hsame, Hid, Hsize.
  destruct (same_rack entries); [reflexivity|].
  destruct (parse_layout entries [] slack (S (length buf)) 0%nat last []
              eq_refl Hwf Hlast Hfuel) as [mem' Hrun].
  cbn [app] in Hrun. fold buf in Hrun. rewrite Hrun.
  destruct (forallb ns_valid entries); exists mem'; [reflexivity|].
  split; reflexivity.
Qed.

(** *** The examples of the specification *)

Definition chars (s : string) : list ascii := list_ascii_of_string s.

Definition no_racks : rack_store := {| node_racks := None; gc := [] |}.

Definition published (r : racks_result) : option as_racks :=
  match r with
  | RacksOk store _ => node_racks store
  | RacksError _ _ _ | RacksOutOfBounds => None
  end.

Example parse_racks_same_rack :
  published (as_node_parse_racks no_racks (chars "ns1:2;ns2:2;ns3:2" ++ [NUL]))
  = Some {| ref_count := 1; racks_rack_id := 2; racks_size := 0;
            racks_array := [] |}.
Proof. vm_compute. reflexivity. Qed.

Example parse_racks_two_racks :
  published (as_node_parse_racks no_racks (chars "ns1:1;ns2:2" ++ [NUL; NUL]))
  = Some {| ref_count := 1; racks_rack_id := 0; racks_size := 2;
            racks_array := [ {| rack_ns := chars "ns1"; rack_id := 1 |};
                             {| rack_ns := chars "ns2"; rack_id := 2 |} ] |}.
Proof. vm_compute. reflexivity. Qed.

Example parse_racks_two_racks_newline :
  published (as_node_parse_racks no_racks (chars "ns1:1;ns2:2" ++ [LF; NUL]))
  = Some {| ref_count := 1; racks_rack_id := 0; racks_size := 2;
            racks_array := [ {| rack_ns := chars "ns1"; rack_id := 1 |};
                             {| rack_ns := chars "ns2"; rack_id := 2 |} ] |}.
Proof. vm_compute. reflexivity. Qed.

(** After the last rack id the second loop steps over the terminator it
    stopped at ([ns = ++p]) and reads the byte behind it: a buffer that ends
    with the terminator of the string is read one byte past its end. *)
Example parse_racks_reads_past_terminator :
  as_node_parse_racks no_racks (chars "ns1:1;ns2:2" ++ [NUL]) = RacksOutOfBounds.
Proof. vm_compute. reflexivity. Qed.

(** Rack ids are compared as [int]: an id of [2^32 + 1] is read as 1, and
    the response is taken to name one rack although the ids written in it
    differ. *)
Example parse_racks_wide_id_wraps :
  rack_int (chars "4294967297") = 1
  /\ same_rack [(chars "a", chars "4294967297"); (chars "b", chars "1")] = true
  /\ published (as_node_parse_racks no_racks
                  (chars "a:4294967297;b:1" ++ [NUL; NUL]))
     = Some {| ref_count := 1; racks_rack_id := 1; racks_size := 0;
               racks_array := [] |}.
Proof. vm_compute. repeat split. Qed.

(** C8, as stated, fails on a response with a namespace of 32 characters:
    the rack ids differ, yet no array is published, the call returns a
    client error. *)
Lemma as_node_parse_racks_long_namespace_counterexample :
  let buf := chars "n2345678901234567890123456789012:1;ns2:2" ++ [NUL; NUL] in
  published (as_node_parse_racks no_racks buf) = None
  /\ exists mem', as_node_parse_racks no_racks buf
                  = RacksError invalid_namespace no_racks mem'.
Proof. vm_compute. split; [reflexivity | eexists; reflexivity]. Qed.

Lemma as_node_parse_racks_well_formed_witness :
  exists mem',
    as_node_parse_racks no_racks
      (layout [(chars "ns1", chars "1"); (chars "ns2", chars "2")] NUL
       ++ NUL :: [])
    = RacksOk (as_node_replace_racks no_racks
                 {| ref_count := 0; racks_rack_id := 0;
                    racks_size := u32 (Z.of_nat 2);
                    racks_array :=
                      List.map rack_of
                        [(chars "ns1", chars "1"); (chars "ns2", chars "2")] |})
              mem'.
Proof.
  apply (as_node_parse_racks_well_formed no_racks
           [(chars "ns1", chars "1"); (chars "ns2", chars "2")] NUL []).
  - repeat constructor; vm_compute; congruence.
  - left. reflexivity.
Defined.

End Racks.

(** ** The event loop: cross-thread wakeup *)

Module EvLoop.

(** [as_event_commander]: a function pointer, kept as the number of the
    function and [None] for the null pointer, and its argument. *)
Record as_event_commander : Type := mk_commander {
  executable : option nat;
  udata : Z
}.

(** The fields of [as_event_loop] that the wakeup handler touches: the
    queue of submitted commands from head to tail; whether the async
    wakeup watcher is started; whether the run loop has not been told to
    stop; whether [as_event_loop_destroy] has released the loop's
    resources. *)
Record as_event_loop : Type := mk_loop {
  queue : list as_event_commander;
  wakeup_active : bool;
  loop_running : bool;
  destroyed : bool
}.

Definition set_queue (el : as_event_loop) (q : list as_event_commander)
  : as_event_loop :=
  {| queue := q; wakeup_active := wakeup_active el;
     loop_running := loop_running el; destroyed := destroyed el |}.

(** The queue keeps its size in 32 bits; the properties below are about
    queues whose length fits. *)
Definition as_queue_size (q : list as_event_commander) : Z :=
  Z.of_nat (length q).

Definition as_queue_pop (q : list as_event_commander)
  : option (as_event_commander * list as_event_commander) :=
  match q with
  | [] => None
  | cmd :: rest => Some (cmd, rest)
  end.

(** What a wakeup did: the loop as it leaves it, the commands it executed
    in order, and whether it tore the loop down. *)
Record wakeup_result : Type := mk_result {
  final : as_event_loop;
  executed : list as_event_commander;
  torn_down : bool
}.

Section Wakeup.

(** The global [as_event_threads_created], and the effect on the loop of
    calling the function with a given number on a given argument (it may
    submit further commands to this loop). *)
Variable as_event_threads_created : bool.
Variable run : nat -> Z -> as_event_loop -> as_event_loop.

Definition as_event_close_loop (el : as_event_loop) : as_event_loop :=
  {| queue := queue el;
     (* ev_async_stop *)
     wakeup_active := false;
     (* Only stop event loop if client created event loop. *)
     loop_running := if as_event_threads_created then false else loop_running el;
     (* Cleanup event loop resources. *)
     destroyed := true |}.

(** The [while (status)] loop of [as_ev_wakeup], entered with the command
    just popped.  Each turn but the last pops once more and counts [i] up to
    [size], so [size] turns of fuel are never used up. *)
Fixpoint wakeup_loop (fuel : nat) (i size : Z) (cmd : as_event_commander)
    (el : as_event_loop) (done : list as_event_commander) : wakeup_result :=
  match executable cmd with
  | None =>
      (* Received stop signal. *)
      {| final := as_event_close_loop el; executed := done; torn_down := true |}
  | Some f =>
      let el := run f (udata cmd) el in
      let done := done ++ [cmd] in
      let i := u32 (i + 1) in
      if i <? size then
        match as_queue_pop (queue el) with
        | Some (next, q) =>
            match fuel with
            | S fuel => wakeup_loop fuel i size next (set_queue el q) done
            | O => {| final := set_queue el q; executed := done;
                      torn_down := false |}
            end
        | None => {| final := el; executed := done; torn_down := false |}
        end
      else {| final := el; executed := done; torn_down := false |}
  end.

Definition as_ev_wakeup (el : as_event_loop) : wakeup_result :=
  (* Only process original size of queue. *)
  let size := as_queue_size (queue el) in
  match as_queue_pop (queue el) with
  | Some (cmd, q) => wakeup_loop (Z.to_nat size) 0 size cmd (set_queue el q) []
  | None => {| final := el; executed := []; torn_down := false |}
  end.

(** *** Properties *)

Definition is_call (cmd : as_event_commander) : Prop := executable cmd <> None.

(** The loop is stopped: the wakeup watcher is stopped, the resources are
    released, and the run loop is stopped if the library created it. *)
Definition stopped (el : as_event_loop) : Prop :=
  wakeup_active el = false
  /\ destroyed el = true
  /\ (as_event_threads_created = true -> loop_running el = false).

Lemma as_event_close_loop_stopped el : stopped (as_event_close_loop el).
Proof.
  unfold stopped, as_event_close_loop. cbn. repeat split.
  intros ->. reflexivity.
Qed.

(** Whatever the executed functions do, a wakeup executes no more commands
    than the queue held when it fired. *)
Lemma wakeup_loop_at_most fuel : forall i size cmd el done,
  0 <= i < size -> size < 2 ^ 32 ->
  Z.of_nat (length (executed (wakeup_loop fuel i size cmd el done)))
  <= Z.of_nat (length done) + (size - i).
Proof.
  induction fuel as [|fuel IH]; intros i size cmd el done Hi Hsize;
    cbn [wakeup_loop]; destruct (executable cmd) as [f|]; cbn [executed];
    try lia; rewrite (u32_small (i + 1)) by (unfold is_u32; lia).
  - destruct (Z.ltb_spec (i + 1) size); cbn [executed];
      [destruct (as_queue_pop (queue (run f (udata cmd) el))) as [[next q]|] |];
      cbn [executed]; rewrite length_app; cbn [length]; lia.
  - destruct (Z.ltb_spec (i + 1) size); cbn [executed];
      [destruct (as_queue_pop (queue (run f (udata cmd) el))) as [[next q]|] |];
      cbn [executed]; try (rewrite length_app; cbn [length]; lia).
    etransitivity; [apply IH; lia|]. rewrite length_app. cbn [length]. lia.
Qed.

Lemma as_ev_wakeup_at_most_size el :
  as_queue_size (queue el) < 2 ^ 32 ->
  Z.of_nat (length (executed (as_ev_wakeup el))) <= as_queue_size (queue el).
Proof.
  intros Hsize. unfold as_ev_wakeup.
  destruct (queue el) as [|cmd q] eqn:Hq; cbn [as_queue_pop executed length].
  - unfold as_queue_size. cbn. lia.
  - etransitivity; [apply wakeup_loop_at_most|]; unfold as_queue_size in *;
      cbn [length] in *; lia.
Qed.

(** The turns of fuel given by [as_ev_wakeup] are never used up: any two
    amounts that cover the items still to be counted give the same run. *)
Lemma wakeup_loop_fuel fuel1 : forall fuel2 i size cmd el done,
  0 <= i < size -> size < 2 ^ 32 ->
  (Z.to_nat (size - i - 1) <= fuel1)%nat ->
  (Z.to_nat (size - i - 1) <= fuel2)%nat ->
  wakeup_loop fuel1 i size cmd el done = wakeup_loop fuel2 i size cmd el done.
Proof.
  induction fuel1 as [|fuel1 IH]; intros fuel2 i size cmd el done Hi Hsize H1 H2;
    destruct fuel2 as [|fuel2]; cbn [wakeup_loop];
    destruct (executable cmd) as [f|]; try reflexivity;
    rewrite (u32_small (i + 1)) by (unfold is_u32; lia);
    destruct (Z.ltb_spec (i + 1) size); try reflexivity; try lia;
    destruct (as_queue_pop (queue (run f (udata cmd) el))) as [[next q]|];
    try reflexivity.
  apply IH; lia.
Qed.

(** The executed functions only submit: whatever they do to the loop, its
    queue keeps what it held and may get longer at the tail. *)
Definition submits_only : Prop :=
  forall f u el, exists extra, queue (run f u el) = queue el ++ extra.

(** The two ways a wakeup can go on the queue [q0] it found. *)
Definition drained (q0 : list as_event_commander) (r : wakeup_result) : Prop :=
  (exists calls stop rest,
      q0 = calls ++ stop :: rest
      /\ Forall is_call calls /\ executable stop = None
      /\ executed r = calls /\ torn_down r = true /\ stopped (final r))
  \/ (Forall is_call q0 /\ executed r = q0 /\ torn_down r = false).

Lemma wakeup_loop_drained (Hsub : submits_only) rest :
  forall fuel i size cmd el done extras,
    queue el = rest ++ extras ->
    size = i + 1 + Z.of_nat (length rest) ->
    0 <= i -> size < 2 ^ 32 ->
    (length rest <= fuel)%nat ->
    let r := wakeup_loop fuel i size cmd el done in
    (exists calls stop tail,
        cmd :: rest = calls ++ stop :: tail
        /\ Forall is_call calls /\ executable stop = None
        /\ executed r = done ++ calls /\ torn_down r = true
        /\ stopped (final r))
    \/ (Forall is_call (cmd :: rest)
        /\ executed r = done ++ cmd :: rest /\ torn_down r = false).
Proof.
  induction rest as [|next rest IH];
    intros fuel i size cmd el done extras Hq Hsize Hi Hmax Hfuel r; subst r.
  - (* [cmd] is the last command of the original queue *)
    destruct fuel as [|fuel]; cbn [wakeup_loop];
      destruct (executable cmd) as [f|] eqn:Hcmd.
    1,3: right; cbn [length] in Hsize;
         rewrite (u32_small (i + 1)) by (unfold is_u32; lia);
         destruct (Z.ltb_spec (i + 1) size); [lia|]; cbn [executed torn_down];
         repeat split; constructor; [unfold is_call; congruence | constructor].
    1,2: left; exists [], cmd, []; cbn [executed torn_down final app];
         rewrite app_nil_r; repeat split; try constructor; try assumption;
         apply as_event_close_loop_stopped.
  - cbn [length] in Hsize, Hfuel. destruct fuel as [|fuel]; [lia|].
    cbn [wakeup_loop]. destruct (executable cmd) as [f|] eqn:Hcmd.
    + rewrite (u32_small (i + 1)) by (unfold is_u32; lia).
      destruct (Z.ltb_spec (i + 1) size); [|lia].
      destruct (Hsub f (udata cmd) el) as [extra Hrun].
      rewrite Hrun, Hq. cbn [app as_queue_pop].
      specialize (IH fuel (i + 1) size next
                    (set_queue (run f (udata cmd) el) (rest ++ extras ++ extra))
                    (done ++ [cmd]) (extras ++ extra)).
      rewrite <- app_assoc.
      destruct IH as [(calls & stop & tail & Heq & Hcalls & Hstop & Hex & Htd & Hst)
                     | (Hcalls & Hex & Htd)];
        [reflexivity | lia | lia | lia | lia | |].
      * left. exists (cmd :: calls), stop, tail.
        split; [cbn [app]; rewrite Heq; reflexivity|].
        split; [constructor; [unfold is_call; congruence | exact Hcalls]|].
        split; [exact Hstop|].
        split; [rewrite Hex, <- app_assoc; reflexivity|].
        split; assumption.
      * right.
        split; [constructor; [unfold is_call; congruence | exact Hcalls]|].
        split; [rewrite Hex, <- app_assoc; reflexivity | exact Htd].
    + left. exists [], cmd, (next :: rest). cbn [executed torn_down final app].
      rewrite app_nil_r. repeat split; try constructor; try assumption.
      apply as_event_close_loop_stopped.
Qed.

(** C3.  A wakeup executes commands of the queue it found only, in order
    and at most as many as that queue held, so commands submitted during
    the drain wait for a later wakeup; and when it pops a command with a
    null executable it tears the loop down at once (the wakeup watcher is
    stopped and, if the library created the loop thread, the run loop too)
    and executes nothing more. *)
Theorem as_ev_wakeup_drains_original_queue (el : as_event_loop) :
  submits_only ->
  as_queue_size (queue el) < 2 ^ 32 ->
  Z.of_nat (length (executed (as_ev_wakeup el))) <= as_queue_size (queue el)
  /\ drained (queue el) (as_ev_wakeup el).
Proof.
  intros Hsub Hsize. split; [apply as_ev_wakeup_at_most_size; exact Hsize|].
  unfold as_ev_wakeup, drained.
  destruct (queue el) as [|cmd q] eqn:Hq; cbn [as_queue_pop].
  - right. cbn. repeat split. constructor.
  - unfold as_queue_size in *. cbn [length] in *.
    pose proof (wakeup_loop_drained Hsub q
                  (Z.to_nat (Z.of_nat (S (length q)))) 0
                  (Z.of_nat (S (length q))) cmd (set_queue el q) [] []) as H.
    cbn [app] in H. destruct H as [H | H];
      [cbn; rewrite app_nil_r; reflexivity | lia | lia | lia | lia | left | right];
      exact H.
Qed.

End Wakeup.

(** *** A sample wakeup *)

(** Function 1 submits a command for function 2 to the same loop;
    function 2 leaves the loop alone. *)
Definition sample_run (f : nat) (u : Z) (el : as_event_loop) : as_event_loop :=
  if (f =? 1)%nat
  then set_queue el (queue el ++ [{| executable := Some 2%nat; udata := u |}])
  else el.

Definition call (f : nat) (u : Z) : as_event_commander :=
  {| executable := Some f; udata := u |}.

Definition stop_signal : as_event_commander :=
  {| executable := None; udata := 0 |}.

Definition sample_loop : as_event_loop :=
  {| queue := [call 1 10; call 2 20; stop_signal; call 2 30];
     wakeup_active := true; loop_running := true; destroyed := false |}.

Lemma sample_run_submits_only : submits_only sample_run.
Proof.
  intros f u el. unfold sample_run. destruct (f =? 1)%nat.
  - eexists. reflexivity.
  - exists []. rewrite app_nil_r. reflexivity.
Qed.

Lemma as_ev_wakeup_drains_original_queue_witness :
  Z.of_nat (length (executed (as_ev_wakeup true sample_run sample_loop)))
  <= as_queue_size (queue sample_loop)
  /\ drained true (queue sample_loop) (as_ev_wakeup true sample_run sample_loop).
Proof.
  apply (as_ev_wakeup_drains_original_queue true sample_run sample_loop).
  - exact sample_run_submits_only.
  - vm_compute. reflexivity.
Defined.

(** The sample wakeup runs the two calls in front of the stop signal, tears
    the loop down and leaves the rest of the queue, with the command
    submitted meanwhile at its tail. *)
Example sample_wakeup :
  as_ev_wakeup true sample_run sample_loop
  = {| final := {| queue := [call 2 30; call 2 10]; wakeup_active := false;
                   loop_running := false; destroyed := true |};
       executed := [call 1 10; call 2 20];
       torn_down := true |}.
Proof. vm_compute. reflexivity. Qed.

(** A command that keeps resubmitting itself is executed once per wakeup. *)
Example resubmitting_command :
  executed (as_ev_wakeup true sample_run
              {| queue := [call 1 10]; wakeup_active := true;
                 loop_running := true; destroyed := false |})
  = [call 1 10].
Proof. vm_compute. reflexivity. Qed.

End EvLoop.

(** ** The command state machine: multi-block reads *)

Module EvCommand.

(** The states of an async command that the libev callbacks handle. *)
Inductive as_async_state : Type :=
| AS_ASYNC_STATE_TLS_CONNECT
| AS_ASYNC_STATE_AUTH_WRITE
| AS_ASYNC_STATE_AUTH_READ_HEADER
| AS_ASYNC_STATE_AUTH_READ_BODY
| AS_ASYNC_STATE_COMMAND_WRITE
| AS_ASYNC_STATE_COMMAND_READ_HEADER
| AS_ASYNC_STATE_COMMAND_READ_BODY.

(** The [AS_EVENT_*] codes that the read and write steps return. *)
Inductive as_event_rv : Type :=
| AS_EVENT_WRITE_COMPLETE
| AS_EVENT_WRITE_INCOMPLETE
| AS_EVENT_WRITE_ERROR
| AS_EVENT_READ_COMPLETE
| AS_EVENT_READ_INCOMPLETE
| AS_EVENT_READ_ERROR
| AS_EVENT_TLS_NEED_READ
| AS_EVENT_TLS_NEED_WRITE
| AS_EVENT_COMMAND_DONE.

(** [sizeof(as_proto)], [sizeof(as_msg)] and the compressed message type of
    [as_proto.h]; the flag bits of [as_event_internal.h]; libev's [EV_READ]
    and [EV_WRITE]; the [errno] of a read that would block. *)
Definition AS_PROTO_SIZE : Z := 8.
Definition AS_MSG_SIZE : Z := 22.
Definition AS_COMPRESSED_MESSAGE_TYPE : Z := 4.
Definition AS_ASYNC_FLAGS_EVENT_RECEIVED : Z := 16.
Definition AS_ASYNC_FLAGS_FREE_BUF : Z := 32.
Definition EV_READ : Z := 1.
Definition EV_WRITE : Z := 2.
Definition EWOULDBLOCK : Z := 11.

(** A non-blocking socket: whether it has a TLS context ([socket.ctx]),
    the bytes that have arrived, and what [read] reports once they are used
    up. *)
Inductive when_empty : Type :=
| WouldBlock
| PeerClosed
| Failure (errno : Z).

Record ev_socket : Type := mk_ev_socket {
  ctx : bool;
  rx : list byte;
  empty : when_empty
}.

(** The return value of [read]: some bytes, 0, or -1 with [errno]. *)
Inductive read_rv : Type :=
| ReadBytes (data : list byte)
| ReadZero
| ReadFailed (errno : Z).

(** [read(fd, buf, count)] on a plain socket, [count] a [size_t]. *)
Definition sys_read (s : ev_socket) (count : Z) : read_rv * ev_socket :=
  if count <=? 0 then (ReadZero, s)
  else
    match rx s with
    | [] =>
        (match empty s with
         | WouldBlock => ReadFailed EWOULDBLOCK
         | PeerClosed => ReadZero
         | Failure errno => ReadFailed errno
         end, s)
    | _ :: _ =>
        (ReadBytes (take (Z.to_nat count) (rx s)),
         {| ctx := ctx s; rx := drop (Z.to_nat count) (rx s);
            empty := empty s |})
    end.

(** The fields of [as_event_command] and of its connection that the read
    path uses.  [len] and [pos] are [uint32_t]; [buf] is the memory behind
    [cmd->buf]; [pipe_listener] tells whether the listener is set;
    [parse_results] receives the [len] bytes of the block just read;
    [completed] lists the reads that ran to completion, each with the state
    it served and its length; [failure] is the error handed to the error
    path. *)
Record as_event_command : Type := mk_command {
  state : as_async_state;
  len : Z;
  pos : Z;
  buf : list byte;
  read_capacity : Z;
  flags : Z;
  proto_type_rcv : Z;
  pipe_listener : bool;
  parse_results : list byte -> bool;
  socket : ev_socket;
  watching : Z;
  completed : list (as_async_state * Z);
  failure : option as_error
}.

Definition set_progress (cmd : as_event_command) (st : as_async_state)
    (l p : Z) : as_event_command :=
  {| state := st; len := l; pos := p; buf := buf cmd;
     read_capacity := read_capacity cmd; flags := flags cmd;
     proto_type_rcv := proto_type_rcv cmd; pipe_listener := pipe_listener cmd;
     parse_results := parse_results cmd;
     socket := socket cmd; watching := watching cmd;
     completed := completed cmd; failure := failure cmd |}.

Definition set_pos (cmd : as_event_command) (p : Z) : as_event_command :=
  set_progress cmd (state cmd) (len cmd) p.

Definition set_flags (cmd : as_event_command) (f : Z) : as_event_command :=
  {| state := state cmd; len := len cmd; pos := pos cmd; buf := buf cmd;
     read_capacity := read_capacity cmd; flags := f;
     proto_type_rcv := proto_type_rcv cmd; pipe_listener := pipe_listener cmd;
     parse_results := parse_results cmd;
     socket := socket cmd; watching := watching cmd;
     completed := completed cmd; failure := failure cmd |}.

Definition set_proto_type_rcv (cmd : as_event_command) (t : Z)
  : as_event_command :=
  {| state := state cmd; len := len cmd; pos := pos cmd; buf := buf cmd;
     read_capacity := read_capacity cmd; flags := flags cmd;
     proto_type_rcv := t; pipe_listener := pipe_listener cmd;
     parse_results := parse_results cmd;
     socket := socket cmd; watching := watching cmd;
     completed := completed cmd; failure := failure cmd |}.

(** The bytes read, stored at [buf + pos], with [pos] moved behind them. *)
Definition set_received (cmd : as_event_command) (b : list byte) (p : Z)
    (s : ev_socket) : as_event_command :=
  {| state := state cmd; len := len cmd; pos := p; buf := b;
     read_capacity := read_capacity cmd; flags := flags cmd;
     proto_type_rcv := proto_type_rcv cmd; pipe_listener := pipe_listener cmd;
     parse_results := parse_results cmd;
     socket := s; watching := watching cmd;
     completed := completed cmd; failure := failure cmd |}.

(** A fresh buffer of [size] bytes in place of the old one. *)
Definition set_buffer (cmd : as_event_command) (b : list byte) (capacity : Z)
  : as_event_command :=
  {| state := state cmd; len := len cmd; pos := pos cmd; buf := b;
     read_capacity := capacity;
     flags := Z.lor (flags cmd) AS_ASYNC_FLAGS_FREE_BUF;
     proto_type_rcv := proto_type_rcv cmd; pipe_listener := pipe_listener cmd;
     parse_results := parse_results cmd;
     socket := socket cmd; watching := watching cmd;
     completed := completed cmd; failure := failure cmd |}.

Definition set_socket (cmd : as_event_command) (s : ev_socket)
  : as_event_command :=
  {| state := state cmd; len := len cmd; pos := pos cmd; buf := buf cmd;
     read_capacity := read_capacity cmd; flags := flags cmd;
     proto_type_rcv := proto_type_rcv cmd; pipe_listener := pipe_listener cmd;
     parse_results := parse_results cmd;
     socket := s; watching := watching cmd;
     completed := completed cmd; failure := failure cmd |}.

Definition set_watching (cmd : as_event_command) (w : Z) : as_event_command :=
  {| state := state cmd; len := len cmd; pos := pos cmd; buf := buf cmd;
     read_capacity := read_capacity cmd; flags := flags cmd;
     proto_type_rcv := proto_type_rcv cmd; pipe_listener := pipe_listener cmd;
     parse_results := parse_results cmd;
     socket := socket cmd; watching := w;
     completed := completed cmd; failure := failure cmd |}.

Definition log_completed (cmd : as_event_command) : as_event_command :=
  {| state := state cmd; len := len cmd; pos := pos cmd; buf := buf cmd;
     read_capacity := read_capacity cmd; flags := flags cmd;
     proto_type_rcv := proto_type_rcv cmd; pipe_listener := pipe_listener cmd;
     parse_results := parse_results cmd;
     socket := socket cmd; watching := watching cmd;
     completed := completed cmd ++ [(state cmd, len cmd)];
     failure := failure cmd |}.

Definition set_failure (cmd : as_event_command) (err : as_error)
  : as_event_command :=
  {| state := state cmd; len := len cmd; pos := pos cmd; buf := buf cmd;
     read_capacity := read_capacity cmd; flags := flags cmd;
     proto_type_rcv := proto_type_rcv cmd; pipe_listener := pipe_listener cmd;
     parse_results := parse_results cmd;
     socket := socket cmd; watching := watching cmd;
     completed := completed cmd; failure := Some err |}.

(** What a step comes to: a return code with the command as the step
    leaves it, or a store outside the command's buffer; [EvNoFuel] is the
    model's own, a loop cut short. *)
Inductive ev_outcome : Type :=
| EvReturn (rv : as_event_rv) (cmd : as_event_command)
| EvOutOfBounds
| EvNoFuel.

Definition as_ev_watch_write (cmd : as_event_command) : as_event_command :=
  let watch := if pipe_listener cmd then Z.lor EV_WRITE EV_READ else EV_WRITE in
  (* Skip if we're already watching the right stuff. *)
  if watch =? watching cmd then cmd else set_watching cmd watch.

Definition as_ev_watch_read (cmd : as_event_command) : as_event_command :=
  let watch := EV_READ in
  (* Skip if we're already watching the right stuff. *)
  if watch =? watching cmd then cmd else set_watching cmd watch.

Section Read.

(** Collaborators that are not among the sources.  Of [as_event.c]:
    [as_event_socket_retry] decides whether a failed command is
    rescheduled; [as_event_proto_parse] checks a frame header and yields
    its message type and its body size in host order, or fails;
    [as_event_decompress] inflates a compressed body, or fails.
    [cf_malloc_bytes] is the content of a block fresh from [cf_malloc].
    Of [as_tls.c]: [as_tls_read_once] on a socket and a count yields its
    return value, the bytes it stored when that value is positive, and
    the socket as it leaves it; [as_tls_read_pending] is the number of
    bytes left in the encryption buffer.  The loops that go on for as long
    as TLS delivers have no bound of their own; [tls_turns] cuts them. *)
Variable as_event_socket_retry : as_event_command -> bool.
Variable as_event_proto_parse : list byte -> option (Z * Z).
Variable as_event_decompress : as_event_command -> option as_event_command.
Variable cf_malloc_bytes : nat -> byte.
Variable as_tls_read_once : ev_socket -> Z -> Z * list byte * ev_socket.
Variable as_tls_read_pending : ev_socket -> Z.
Variable tls_turns : nat.

Definition socket_failed (cmd : as_event_command) (code : as_status)
    (msg : string) : ev_outcome :=
  EvReturn AS_EVENT_READ_ERROR
    (if as_event_socket_retry cmd then cmd
     else set_failure cmd (as_error_update code msg)).

(** The [do ... while (cmd->pos < cmd->len)] loop of [as_ev_read] on a
    socket with a TLS context. *)
Fixpoint as_ev_read_tls (fuel : nat) (cmd : as_event_command) : ev_outcome :=
  let '(rv, data, s) :=
    as_tls_read_once (socket cmd) (u32 (len cmd - pos cmd)) in
  let cmd := set_socket cmd s in
  let go_on cmd :=
    if pos cmd <? len cmd then
      match fuel with
      | S fuel => as_ev_read_tls fuel cmd
      | O => EvNoFuel
      end
    else EvReturn AS_EVENT_READ_COMPLETE (log_completed cmd) in
  if 0 <? rv then
    match Info.store_bytes (Z.to_nat (pos cmd)) data (buf cmd) with
    | None => EvOutOfBounds
    | Some b =>
        let cmd := as_ev_watch_read cmd in
        go_on (set_received cmd b (u32 (pos cmd + rv)) s)
    end
  else if rv =? -1 then
    (* TLS wants a read *)
    EvReturn AS_EVENT_READ_INCOMPLETE (as_ev_watch_read cmd)
  else if rv =? -2 then
    (* TLS sometimes needs to write, even when the app is reading. *)
    EvReturn AS_EVENT_TLS_NEED_WRITE (as_ev_watch_write cmd)
  else if rv <? -2 then
    socket_failed cmd AEROSPIKE_ERR_TLS_ERROR "TLS read failed"
  else go_on cmd.

(** The [do ... while (cmd->pos < cmd->len)] loop of [as_ev_read] on a
    plain socket; [cmd->len - cmd->pos] and [cmd->pos += bytes] are
    computed in [uint32_t].  Every turn that goes on has read at least one
    byte, so one turn for each byte that has arrived and one more always
    do. *)
Fixpoint as_ev_read_loop (fuel : nat) (cmd : as_event_command) : ev_outcome :=
  match sys_read (socket cmd) (u32 (len cmd - pos cmd)) with
  | (ReadBytes data, s) =>
      match Info.store_bytes (Z.to_nat (pos cmd)) data (buf cmd) with
      | None => EvOutOfBounds
      | Some b =>
          let cmd :=
            set_received cmd b (u32 (pos cmd + Z.of_nat (length data))) s in
          if pos cmd <? len cmd then
            match fuel with
            | S fuel => as_ev_read_loop fuel cmd
            | O => EvNoFuel
            end
          else EvReturn AS_EVENT_READ_COMPLETE (log_completed cmd)
      end
  | (ReadFailed errno, _) =>
      if errno =? EWOULDBLOCK
      then EvReturn AS_EVENT_READ_INCOMPLETE (as_ev_watch_read cmd)
      else socket_failed cmd AEROSPIKE_ERR_ASYNC_CONNECTION "Socket read failed"
  | (ReadZero, _) =>
      socket_failed cmd AEROSPIKE_ERR_ASYNC_CONNECTION
        "Socket read closed by peer"
  end.

Definition as_ev_read (cmd : as_event_command) : ev_outcome :=
  let cmd := set_flags cmd (Z.lor (flags cmd) AS_ASYNC_FLAGS_EVENT_RECEIVED) in
  if ctx (socket cmd) then as_ev_read_tls tls_turns cmd
  else as_ev_read_loop (S (length (rx (socket cmd)))) cmd.

(** The header just read is parsed, and the command made ready for the
    body; the result carries [size], the body size as the header has it.
    [None] when the header is rejected. *)
Definition parse_header (cmd : as_event_command)
  : option (as_event_command * Z) :=
  match as_event_proto_parse (take (Z.to_nat AS_PROTO_SIZE) (buf cmd)) with
  | None => None
  | Some (type, size) =>
      let cmd := set_proto_type_rcv cmd type in
      Some (set_progress cmd AS_ASYNC_STATE_COMMAND_READ_BODY (u32 size) 0,
            size)
  end.

Definition header_rejected (cmd : as_event_command) : ev_outcome :=
  EvReturn AS_EVENT_READ_ERROR
    (set_failure cmd (as_error_update AEROSPIKE_ERR_CLIENT "Received invalid proto")).

(** [if (cmd->len > cmd->read_capacity)]: replace the buffer by a block
    of [size] bytes. *)
Definition grow_buffer (cmd : as_event_command) (size : Z) : as_event_command :=
  if read_capacity cmd <? len cmd then
    set_buffer cmd (List.map cf_malloc_bytes (List.seq 0 (Z.to_nat size)))
      (len cmd)
  else cmd.

(** The block handed to the result parser. *)
Definition block (cmd : as_event_command) : list byte :=
  take (Z.to_nat (len cmd)) (buf cmd).

Definition as_ev_command_peek_block (cmd : as_event_command) : ev_outcome :=
  (* Batch, scan, query may be waiting on end block.
     Prepare for next message block. *)
  let cmd := set_progress cmd AS_ASYNC_STATE_COMMAND_READ_HEADER AS_PROTO_SIZE 0 in
  match as_ev_read cmd with
  | EvReturn AS_EVENT_READ_COMPLETE cmd =>
      match parse_header cmd with
      | None => header_rejected cmd
      | Some (cmd, size) =>
          (* Check for end block size. *)
          if (len cmd =? AS_MSG_SIZE)
             && negb (proto_type_rcv cmd =? AS_COMPRESSED_MESSAGE_TYPE)
          then
            (* Look like we received end block.  Read and parse to make sure. *)
            match as_ev_read cmd with
            | EvReturn AS_EVENT_READ_COMPLETE cmd =>
                let cmd := set_pos cmd 0 in
                if negb (parse_results cmd (block cmd)) then
                  (* We did not finish after all. Prepare to read next header. *)
                  EvReturn AS_EVENT_READ_COMPLETE
                    (set_progress cmd AS_ASYNC_STATE_COMMAND_READ_HEADER
                       AS_PROTO_SIZE 0)
                else EvReturn AS_EVENT_COMMAND_DONE cmd
            | other => other
            end
          else
            (* Received normal data block.  Stop reading for fairness reasons
               and wait till next iteration. *)
            EvReturn AS_EVENT_READ_COMPLETE (grow_buffer cmd size)
      end
  | other => other
  end.

(** The body of a block is in: decompress it if needed, parse it, and look
    for the next block when the parser is not finished. *)
Definition body_received (cmd : as_event_command) : ev_outcome :=
  let cmd := set_pos cmd 0 in
  let parse cmd :=
    if negb (parse_results cmd (block cmd)) then
      (* Batch, scan, query is not finished. *)
      as_ev_command_peek_block cmd
    else EvReturn AS_EVENT_COMMAND_DONE cmd in
  if proto_type_rcv cmd =? AS_COMPRESSED_MESSAGE_TYPE then
    match as_event_decompress cmd with
    | None => EvReturn AS_EVENT_READ_ERROR cmd
    | Some cmd => parse cmd
    end
  else parse cmd.

Definition read_body (cmd : as_event_command) : ev_outcome :=
  (* Read response body *)
  match as_ev_read cmd with
  | EvReturn AS_EVENT_READ_COMPLETE cmd => body_received cmd
  | other => other
  end.

Definition as_ev_command_read (cmd : as_event_command) : ev_outcome :=
  match state cmd with
  | AS_ASYNC_STATE_COMMAND_READ_HEADER =>
      (* Read response length *)
      match as_ev_read cmd with
      | EvReturn AS_EVENT_READ_COMPLETE cmd =>
          match parse_header cmd with
          | None => header_rejected cmd
          | Some (cmd, size) => read_body (grow_buffer cmd size)
          end
      | other => other
      end
  | _ => read_body cmd
  end.

(** The case of [as_ev_callback_common] for a command in
    [AS_ASYNC_STATE_COMMAND_READ_HEADER] or
    [AS_ASYNC_STATE_COMMAND_READ_BODY]: with TLS the step is repeated until
    there are no bytes left in the encryption buffer.  After DONE or a read
    error the command has been deallocated. *)
Fixpoint command_read_event (fuel : nat) (cmd : as_event_command)
  : ev_outcome :=
  match as_ev_command_read cmd with
  | EvReturn rv cmd =>
      match rv with
      | AS_EVENT_COMMAND_DONE | AS_EVENT_READ_ERROR => EvReturn rv cmd
      | _ =>
          let cmd :=
            match rv with
            | AS_EVENT_READ_COMPLETE => as_ev_watch_read cmd
            | _ => cmd
            end in
          if 0 <? as_tls_read_pending (socket cmd) then
            match fuel with
            | S fuel => command_read_event fuel cmd
            | O => EvNoFuel
            end
          else EvReturn rv cmd
      end
  | other => other
  end.

(** *** The connection as libev and the network drive it *)

(** Whether the callback has let go of the command. *)
Definition ended (rv : as_event_rv) : bool :=
  match rv with
  | AS_EVENT_COMMAND_DONE | AS_EVENT_READ_ERROR => true
  | _ => false
  end.

(** libev calls the callback for as long as the socket is readable; each
    call that leaves bytes behind has taken at least one. *)
Fixpoint while_readable (fuel : nat) (cmd : as_event_command) : ev_outcome :=
  match command_read_event tls_turns cmd with
  | EvReturn rv cmd =>
      if ended rv then EvReturn rv cmd
      else
        match rx (socket cmd) with
        | [] => EvReturn rv cmd
        | _ :: _ =>
            match fuel with
            | S fuel => while_readable fuel cmd
            | O => EvNoFuel
            end
        end
  | other => other
  end.

(** The bytes of [segment] arrive on the socket. *)
Definition arrival (cmd : as_event_command) (segment : list byte)
  : as_event_command :=
  set_socket cmd {| ctx := ctx (socket cmd);
                    rx := rx (socket cmd) ++ segment;
                    empty := empty (socket cmd) |}.

(** A segment arrives on a connection whose last step came to [out]. *)
Definition deliver (out : ev_outcome) (segment : list byte) : ev_outcome :=
  match out with
  | EvReturn rv cmd =>
      if ended rv then out
      else
        match segment with
        | [] => out
        | _ :: _ =>
            let cmd := arrival cmd segment in
            while_readable (length (rx (socket cmd))) cmd
        end
  | other => other
  end.

(** The response arrives cut into [segments], on a command that waits for
    bytes. *)
Definition receive (segments : list (list byte)) (cmd : as_event_command)
  : ev_outcome :=
  fold_left deliver segments (EvReturn AS_EVENT_READ_INCOMPLETE cmd).

(** *** Properties *)

(** [as_ev_read] never reports a command done. *)
Lemma as_ev_read_tls_not_done fuel : forall cmd cmd',
  as_ev_read_tls fuel cmd <> EvReturn AS_EVENT_COMMAND_DONE cmd'.
Proof.
  induction fuel as [|fuel IH]; intros cmd cmd'; cbn [as_ev_read_tls];
    destruct (as_tls_read_once _ _) as [[rv data] s];
    repeat match goal with
           | |- context [if ?b then _ else _] => destruct b
           | |- context [match ?x with Some _ => _ | None => _ end] => destruct x
           end;
    unfold socket_failed; try discriminate; apply IH.
Qed.

Lemma as_ev_read_loop_not_done fuel : forall cmd cmd',
  as_ev_read_loop fuel cmd <> EvReturn AS_EVENT_COMMAND_DONE cmd'.
Proof.
  induction fuel as [|fuel IH]; intros cmd cmd'; cbn [as_ev_read_loop];
    destruct (sys_read _ _) as [[data| |errno] s];
    repeat match goal with
           | |- context [if ?b then _ else _] => destruct b
           | |- context [match ?x with Some _ => _ | None => _ end] => destruct x
           end;
    unfold socket_failed; try discriminate; apply IH.
Qed.

Lemma as_ev_read_not_done cmd cmd' :
  as_ev_read cmd <> EvReturn AS_EVENT_COMMAND_DONE cmd'.
Proof.
  unfold as_ev_read. destruct (ctx _);
    [apply as_ev_read_tls_not_done | apply as_ev_read_loop_not_done].
Qed.

Lemma as_ev_command_peek_block_done cmd cmd' :
  as_ev_command_peek_block cmd = EvReturn AS_EVENT_COMMAND_DONE cmd' ->
  parse_results cmd' (block cmd') = true.
Proof.
  unfold as_ev_command_peek_block.
  destruct (as_ev_read _) as [rv c1| |] eqn:Hread; try discriminate.
  destruct rv; try discriminate;
    try (exfalso; exact (as_ev_read_not_done _ _ Hread)).
  destruct (parse_header c1) as [[c2 size]|]; [|discriminate].
  destruct (_ && _); [|discriminate].
  destruct (as_ev_read c2) as [rv c3| |] eqn:Hread2; try discriminate.
  destruct rv; try discriminate;
    try (exfalso; exact (as_ev_read_not_done _ _ Hread2)).
  destruct (parse_results (set_pos c3 0) (block (set_pos c3 0))) eqn:Hp;
    cbn [negb]; [|discriminate].
  intros [= <-]. exact Hp.
Qed.

(** Whatever the state of the command and whatever the socket, plain or
    TLS, holds: a step reports the command done only after the result
    parser has reported that it is finished with the block in the buffer. *)
Lemma as_ev_command_read_done cmd cmd' :
  as_ev_command_read cmd = EvReturn AS_EVENT_COMMAND_DONE cmd' ->
  parse_results cmd' (block cmd') = true.
Proof.
  assert (Hbody : forall c,
            read_body c = EvReturn AS_EVENT_COMMAND_DONE cmd' ->
            parse_results cmd' (block cmd') = true).
  { intros c. unfold read_body.
    destruct (as_ev_read c) as [rv c1| |] eqn:Hread; try discriminate.
    destruct rv; try discriminate;
    try (exfalso; exact (as_ev_read_not_done _ _ Hread)).
    unfold body_received.
    assert (Hparse : forall c2,
              (if negb (parse_results c2 (block c2))
               then as_ev_command_peek_block c2
               else EvReturn AS_EVENT_COMMAND_DONE c2)
              = EvReturn AS_EVENT_COMMAND_DONE cmd' ->
              parse_results cmd' (block cmd') = true).
    { intros c2. destruct (parse_results c2 (block c2)) eqn:Hp; cbn [negb].
      - intros [= <-]. exact Hp.
      - apply as_ev_command_peek_block_done. }
    destruct (_ =? _); [|apply Hparse].
    destruct (as_event_decompress _); [apply Hparse | discriminate]. }
  unfold as_ev_command_read.
  destruct (state cmd); try apply Hbody.
  destruct (as_ev_read cmd) as [rv c1| |] eqn:Hread; try discriminate.
  destruct rv; try discriminate;
    try (exfalso; exact (as_ev_read_not_done _ _ Hread)).
  destruct (parse_header c1) as [[c2 size]|]; [apply Hbody | discriminate].
Qed.

(** [cmd'] is [cmd] after [data] has been read off the socket into the
    buffer at [pos]. *)
Record read_into (cmd : as_event_command) (data : list byte)
    (cmd' : as_event_command) : Prop := mk_read_into {
  ri_state : state cmd' = state cmd;
  ri_len : len cmd' = len cmd;
  ri_pos : pos cmd' = pos cmd + Z.of_nat (length data);
  ri_buf : buf cmd'
           = take (Z.to_nat (pos cmd)) (buf cmd) ++ data
             ++ drop (Z.to_nat (pos cmd) + length data) (buf cmd);
  ri_capacity : read_capacity cmd' = read_capacity cmd;
  ri_type : proto_type_rcv cmd' = proto_type_rcv cmd;
  ri_parse : parse_results cmd' = parse_results cmd;
  ri_ctx : ctx (socket cmd') = ctx (socket cmd);
  ri_empty : empty (socket cmd') = empty (socket cmd);
  ri_rx : rx (socket cmd') = drop (length data) (rx (socket cmd))
}.

Lemma as_ev_watch_read_same (f : as_event_command -> Prop) cmd :
  (forall w, f (set_watching cmd w)) -> f cmd -> f (as_ev_watch_read cmd).
Proof.
  intros Hw Hc. unfold as_ev_watch_read. destruct (_ =? _); [exact Hc | apply Hw].
Qed.

Lemma as_ev_read_loop_plain cmd :
  ctx (socket cmd) = false -> empty (socket cmd) = WouldBlock ->
  0 <= pos cmd < len cmd -> len cmd < 2 ^ 32 ->
  len cmd <= Z.of_nat (length (buf cmd)) ->
  let need := Z.to_nat (len cmd - pos cmd) in
  exists cmd',
    read_into cmd (take need (rx (socket cmd))) cmd'
    /\ if (length (rx (socket cmd)) <? need)%nat
       then as_ev_read_loop (S (length (rx (socket cmd)))) cmd
            = EvReturn AS_EVENT_READ_INCOMPLETE cmd'
            /\ completed cmd' = completed cmd
       else as_ev_read_loop (S (length (rx (socket cmd)))) cmd
            = EvReturn AS_EVENT_READ_COMPLETE cmd'
            /\ completed cmd' = completed cmd ++ [(state cmd, len cmd)].
Proof.
  intros Hctx Hempty Hpos Hlen Hfit need.
  assert (Hcount : u32 (len cmd - pos cmd) = len cmd - pos cmd)
    by (apply u32_small; unfold is_u32; lia).
  destruct (rx (socket cmd)) as [|a A] eqn:Hrx.
  - cbn [length as_ev_read_loop].
    rewrite Hcount. unfold sys_read.
    destruct (Z.leb_spec (len cmd - pos cmd) 0); [lia|].
    rewrite Hrx, Hempty. change (EWOULDBLOCK =? EWOULDBLOCK) with true. cbv iota.
    eexists. split; [|destruct (Nat.ltb_spec 0 need); [split; [reflexivity|] | lia]].
    + rewrite take_nil.
      apply as_ev_watch_read_same; [intros w|];
        (split; cbn [state len pos buf read_capacity proto_type_rcv parse_results
                       socket set_watching length];
         rewrite ?Hrx, ?Nat.add_0_r; try reflexivity;
         first [lia | cbn [app]; rewrite take_drop; reflexivity]).
    + apply (as_ev_watch_read_same (fun c => completed c = completed cmd));
        reflexivity.
  - set (data := take need (a :: A)).
    assert (Hdata : (length data <= need)%nat) by (subst data; rewrite length_take; lia).
    assert (Hne : (0 < length data)%nat).
    { subst data. rewrite length_take. cbn [length]. lia. }
    cbn [as_ev_read_loop].
    rewrite Hcount. unfold sys_read.
    destruct (Z.leb_spec (len cmd - pos cmd) 0); [lia|].
    rewrite Hrx. fold need. fold data.
    unfold Info.store_bytes.
    destruct (Nat.leb_spec (Z.to_nat (pos cmd) + length data) (length (buf cmd)));
      [|lia].
    cbn [pos len set_received].
    rewrite (u32_small (pos cmd + Z.of_nat (length data)))
      by (unfold is_u32; lia).
    destruct (Nat.ltb_spec (length (a :: A)) need) as [Hshort|Hall].
    + assert (Hlen_data : length data = length (a :: A))
        by (subst data; rewrite length_take; lia).
      destruct (Z.ltb_spec (pos cmd + Z.of_nat (length data)) (len cmd)); [|lia].
      cbn [length as_ev_read_loop]. cbn [len pos socket set_received].
      rewrite (u32_small (len cmd - (pos cmd + Z.of_nat (length data))))
        by (unfold is_u32; lia).
      unfold sys_read.
      destruct (Z.leb_spec (len cmd - (pos cmd + Z.of_nat (length data))) 0); [lia|].
      cbn [rx empty ctx].
      rewrite (drop_ge (a :: A)) by lia. rewrite Hempty.
      change (EWOULDBLOCK =? EWOULDBLOCK) with true. cbv iota.
      eexists. split; [|split; [reflexivity|]].
      * apply as_ev_watch_read_same; [intros w|];
          (split; cbn [state len pos buf read_capacity proto_type_rcv
                         parse_results socket set_watching set_received
                         ctx rx empty];
           rewrite ?Hrx;
           first [ reflexivity | assumption | symmetry; assumption
                 | symmetry; apply drop_ge; lia ]).
      * apply (as_ev_watch_read_same (fun c => completed c = completed cmd));
          reflexivity.
    + assert (Hlen_data : length data = need)
        by (subst data; rewrite length_take; lia).
      destruct (Z.ltb_spec (pos cmd + Z.of_nat (length data)) (len cmd)); [lia|].
      eexists. split; [|split; [reflexivity|]].
      * split; cbn [state len pos buf read_capacity proto_type_rcv
                      parse_results socket log_completed set_received
                      ctx rx empty];
          rewrite ?Hrx;
          first [ reflexivity | assumption | symmetry; assumption
                | rewrite Hlen_data; reflexivity ].
      * reflexivity.
Qed.

(** A read on a plain socket of an open connection takes what has arrived,
    up to the bytes that the block still lacks: it is complete when they
    have all arrived and incomplete, with the socket drained, when not. *)
Lemma as_ev_read_plain cmd :
  ctx (socket cmd) = false -> empty (socket cmd) = WouldBlock ->
  0 <= pos cmd < len cmd -> len cmd < 2 ^ 32 ->
  len cmd <= Z.of_nat (length (buf cmd)) ->
  let need := Z.to_nat (len cmd - pos cmd) in
  exists cmd',
    read_into cmd (take need (rx (socket cmd))) cmd'
    /\ if (length (rx (socket cmd)) <? need)%nat
       then as_ev_read cmd = EvReturn AS_EVENT_READ_INCOMPLETE cmd'
            /\ completed cmd' = completed cmd
       else as_ev_read cmd = EvReturn AS_EVENT_READ_COMPLETE cmd'
            /\ completed cmd' = completed cmd ++ [(state cmd, len cmd)].
Proof.
  intros Hctx Hempty Hpos Hlen Hfit need.
  unfold as_ev_read. cbn [socket set_flags]. rewrite Hctx.
  destruct (as_ev_read_loop_plain
              (set_flags cmd (Z.lor (flags cmd) AS_ASYNC_FLAGS_EVENT_RECEIVED)))
    as (cmd' & [H1 H2 H3 H4 H5 H6 H7 H8 H9 H10] & Hrun); try assumption.
  exists cmd'. split; [split; assumption | exact Hrun].
Qed.

(** *** Blocks that arrive in segments *)

(** A block of the response as the server sends it: the eight bytes of
    its header, the message type that the header declares, and its body. *)
Record frame : Type := mk_frame {
  f_hdr : list byte;
  f_type : Z;
  f_body : list byte
}.

(** The header has the size of [as_proto] and declares the type and the
    size of the body; the block is not compressed and not empty. *)
Definition frame_wf (f : frame) : Prop :=
  length (f_hdr f) = Z.to_nat AS_PROTO_SIZE
  /\ as_event_proto_parse (f_hdr f)
     = Some (f_type f, Z.of_nat (length (f_body f)))
  /\ f_type f <> AS_COMPRESSED_MESSAGE_TYPE
  /\ 0 < Z.of_nat (length (f_body f)) < 2 ^ 32.

Definition on_wire (fs : list frame) : list byte :=
  flat_map (fun f => f_hdr f ++ f_body f) fs.

(** The reads that a run of blocks takes: a header and a body for each. *)
Definition cycles (fs : list frame) : list (as_async_state * Z) :=
  flat_map (fun f => [ (AS_ASYNC_STATE_COMMAND_READ_HEADER, AS_PROTO_SIZE);
                       (AS_ASYNC_STATE_COMMAND_READ_BODY,
                        Z.of_nat (length (f_body f))) ]) fs.

(** Where a command stands in the block it is reading: [k] bytes into
    the header, or [k] bytes into the body. *)
Inductive cursor : Type :=
| InHeader (k : nat)
| InBody (k : nat).

(** The bytes still to come for the blocks [fs], the first of which is
    being read. *)
Definition expected (fs : list frame) (c : cursor) : list byte :=
  match fs with
  | [] => []
  | f :: todo =>
      match c with
      | InHeader k => drop k (f_hdr f) ++ f_body f ++ on_wire todo
      | InBody k => drop k (f_body f) ++ on_wire todo
      end
  end.

Section Blocks.

(** The result parser of the command, and what is known of TLS: a socket
    without a TLS context has nothing in an encryption buffer. *)
Variable P : list byte -> bool.
Hypothesis no_tls_pending : forall s, ctx s = false -> as_tls_read_pending s <= 0.

(** The parser is not finished with any block but the last, on which its
    verdict is [v]; behind the last block nothing is finished. *)
Fixpoint verdicts (fs : list frame) (v : bool) : Prop :=
  match fs with
  | [] => v = false
  | f :: rest =>
      match rest with
      | [] => P (f_body f) = v
      | _ :: _ => P (f_body f) = false /\ verdicts rest v
      end
  end.

Lemma verdicts_cons f rest v :
  verdicts (f :: rest) v ->
  (P (f_body f) = false /\ verdicts rest v)
  \/ (P (f_body f) = true /\ rest = [] /\ v = true).
Proof.
  cbn [verdicts]. destruct rest as [|g rest].
  - intros <-. destruct (P (f_body f)); [right | left]; repeat split; reflexivity.
  - intros [Hf Hrest]. left. split; assumption.
Qed.

(** A plain socket on an open connection, a buffer that holds what its
    capacity says and at least an end block, and the parser [P]. *)
Definition steady (cmd : as_event_command) : Prop :=
  ctx (socket cmd) = false /\ empty (socket cmd) = WouldBlock
  /\ AS_MSG_SIZE <= read_capacity cmd <= Z.of_nat (length (buf cmd))
  /\ parse_results cmd = P.

(** The command stands at cursor [c] of the first of the blocks [fs],
    with the reads in [log] completed before that block. *)
Definition located (log : list (as_async_state * Z)) (fs : list frame)
    (c : cursor) (cmd : as_event_command) : Prop :=
  match fs, c with
  | f :: _, InHeader k =>
      state cmd = AS_ASYNC_STATE_COMMAND_READ_HEADER
      /\ len cmd = AS_PROTO_SIZE /\ pos cmd = Z.of_nat k
      /\ (k < length (f_hdr f))%nat
      /\ take k (buf cmd) = take k (f_hdr f)
      /\ completed cmd = log
  | [], InHeader k =>
      state cmd = AS_ASYNC_STATE_COMMAND_READ_HEADER
      /\ len cmd = AS_PROTO_SIZE /\ pos cmd = 0 /\ k = 0%nat
      /\ completed cmd = log
  | f :: _, InBody k =>
      state cmd = AS_ASYNC_STATE_COMMAND_READ_BODY
      /\ len cmd = Z.of_nat (length (f_body f)) /\ pos cmd = Z.of_nat k
      /\ (k < length (f_body f))%nat
      /\ take k (buf cmd) = take k (f_body f)
      /\ proto_type_rcv cmd = f_type f
      /\ len cmd <= read_capacity cmd
      /\ completed cmd = log ++ [(AS_ASYNC_STATE_COMMAND_READ_HEADER, AS_PROTO_SIZE)]
  | [], InBody _ => False
  end.

(** What a step comes to on a command that reads blocks: either the
    command is done, and then the parser's verdict on the last block was
    "finished", all of the blocks have been read and nothing is left; or
    the command goes on from a cursor further on, with the socket drained
    or fewer than [bound] bytes left on it. *)
Definition progress (total : list (as_async_state * Z)) (future : list byte)
    (v : bool) (lastb : option (list byte)) (bound : nat) (out : ev_outcome)
  : Prop :=
  match out with
  | EvReturn rv cmd' =>
      if ended rv then
        rv = AS_EVENT_COMMAND_DONE /\ v = true /\ future = []
        /\ rx (socket cmd') = [] /\ completed cmd' = total
        /\ Some (block cmd') = lastb
      else
        exists log' fs' c',
          steady cmd' /\ located log' fs' c' cmd'
          /\ log' ++ cycles fs' = total
          /\ rx (socket cmd') ++ future = expected fs' c'
          /\ Forall frame_wf fs' /\ verdicts fs' v
          /\ (fs' <> [] -> f_body <$> last fs' = lastb)
          /\ (rx (socket cmd') = []
              \/ (length (rx (socket cmd')) < bound)%nat)
  | EvOutOfBounds | EvNoFuel => False
  end.

Lemma progress_mono total future v lastb bound bound' out :
  (bound <= bound')%nat ->
  progress total future v lastb bound out ->
  progress total future v lastb bound' out.
Proof.
  intros Hle. unfold progress. destruct out as [rv cmd'| |]; try tauto.
  destruct (ended rv); [tauto|].
  intros (log' & fs' & c' & H1 & H2 & H3 & H4 & H5 & H6 & H7 & H8).
  exists log', fs', c'. repeat split; try assumption; [apply H1..|].
  destruct H8; [left; assumption | right; lia].
Qed.

(** What has arrived is the front of what is expected. *)
Lemma arrived_short {A} (avail future target rest : list A) :
  avail ++ future = target ++ rest ->
  (length avail <= length target)%nat ->
  avail = take (length avail) target
  /\ future = drop (length avail) target ++ rest.
Proof.
  intros Heq Hlen.
  assert (H1 : take (length avail) (avail ++ future)
               = take (length avail) (target ++ rest)) by (rewrite Heq; reflexivity).
  assert (H2 : drop (length avail) (avail ++ future)
               = drop (length avail) (target ++ rest)) by (rewrite Heq; reflexivity).
  rewrite take_app_length in H1. rewrite drop_app_length in H2.
  rewrite take_app_le in H1 by lia. rewrite drop_app_le in H2 by lia.
  split; assumption.
Qed.

Lemma arrived_long {A} (avail future target rest : list A) :
  avail ++ future = target ++ rest ->
  (length target <= length avail)%nat ->
  take (length target) avail = target
  /\ drop (length target) avail ++ future = rest.
Proof.
  intros Heq Hlen.
  assert (H1 : take (length target) (avail ++ future)
               = take (length target) (target ++ rest)) by (rewrite Heq; reflexivity).
  assert (H2 : drop (length target) (avail ++ future)
               = drop (length target) (target ++ rest)) by (rewrite Heq; reflexivity).
  rewrite take_app_length in H1. rewrite drop_app_length in H2.
  rewrite take_app_le in H1 by lia. rewrite drop_app_le in H2 by lia.
  split; assumption.
Qed.

(** Reading on from offset [k] of a unit, header or body, whose first [k]
    bytes are in the buffer. *)
Lemma unit_read (target mem avail future rest : list byte) (k : nat) :
  take k mem = take k target ->
  (k < length target)%nat -> (length target <= length mem)%nat ->
  avail ++ future = drop k target ++ rest ->
  let need := (length target - k)%nat in
  let data := take need avail in
  let mem' := take k mem ++ data ++ drop (k + length data) mem in
  length mem' = length mem
  /\ ((length avail < need)%nat ->
      data = avail
      /\ take (k + length avail) mem' = take (k + length avail) target
      /\ future = drop (k + length avail) target ++ rest)
  /\ ((need <= length avail)%nat ->
      length data = need
      /\ take (length target) mem' = target
      /\ drop need avail ++ future = rest).
Proof.
  intros Hk Hlt Hfit Heq need data mem'.
  assert (Hdata : (length data <= need)%nat)
    by (subst data; rewrite length_take; lia).
  assert (Hlen : length mem' = length mem).
  { subst mem'. rewrite !length_app, length_take, length_drop. lia. }
  split; [exact Hlen|]. split.
  - intros Hshort.
    destruct (arrived_short avail future (drop k target) rest Heq) as [Ha Hf];
      [rewrite length_drop; lia|].
    assert (Hd : data = avail) by (subst data; apply take_ge; lia).
    split; [exact Hd|]. split.
    + subst mem'. rewrite Hd, app_assoc.
      rewrite take_app_length' by (rewrite length_app, length_take; lia).
      rewrite Hk, Ha at 1. rewrite take_take_drop. reflexivity.
    + rewrite Hf, drop_drop. reflexivity.
  - intros Hall.
    destruct (arrived_long avail future (drop k target) rest Heq) as [Ha Hf];
      [rewrite length_drop; lia|].
    rewrite length_drop in Ha, Hf. fold need in Ha, Hf.
    assert (Hd : data = drop k target) by exact Ha.
    split; [rewrite Hd, length_drop; reflexivity|]. split; [|exact Hf].
    subst mem'. rewrite Hd, app_assoc, Hk, take_drop.
    apply take_app_length.
Qed.

(** A read of a unit, header or body, of which [k] bytes are in already:
    short of bytes it is incomplete and has drained the socket; with all
    of them it is complete and has taken at least one byte. *)
Lemma read_unit cmd (target future rest : list byte) (k : nat) :
  steady cmd ->
  pos cmd = Z.of_nat k -> len cmd = Z.of_nat (length target) ->
  (k < length target)%nat -> len cmd < 2 ^ 32 -> len cmd <= read_capacity cmd ->
  take k (buf cmd) = take k target ->
  rx (socket cmd) ++ future = drop k target ++ rest ->
  exists cmd',
    steady cmd' /\ state cmd' = state cmd /\ len cmd' = len cmd
    /\ proto_type_rcv cmd' = proto_type_rcv cmd
    /\ read_capacity cmd' = read_capacity cmd
    /\ if (length (rx (socket cmd)) <? length target - k)%nat
       then as_ev_read cmd = EvReturn AS_EVENT_READ_INCOMPLETE cmd'
            /\ completed cmd' = completed cmd
            /\ pos cmd' = Z.of_nat (k + length (rx (socket cmd)))
            /\ take (k + length (rx (socket cmd))) (buf cmd')
               = take (k + length (rx (socket cmd))) target
            /\ rx (socket cmd') = []
            /\ future = drop (k + length (rx (socket cmd))) target ++ rest
       else as_ev_read cmd = EvReturn AS_EVENT_READ_COMPLETE cmd'
            /\ completed cmd' = completed cmd ++ [(state cmd, len cmd)]
            /\ take (length target) (buf cmd') = target
            /\ rx (socket cmd') ++ future = rest
            /\ (length (rx (socket cmd')) < length (rx (socket cmd)))%nat.
Proof.
  intros (Hctx & Hempty & Hcap & HP) Hpos Hlen Hk Hsmall Hfit Hmem Heq.
  destruct (as_ev_read_plain cmd Hctx Hempty) as (cmd' & Hinto & Hrun); try lia.
  destruct Hinto as [H1 H2 H3 H4 H5 H6 H7 H8 H9 H10].
  assert (Hneed : Z.to_nat (len cmd - pos cmd) = (length target - k)%nat) by lia.
  rewrite Hneed in *.
  rewrite Hpos, Nat2Z.id in H4.
  destruct (unit_read target (buf cmd) (rx (socket cmd)) future rest k
              Hmem Hk ltac:(lia) Heq) as (Hlen' & Hshort & Hall).
  rewrite <- H4 in Hlen', Hshort, Hall.
  exists cmd'.
  split; [unfold steady; rewrite H8, H9, H5, H7, Hlen'; repeat split; tauto|].
  repeat (split; [assumption|]).
  destruct (Nat.ltb_spec (length (rx (socket cmd))) (length target - k))
    as [Hlt|Hge].
  - destruct Hrun as [Hrun Hlog]. destruct (Hshort Hlt) as (Hd & Ht & Hf).
    rewrite Hd in H3, H10.
    repeat split; try assumption; [lia|].
    rewrite H10. apply drop_all.
  - destruct Hrun as [Hrun Hlog]. destruct (Hall Hge) as (Hd & Ht & Hf).
    rewrite Hd in H10. rewrite H10.
    repeat split; try assumption.
    rewrite length_drop. lia.
Qed.

Lemma expected_header fs : expected fs (InHeader 0) = on_wire fs.
Proof.
  destruct fs as [|f fs]; [reflexivity|].
  cbn [expected on_wire flat_map drop]. rewrite <- app_assoc. reflexivity.
Qed.

Lemma expected_nonempty f todo c cmd log :
  Forall frame_wf (f :: todo) -> located log (f :: todo) c cmd ->
  expected (f :: todo) c <> [].
Proof.
  intros Hwf Hloc Hnil. inversion Hwf as [|? ? (Hh & _ & _ & Hsize) _]; subst.
  assert (Hlen := f_equal length Hnil).
  destruct c as [k|k]; cbn [expected located] in *;
    rewrite ?length_app, ?length_drop in Hlen; cbn [length] in Hlen;
    destruct Hloc as (_ & _ & _ & Hk & _); lia.
Qed.

Lemma located_header log fs cmd :
  Forall frame_wf fs ->
  state cmd = AS_ASYNC_STATE_COMMAND_READ_HEADER ->
  len cmd = AS_PROTO_SIZE -> pos cmd = 0 -> completed cmd = log ->
  located log fs (InHeader 0) cmd.
Proof.
  intros Hwf Hstate Hlen Hpos Hlog.
  destruct fs as [|f fs]; cbn [located]; repeat split; try assumption.
  inversion Hwf as [|? ? (Hh & _) _]; subst. rewrite Hh. cbv. lia.
Qed.

Lemma last_body_rest (f : frame) rest lastb :
  (f :: rest <> [] -> f_body <$> last (f :: rest) = lastb) ->
  rest <> [] -> f_body <$> last rest = lastb.
Proof.
  intros Hlast Hne. rewrite <- Hlast by discriminate.
  destruct rest as [|g rest]; [contradiction | reflexivity].
Qed.

Lemma header_parsed cmd f :
  frame_wf f -> take (length (f_hdr f)) (buf cmd) = f_hdr f ->
  parse_header cmd
  = Some (set_progress (set_proto_type_rcv cmd (f_type f))
            AS_ASYNC_STATE_COMMAND_READ_BODY
            (Z.of_nat (length (f_body f))) 0,
          Z.of_nat (length (f_body f))).
Proof.
  intros (Hh & Hparse & _ & Hsize) Hbuf. unfold parse_header.
  rewrite <- Hh, Hbuf, Hparse, u32_small by (unfold is_u32; lia).
  reflexivity.
Qed.

Lemma grow_buffer_fits cmd size :
  steady cmd -> len cmd = size -> 0 <= size ->
  steady (grow_buffer cmd size)
  /\ len (grow_buffer cmd size) <= read_capacity (grow_buffer cmd size)
  /\ state (grow_buffer cmd size) = state cmd
  /\ len (grow_buffer cmd size) = len cmd
  /\ pos (grow_buffer cmd size) = pos cmd
  /\ proto_type_rcv (grow_buffer cmd size) = proto_type_rcv cmd
  /\ completed (grow_buffer cmd size) = completed cmd
  /\ socket (grow_buffer cmd size) = socket cmd.
Proof.
  intros (Hctx & Hempty & Hcap & HP) Hlen Hsize. unfold grow_buffer.
  destruct (Z.ltb_spec (read_capacity cmd) (len cmd)).
  - unfold steady.
    cbn [set_buffer socket read_capacity buf parse_results len state pos
         proto_type_rcv completed].
    rewrite length_map, length_seq. repeat split; try assumption; lia.
  - repeat split; try assumption; lia.
Qed.

(** The look for the next block: it goes as far as the bytes that have
    arrived allow, and reports the command done only on a block that the
    parser is finished with. *)
Lemma as_ev_command_peek_block_progress cmd log todo future v lastb :
  steady cmd -> completed cmd = log ->
  rx (socket cmd) ++ future = on_wire todo ->
  Forall frame_wf todo -> verdicts todo v ->
  (todo <> [] -> f_body <$> last todo = lastb) ->
  progress (log ++ cycles todo) future v lastb (length (rx (socket cmd)))
    (as_ev_command_peek_block cmd).
Proof.
  intros Hsteady Hlog Heq Hwf Hv Hlast.
  unfold as_ev_command_peek_block.
  set (cmd0 := set_progress cmd AS_ASYNC_STATE_COMMAND_READ_HEADER AS_PROTO_SIZE 0).
  assert (Hsteady0 : steady cmd0) by exact Hsteady.
  assert (Hcap0 : AS_MSG_SIZE <= read_capacity cmd0) by apply Hsteady.
  destruct todo as [|f rest].
  - (* nothing is to come *)
    apply app_eq_nil in Heq as [Hrx ->].
    destruct Hsteady0 as (Hctx & Hempty & Hcap & HP).
    destruct (as_ev_read_plain cmd0 Hctx Hempty) as (cmd' & Hinto & Hrun);
      try (cbn [pos len set_progress cmd0]; unfold AS_PROTO_SIZE, AS_MSG_SIZE in *; lia).
    change (rx (socket cmd0)) with (rx (socket cmd)) in *.
    rewrite Hrx in *. cbn [length] in *.
    destruct Hinto as [H1 H2 H3 H4 H5 H6 H7 H8 H9 H10].
    rewrite take_nil in H3, H4, H10. cbn [length app drop] in H3, H4, H10.
    change (rx (socket cmd0)) with (rx (socket cmd)) in H10. rewrite Hrx in H10.
    destruct Hrun as [-> Hlog']. cbn [progress ended].
    exists log, [], (InHeader 0).
    assert (Hbuf : buf cmd' = buf cmd0).
    { rewrite H4, Nat.add_0_r. apply take_drop. }
    split; [unfold steady; rewrite H8, H9, H5, H7, Hbuf; repeat split; tauto|].
    split; [cbn [located]; rewrite H1, H2, H3, Hlog'; repeat split; assumption|].
    repeat split; try assumption; try contradiction.
    + rewrite H10. reflexivity.
    + left. exact H10.
  - (* the header of the block [f] *)
    pose proof (Forall_inv Hwf) as Hf. pose proof (Forall_inv_tail Hwf) as Hrest.
    pose proof Hf as (Hh & Hparse & Htype & Hsize).
    destruct (read_unit cmd0 (f_hdr f) future (f_body f ++ on_wire rest) 0%nat
                Hsteady0) as (cmd1 & Hs1 & Hst1 & Hlen1 & Hty1 & Hcap1 & Hrun);
      try reflexivity;
      try (cbn [len cmd0 set_progress]; rewrite ?Hh;
           unfold AS_PROTO_SIZE, AS_MSG_SIZE in *; lia).
    { change (rx (socket cmd0)) with (rx (socket cmd)).
      rewrite Heq. cbn [on_wire flat_map drop]. rewrite <- app_assoc. reflexivity. }
    change (rx (socket cmd0)) with (rx (socket cmd)) in *.
    change (completed cmd0) with (completed cmd) in *.
    rewrite Nat.sub_0_r in Hrun. cbn [Nat.add] in Hrun.
    destruct (Nat.ltb_spec (length (rx (socket cmd))) (length (f_hdr f)))
      as [Hshort|Hall].
    + destruct Hrun as (-> & Hlog1 & Hpos1 & Htake & Hrx1 & Hfut).
      cbn [progress ended].
      exists log, (f :: rest), (InHeader (length (rx (socket cmd)))).
      split; [exact Hs1|].
      split; [cbn [located]; rewrite Hst1, Hlen1, Hlog1, Hlog;
              repeat split; assumption|].
      repeat split; try assumption.
      * rewrite Hrx1, Hfut. reflexivity.
      * left. exact Hrx1.
    + destruct Hrun as (-> & Hlog1 & Htake & Hrx1 & Hless).
      rewrite (header_parsed cmd1 f Hf Htake).
      set (cmd2 := set_progress (set_proto_type_rcv cmd1 (f_type f))
                     AS_ASYNC_STATE_COMMAND_READ_BODY
                     (Z.of_nat (length (f_body f))) 0).
      assert (Hs2 : steady cmd2) by exact Hs1.
      assert (Hlog2 : completed cmd2
                      = log ++ [(AS_ASYNC_STATE_COMMAND_READ_HEADER, AS_PROTO_SIZE)]).
      { change (completed cmd2) with (completed cmd1). rewrite Hlog1, Hlog.
        reflexivity. }
      change (proto_type_rcv cmd2) with (f_type f).
      change (len cmd2) with (Z.of_nat (length (f_body f))).
      destruct (Z.eqb_spec (f_type f) AS_COMPRESSED_MESSAGE_TYPE) as [|_];
        [contradiction|].
      cbn [negb]. rewrite andb_true_r.
      destruct (Z.eqb_spec (Z.of_nat (length (f_body f))) AS_MSG_SIZE)
        as [Hend|Hdata].
      * (* it has the size of an end block: its body is read at once *)
        destruct (read_unit cmd2 (f_body f) future (on_wire rest) 0%nat Hs2)
          as (cmd3 & Hs3 & Hst3 & Hlen3 & Hty3 & Hcap3 & Hrun);
          try reflexivity;
          try (cbn [len cmd2 set_progress]; lia).
        { cbn [len cmd2 set_progress]. rewrite Hend.
          change (read_capacity cmd2) with (read_capacity cmd1).
          rewrite Hcap1. exact Hcap0. }
        { exact Hrx1. }
        change (rx (socket cmd2)) with (rx (socket cmd1)) in *.
        rewrite Nat.sub_0_r in Hrun. cbn [Nat.add] in Hrun.
        destruct (Nat.ltb_spec (length (rx (socket cmd1))) (length (f_body f)))
          as [Hshort2|Hall2].
        -- destruct Hrun as (-> & Hlog3 & Hpos3 & Htake3 & Hrx3 & Hfut).
           cbn [progress ended].
           exists log, (f :: rest), (InBody (length (rx (socket cmd1)))).
           split; [exact Hs3|].
           split.
           { cbn [located]. rewrite Hst3, Hlen3, Hty3, Hcap3, Hlog3, Hlog2.
             repeat split; try assumption.
             cbn [len cmd2 set_progress]. rewrite Hend.
             change (read_capacity cmd2) with (read_capacity cmd1).
             rewrite Hcap1. exact Hcap0. }
           repeat split; try assumption.
           ++ rewrite Hrx3, Hfut. reflexivity.
           ++ left. exact Hrx3.
        -- destruct Hrun as (-> & Hlog3 & Htake3 & Hrx3 & Hless3).
           assert (Hblock : block (set_pos cmd3 0) = f_body f).
           { unfold block. cbn [len buf set_pos set_progress].
             rewrite Hlen3. cbn [len cmd2 set_progress].
             rewrite Nat2Z.id. exact Htake3. }
           rewrite Hblock.
           assert (HP3 : parse_results (set_pos cmd3 0) = P) by apply Hs3.
           rewrite HP3.
           assert (Hlog' : completed cmd3 = log ++ cycles [f]).
           { rewrite Hlog3, Hlog2, <- app_assoc. reflexivity. }
           destruct (verdicts_cons f rest v Hv)
             as [[HPf Hv']|(HPf & -> & ->)]; rewrite HPf; cbn [negb].
           ++ cbn [progress ended].
              exists (log ++ cycles [f]), rest, (InHeader 0).
              split; [exact Hs3|].
              split; [apply located_header; try assumption; reflexivity|].
              repeat split; try assumption.
              ** rewrite <- app_assoc. reflexivity.
              ** rewrite expected_header. exact Hrx3.
              ** apply (last_body_rest f); assumption.
              ** right. cbn [socket set_progress set_pos]. lia.
           ++ cbn [progress ended].
              cbn [on_wire flat_map] in Hrx3.
              apply app_eq_nil in Hrx3 as [Hrx3 ->].
              repeat split; try assumption.
              rewrite Hblock. apply Hlast. discriminate.
      * (* a data block: its body waits for the next call *)
        destruct (grow_buffer_fits cmd2 (Z.of_nat (length (f_body f))) Hs2
                    eq_refl ltac:(lia))
          as (Hsg & Hfit & Hstg & Hleng & Hposg & Htyg & Hlogg & Hsockg).
        cbn [progress ended].
        exists log, (f :: rest), (InBody 0).
        split; [exact Hsg|].
        split.
        { cbn [located]. rewrite Hstg, Hposg, Htyg, Hlogg, Hlog2.
          repeat split; try assumption; try reflexivity; try lia. }
        repeat split; try assumption.
        -- rewrite Hsockg. exact Hrx1.
        -- right. rewrite Hsockg. exact Hless.
Qed.

(** The body of a block, from wherever an earlier call has left it. *)
Lemma read_body_progress cmd log f todo k future v lastb :
  steady cmd -> located log (f :: todo) (InBody k) cmd ->
  rx (socket cmd) ++ future = expected (f :: todo) (InBody k) ->
  Forall frame_wf (f :: todo) -> verdicts (f :: todo) v ->
  (f :: todo <> [] -> f_body <$> last (f :: todo) = lastb) ->
  progress (log ++ cycles (f :: todo)) future v lastb
    (length (rx (socket cmd))) (read_body cmd).
Proof.
  intros Hsteady (Hstate & Hlen & Hpos & Hk & Htake & Htype & Hfit & Hlog)
    Heq Hwf Hv Hlast.
  pose proof (Forall_inv Hwf) as Hf. pose proof (Forall_inv_tail Hwf) as Hrest.
  pose proof Hf as (Hh & Hparse & Hplain & Hsize).
  cbn [expected] in Heq.
  unfold read_body.
  destruct (read_unit cmd (f_body f) future (on_wire todo) k Hsteady Hpos Hlen
              Hk ltac:(lia) Hfit Htake Heq)
    as (cmd1 & Hs1 & Hst1 & Hlen1 & Hty1 & Hcap1 & Hrun).
  destruct (Nat.ltb_spec (length (rx (socket cmd))) (length (f_body f) - k))
    as [Hshort|Hall].
  - destruct Hrun as (-> & Hlog1 & Hpos1 & Htake1 & Hrx1 & Hfut).
    cbn [progress ended].
    exists log, (f :: todo), (InBody (k + length (rx (socket cmd)))).
    split; [exact Hs1|].
    split; [cbn [located]; rewrite Hst1, Hlen1, Hty1, Hcap1, Hlog1;
            repeat split; try assumption; lia|].
    repeat split; try assumption.
    + rewrite Hrx1, Hfut. reflexivity.
    + left. exact Hrx1.
  - destruct Hrun as (-> & Hlog1 & Htake1 & Hrx1 & Hless).
    unfold body_received.
    change (proto_type_rcv (set_pos cmd1 0)) with (proto_type_rcv cmd1).
    rewrite Hty1, Htype.
    destruct (Z.eqb_spec (f_type f) AS_COMPRESSED_MESSAGE_TYPE) as [|_];
      [contradiction|].
    assert (Hblock : block (set_pos cmd1 0) = f_body f).
    { unfold block. cbn [len buf set_pos set_progress].
      rewrite Hlen1, Hlen, Nat2Z.id. exact Htake1. }
    rewrite Hblock.
    assert (HP1 : parse_results (set_pos cmd1 0) = P) by apply Hs1.
    rewrite HP1.
    assert (Hlog' : completed (set_pos cmd1 0) = log ++ cycles [f]).
    { change (completed (set_pos cmd1 0)) with (completed cmd1).
      rewrite Hlog1, Hlog, Hstate, Hlen, <- app_assoc. reflexivity. }
    destruct (verdicts_cons f todo v Hv)
      as [[HPf Hv']|(HPf & -> & ->)]; rewrite HPf; cbn [negb].
    + replace (log ++ cycles (f :: todo))
        with ((log ++ cycles [f]) ++ cycles todo)
        by (rewrite <- app_assoc; reflexivity).
      apply (progress_mono _ _ _ _ (length (rx (socket (set_pos cmd1 0)))));
        [cbn [socket set_pos set_progress]; lia|].
      apply as_ev_command_peek_block_progress; try assumption.
      apply (last_body_rest f). exact Hlast.
    + cbn [progress ended].
      cbn [on_wire flat_map] in Hrx1.
      apply app_eq_nil in Hrx1 as [Hrx1 ->].
      repeat split; try assumption.
      rewrite Hblock. apply Hlast. discriminate.
Qed.

(** One step of the state machine on a command that stands somewhere in
    the block [f]. *)
Lemma as_ev_command_read_progress cmd log f todo c future v lastb :
  steady cmd -> located log (f :: todo) c cmd ->
  rx (socket cmd) ++ future = expected (f :: todo) c ->
  Forall frame_wf (f :: todo) -> verdicts (f :: todo) v ->
  (f :: todo <> [] -> f_body <$> last (f :: todo) = lastb) ->
  progress (log ++ cycles (f :: todo)) future v lastb
    (length (rx (socket cmd))) (as_ev_command_read cmd).
Proof.
  intros Hsteady Hloc Heq Hwf Hv Hlast.
  destruct c as [k|k].
  - destruct Hloc as (Hstate & Hlen & Hpos & Hk & Htake & Hlog).
    pose proof (Forall_inv Hwf) as Hf.
    pose proof Hf as (Hh & Hparse & Hplain & Hsize).
    cbn [expected] in Heq.
    unfold as_ev_command_read. rewrite Hstate.
    assert (Hcap : AS_MSG_SIZE <= read_capacity cmd) by apply Hsteady.
    assert (Hlen8 : len cmd = Z.of_nat (length (f_hdr f)))
      by (rewrite Hlen, Hh; reflexivity).
    destruct (read_unit cmd (f_hdr f) future (f_body f ++ on_wire todo) k
                Hsteady Hpos Hlen8 Hk)
      as (cmd1 & Hs1 & Hst1 & Hlen1 & Hty1 & Hcap1 & Hrun);
      try assumption;
      try (rewrite Hlen; unfold AS_PROTO_SIZE, AS_MSG_SIZE in *; lia).
    destruct (Nat.ltb_spec (length (rx (socket cmd))) (length (f_hdr f) - k))
      as [Hshort|Hall].
    + destruct Hrun as (-> & Hlog1 & Hpos1 & Htake1 & Hrx1 & Hfut).
      cbn [progress ended].
      exists log, (f :: todo), (InHeader (k + length (rx (socket cmd)))).
      split; [exact Hs1|].
      split; [cbn [located]; rewrite Hst1, Hlen1, Hlog1;
              repeat split; try assumption; lia|].
      repeat split; try assumption.
      * rewrite Hrx1, Hfut. reflexivity.
      * left. exact Hrx1.
    + destruct Hrun as (-> & Hlog1 & Htake1 & Hrx1 & Hless).
      rewrite (header_parsed cmd1 f Hf Htake1).
      set (cmd2 := set_progress (set_proto_type_rcv cmd1 (f_type f))
                     AS_ASYNC_STATE_COMMAND_READ_BODY
                     (Z.of_nat (length (f_body f))) 0).
      assert (Hs2 : steady cmd2) by exact Hs1.
      destruct (grow_buffer_fits cmd2 (Z.of_nat (length (f_body f))) Hs2
                  eq_refl ltac:(lia))
        as (Hsg & Hfit & Hstg & Hleng & Hposg & Htyg & Hlogg & Hsockg).
      apply (progress_mono _ _ _ _
               (length (rx (socket
                  (grow_buffer cmd2 (Z.of_nat (length (f_body f))))))));
        [rewrite Hsockg; cbn [socket cmd2 set_progress set_proto_type_rcv]; lia|].
      apply (read_body_progress _ log f todo 0%nat); try assumption.
      * cbn [located]. rewrite Hstg, Hposg, Htyg, Hlogg.
        repeat split; try assumption; try reflexivity; try lia.
        change (completed cmd2) with (completed cmd1).
        rewrite Hlog1, Hlog, Hstate, Hlen. reflexivity.
      * rewrite Hsockg. exact Hrx1.
  - unfold as_ev_command_read.
    destruct Hloc as (Hstate & Hloc). rewrite Hstate.
    apply (read_body_progress _ log f todo k); try assumption.
    split; assumption.
Qed.

Lemma progress_watch_read total future v lastb bound rv cmd :
  progress total future v lastb bound (EvReturn rv cmd) ->
  progress total future v lastb bound (EvReturn rv (as_ev_watch_read cmd)).
Proof.
  intros H. unfold as_ev_watch_read. destruct (_ =? _); exact H.
Qed.

Lemma progress_plain total future v lastb bound rv cmd :
  progress total future v lastb bound (EvReturn rv cmd) ->
  ended rv = false -> ctx (socket cmd) = false.
Proof.
  cbn [progress]. intros H Hend. rewrite Hend in H.
  destruct H as (_ & _ & _ & (Hctx & _) & _). exact Hctx.
Qed.

(** The callback of a readable socket: without TLS it is one step. *)
Lemma command_read_event_progress fuel cmd log f todo c future v lastb :
  steady cmd -> located log (f :: todo) c cmd ->
  rx (socket cmd) ++ future = expected (f :: todo) c ->
  Forall frame_wf (f :: todo) -> verdicts (f :: todo) v ->
  (f :: todo <> [] -> f_body <$> last (f :: todo) = lastb) ->
  progress (log ++ cycles (f :: todo)) future v lastb
    (length (rx (socket cmd))) (command_read_event fuel cmd).
Proof.
  intros Hsteady Hloc Heq Hwf Hv Hlast.
  pose proof (as_ev_command_read_progress cmd log f todo c future v lastb
                Hsteady Hloc Heq Hwf Hv Hlast) as Hp.
  assert (Hquiet : forall c1, ctx (socket c1) = false ->
                     (0 <? as_tls_read_pending (socket c1)) = false).
  { intros c1 Hctx. apply Z.ltb_ge. apply no_tls_pending. exact Hctx. }
  destruct fuel; cbn [command_read_event];
    (destruct (as_ev_command_read cmd) as [rv cmd1| |]; [|exact Hp..]);
    pose proof (progress_plain _ _ _ _ _ _ _ Hp) as Hctx;
    destruct rv; try exact Hp;
    specialize (Hctx eq_refl);
    try (rewrite (Hquiet cmd1 Hctx); exact Hp);
    (assert (Hctx' : ctx (socket (as_ev_watch_read cmd1)) = false)
       by (unfold as_ev_watch_read; destruct (_ =? _); exact Hctx));
    rewrite (Hquiet _ Hctx'); apply progress_watch_read; exact Hp.
Qed.

(** The callback repeated for as long as bytes are left on the socket. *)
Lemma while_readable_progress fuel : forall cmd log f todo c future v lastb,
  steady cmd -> located log (f :: todo) c cmd ->
  rx (socket cmd) ++ future = expected (f :: todo) c ->
  Forall frame_wf (f :: todo) -> verdicts (f :: todo) v ->
  (f :: todo <> [] -> f_body <$> last (f :: todo) = lastb) ->
  (length (rx (socket cmd)) <= fuel)%nat ->
  progress (log ++ cycles (f :: todo)) future v lastb 0
    (while_readable fuel cmd).
Proof.
  induction fuel as [|fuel IH];
    intros cmd log f todo c future v lastb Hsteady Hloc Heq Hwf Hv Hlast Hfuel;
    pose proof (command_read_event_progress tls_turns cmd log f todo c future
                  v lastb Hsteady Hloc Heq Hwf Hv Hlast) as Hp;
    cbn [while_readable];
    (destruct (command_read_event tls_turns cmd) as [rv cmd1| |]; [|exact Hp..]);
    cbn [progress] in Hp |- *;
    (destruct (ended rv) eqn:Hend; [cbn [progress]; rewrite Hend; exact Hp|]);
    destruct Hp as (log' & fs' & c' & Hs & Hloc' & Htot & Hexp & Hwf' & Hv'
                    & Hlast' & Hb);
    (destruct (rx (socket cmd1)) as [|b bytes] eqn:Hrx1;
     [ cbn [progress]; rewrite Hend; exists log', fs', c';
       rewrite Hrx1; repeat split; try assumption; try apply Hs;
       left; reflexivity |]);
    (destruct Hb as [Hb|Hb]; [discriminate|]).
  - cbn [length] in Hb. lia.
  - destruct fs' as [|f' todo']; [discriminate|].
    rewrite <- Htot.
    apply (IH cmd1 log' f' todo' c'); try assumption.
    + rewrite Hrx1. exact Hexp.
    + rewrite Hrx1. cbn [length] in *. lia.
Qed.

Lemma deliver_progress total v lastb out segment future :
  progress total (segment ++ future) v lastb 0 out ->
  progress total future v lastb 0 (deliver out segment).
Proof.
  destruct out as [rv cmd| |]; [|exact id..].
  intros Hp. unfold deliver. cbn [progress] in Hp.
  destruct (ended rv) eqn:Hend.
  - cbn [progress]. rewrite Hend.
    destruct Hp as (Hrv & Hfin & Hnil & Hrest).
    apply app_eq_nil in Hnil as [_ ->]. repeat split; try assumption; apply Hrest.
  - destruct segment as [|b seg]; [cbn [progress]; rewrite Hend; exact Hp|].
    destruct Hp as (log' & fs' & c' & Hs & Hloc' & Htot & Hexp & Hwf' & Hv'
                    & Hlast' & Hb).
    destruct fs' as [|f' todo'].
    { cbn [expected] in Hexp. apply app_eq_nil in Hexp as [_ Hexp].
      discriminate. }
    rewrite <- Htot.
    apply (while_readable_progress _ _ log' f' todo' c'); try assumption.
    + cbn [arrival socket set_socket rx]. rewrite <- app_assoc. exact Hexp.
    + apply Nat.le_refl.
Qed.

Lemma receive_progress total v lastb segments : forall out,
  progress total (concat segments) v lastb 0 out ->
  progress total [] v lastb 0 (fold_left deliver segments out).
Proof.
  induction segments as [|segment segments IH]; intros out Hp; [exact Hp|].
  cbn [fold_left]. apply IH. apply deliver_progress. exact Hp.
Qed.

Lemma verdicts_snoc frames f :
  Forall (fun g => P (f_body g) = false) frames ->
  verdicts (frames ++ [f]) (P (f_body f)).
Proof.
  induction 1 as [|g frames Hg _ IH]; [reflexivity|].
  cbn [app verdicts] in *.
  destruct (frames ++ [f]) as [|h rest] eqn:Hfs;
    [destruct frames; discriminate|].
  split; assumption.
Qed.

(** All of the response has arrived, in whatever segments: every block's
    header and body have been read once; the command is done when the
    parser is finished with the last block, and back at a header when
    not. *)
Lemma receive_blocks cmd frames f segments :
  steady cmd ->
  state cmd = AS_ASYNC_STATE_COMMAND_READ_HEADER ->
  len cmd = AS_PROTO_SIZE -> pos cmd = 0 -> rx (socket cmd) = [] ->
  Forall frame_wf (frames ++ [f]) ->
  Forall (fun g => P (f_body g) = false) frames ->
  concat segments = on_wire (frames ++ [f]) ->
  exists rv cmd',
    receive segments cmd = EvReturn rv cmd'
    /\ completed cmd' = completed cmd ++ cycles (frames ++ [f])
    /\ rx (socket cmd') = []
    /\ if P (f_body f)
       then rv = AS_EVENT_COMMAND_DONE /\ block cmd' = f_body f
       else ended rv = false
            /\ state cmd' = AS_ASYNC_STATE_COMMAND_READ_HEADER
            /\ pos cmd' = 0 /\ len cmd' = AS_PROTO_SIZE.
Proof.
  intros Hsteady Hstate Hlen Hpos Hrx Hwf Hmore Hcut.
  pose proof (receive_progress (completed cmd ++ cycles (frames ++ [f]))
                (P (f_body f)) (Some (f_body f)) segments
                (EvReturn AS_EVENT_READ_INCOMPLETE cmd)) as Hp.
  fold (receive segments cmd) in Hp.
  destruct (receive segments cmd) as [rv cmd'| |].
  2,3: exfalso; apply Hp; cbn [progress ended];
       exists (completed cmd), (frames ++ [f]), (InHeader 0);
       repeat split; try assumption; try apply Hsteady;
       [ apply located_header; try assumption; reflexivity
       | rewrite Hrx, expected_header; exact Hcut
       | apply verdicts_snoc; exact Hmore
       | intros _; rewrite last_snoc; reflexivity
       | left; exact Hrx ].
  exists rv, cmd'. split; [reflexivity|].
  cbn [progress] in Hp.
  assert (Hstart : exists log' fs' c',
             steady cmd /\ located log' fs' c' cmd
             /\ log' ++ cycles fs' = completed cmd ++ cycles (frames ++ [f])
             /\ rx (socket cmd) ++ concat segments = expected fs' c'
             /\ Forall frame_wf fs' /\ verdicts fs' (P (f_body f))
             /\ (fs' <> [] -> f_body <$> last fs' = Some (f_body f))
             /\ (rx (socket cmd) = [] \/ (length (rx (socket cmd)) < 0)%nat)).
  { exists (completed cmd), (frames ++ [f]), (InHeader 0).
    repeat split; try assumption; try apply Hsteady.
    - apply located_header; try assumption; reflexivity.
    - rewrite Hrx, expected_header. exact Hcut.
    - apply verdicts_snoc. exact Hmore.
    - intros _. rewrite last_snoc. reflexivity.
    - left. exact Hrx. }
  specialize (Hp Hstart). clear Hstart.
  destruct (ended rv) eqn:Hend.
  - destruct Hp as (-> & -> & _ & Hrx' & Hlog' & Hblock).
    repeat split; try assumption. congruence.
  - destruct Hp as (log' & fs' & c' & Hs & Hloc' & Htot & Hexp & Hwf' & Hv'
                    & Hlast' & Hb).
    assert (Hrx' : rx (socket cmd') = []) by (destruct Hb; [assumption|lia]).
    rewrite Hrx' in Hexp. cbn [app] in Hexp.
    destruct fs' as [|f' todo'].
    + cbn [verdicts] in Hv'. rewrite Hv'.
      cbn [cycles flat_map] in Htot. rewrite app_nil_r in Htot.
      destruct c' as [k|k]; cbn [located] in Hloc'; [|contradiction].
      destruct Hloc' as (Hst' & Hlen' & Hpos' & _ & Hlog').
      repeat split; try assumption. congruence.
    + exfalso. apply (expected_nonempty f' todo' c' cmd' log' Hwf' Hloc').
      symmetry. exact Hexp.
Qed.

(** A block of the size of an end block that has arrived whole is read
    and parsed by the look for the next block itself. *)
Lemma as_ev_command_peek_block_end_sized cmd f rest :
  steady cmd -> frame_wf f ->
  Z.of_nat (length (f_body f)) = AS_MSG_SIZE ->
  rx (socket cmd) = f_hdr f ++ f_body f ++ rest ->
  exists cmd',
    as_ev_command_peek_block cmd
    = EvReturn (if P (f_body f) then AS_EVENT_COMMAND_DONE
                else AS_EVENT_READ_COMPLETE) cmd'
    /\ completed cmd' = completed cmd ++ cycles [f]
    /\ rx (socket cmd') = rest
    /\ take (length (f_body f)) (buf cmd') = f_body f
    /\ pos cmd' = 0
    /\ if P (f_body f)
       then state cmd' = AS_ASYNC_STATE_COMMAND_READ_BODY
            /\ block cmd' = f_body f
       else state cmd' = AS_ASYNC_STATE_COMMAND_READ_HEADER
            /\ len cmd' = AS_PROTO_SIZE.
Proof.
  intros Hsteady Hf Hend Hrx.
  pose proof Hf as (Hh & Hparse & Hplain & Hsize).
  unfold as_ev_command_peek_block.
  set (cmd0 := set_progress cmd AS_ASYNC_STATE_COMMAND_READ_HEADER AS_PROTO_SIZE 0).
  assert (Hsteady0 : steady cmd0) by exact Hsteady.
  assert (Hcap0 : AS_MSG_SIZE <= read_capacity cmd0) by apply Hsteady.
  assert (Hlen0 : len cmd0 = Z.of_nat (length (f_hdr f)))
    by (rewrite Hh; reflexivity).
  destruct (read_unit cmd0 (f_hdr f) [] (f_body f ++ rest) 0%nat
              Hsteady0 eq_refl Hlen0)
    as (cmd1 & Hs1 & Hst1 & Hlen1 & Hty1 & Hcap1 & Hrun);
    try reflexivity;
    try (cbn [len cmd0 set_progress]; rewrite ?Hh;
         unfold AS_PROTO_SIZE, AS_MSG_SIZE in *; lia).
  { change (rx (socket cmd0)) with (rx (socket cmd)).
    rewrite Hrx, app_nil_r. reflexivity. }
  change (rx (socket cmd0)) with (rx (socket cmd)) in *.
  change (completed cmd0) with (completed cmd) in *.
  rewrite Nat.sub_0_r, Hrx in Hrun.
  destruct (Nat.ltb_spec (length (f_hdr f ++ f_body f ++ rest))
              (length (f_hdr f))) as [Hshort|_];
    [rewrite length_app in Hshort; lia|].
  destruct Hrun as (-> & Hlog1 & Htake & Hrx1 & _).
  rewrite app_nil_r in Hrx1.
  rewrite (header_parsed cmd1 f Hf Htake).
  set (cmd2 := set_progress (set_proto_type_rcv cmd1 (f_type f))
                 AS_ASYNC_STATE_COMMAND_READ_BODY
                 (Z.of_nat (length (f_body f))) 0).
  assert (Hs2 : steady cmd2) by exact Hs1.
  change (proto_type_rcv cmd2) with (f_type f).
  change (len cmd2) with (Z.of_nat (length (f_body f))).
  destruct (Z.eqb_spec (f_type f) AS_COMPRESSED_MESSAGE_TYPE) as [|_];
    [contradiction|].
  destruct (Z.eqb_spec (Z.of_nat (length (f_body f))) AS_MSG_SIZE) as [_|];
    [|contradiction].
  cbn [negb andb].
  destruct (read_unit cmd2 (f_body f) [] rest 0%nat Hs2)
    as (cmd3 & Hs3 & Hst3 & Hlen3 & Hty3 & Hcap3 & Hrun);
    try reflexivity;
    try (cbn [len cmd2 set_progress]; lia).
  { cbn [len cmd2 set_progress]. rewrite Hend.
    change (read_capacity cmd2) with (read_capacity cmd1).
    rewrite Hcap1. exact Hcap0. }
  { change (rx (socket cmd2)) with (rx (socket cmd1)).
    rewrite Hrx1, app_nil_r. reflexivity. }
  change (rx (socket cmd2)) with (rx (socket cmd1)) in *.
  rewrite Nat.sub_0_r, Hrx1 in Hrun.
  destruct (Nat.ltb_spec (length (f_body f ++ rest)) (length (f_body f)))
    as [Hshort|_]; [rewrite length_app in Hshort; lia|].
  destruct Hrun as (-> & Hlog3 & Htake3 & Hrx3 & _).
  rewrite app_nil_r in Hrx3.
  assert (Hblock : block (set_pos cmd3 0) = f_body f).
  { unfold block. cbn [len buf set_pos set_progress].
    rewrite Hlen3. cbn [len cmd2 set_progress].
    rewrite Nat2Z.id. exact Htake3. }
  rewrite Hblock.
  assert (HP3 : parse_results (set_pos cmd3 0) = P) by apply Hs3.
  rewrite HP3.
  assert (Hlog' : completed cmd3 = completed cmd ++ cycles [f]).
  { rewrite Hlog3. change (completed cmd2) with (completed cmd1).
    rewrite Hlog1, <- app_assoc. reflexivity. }
  destruct (P (f_body f)); cbn [negb]; eexists; (split; [reflexivity|]);
    repeat split; try assumption.
Qed.

End Blocks.






(** Done is reported by the step alone: the callback and the loop around
    it pass it on. *)
Lemma command_read_event_done fuel : forall cmd cmd',
  command_read_event fuel cmd = EvReturn AS_EVENT_COMMAND_DONE cmd' ->
  parse_results cmd' (block cmd') = true.
Proof.
  induction fuel as [|fuel IH]; intros cmd cmd'; cbn [command_read_event];
    destruct (as_ev_command_read cmd) as [rv c1| |] eqn:Hstep;
    try discriminate;
    destruct rv; try discriminate;
    try (intros [= <-]; exact (as_ev_command_read_done _ _ Hstep));
    destruct (0 <? _); try discriminate; apply IH.
Qed.

Lemma while_readable_done fuel : forall cmd cmd',
  while_readable fuel cmd = EvReturn AS_EVENT_COMMAND_DONE cmd' ->
  parse_results cmd' (block cmd') = true.
Proof.
  induction fuel as [|fuel IH]; intros cmd cmd'; cbn [while_readable];
    destruct (command_read_event tls_turns cmd) as [rv c1| |] eqn:Hstep;
    try discriminate;
    (destruct (ended rv) eqn:Hend;
     [ intros [= -> ->]; exact (command_read_event_done _ _ _ Hstep) |]);
    destruct (rx (socket c1));
    try (intros [= -> ->]; discriminate); try discriminate; apply IH.
Qed.

Lemma receive_done segments : forall out cmd',
  (forall c, out = EvReturn AS_EVENT_COMMAND_DONE c ->
             parse_results c (block c) = true) ->
  fold_left deliver segments out = EvReturn AS_EVENT_COMMAND_DONE cmd' ->
  parse_results cmd' (block cmd') = true.
Proof.
  induction segments as [|segment segments IH]; intros out cmd' Hout;
    cbn [fold_left]; [apply Hout|].
  apply IH. intros c. unfold deliver.
  destruct out as [rv c0| |]; try discriminate.
  destruct (ended rv) eqn:Hend; [apply Hout|].
  destruct segment; [apply Hout|]. apply while_readable_done.
Qed.


End Read.

(** *** A sample stream *)

(** The service collaborators of the sample: no retry, headers decoded as
    in the info protocol, identity decompression, zeroed blocks, and a TLS
    layer that is not there. *)
Definition no_retry (cmd : as_event_command) : bool := false.
Definition decode_header (hdr : list byte) : option (Z * Z) :=
  let proto := Info.as_proto_from_wire hdr in
  Some (Info.proto_type proto, Info.proto_sz proto).
Definition no_compression (cmd : as_event_command) : option as_event_command :=
  Some cmd.
Definition zeroed (i : nat) : byte := x00.
Definition no_tls_read (s : ev_socket) (count : Z)
  : Z * list byte * ev_socket := (-3, [], s).
Definition no_tls_pending (s : ev_socket) : Z := 0.

(** [AS_MESSAGE_TYPE] of [as_proto.h]. *)
Definition AS_MESSAGE_TYPE : Z := 3.

Definition block_header (sz : Z) : list byte :=
  Info.as_proto_to_wire {| Info.proto_version := 2;
                           Info.proto_type := AS_MESSAGE_TYPE;
                           Info.proto_sz := sz |}.

(** A message header of 22 bytes with the given [info3] byte. *)
Definition msg_header (info3 : byte) : list byte :=
  [x16; x00; x00; info3] ++ List.repeat x00 18.

(** A parser that is finished when the block carries the "last" bit in
    [info3]. *)
Definition last_block (b : list byte) : bool :=
  match b !! 3%nat with
  | Some info3 => Z.testbit (Info.Z_of_byte info3) 0
  | None => false
  end.

Definition data_block : list byte := msg_header x00 ++ List.repeat x2a 8.
Definition end_block : list byte := msg_header x01.

Definition waiting (stream : list byte) : as_event_command :=
  {| state := AS_ASYNC_STATE_COMMAND_READ_HEADER; len := AS_PROTO_SIZE;
     pos := 0; buf := List.repeat x00 64; read_capacity := 64; flags := 0;
     proto_type_rcv := 0; pipe_listener := false; parse_results := last_block;
     socket := {| ctx := false; rx := stream; empty := WouldBlock |};
     watching := EV_READ; completed := []; failure := None |}.

Definition data_frame : frame :=
  {| f_hdr := block_header 30; f_type := AS_MESSAGE_TYPE; f_body := data_block |}.
Definition end_frame : frame :=
  {| f_hdr := block_header 22; f_type := AS_MESSAGE_TYPE; f_body := end_block |}.

Definition two_block_stream : list byte :=
  block_header 30 ++ data_block ++ block_header 22 ++ end_block.

(** The two blocks in four segments: the first ends inside the first
    header, the second inside the second header, the third inside the body
    of the end block. *)
Definition two_block_segments : list (list byte) :=
  [ take 5 two_block_stream;
    take 35 (drop 5 two_block_stream);
    take 10 (drop 40 two_block_stream);
    drop 50 two_block_stream ].

Definition sample_step : as_event_command -> ev_outcome :=
  as_ev_command_read no_retry decode_header no_compression zeroed no_tls_read
    0%nat.

Definition sample_receive
  : list (list byte) -> as_event_command -> ev_outcome :=
  receive no_retry decode_header no_compression zeroed no_tls_read
    no_tls_pending 0%nat.


(** What a step returned, seen from outside: the code, the state, [pos],
    [len] and the number of completed reads. *)
Definition summary (out : ev_outcome)
  : option (as_event_rv * as_async_state * Z * Z * nat) :=
  match out with
  | EvReturn rv cmd =>
      Some (rv, state cmd, pos cmd, len cmd, length (completed cmd))
  | EvOutOfBounds | EvNoFuel => None
  end.

(** A payload that merely has the size of an end block: the parser is not
    finished, and the command goes back to reading a header. *)
Example end_sized_payload_loops_back :
  summary (sample_step (waiting (block_header 30 ++ data_block
                                 ++ block_header 22 ++ msg_header x00)))
  = Some (AS_EVENT_READ_COMPLETE, AS_ASYNC_STATE_COMMAND_READ_HEADER, 0,
          AS_PROTO_SIZE, 4%nat).
Proof. vm_compute. reflexivity. Qed.

(** A second data block of another size is not read in the same step. *)
Example data_block_waits :
  summary (sample_step (waiting (block_header 30 ++ data_block
                                 ++ block_header 30 ++ data_block)))
  = Some (AS_EVENT_READ_COMPLETE, AS_ASYNC_STATE_COMMAND_READ_BODY, 0, 30,
          3%nat).
Proof. vm_compute. reflexivity. Qed.

(** The terminal block has not arrived yet: the step ends incomplete in the
    header state and leaves the socket watched for reading. *)
Example terminal_block_pending :
  summary (sample_step (waiting (block_header 30 ++ data_block)))
  = Some (AS_EVENT_READ_INCOMPLETE, AS_ASYNC_STATE_COMMAND_READ_HEADER, 0,
          AS_PROTO_SIZE, 2%nat).
Proof. vm_compute. reflexivity. Qed.

(** The body of the end block arrives in two segments: after the first the
    command waits in the body state with ten of its bytes, and the step
    that the second segment brings about, entered in that state, is the
    one that reports done. *)
Example end_block_in_two_segments :
  summary (sample_receive [take 56 two_block_stream] (waiting []))
  = Some (AS_EVENT_READ_INCOMPLETE, AS_ASYNC_STATE_COMMAND_READ_BODY, 10,
          AS_MSG_SIZE, 3%nat)
  /\ summary (sample_receive [take 56 two_block_stream;
                              drop 56 two_block_stream] (waiting []))
     = Some (AS_EVENT_COMMAND_DONE, AS_ASYNC_STATE_COMMAND_READ_BODY, 0,
             AS_MSG_SIZE, 4%nat).
Proof. split; vm_compute; reflexivity. Qed.

(** The same segments with a payload that merely has the size of an end
    block: the step entered in the body state is not done, and the command
    waits for the next header. *)
Example end_sized_payload_in_two_segments :
  summary (sample_receive
             [take 56 (block_header 30 ++ data_block
                       ++ block_header 22 ++ msg_header x00);
              drop 56 (block_header 30 ++ data_block
                       ++ block_header 22 ++ msg_header x00)] (waiting []))
  = Some (AS_EVENT_READ_INCOMPLETE, AS_ASYNC_STATE_COMMAND_READ_HEADER, 0,
          AS_PROTO_SIZE, 4%nat).
Proof. vm_compute. reflexivity. Qed.

End EvCommand.

(** ** Policies: defaults and resolution *)

Module Policy.

(** The policy structures of [as_policy.h] with the fields that
    [as_policy.c] and [_policy.c] assign.  A field of an enumeration type is
    kept as the [int] that C tests against zero. *)
Record as_policy_read : Type := mk_policy_read {
  read_timeout : Z;
  read_key : Z
}.

Record as_policy_write : Type := mk_policy_write {
  write_timeout : Z;
  write_mode : Z;
  write_key : Z;
  write_gen : Z;
  write_exists : Z
}.

Record as_policy_operate : Type := mk_policy_operate {
  operate_timeout : Z;
  operate_generation : Z;
  operate_mode : Z;
  operate_key : Z;
  operate_gen : Z
}.

Record as_policy_scan : Type := mk_policy_scan {
  scan_timeout : Z;
  scan_fail_on_cluster_change : bool
}.

Record as_policy_query : Type := mk_policy_query {
  query_timeout : Z
}.

Record as_policy_info : Type := mk_policy_info {
  info_timeout : Z;
  info_send_as_is : bool;
  info_check_bounds : bool
}.

Record as_policies : Type := mk_policies {
  timeout : Z;
  mode : Z;
  key : Z;
  gen : Z;
  exists_policy : Z;
  write : as_policy_write;
  read : as_policy_read;
  operate : as_policy_operate;
  scan : as_policy_scan;
  query : as_policy_query;
  info : as_policy_info
}.

(** What C takes for true in the condition of [?:]: a non-zero integer, a
    [true] boolean. *)
Class Truthy (A : Type) : Type := truthy : A -> bool.

#[export] Instance Z_truthy : Truthy Z := fun x => negb (x =? 0).
#[export] Instance bool_truthy : Truthy bool := fun b => b.

(** The macro [as_policy_resolve(__field, __global, __local, __default)]:
    [(__local && __local->__field ? __local->__field :
      (__global.__field ? __global.__field : __default))];
    [None] is the null [__local]. *)
Definition as_policy_resolve {P A : Type} `{Truthy A} (field : P -> A)
    (global : P) (local : option P) (default : A) : A :=
  match local with
  | Some l =>
      if truthy (field l) then field l
      else if truthy (field global) then field global else default
  | None => if truthy (field global) then field global else default
  end.

Section Defaults.

(** The members of the policy enumerations that [as_policy.c] names. *)
Variable AS_POLICY_KEY_UNDEF AS_POLICY_KEY_DIGEST : Z.
Variable AS_POLICY_WRITEMODE_UNDEF AS_POLICY_WRITEMODE_RETRY : Z.
Variable AS_POLICY_GEN_UNDEF AS_POLICY_GEN_IGNORE : Z.
Variable AS_POLICY_EXISTS_UNDEF AS_POLICY_EXISTS_IGNORE : Z.

(** Initialize as_policy_read to default values. *)
Definition as_policy_read_init (p : as_policy_read) : as_policy_read :=
  {| read_timeout := 0; read_key := AS_POLICY_KEY_UNDEF |}.

(** Initialize as_policy_write to default values. *)
Definition as_policy_write_init (p : as_policy_write) : as_policy_write :=
  {| write_timeout := 0; write_mode := AS_POLICY_WRITEMODE_UNDEF;
     write_key := AS_POLICY_KEY_UNDEF; write_gen := AS_POLICY_GEN_UNDEF;
     write_exists := AS_POLICY_EXISTS_UNDEF |}.

Definition as_policy_operate_init (p : as_policy_operate) : as_policy_operate :=
  {| operate_timeout := 0; operate_generation := 0;
     operate_mode := AS_POLICY_WRITEMODE_UNDEF;
     operate_key := AS_POLICY_KEY_UNDEF; operate_gen := AS_POLICY_GEN_UNDEF |}.

(** Initialize as_policy_scan to default values. *)
Definition as_policy_scan_init (p : as_policy_scan) : as_policy_scan :=
  {| scan_timeout := 0; scan_fail_on_cluster_change := true |}.

(** Initialize as_policy_query to default values. *)
Definition as_policy_query_init (p : as_policy_query) : as_policy_query :=
  {| query_timeout := 0 |}.

(** Initialize as_policy_info to default values. *)
Definition as_policy_info_init (p : as_policy_info) : as_policy_info :=
  {| info_timeout := 0; info_send_as_is := true; info_check_bounds := true |}.

(** Initialize as_policies to default values. *)
Definition as_policies_init (p : as_policies) : as_policies :=
  {| timeout := 1000;
     mode := AS_POLICY_WRITEMODE_RETRY;
     key := AS_POLICY_KEY_DIGEST;
     gen := AS_POLICY_GEN_IGNORE;
     exists_policy := AS_POLICY_EXISTS_IGNORE;
     write := as_policy_write_init (write p);
     read := as_policy_read_init (read p);
     operate := as_policy_operate_init (operate p);
     scan := as_policy_scan_init (scan p);
     query := as_policy_query_init (query p);
     info := as_policy_info_init (info p) |}.

End Defaults.

(** *** Resolve policy values from global and local policy *)

Definition as_policy_read_resolve (p : as_policy_read) (global : as_policies)
    (local : option as_policy_read) : as_policy_read :=
  {| read_timeout :=
       as_policy_resolve read_timeout (read global) local (timeout global);
     read_key := as_policy_resolve read_key (read global) local (key global) |}.

(** [exists] is not assigned: the field keeps what [p] held. *)
Definition as_policy_write_resolve (p : as_policy_write) (global : as_policies)
    (local : option as_policy_write) : as_policy_write :=
  {| write_timeout :=
       as_policy_resolve write_timeout (write global) local (timeout global);
     write_mode := as_policy_resolve write_mode (write global) local (mode global);
     write_key := as_policy_resolve write_key (write global) local (key global);
     write_gen := as_policy_resolve write_gen (write global) local (gen global);
     write_exists := write_exists p |}.

Definition as_policy_operate_resolve (p : as_policy_operate)
    (global : as_policies) (local : option as_policy_operate)
  : as_policy_operate :=
  {| operate_timeout :=
       as_policy_resolve operate_timeout (operate global) local (timeout global);
     operate_generation :=
       match local with Some l => operate_generation l | None => 0 end;
     operate_mode :=
       as_policy_resolve operate_mode (operate global) local (mode global);
     operate_key :=
       as_policy_resolve operate_key (operate global) local (key global);
     operate_gen :=
       as_policy_resolve operate_gen (operate global) local (gen global) |}.

Definition as_policy_scan_resolve (p : as_policy_scan) (global : as_policies)
    (local : option as_policy_scan) : as_policy_scan :=
  {| scan_timeout :=
       as_policy_resolve scan_timeout (scan global) local (timeout global);
     scan_fail_on_cluster_change :=
       as_policy_resolve scan_fail_on_cluster_change (scan global) local true |}.

Definition as_policy_query_resolve (p : as_policy_query) (global : as_policies)
    (local : option as_policy_query) : as_policy_query :=
  {| query_timeout :=
       as_policy_resolve query_timeout (query global) local (timeout global) |}.

Definition as_policy_info_resolve (p : as_policy_info) (global : as_policies)
    (local : option as_policy_info) : as_policy_info :=
  {| info_timeout :=
       as_policy_resolve info_timeout (info global) local (timeout global);
     info_send_as_is :=
       as_policy_resolve info_send_as_is (info global) local true;
     info_check_bounds :=
       as_policy_resolve info_check_bounds (info global) local true |}.

(** *** Properties *)

(** A boolean field resolved with the default [true] is [true] whatever the
    policies hold: a [false] never passes the truth test of the macro. *)
Lemma as_policy_resolve_true {P : Type} (field : P -> bool) global local :
  as_policy_resolve field global local true = true.
Proof.
  unfold as_policy_resolve, truthy, bool_truthy.
  destruct local as [l|]; [destruct (field l); [reflexivity|] |];
    destruct (field global); reflexivity.
Qed.

(** An integer field: the local value when it is set, else the global
    value of the operation when it is set, else the default. *)
Lemma as_policy_resolve_unset {P : Type} (field : P -> Z) global local default :
  field global = 0 ->
  as_policy_resolve field global local default
  = match local with
    | Some l => if field l =? 0 then default else field l
    | None => default
    end.
Proof.
  intros Hg. unfold as_policy_resolve, truthy, Z_truthy. rewrite Hg.
  destruct local as [l|]; [destruct (field l =? 0)|]; reflexivity.
Qed.

(** The scan and info switches cannot be turned off through the policies:
    whatever the local and the global policy say, the resolved
    [fail_on_cluster_change], [send_as_is] and [check_bounds] are true. *)
Theorem resolved_switches_always_on (global : as_policies)
    (ps : as_policy_scan) (ls : option as_policy_scan)
    (pi : as_policy_info) (li : option as_policy_info) :
  scan_fail_on_cluster_change (as_policy_scan_resolve ps global ls) = true
  /\ info_send_as_is (as_policy_info_resolve pi global li) = true
  /\ info_check_bounds (as_policy_info_resolve pi global li) = true.
Proof.
  unfold as_policy_scan_resolve, as_policy_info_resolve.
  cbn [scan_fail_on_cluster_change info_send_as_is info_check_bounds].
  repeat split; apply as_policy_resolve_true.
Qed.

(** The value an operation gets for a field that the caller may set. *)
Definition chosen (local : option Z) (default : Z) : Z :=
  match local with
  | Some v => if v =? 0 then default else v
  | None => default
  end.

(** Against freshly initialised global policies, every operation resolves
    to the global defaults (timeout 1000, retrying writes, digest keys,
    generation ignored) wherever the local policy is absent or leaves the
    field unset, and to the local value wherever it is set.  The "unset"
    members of the enumerations are the ones that are zero. *)
Theorem as_policies_init_resolves_to_defaults
    (KEY_UNDEF KEY_DIGEST MODE_UNDEF MODE_RETRY GEN_UNDEF GEN_IGNORE
     EXISTS_UNDEF EXISTS_IGNORE : Z)
    (g0 : as_policies)
    (pr : as_policy_read) (lr : option as_policy_read)
    (pw : as_policy_write) (lw : option as_policy_write)
    (po : as_policy_operate) (lo : option as_policy_operate)
    (ps : as_policy_scan) (ls : option as_policy_scan)
    (pq : as_policy_query) (lq : option as_policy_query)
    (pi : as_policy_info) (li : option as_policy_info) :
  KEY_UNDEF = 0 -> MODE_UNDEF = 0 -> GEN_UNDEF = 0 ->
  let global := as_policies_init KEY_UNDEF KEY_DIGEST MODE_UNDEF MODE_RETRY
                  GEN_UNDEF GEN_IGNORE EXISTS_UNDEF EXISTS_IGNORE g0 in
  as_policy_read_resolve pr global lr
  = {| read_timeout := chosen (read_timeout <$> lr) 1000;
       read_key := chosen (read_key <$> lr) KEY_DIGEST |}
  /\ as_policy_write_resolve pw global lw
     = {| write_timeout := chosen (write_timeout <$> lw) 1000;
          write_mode := chosen (write_mode <$> lw) MODE_RETRY;
          write_key := chosen (write_key <$> lw) KEY_DIGEST;
          write_gen := chosen (write_gen <$> lw) GEN_IGNORE;
          write_exists := write_exists pw |}
  /\ as_policy_operate_resolve po global lo
     = {| operate_timeout := chosen (operate_timeout <$> lo) 1000;
          operate_generation := default 0 (operate_generation <$> lo);
          operate_mode := chosen (operate_mode <$> lo) MODE_RETRY;
          operate_key := chosen (operate_key <$> lo) KEY_DIGEST;
          operate_gen := chosen (operate_gen <$> lo) GEN_IGNORE |}
  /\ scan_timeout (as_policy_scan_resolve ps global ls)
     = chosen (scan_timeout <$> ls) 1000
  /\ as_policy_query_resolve pq global lq
     = {| query_timeout := chosen (query_timeout <$> lq) 1000 |}
  /\ info_timeout (as_policy_info_resolve pi global li)
     = chosen (info_timeout <$> li) 1000.
Proof.
  intros -> -> -> global. subst global.
  unfold as_policy_read_resolve, as_policy_write_resolve,
    as_policy_operate_resolve, as_policy_scan_resolve,
    as_policy_query_resolve, as_policy_info_resolve.
  cbn [as_policies_init read write operate scan query info timeout key mode gen
       scan_timeout info_timeout].
  rewrite !as_policy_resolve_unset by reflexivity.
  repeat split; f_equal;
    try (destruct lr; reflexivity); try (destruct lw; reflexivity);
    try (destruct lo; reflexivity); try (destruct ls; reflexivity);
    try (destruct lq; reflexivity); try (destruct li; reflexivity).
Qed.

Definition blank_policies : as_policies :=
  {| timeout := 7; mode := 7; key := 7; gen := 7; exists_policy := 7;
     write := {| write_timeout := 7; write_mode := 7; write_key := 7;
                 write_gen := 7; write_exists := 7 |};
     read := {| read_timeout := 7; read_key := 7 |};
     operate := {| operate_timeout := 7; operate_generation := 7;
                   operate_mode := 7; operate_key := 7; operate_gen := 7 |};
     scan := {| scan_timeout := 7; scan_fail_on_cluster_change := false |};
     query := {| query_timeout := 7 |};
     info := {| info_timeout := 7; info_send_as_is := false;
                info_check_bounds := false |} |}.

Definition sample_local_read : as_policy_read :=
  {| read_timeout := 250; read_key := 0 |}.

Definition sample_unset_write : as_policy_write :=
  {| write_timeout := 0; write_mode := 0; write_key := 0; write_gen := 0;
     write_exists := 2 |}.

Lemma as_policies_init_resolves_to_defaults_witness :
  let global := as_policies_init 0 1 0 3 0 1 0 1 blank_policies in
  as_policy_read_resolve sample_local_read global (Some sample_local_read)
  = {| read_timeout := 250; read_key := 1 |}
  /\ as_policy_write_resolve sample_unset_write global None
     = {| write_timeout := 1000; write_mode := 3; write_key := 1;
          write_gen := 1; write_exists := 2 |}
  /\ as_policy_operate_resolve (operate blank_policies) global None
     = {| operate_timeout := 1000; operate_generation := 0; operate_mode := 3;
          operate_key := 1; operate_gen := 1 |}
  /\ scan_timeout (as_policy_scan_resolve (scan blank_policies) global None)
     = 1000
  /\ as_policy_query_resolve (query blank_policies) global None
     = {| query_timeout := 1000 |}
  /\ info_timeout (as_policy_info_resolve (info blank_policies) global None)
     = 1000.
Proof.
  apply (as_policies_init_resolves_to_defaults 0 1 0 3 0 1 0 1 blank_policies
           sample_local_read (Some sample_local_read)
           sample_unset_write None (operate blank_policies) None
           (scan blank_policies) None (query blank_policies) None
           (info blank_policies) None); reflexivity.
Defined.

End Policy.

(** ** Write parameters of the legacy API *)

Module WriteParameters.

Inductive cl_write_policy : Type :=
| CL_WRITE_ASYNC
| CL_WRITE_ONESHOT
| CL_WRITE_RETRY
| CL_WRITE_ASSURED.

(** write info structure *)
Record cl_write_parameters : Type := mk_write_parameters {
  unique : bool;
  unique_bin : bool;
  update_only : bool;
  create_or_replace : bool;
  replace_only : bool;
  bin_replace_only : bool;
  use_generation : bool;
  use_generation_gt : bool;
  use_generation_dup : bool;
  generation : Z;
  timeout_ms : Z;
  record_ttl : Z;
  w_pol : cl_write_policy
}.

(** Every field is assigned but [generation], which keeps what the
    structure held. *)
Definition cl_write_parameters_set_default (cl_w_p : cl_write_parameters)
  : cl_write_parameters :=
  {| unique := false; unique_bin := false; update_only := false;
     create_or_replace := false; replace_only := false;
     bin_replace_only := false; use_generation := false;
     use_generation_gt := false; use_generation_dup := false;
     generation := generation cl_w_p;
     timeout_ms := 0; record_ttl := 0; w_pol := CL_WRITE_RETRY |}.

Definition cl_write_parameters_set_generation (cl_w_p : cl_write_parameters)
    (g : Z) : cl_write_parameters :=
  {| unique := unique cl_w_p; unique_bin := unique_bin cl_w_p;
     update_only := update_only cl_w_p;
     create_or_replace := create_or_replace cl_w_p;
     replace_only := replace_only cl_w_p;
     bin_replace_only := bin_replace_only cl_w_p;
     use_generation := true;
     use_generation_gt := use_generation_gt cl_w_p;
     use_generation_dup := use_generation_dup cl_w_p;
     generation := g;
     timeout_ms := timeout_ms cl_w_p; record_ttl := record_ttl cl_w_p;
     w_pol := w_pol cl_w_p |}.

Definition cl_write_parameters_set_generation_gt (cl_w_p : cl_write_parameters)
    (g : Z) : cl_write_parameters :=
  {| unique := unique cl_w_p; unique_bin := unique_bin cl_w_p;
     update_only := update_only cl_w_p;
     create_or_replace := create_or_replace cl_w_p;
     replace_only := replace_only cl_w_p;
     bin_replace_only := bin_replace_only cl_w_p;
     use_generation := use_generation cl_w_p;
     use_generation_gt := true;
     use_generation_dup := use_generation_dup cl_w_p;
     generation := g;
     timeout_ms := timeout_ms cl_w_p; record_ttl := record_ttl cl_w_p;
     w_pol := w_pol cl_w_p |}.

Definition cl_write_parameters_set_generation_dup (cl_w_p : cl_write_parameters)
    (g : Z) : cl_write_parameters :=
  {| unique := unique cl_w_p; unique_bin := unique_bin cl_w_p;
     update_only := update_only cl_w_p;
     create_or_replace := create_or_replace cl_w_p;
     replace_only := replace_only cl_w_p;
     bin_replace_only := bin_replace_only cl_w_p;
     use_generation := use_generation cl_w_p;
     use_generation_gt := use_generation_gt cl_w_p;
     use_generation_dup := true;
     generation := g;
     timeout_ms := timeout_ms cl_w_p; record_ttl := record_ttl cl_w_p;
     w_pol := w_pol cl_w_p |}.

(** *** Properties *)

(** A call of one of the three generation setters. *)
Inductive generation_call : Type :=
| Exact (g : Z)
| Greater (g : Z)
| Duplicate (g : Z).

Definition call_generation (c : generation_call) : Z :=
  match c with Exact g | Greater g | Duplicate g => g end.

Definition is_exact (c : generation_call) : bool :=
  match c with Exact _ => true | _ => false end.
Definition is_greater (c : generation_call) : bool :=
  match c with Greater _ => true | _ => false end.
Definition is_duplicate (c : generation_call) : bool :=
  match c with Duplicate _ => true | _ => false end.

Definition set_by (cl_w_p : cl_write_parameters) (c : generation_call)
  : cl_write_parameters :=
  match c with
  | Exact g => cl_write_parameters_set_generation cl_w_p g
  | Greater g => cl_write_parameters_set_generation_gt cl_w_p g
  | Duplicate g => cl_write_parameters_set_generation_dup cl_w_p g
  end.

(** The setters called one after the other, first call first. *)
Definition set_all (cl_w_p : cl_write_parameters) (calls : list generation_call)
  : cl_write_parameters :=
  fold_left set_by calls cl_w_p.

Lemma last_call_generation c calls p :
  default (generation (set_by p c)) (call_generation <$> last calls)
  = default (generation p) (call_generation <$> last (c :: calls)).
Proof.
  destruct calls as [|c' calls']; [destruct c; reflexivity|].
  change (last (c :: c' :: calls')) with (last (c' :: calls')).
  destruct (last (c' :: calls')) as [g|] eqn:Hl; [reflexivity|].
  apply last_None in Hl. discriminate.
Qed.

Lemma set_all_fields calls : forall p,
  use_generation (set_all p calls) = use_generation p || existsb is_exact calls
  /\ use_generation_gt (set_all p calls)
     = use_generation_gt p || existsb is_greater calls
  /\ use_generation_dup (set_all p calls)
     = use_generation_dup p || existsb is_duplicate calls
  /\ generation (set_all p calls)
     = default (generation p) (call_generation <$> last calls)
  /\ (unique (set_all p calls), unique_bin (set_all p calls),
      update_only (set_all p calls), create_or_replace (set_all p calls),
      replace_only (set_all p calls), bin_replace_only (set_all p calls),
      timeout_ms (set_all p calls), record_ttl (set_all p calls),
      w_pol (set_all p calls))
     = (unique p, unique_bin p, update_only p, create_or_replace p,
        replace_only p, bin_replace_only p, timeout_ms p, record_ttl p, w_pol p).
Proof.
  induction calls as [|c calls IH]; intros p.
  - cbn. rewrite !orb_false_r. repeat split.
  - unfold set_all in *. cbn [fold_left existsb].
    destruct (IH (set_by p c)) as (H1 & H2 & H3 & H4 & H5).
    rewrite H1, H2, H3, H4, H5, last_call_generation.
    destruct c; cbn; rewrite ?orb_true_r, ?orb_false_r, ?orb_true_l;
      repeat split; try reflexivity;
      try (destruct (use_generation p); reflexivity);
      try (destruct (use_generation_gt p); reflexivity);
      try (destruct (use_generation_dup p); reflexivity).
Qed.

(** The generation setters add up and never take back: after
    [cl_write_parameters_set_default] and any sequence of them, each of the
    three generation checks is switched on exactly when its setter was
    called, so several can be on at once, while [generation] holds the value
    of the last call only (and, with no call, whatever the structure held
    before the defaults were set); no other field moves from its default. *)
Theorem generation_setters_accumulate (p : cl_write_parameters)
    (calls : list generation_call) :
  let q := set_all (cl_write_parameters_set_default p) calls in
  use_generation q = existsb is_exact calls
  /\ use_generation_gt q = existsb is_greater calls
  /\ use_generation_dup q = existsb is_duplicate calls
  /\ generation q = default (generation p) (call_generation <$> last calls)
  /\ (unique q, unique_bin q, update_only q, create_or_replace q,
      replace_only q, bin_replace_only q, timeout_ms q, record_ttl q, w_pol q)
     = (false, false, false, false, false, false, 0, 0, CL_WRITE_RETRY).
Proof.
  intros q. subst q.
  destruct (set_all_fields calls (cl_write_parameters_set_default p))
    as (H1 & H2 & H3 & H4 & H5).
  rewrite H1, H2, H3, H4, H5. repeat split.
Qed.

End WriteParameters.

(** ** Single-record commands: routing and cluster features *)

Module KeyApi.

(** *** [aerospike_has_double], [aerospike_has_geo] *)

(** The feature flags of [as_node] that the two functions read. *)
Record as_node : Type := mk_node {
  has_double : bool;
  has_geo : bool
}.

(** The [for] loop shared by the two functions, on the [array] of the
    reserved [as_nodes] from index [i] on: false at the first node without
    the feature. *)
Fixpoint every_node (feature : as_node -> bool) (array : list as_node) : bool :=
  match array with
  | [] => true
  | node :: rest => if negb (feature node) then false else every_node feature rest
  end.

(** [nodes] is the array of the snapshot reserved with [as_nodes_reserve];
    every path releases it once before it returns. *)
Definition aerospike_has_double (nodes : list as_node) : bool :=
  if Z.of_nat (length nodes) =? 0 then false
  else every_node has_double nodes.

Definition aerospike_has_geo (nodes : list as_node) : bool :=
  if Z.of_nat (length nodes) =? 0 then false
  else every_node has_geo nodes.

(** *** The attributes of [aerospike_key_operate] *)

(** [uint8_t] arithmetic. *)
Definition u8 (x : Z) : Z := x mod 2 ^ 8.

(** [as_binop]: the operator and the name of the bin it applies to. *)
Record as_binop : Type := mk_binop {
  op : Z;
  bin : string
}.

(** [as_command_node]; [node] is the node chosen later, null at first. *)
Record as_command_node : Type := mk_command_node {
  cn_node : option nat;
  cn_ns : string;
  cn_digest : list byte;
  cn_replica : Z;
  cn_write : bool
}.

Definition as_command_node_init (ns : string) (digest : list byte)
    (replica : Z) (write : bool) : as_command_node :=
  {| cn_node := None; cn_ns := ns; cn_digest := digest; cn_replica := replica;
     cn_write := write |}.

Section Operate.

(** [AS_OPERATOR_READ] of [as_operations.h]; the attribute bits
    [AS_MSG_INFO1_READ] and [AS_MSG_INFO2_WRITE] of [as_command.h]. *)
Variable AS_OPERATOR_READ : Z.
Variable AS_MSG_INFO1_READ : Z.
Variable AS_MSG_INFO2_WRITE : Z.

(** The loop over [ops->binops] in [aerospike_key_operate] and
    [aerospike_key_operate_async]: the [switch (op->op)] that collects the
    read and the write attribute. *)
Fixpoint operate_attributes (binops : list as_binop) (read_attr write_attr : Z)
  : Z * Z :=
  match binops with
  | [] => (read_attr, write_attr)
  | binop :: rest =>
      if op binop =? AS_OPERATOR_READ
      then operate_attributes rest (u8 (Z.lor read_attr AS_MSG_INFO1_READ))
             write_attr
      else operate_attributes rest read_attr
             (u8 (Z.lor write_attr AS_MSG_INFO2_WRITE))
  end.

(** The command node that [aerospike_key_operate] initialises for
    [as_command_execute]: the replica of the policy, and [write_attr != 0]
    as the write flag. *)
Definition operate_command_node (ns : string) (digest : list byte)
    (replica : Z) (binops : list as_binop) : as_command_node :=
  let '(read_attr, write_attr) := operate_attributes binops 0 0 in
  as_command_node_init ns digest replica (negb (write_attr =? 0)).

End Operate.

(** *** Properties *)

Lemma every_node_Forall feature array :
  every_node feature array = true <-> Forall (fun n => feature n = true) array.
Proof.
  induction array as [|n rest IH]; cbn [every_node].
  - split; [constructor | reflexivity].
  - destruct (feature n) eqn:Hn; cbn [negb].
    + rewrite IH. split; [intros H; constructor; assumption|].
      intros H. apply Forall_cons in H as [_ H]. exact H.
    + split; [discriminate|]. intros H. apply Forall_cons in H as [H _].
      congruence.
Qed.

(** The cluster supports doubles (geospatial values) exactly when it has at
    least one node and every node has the feature; an empty cluster
    supports neither. *)
Theorem cluster_feature_needs_every_node (nodes : list as_node) :
  (aerospike_has_double nodes = true
   <-> nodes <> [] /\ Forall (fun n => has_double n = true) nodes)
  /\ (aerospike_has_geo nodes = true
      <-> nodes <> [] /\ Forall (fun n => has_geo n = true) nodes).
Proof.
  unfold aerospike_has_double, aerospike_has_geo.
  destruct nodes as [|n rest].
  - cbn. split; (split; [discriminate | intros [H _]; congruence]).
  - change (Z.of_nat (length (n :: rest)) =? 0) with
      (Z.pos (Pos.of_succ_nat (length rest)) =? 0).
    cbn [Z.eqb]. rewrite !every_node_Forall.
    split; (split; [intros H; split; [discriminate | exact H] | intros [_ H]; exact H]).
Qed.

Definition is_read (READ : Z) (b : as_binop) : bool := op b =? READ.

Lemma lor_u8 a b : 0 <= a < 2 ^ 8 -> 0 <= b < 2 ^ 8 -> u8 (Z.lor a b) = Z.lor a b.
Proof.
  intros Ha Hb. unfold u8. apply Z.mod_small. split.
  - apply Z.lor_nonneg. lia.
  - destruct (Z.eq_dec (Z.lor a b) 0) as [->|Hne]; [lia|].
    assert (0 <= Z.lor a b) by (apply Z.lor_nonneg; lia).
    apply Z.log2_lt_pow2; [lia|].
    rewrite Z.log2_lor by lia.
    destruct (Z.eq_dec a 0) as [->|Ha0]; destruct (Z.eq_dec b 0) as [->|Hb0];
      cbn [Z.log2]; try lia.
    + apply Z.max_lub_lt; [lia | apply Z.log2_lt_pow2; lia].
    + apply Z.max_lub_lt; [apply Z.log2_lt_pow2; lia | lia].
    + apply Z.max_lub_lt; apply Z.log2_lt_pow2; lia.
Qed.

Lemma operate_attributes_spec READ R W binops : forall read_attr write_attr,
  0 <= R < 2 ^ 8 -> 0 <= W < 2 ^ 8 ->
  (read_attr = 0 \/ read_attr = R) -> (write_attr = 0 \/ write_attr = W) ->
  operate_attributes READ R W binops read_attr write_attr
  = (if existsb (is_read READ) binops then R else read_attr,
     if existsb (fun b => negb (is_read READ b)) binops then W else write_attr).
Proof.
  induction binops as [|b rest IH]; intros read_attr write_attr HR HW Hr Hw;
    cbn [operate_attributes existsb]; [reflexivity|].
  unfold is_read at 1 3. destruct (op b =? READ); cbn [negb orb].
  - assert (Hlor : u8 (Z.lor read_attr R) = R).
    { rewrite lor_u8 by (destruct Hr as [-> | ->]; lia).
      destruct Hr as [-> | ->]; [apply Z.lor_0_l | apply Z.lor_diag]. }
    rewrite Hlor, IH by (auto; lia).
    destruct (existsb (is_read READ) rest); reflexivity.
  - assert (Hlor : u8 (Z.lor write_attr W) = W).
    { rewrite lor_u8 by (destruct Hw as [-> | ->]; lia).
      destruct Hw as [-> | ->]; [apply Z.lor_0_l | apply Z.lor_diag]. }
    rewrite Hlor, IH by (auto; lia).
    destruct (existsb (fun b0 => negb (is_read READ b0)) rest); reflexivity.
Qed.

(** An operate command is a write as soon as one of its operations is not
    a plain read, whatever else it holds, and only then: the node is chosen
    for a write exactly in that case, the write attribute is then set, and
    the read attribute is set exactly when some operation is a plain read.
    A command without operations is neither. *)
Theorem operate_is_write_unless_all_reads
    (AS_OPERATOR_READ AS_MSG_INFO1_READ AS_MSG_INFO2_WRITE : Z)
    (ns : string) (digest : list byte) (replica : Z) (binops : list as_binop) :
  0 < AS_MSG_INFO1_READ < 2 ^ 8 ->
  0 < AS_MSG_INFO2_WRITE < 2 ^ 8 ->
  let some_read := existsb (is_read AS_OPERATOR_READ) binops in
  let some_other := existsb (fun b => negb (is_read AS_OPERATOR_READ b)) binops in
  operate_attributes AS_OPERATOR_READ AS_MSG_INFO1_READ AS_MSG_INFO2_WRITE
    binops 0 0
  = (if some_read then AS_MSG_INFO1_READ else 0,
     if some_other then AS_MSG_INFO2_WRITE else 0)
  /\ operate_command_node AS_OPERATOR_READ AS_MSG_INFO1_READ AS_MSG_INFO2_WRITE
       ns digest replica binops
     = {| cn_node := None; cn_ns := ns; cn_digest := digest;
          cn_replica := replica; cn_write := some_other |}.
Proof.
  intros HR HW some_read some_other. subst some_read some_other.
  unfold operate_command_node.
  rewrite operate_attributes_spec by (auto; lia).
  split; [reflexivity|]. unfold as_command_node_init. f_equal.
  destruct (existsb _ binops); [|reflexivity].
  destruct (Z.eqb_spec AS_MSG_INFO2_WRITE 0); [lia | reflexivity].
Qed.

(** A touch followed by a read of bin [e], with 1 as the read operator
    and 11 as the touch operator. *)
Definition touch_and_read : list as_binop :=
  [ {| op := 11; bin := "" |}; {| op := 1; bin := "e" |} ].

Lemma operate_is_write_unless_all_reads_witness :
  operate_attributes 1 1 1 touch_and_read 0 0 = (1, 1)
  /\ operate_command_node 1 1 1 "test" [] 0 touch_and_read
     = {| cn_node := None; cn_ns := "test"; cn_digest := [];
          cn_replica := 0; cn_write := true |}.
Proof.
  apply (operate_is_write_unless_all_reads 1 1 1 "test" [] 0 touch_and_read);
    lia.
Defined.

End KeyApi.

(** ** Node addresses and the walk that opens a socket *)

Module Addresses.

Inductive family : Type :=
| AF_INET
| AF_INET6.

(** [as_address]: the socket address, of which the family is read, and
    its printed name. *)
Record as_address : Type := mk_address {
  addr_family : family;
  addr_name : string
}.

(** The address fields of [as_node].  [addresses] is the block that
    [as_node_create] allocates; a slot that was never assigned is [None]. *)
Record as_node : Type := mk_node {
  addresses : list (option as_address);
  address4_size : Z;
  address6_size : Z;
  address_index : Z
}.

(** The conversion of a [uint32_t] to [int]. *)
Definition to_int (x : Z) : Z := if x <? 2 ^ 31 then x else x - 2 ^ 32.

(** [node->addresses[i] = address]; [None] is a store outside the block. *)
Definition store_address (node : as_node) (i : Z) (address : as_address)
  : option (list (option as_address)) :=
  if (0 <=? i) && (i <? Z.of_nat (length (addresses node)))
  then Some (<[Z.to_nat i := Some address]> (addresses node))
  else None.

(** [node->addresses[i]]; [None] is a read outside the block or of a slot
    that was never assigned. *)
Definition load_address (node : as_node) (i : Z) : option as_address :=
  if 0 <=? i then mjoin (addresses node !! Z.to_nat i) else None.

(** What the walk over the addresses has done so far: the slots handed to
    [as_socket_start_connect], oldest first; the sockets created, by family;
    the number of sockets closed. *)
Record walk : Type := mk_walk {
  attempts : list Z;
  created : list family;
  closed : nat
}.

Section Node.

(** [AS_ADDRESS4_MAX] and [AS_ADDRESS6_MAX] of [as_node.h]: the first IPv6
    slot and the number of slots. *)
Variable AS_ADDRESS4_MAX : Z.
Variable AS_ADDRESS6_MAX : Z.

(** Address array is currently a fixed size.  Do not resize because
    multiple threads are accessing the array. *)
Definition as_node_add_address (node : as_node) (addr : as_address)
  : option as_node :=
  match addr_family addr with
  | AF_INET =>
      if address4_size node <? AS_ADDRESS4_MAX then
        match store_address node (address4_size node) addr with
        | Some block =>
            Some {| addresses := block;
                    address4_size := u32 (address4_size node + 1);
                    address6_size := address6_size node;
                    address_index := address_index node |}
        | None => None
        end
      else Some node
  | AF_INET6 =>
      let offset := u32 (AS_ADDRESS4_MAX + address6_size node) in
      if offset <? AS_ADDRESS6_MAX then
        match store_address node offset addr with
        | Some block =>
            Some {| addresses := block;
                    address4_size := address4_size node;
                    address6_size := u32 (address6_size node + 1);
                    address_index := address_index node |}
        | None => None
        end
      else Some node
  end.

(** The address part of [as_node_create]: the index of the primary
    address, the empty block, and the address of the node info added. *)
Definition as_node_create (addr : as_address) : option as_node :=
  as_node_add_address
    {| addresses := replicate (Z.to_nat AS_ADDRESS6_MAX) None;
       address4_size := 0;
       address6_size := 0;
       address_index := match addr_family addr with
                        | AF_INET => 0
                        | AF_INET6 => AS_ADDRESS4_MAX
                        end |}
    addr.

(** The network: whether [as_socket_start_connect] succeeds on the address
    in a slot, given the attempts made before; and the value that
    [as_socket_create] returns for a family, negative when it fails. *)
Variable as_socket_start_connect : list Z -> Z -> bool.
Variable as_socket_create : family -> Z.

Definition start_connect (st : walk) (i : Z) : bool * walk :=
  (as_socket_start_connect (attempts st) i,
   {| attempts := attempts st ++ [i]; created := created st;
      closed := closed st |}).

(** The [while (i < max)] loop of [as_node_try_connections]. *)
Fixpoint try_connections_loop (fuel : nat) (st : walk) (i max : Z) : Z * walk :=
  if i <? max then
    match fuel with
    | S fuel =>
        let '(connected, st) := start_connect st i in
        if connected then (i, st)
        else try_connections_loop fuel st (i + 1) max
    | O => (-1, st)
    end
  else (-1, st).

Definition as_node_try_connections (st : walk) (i max : Z) : Z * walk :=
  try_connections_loop (Z.to_nat (max - i)) st i max.

(** [index] is the slot of [primary], negative when there is none. *)
Definition as_node_try_family_connections (st : walk) (fam : family)
    (begin end_ index : Z) : Z * walk :=
  (* Create a non-blocking socket. *)
  let rv := as_socket_create fam in
  if rv <? 0 then (rv, st)
  else
    let st := {| attempts := attempts st; created := created st ++ [fam];
                 closed := closed st |} in
    (* Try addresses. *)
    let '(rv, st) :=
      if 0 <=? index then
        (* Try primary address. *)
        let '(connected, st) := start_connect st index in
        if connected then (index, st)
        else
          (* Start from current index + 1 to end. *)
          let '(rv, st) := as_node_try_connections st (index + 1) end_ in
          if rv <? 0 then
            (* Start from begin to index. *)
            as_node_try_connections st begin index
          else (rv, st)
      else as_node_try_connections st begin end_ in
    if rv <? 0 then
      (* Couldn't start a connection on any socket address - close the socket. *)
      (-5, {| attempts := attempts st; created := created st;
              closed := S (closed st) |})
    else (rv, st).

(** [as_node_create_socket], apart from the pool of the caller: the error
    of a failed call, the node and the walk; [None] when the primary slot
    cannot be read. *)
Definition as_node_create_socket (node : as_node) (st : walk)
  : option (option as_error * as_node * walk) :=
  (* Try addresses. *)
  let index := address_index node in
  match load_address node index with
  | None => None
  | Some primary =>
      let v4_end := to_int (address4_size node) in
      let v6_begin := AS_ADDRESS4_MAX in
      let v6_end := to_int (u32 (AS_ADDRESS4_MAX + address6_size node)) in
      let '(rv, st) :=
        match addr_family primary with
        | AF_INET =>
            (* Try IPv4 addresses first. *)
            let '(rv, st) :=
              as_node_try_family_connections st AF_INET 0 v4_end (to_int index) in
            if rv <? 0 then
              (* Try IPv6 addresses. *)
              as_node_try_family_connections st AF_INET6 v6_begin v6_end (-1)
            else (rv, st)
        | AF_INET6 =>
            (* Try IPv6 addresses first. *)
            let '(rv, st) :=
              as_node_try_family_connections st AF_INET6 v6_begin v6_end
                (to_int index) in
            if rv <? 0 then
              (* Try IPv4 addresses. *)
              as_node_try_family_connections st AF_INET 0 v4_end (-1)
            else (rv, st)
        end in
      if rv <? 0 then
        Some (Some (as_error_update AEROSPIKE_ERR_CLIENT "Failed to connect"),
              node, st)
      else if rv =? index then Some (None, node, st)
      else
        (* Replace invalid primary address with valid alias. *)
        Some (None,
              {| addresses := addresses node;
                 address4_size := address4_size node;
                 address6_size := address6_size node;
                 address_index := rv |}, st)
  end.

(** *** Well-formed address blocks *)

(** Slot [i] holds an address of family [fam]. *)
Definition holds (node : as_node) (i : Z) (fam : family) : Prop :=
  exists a, load_address node i = Some a /\ addr_family a = fam.

(** The IPv4 addresses fill the slots from 0, the IPv6 addresses the slots
    from [AS_ADDRESS4_MAX], neither beyond its part of the block, and the
    primary index names one of them. *)
Record node_wf (node : as_node) : Prop := mk_node_wf {
  wf_length : Z.of_nat (length (addresses node)) = AS_ADDRESS6_MAX;
  wf_size4 : 0 <= address4_size node <= AS_ADDRESS4_MAX;
  wf_size6 : 0 <= address6_size node
             /\ AS_ADDRESS4_MAX + address6_size node <= AS_ADDRESS6_MAX;
  wf_slot4 : forall i, 0 <= i < address4_size node -> holds node i AF_INET;
  wf_slot6 : forall i,
    AS_ADDRESS4_MAX <= i < AS_ADDRESS4_MAX + address6_size node ->
    holds node i AF_INET6;
  wf_index : 0 <= address_index node < address4_size node
             \/ AS_ADDRESS4_MAX <= address_index node
                < AS_ADDRESS4_MAX + address6_size node
}.

(** The slots in use. *)
Definition in_use (node : as_node) (i : Z) : Prop :=
  0 <= i < address4_size node
  \/ AS_ADDRESS4_MAX <= i < AS_ADDRESS4_MAX + address6_size node.

(** The first of [candidates] on which a connection starts, with the
    attempts made until then. *)
Fixpoint first_accepting (tried : list Z) (candidates : list Z)
  : option Z * list Z :=
  match candidates with
  | [] => (None, tried)
  | i :: rest =>
      if as_socket_start_connect tried i then (Some i, tried ++ [i])
      else first_accepting (tried ++ [i]) rest
  end.

(** The order in which a family is walked when slot [index] is the
    primary: the primary, the slots behind it, then the slots before it. *)
Definition rotation (begin end_ index : Z) : list Z :=
  seqZ index (end_ - index) ++ seqZ begin (index - begin).

(** *** Properties *)

Definition with_attempts (st : walk) (tried : list Z) : walk :=
  {| attempts := tried; created := created st; closed := closed st |}.

(** The sockets that are open: created and not closed. *)
Definition open_sockets (st : walk) : Z :=
  Z.of_nat (length (created st)) - Z.of_nat (closed st).

Lemma first_accepting_app l1 : forall tried l2,
  first_accepting tried (l1 ++ l2)
  = match first_accepting tried l1 with
    | (Some j, t) => (Some j, t)
    | (None, t) => first_accepting t l2
    end.
Proof.
  induction l1 as [|i l1 IH]; intros tried l2; cbn [app first_accepting];
    [reflexivity|].
  destruct (as_socket_start_connect tried i); [reflexivity | apply IH].
Qed.

(** What [first_accepting] returns: the candidate it stopped at was
    accepted, the ones before it were refused, each tried once in order. *)
Lemma first_accepting_Some candidates : forall tried j t,
  first_accepting tried candidates = (Some j, t) ->
  exists before after,
    candidates = before ++ j :: after
    /\ t = tried ++ before ++ [j]
    /\ as_socket_start_connect (tried ++ before) j = true
    /\ forall pre k post, before = pre ++ k :: post ->
         as_socket_start_connect (tried ++ pre) k = false.
Proof.
  induction candidates as [|i rest IH]; intros tried j t; cbn [first_accepting];
    [discriminate|].
  destruct (as_socket_start_connect tried i) eqn:Hi.
  - intros [= <- <-]. exists [], rest. rewrite app_nil_r. cbn [app].
    repeat split; try assumption. intros [|? ?] ? ? ?; discriminate.
  - intros H. apply IH in H as (before & after & -> & -> & Hj & Hpre).
    exists (i :: before), after. rewrite <- !app_assoc in Hj |- *.
    cbn [app] in Hj |- *. repeat split; try assumption.
    intros [|p pre] k post Heq; injection Heq as -> ->.
    + rewrite app_nil_r. exact Hi.
    + specialize (Hpre pre k post eq_refl). rewrite <- app_assoc in Hpre.
      exact Hpre.
Qed.

Lemma first_accepting_None candidates : forall tried t,
  first_accepting tried candidates = (None, t) ->
  t = tried ++ candidates
  /\ forall pre k post, candidates = pre ++ k :: post ->
       as_socket_start_connect (tried ++ pre) k = false.
Proof.
  induction candidates as [|i rest IH]; intros tried t; cbn [first_accepting].
  - intros [= <-]. rewrite app_nil_r. split; [reflexivity|].
    intros [|? ?] ? ? ?; discriminate.
  - destruct (as_socket_start_connect tried i) eqn:Hi; [discriminate|].
    intros H. apply IH in H as [-> Hpre]. rewrite <- app_assoc. cbn [app].
    split; [reflexivity|].
    intros [|p pre] k post Heq; injection Heq as -> ->.
    + rewrite app_nil_r. exact Hi.
    + specialize (Hpre pre k post eq_refl). rewrite <- app_assoc in Hpre.
      exact Hpre.
Qed.

Lemma with_attempts_same st : with_attempts st (attempts st) = st.
Proof. destruct st. reflexivity. Qed.

(** The loop of [as_node_try_connections] is the walk over the slots from
    [i] to [max - 1]. *)
Lemma try_connections_loop_spec fuel : forall st i max,
  (Z.to_nat (max - i) <= fuel)%nat ->
  try_connections_loop fuel st i max
  = match first_accepting (attempts st) (seqZ i (max - i)) with
    | (Some j, t) => (j, with_attempts st t)
    | (None, t) => (-1, with_attempts st t)
    end.
Proof.
  induction fuel as [|fuel IH]; intros st i max Hfuel; cbn [try_connections_loop];
    destruct (Z.ltb_spec i max) as [Hlt|Hge]; try lia.
  - rewrite seqZ_nil by lia. cbn [first_accepting].
    rewrite with_attempts_same. reflexivity.
  - rewrite seqZ_cons by lia. cbn [first_accepting start_connect].
    destruct (as_socket_start_connect (attempts st) i); [reflexivity|].
    rewrite IH by (cbn [attempts]; lia). cbn [attempts].
    replace (Z.pred (max - i)) with (max - (i + 1)) by lia.
    replace (Z.succ i) with (i + 1) by lia.
    destruct (first_accepting (attempts st ++ [i]) (seqZ (i + 1) (max - (i + 1))))
      as [[j|] t]; reflexivity.
  - rewrite seqZ_nil by lia. cbn [first_accepting].
    rewrite with_attempts_same. reflexivity.
Qed.

Lemma as_node_try_connections_spec st i max :
  as_node_try_connections st i max
  = match first_accepting (attempts st) (seqZ i (max - i)) with
    | (Some j, t) => (j, with_attempts st t)
    | (None, t) => (-1, with_attempts st t)
    end.
Proof. unfold as_node_try_connections. apply try_connections_loop_spec. lia. Qed.

Lemma first_accepting_elem candidates tried j t :
  first_accepting tried candidates = (Some j, t) -> j ∈ candidates.
Proof.
  intros H. apply first_accepting_Some in H as (before & after & -> & _).
  apply elem_of_app. right. apply elem_of_cons. left. reflexivity.
Qed.

Definition family_walked (st : walk) (fam : family) (candidates : list Z)
  : Z * walk :=
  match first_accepting (attempts st) candidates with
  | (Some j, t) =>
      (j, {| attempts := t; created := created st ++ [fam];
             closed := closed st |})
  | (None, t) =>
      (-5, {| attempts := t; created := created st ++ [fam];
              closed := S (closed st) |})
  end.

Lemma try_family_primary st fam begin end_ index :
  0 <= as_socket_create fam -> 0 <= begin <= index -> index < end_ ->
  as_node_try_family_connections st fam begin end_ index
  = family_walked st fam (rotation begin end_ index).
Proof.
  intros Hcreate Hbegin Hend. unfold as_node_try_family_connections, family_walked.
  destruct (Z.ltb_spec (as_socket_create fam) 0); [lia|].
  destruct (Z.leb_spec 0 index); [|lia].
  unfold rotation. rewrite seqZ_cons by lia. cbn [app first_accepting start_connect attempts].
  destruct (as_socket_start_connect (attempts st) index) eqn:Hp.
  - destruct (Z.ltb_spec index 0); [lia | reflexivity].
  - rewrite as_node_try_connections_spec. cbn [attempts].
    rewrite first_accepting_app.
    replace (Z.pred (end_ - index)) with (end_ - (index + 1)) by lia.
    replace (Z.succ index) with (index + 1) by lia.
    destruct (first_accepting (attempts st ++ [index])
                (seqZ (index + 1) (end_ - (index + 1)))) as [[j|] t] eqn:H1.
    + apply first_accepting_elem in H1. apply elem_of_seqZ in H1.
      destruct (Z.ltb_spec j 0); [lia|]. destruct (Z.ltb_spec j 0); [lia|].
      reflexivity.
    + change (-1 <? 0) with true. cbv iota.
      rewrite as_node_try_connections_spec. cbn [attempts with_attempts].
      destruct (first_accepting t (seqZ begin (index - begin))) as [[j|] t'] eqn:H2.
      * apply first_accepting_elem in H2. apply elem_of_seqZ in H2.
        destruct (Z.ltb_spec j 0); [lia | reflexivity].
      * reflexivity.
Qed.

Lemma try_family_no_primary st fam begin end_ index :
  0 <= as_socket_create fam -> 0 <= begin -> index < 0 ->
  as_node_try_family_connections st fam begin end_ index
  = family_walked st fam (seqZ begin (end_ - begin)).
Proof.
  intros Hcreate Hbegin Hindex. unfold as_node_try_family_connections, family_walked.
  destruct (Z.ltb_spec (as_socket_create fam) 0); [lia|].
  destruct (Z.leb_spec 0 index); [lia|].
  rewrite as_node_try_connections_spec. cbn [attempts with_attempts].
  destruct (first_accepting (attempts st) (seqZ begin (end_ - begin)))
    as [[j|] t] eqn:H1; [|reflexivity].
  apply first_accepting_elem in H1. apply elem_of_seqZ in H1.
  destruct (Z.ltb_spec j 0); [lia | reflexivity].
Qed.

Lemma rotation_elem begin end_ index i :
  begin <= index < end_ ->
  i ∈ rotation begin end_ index <-> begin <= i < end_.
Proof.
  intros H. unfold rotation. rewrite elem_of_app, !elem_of_seqZ. lia.
Qed.

Lemma rotation_NoDup begin end_ index :
  begin <= index < end_ -> NoDup (rotation begin end_ index).
Proof.
  intros H. unfold rotation. apply NoDup_app.
  split; [apply NoDup_seqZ|]. split; [|apply NoDup_seqZ].
  intros i. rewrite !elem_of_seqZ. lia.
Qed.

(** The node with another primary index. *)
Definition with_index (node : as_node) (index : Z) : as_node :=
  {| addresses := addresses node; address4_size := address4_size node;
     address6_size := address6_size node; address_index := index |}.

Lemma with_index_same node : with_index node (address_index node) = node.
Proof. destruct node. reflexivity. Qed.

(** The order in which [as_node_create_socket] tries the slots in use:
    the family of the primary in rotation, then the other family from its
    first slot. *)
Definition connect_order (node : as_node) : list Z :=
  if address_index node <? address4_size node then
    rotation 0 (address4_size node) (address_index node)
    ++ seqZ AS_ADDRESS4_MAX (address6_size node)
  else
    rotation AS_ADDRESS4_MAX (AS_ADDRESS4_MAX + address6_size node)
      (address_index node)
    ++ seqZ 0 (address4_size node).

Definition connect_error : as_error :=
  as_error_update AEROSPIKE_ERR_CLIENT "Failed to connect".

Lemma to_int_small x : 0 <= x < 2 ^ 31 -> to_int x = x.
Proof. intros H. unfold to_int. destruct (Z.ltb_spec x (2 ^ 31)); lia. Qed.

Lemma connect_order_elem node i :
  node_wf node -> i ∈ connect_order node <-> in_use node i.
Proof.
  intros Hwf. destruct Hwf as [_ H4 H6 _ _ Hidx]. unfold connect_order, in_use.
  destruct (Z.ltb_spec (address_index node) (address4_size node)).
  - rewrite elem_of_app, rotation_elem, elem_of_seqZ by lia. lia.
  - rewrite elem_of_app, rotation_elem, elem_of_seqZ by lia. lia.
Qed.

Lemma connect_order_NoDup node : node_wf node -> NoDup (connect_order node).
Proof.
  intros Hwf. destruct Hwf as [_ H4 H6 _ _ Hidx]. unfold connect_order.
  destruct (Z.ltb_spec (address_index node) (address4_size node));
    apply NoDup_app; (split; [apply rotation_NoDup; lia|]);
    (split; [|apply NoDup_seqZ]); intros i;
    rewrite rotation_elem, elem_of_seqZ by lia; lia.
Qed.

Lemma with_index_wf node j :
  node_wf node -> in_use node j -> node_wf (with_index node j).
Proof.
  intros [Hlen H4 H6 Hs4 Hs6 Hidx] Hj.
  constructor; cbn [with_index addresses address4_size address6_size address_index];
    try assumption.
Qed.

Lemma create_socket_walk node st :
  0 <= AS_ADDRESS4_MAX -> AS_ADDRESS6_MAX < 2 ^ 31 ->
  0 <= as_socket_create AF_INET -> 0 <= as_socket_create AF_INET6 ->
  node_wf node ->
  match first_accepting (attempts st) (connect_order node) with
  | (Some j, t) =>
      exists st',
        as_node_create_socket node st = Some (None, with_index node j, st')
        /\ attempts st' = t
        /\ open_sockets st' = open_sockets st + 1
  | (None, t) =>
      exists st',
        as_node_create_socket node st = Some (Some connect_error, node, st')
        /\ attempts st' = t
        /\ open_sockets st' = open_sockets st
  end.
Proof.
  intros H4max H6max Hc4 Hc6 [Hlen H4 H6 Hs4 Hs6 Hidx].
  unfold as_node_create_socket, connect_order.
  rewrite (to_int_small (address4_size node)) by lia.
  rewrite (u32_small (AS_ADDRESS4_MAX + address6_size node))
    by (unfold is_u32; lia).
  rewrite (to_int_small (AS_ADDRESS4_MAX + address6_size node)) by lia.
  rewrite (to_int_small (address_index node)) by lia.
  destruct (Z.ltb_spec (address_index node) (address4_size node)) as [Hv4|Hv6].
  - destruct (Hs4 (address_index node)) as (a & -> & ->); [lia|].
    rewrite try_family_primary by lia. rewrite first_accepting_app.
    unfold family_walked.
    destruct (first_accepting (attempts st)
                (rotation 0 (address4_size node) (address_index node)))
      as [[j|] t] eqn:H1.
    + apply first_accepting_elem in H1. apply rotation_elem in H1; [|lia].
      assert (Hj0 : (j <? 0) = false) by (apply Z.ltb_ge; lia).
      cbv beta iota zeta. rewrite ?Hj0. cbv beta iota zeta. rewrite ?Hj0.
      eexists. split.
      { destruct (Z.eqb_spec j (address_index node)) as [->|_];
          [rewrite with_index_same|]; reflexivity. }
      split; [reflexivity|].
      unfold open_sockets. cbn [created closed]. rewrite length_app.
      cbn [length]. lia.
    + change (-5 <? 0) with true. cbv iota.
      rewrite try_family_no_primary by lia. unfold family_walked.
      cbn [attempts created closed].
      replace (AS_ADDRESS4_MAX + address6_size node - AS_ADDRESS4_MAX)
        with (address6_size node) by lia.
      destruct (first_accepting t (seqZ AS_ADDRESS4_MAX (address6_size node)))
        as [[j|] t'] eqn:H2.
      * apply first_accepting_elem in H2. apply elem_of_seqZ in H2.
        assert (Hj0 : (j <? 0) = false) by (apply Z.ltb_ge; lia).
      cbv beta iota zeta. rewrite ?Hj0. cbv beta iota zeta. rewrite ?Hj0.
        eexists. split.
        { destruct (Z.eqb_spec j (address_index node)) as [->|_];
            [rewrite with_index_same|]; reflexivity. }
        split; [reflexivity|].
        unfold open_sockets. cbn [created closed]. rewrite !length_app.
        cbn [length]. lia.
      * change (-5 <? 0) with true. cbv iota.
        eexists. split; [reflexivity|]. split; [reflexivity|].
        unfold open_sockets. cbn [created closed]. rewrite !length_app.
        cbn [length]. lia.
  - destruct (Hs6 (address_index node)) as (a & -> & ->); [lia|].
    rewrite try_family_primary by lia. rewrite first_accepting_app.
    unfold family_walked.
    destruct (first_accepting (attempts st)
                (rotation AS_ADDRESS4_MAX (AS_ADDRESS4_MAX + address6_size node)
                   (address_index node)))
      as [[j|] t] eqn:H1.
    + apply first_accepting_elem in H1. apply rotation_elem in H1; [|lia].
      assert (Hj0 : (j <? 0) = false) by (apply Z.ltb_ge; lia).
      cbv beta iota zeta. rewrite ?Hj0. cbv beta iota zeta. rewrite ?Hj0.
      eexists. split.
      { destruct (Z.eqb_spec j (address_index node)) as [->|_];
          [rewrite with_index_same|]; reflexivity. }
      split; [reflexivity|].
      unfold open_sockets. cbn [created closed]. rewrite length_app.
      cbn [length]. lia.
    + change (-5 <? 0) with true. cbv iota.
      rewrite try_family_no_primary by lia. unfold family_walked.
      cbn [attempts created closed].
      replace (address4_size node - 0) with (address4_size node) by lia.
      destruct (first_accepting t (seqZ 0 (address4_size node)))
        as [[j|] t'] eqn:H2.
      * apply first_accepting_elem in H2. apply elem_of_seqZ in H2.
        assert (Hj0 : (j <? 0) = false) by (apply Z.ltb_ge; lia).
      cbv beta iota zeta. rewrite ?Hj0. cbv beta iota zeta. rewrite ?Hj0.
        eexists. split.
        { destruct (Z.eqb_spec j (address_index node)) as [->|_];
            [rewrite with_index_same|]; reflexivity. }
        split; [reflexivity|].
        unfold open_sockets. cbn [created closed]. rewrite !length_app.
        cbn [length]. lia.
      * change (-5 <? 0) with true. cbv iota.
        eexists. split; [reflexivity|]. split; [reflexivity|].
        unfold open_sockets. cbn [created closed]. rewrite !length_app.
        cbn [length]. lia.
Qed.

(** *** The address block *)

Lemma load_inserted node node' i a :
  addresses node' = <[Z.to_nat i := Some a]> (addresses node) ->
  0 <= i < Z.of_nat (length (addresses node)) ->
  load_address node' i = Some a.
Proof.
  intros Hblock Hi. unfold load_address. rewrite Hblock.
  destruct (Z.leb_spec 0 i); [|lia].
  rewrite list_lookup_insert. rewrite decide_True by (split; [reflexivity | lia]).
  reflexivity.
Qed.

Lemma load_other node node' i a j :
  addresses node' = <[Z.to_nat i := Some a]> (addresses node) ->
  0 <= i -> i <> j ->
  load_address node' j = load_address node j.
Proof.
  intros Hblock Hi Hne. unfold load_address. rewrite Hblock.
  destruct (Z.leb_spec 0 j); [|reflexivity].
  rewrite list_lookup_insert_ne by lia. reflexivity.
Qed.

Lemma store_address_fits node i a :
  0 <= i < Z.of_nat (length (addresses node)) ->
  store_address node i a = Some (<[Z.to_nat i := Some a]> (addresses node)).
Proof.
  intros Hi. unfold store_address.
  destruct (Z.leb_spec 0 i); [|lia].
  destruct (Z.ltb_spec i (Z.of_nat (length (addresses node)))); [|lia].
  reflexivity.
Qed.

(** What a call of [as_node_add_address] does to a well-formed node. *)
Definition added (node : as_node) (addr : as_address) (node' : as_node) : Prop :=
  match addr_family addr with
  | AF_INET =>
      if address4_size node <? AS_ADDRESS4_MAX
      then load_address node' (address4_size node) = Some addr
           /\ address4_size node' = address4_size node + 1
           /\ address6_size node' = address6_size node
      else node' = node
  | AF_INET6 =>
      if AS_ADDRESS4_MAX + address6_size node <? AS_ADDRESS6_MAX
      then load_address node' (AS_ADDRESS4_MAX + address6_size node) = Some addr
           /\ address6_size node' = address6_size node + 1
           /\ address4_size node' = address4_size node
      else node' = node
  end.

Lemma add_address_block node addr :
  0 <= AS_ADDRESS4_MAX <= AS_ADDRESS6_MAX -> AS_ADDRESS6_MAX < 2 ^ 32 ->
  Z.of_nat (length (addresses node)) = AS_ADDRESS6_MAX ->
  0 <= address4_size node <= AS_ADDRESS4_MAX ->
  0 <= address6_size node ->
  AS_ADDRESS4_MAX + address6_size node <= AS_ADDRESS6_MAX ->
  exists node',
    as_node_add_address node addr = Some node'
    /\ Z.of_nat (length (addresses node')) = AS_ADDRESS6_MAX
    /\ address_index node' = address_index node
    /\ address4_size node <= address4_size node' <= AS_ADDRESS4_MAX
    /\ address6_size node <= address6_size node'
    /\ AS_ADDRESS4_MAX + address6_size node' <= AS_ADDRESS6_MAX
    /\ (forall i, in_use node i -> load_address node' i = load_address node i)
    /\ (forall i, in_use node' i ->
          in_use node i \/ (load_address node' i = Some addr
                            /\ if i <? AS_ADDRESS4_MAX
                               then addr_family addr = AF_INET
                               else addr_family addr = AF_INET6))
    /\ added node addr node'.
Proof.
  intros Hmax H6max Hlen H4 H6 H6'. unfold as_node_add_address, added, in_use.
  destruct (addr_family addr) eqn:Hfam.
  - destruct (Z.ltb_spec (address4_size node) AS_ADDRESS4_MAX) as [Hroom|Hfull].
    + rewrite store_address_fits by lia.
      rewrite (u32_small (address4_size node + 1)) by (unfold is_u32; lia).
      eexists. split; [reflexivity|].
      cbn [addresses address4_size address6_size address_index].
      rewrite length_insert.
      repeat split; try lia.
      * intros i Hi. eapply load_other; [reflexivity | lia | lia].
      * intros i Hi.
        destruct (Z.eq_dec i (address4_size node)) as [->|Hne]; [|left; lia].
        right. split; [eapply load_inserted; [reflexivity | lia]|].
        destruct (Z.ltb_spec (address4_size node) AS_ADDRESS4_MAX); [reflexivity | lia].
      * eapply load_inserted; [reflexivity | lia].
    + exists node. repeat split; try lia; try (intros i Hi; left; exact Hi).
  - rewrite (u32_small (AS_ADDRESS4_MAX + address6_size node))
      by (unfold is_u32; lia).
    destruct (Z.ltb_spec (AS_ADDRESS4_MAX + address6_size node) AS_ADDRESS6_MAX)
      as [Hroom|Hfull].
    + rewrite store_address_fits by lia.
      rewrite (u32_small (address6_size node + 1)) by (unfold is_u32; lia).
      eexists. split; [reflexivity|].
      cbn [addresses address4_size address6_size address_index].
      rewrite length_insert.
      repeat split; try lia.
      * intros i Hi. eapply load_other; [reflexivity | lia | lia].
      * intros i Hi.
        destruct (Z.eq_dec i (AS_ADDRESS4_MAX + address6_size node)) as [->|Hne];
          [|left; lia].
        right. split; [eapply load_inserted; [reflexivity | lia]|].
        destruct (Z.ltb_spec (AS_ADDRESS4_MAX + address6_size node) AS_ADDRESS4_MAX);
          [lia | reflexivity].
      * eapply load_inserted; [reflexivity | lia].
    + exists node. repeat split; try lia; try (intros i Hi; left; exact Hi).
Qed.

(** Adding an address to a well-formed node never writes outside the
    block and never touches a slot in use: the address goes behind the last
    one of its family when that family has a free slot, and is dropped, the
    node unchanged, when it has none; the primary index stays, and the node
    is well-formed again. *)
Theorem as_node_add_address_keeps_block (node : as_node) (addr : as_address) :
  0 <= AS_ADDRESS4_MAX <= AS_ADDRESS6_MAX -> AS_ADDRESS6_MAX < 2 ^ 32 ->
  node_wf node ->
  exists node',
    as_node_add_address node addr = Some node'
    /\ node_wf node'
    /\ address_index node' = address_index node
    /\ (forall i, in_use node i -> load_address node' i = load_address node i)
    /\ added node addr node'.
Proof.
  intros Hmax H6max [Hlen H4 [H6 H6'] Hs4 Hs6 Hidx].
  destruct (add_address_block node addr Hmax H6max Hlen H4 H6 H6')
    as (node' & Hadd & Hlen' & Hidx' & Hn4 & Hn6 & Hn6' & Hkeep & Hnew & Hadded).
  exists node'. split; [exact Hadd|]. split; [|repeat split; assumption].
  constructor; try assumption; try lia.
  - intros i Hi. destruct (Hnew i) as [Hold | [Hload Hfam]];
      [left; exact Hi | |].
    + destruct Hold as [Hold|Hold]; [|lia].
      destruct (Hs4 i Hold) as (a & Ha & Hf). exists a.
      rewrite Hkeep by (left; exact Hold). split; assumption.
    + destruct (Z.ltb_spec i AS_ADDRESS4_MAX); [|lia].
      exists addr. split; assumption.
  - intros i Hi. destruct (Hnew i) as [Hold | [Hload Hfam]];
      [right; exact Hi | |].
    + destruct Hold as [Hold|Hold]; [lia|].
      destruct (Hs6 i Hold) as (a & Ha & Hf). exists a.
      rewrite Hkeep by (right; exact Hold). split; assumption.
    + destruct (Z.ltb_spec i AS_ADDRESS4_MAX); [lia|].
      exists addr. split; assumption.
Qed.

(** A node as [as_node_create] leaves it holds the address of the node
    info in the slot that its primary index names, and is well-formed. *)
Theorem as_node_create_primary (addr : as_address) :
  0 < AS_ADDRESS4_MAX < AS_ADDRESS6_MAX -> AS_ADDRESS6_MAX < 2 ^ 32 ->
  exists node,
    as_node_create addr = Some node
    /\ node_wf node
    /\ load_address node (address_index node) = Some addr
    /\ address4_size node + address6_size node = 1.
Proof.
  intros Hmax H6max. unfold as_node_create.
  set (blank := {| addresses := replicate (Z.to_nat AS_ADDRESS6_MAX) None;
                   address4_size := 0; address6_size := 0;
                   address_index := match addr_family addr with
                                    | AF_INET => 0
                                    | AF_INET6 => AS_ADDRESS4_MAX
                                    end |}).
  destruct (add_address_block blank addr) as
    (node & Hadd & Hlen & Hidx & Hn4 & Hn6 & Hn6' & Hkeep & Hnew & Hadded);
    try (subst blank; cbn [addresses address4_size address6_size]; lia).
  { subst blank. cbn [addresses]. rewrite length_replicate. lia. }
  exists node. split; [exact Hadd|].
  assert (Hsizes : match addr_family addr with
                   | AF_INET => load_address node 0 = Some addr
                                /\ address4_size node = 1 /\ address6_size node = 0
                   | AF_INET6 => load_address node AS_ADDRESS4_MAX = Some addr
                                 /\ address6_size node = 1 /\ address4_size node = 0
                   end).
  { unfold added in Hadded. subst blank.
    cbn [address4_size address6_size] in Hadded.
    destruct (addr_family addr).
    - destruct (Z.ltb_spec 0 AS_ADDRESS4_MAX); [|lia]. exact Hadded.
    - rewrite Z.add_0_r in Hadded.
      destruct (Z.ltb_spec AS_ADDRESS4_MAX AS_ADDRESS6_MAX); [|lia].
      destruct Hadded as (H1 & H2 & H3). repeat split; assumption || lia. }
  assert (Hslot : forall i, in_use node i ->
            load_address node i = Some addr
            /\ if i <? AS_ADDRESS4_MAX then addr_family addr = AF_INET
               else addr_family addr = AF_INET6).
  { intros i Hi. destruct (Hnew i Hi) as [Hold|Hok]; [|exact Hok].
    subst blank. unfold in_use in Hold. cbn [address4_size address6_size] in Hold.
    lia. }
  assert (Hindex : address_index node
                   = match addr_family addr with
                     | AF_INET => 0
                     | AF_INET6 => AS_ADDRESS4_MAX
                     end) by (rewrite Hidx; reflexivity).
  split; [|split].
  - constructor; try assumption.
    + subst blank. cbn [address6_size] in Hn6. lia.
    + intros i Hi. destruct (Hslot i) as [Hload Hfam]; [left; exact Hi|].
      destruct (Z.ltb_spec i AS_ADDRESS4_MAX); [|lia].
      exists addr. split; assumption.
    + intros i Hi. destruct (Hslot i) as [Hload Hfam]; [right; exact Hi|].
      destruct (Z.ltb_spec i AS_ADDRESS4_MAX); [lia|].
      exists addr. split; assumption.
    + rewrite Hindex. destruct (addr_family addr); lia.
  - rewrite Hindex. destruct (addr_family addr); apply Hsizes.
  - destruct (addr_family addr); lia.
Qed.

(** One family is walked in rotation: its socket is created, then the
    primary is tried, then the slots behind it, then the slots before it,
    each slot of the family once at most, and the walk stops at the first
    slot on which a connection starts; when none does, every slot of the
    family has been tried once, the socket is closed and the result is -5. *)
Theorem as_node_try_family_connections_rotates (st : walk) (fam : family)
    (begin end_ index : Z) :
  0 <= as_socket_create fam -> 0 <= begin <= index -> index < end_ ->
  as_node_try_family_connections st fam begin end_ index
  = family_walked st fam (rotation begin end_ index)
  /\ head (rotation begin end_ index) = Some index
  /\ NoDup (rotation begin end_ index)
  /\ (forall i, i ∈ rotation begin end_ index <-> begin <= i < end_).
Proof.
  intros Hcreate Hbegin Hend.
  split; [apply try_family_primary; assumption|].
  split; [unfold rotation; rewrite seqZ_cons by lia; reflexivity|].
  split; [apply rotation_NoDup; lia|].
  intros i. apply rotation_elem. lia.
Qed.

(** [as_node_create_socket] on a well-formed node, when sockets can be
    created: it connects to the first slot in use that accepts, trying the
    primary first, then the rest of its family, then the other family, each
    slot once; it then leaves one socket open and makes that slot the
    primary.  It fails, with a client error and the node unchanged, only
    when every slot in use has refused, and then leaves no socket open. *)
Theorem as_node_create_socket_first_accepting (node : as_node) (st : walk) :
  0 <= AS_ADDRESS4_MAX -> AS_ADDRESS6_MAX < 2 ^ 31 ->
  0 <= as_socket_create AF_INET -> 0 <= as_socket_create AF_INET6 ->
  node_wf node ->
  match first_accepting (attempts st) (connect_order node) with
  | (Some j, t) =>
      exists st',
        as_node_create_socket node st = Some (None, with_index node j, st')
        /\ attempts st' = t
        /\ open_sockets st' = open_sockets st + 1
        /\ node_wf (with_index node j)
  | (None, t) =>
      exists st',
        as_node_create_socket node st = Some (Some connect_error, node, st')
        /\ attempts st' = attempts st ++ connect_order node
        /\ open_sockets st' = open_sockets st
  end
  /\ NoDup (connect_order node)
  /\ (forall i, i ∈ connect_order node <-> in_use node i).
Proof.
  intros H4max H6max Hc4 Hc6 Hwf.
  split; [|split; [apply connect_order_NoDup; exact Hwf
                  | intros i; apply connect_order_elem; exact Hwf]].
  pose proof (create_socket_walk node st H4max H6max Hc4 Hc6 Hwf) as Hwalk.
  destruct (first_accepting (attempts st) (connect_order node))
    as [[j|] t] eqn:Hfirst.
  - destruct Hwalk as (st' & Hcall & Hatt & Hopen). exists st'.
    split; [exact Hcall|]. split; [exact Hatt|]. split; [exact Hopen|].
    apply with_index_wf; [exact Hwf|].
    apply connect_order_elem; [exact Hwf|].
    eapply first_accepting_elem. exact Hfirst.
  - destruct Hwalk as (st' & Hcall & Hatt & Hopen). exists st'.
    repeat split; try assumption.
    apply first_accepting_None in Hfirst as [-> _]. exact Hatt.
Qed.

End Node.

(** *** A sample node *)

Definition v4 (n : string) : as_address :=
  {| addr_family := AF_INET; addr_name := n |}.
Definition v6 (n : string) : as_address :=
  {| addr_family := AF_INET6; addr_name := n |}.

(** Two IPv4 and one IPv6 address in a block of four and four slots; the
    second IPv4 address is the primary. *)
Definition sample_node : as_node :=
  {| addresses := [Some (v4 "10.0.0.1"); Some (v4 "10.0.0.2"); None; None;
                   Some (v6 "fe80::1"); None; None; None];
     address4_size := 2; address6_size := 1; address_index := 1 |}.

Definition idle : walk := {| attempts := []; created := []; closed := 0 |}.

(** Only the IPv6 address accepts; sockets can be created. *)
Definition only_v6 (tried : list Z) (i : Z) : bool := i =? 4.
Definition creatable (fam : family) : Z := 0.

Lemma sample_node_wf : node_wf 4 8 sample_node.
Proof.
  constructor; cbn; try lia.
  - intros i Hi. assert (i = 0 \/ i = 1) as [-> | ->] by lia;
      eexists; split; reflexivity.
  - intros i Hi. assert (i = 4) as -> by lia. eexists; split; reflexivity.
Qed.

Lemma as_node_add_address_keeps_block_witness :
  exists node',
    as_node_add_address 4 8 sample_node (v6 "fe80::2") = Some node'
    /\ node_wf 4 8 node'
    /\ address_index node' = address_index sample_node
    /\ (forall i, in_use 4 sample_node i ->
          load_address node' i = load_address sample_node i)
    /\ added 4 8 sample_node (v6 "fe80::2") node'.
Proof.
  apply (as_node_add_address_keeps_block 4 8 sample_node (v6 "fe80::2"));
    [lia | lia | exact sample_node_wf].
Defined.

Lemma as_node_create_primary_witness :
  exists node,
    as_node_create 4 8 (v6 "fe80::1") = Some node
    /\ node_wf 4 8 node
    /\ load_address node (address_index node) = Some (v6 "fe80::1")
    /\ address4_size node + address6_size node = 1.
Proof. apply (as_node_create_primary 4 8 (v6 "fe80::1")); lia. Defined.

Lemma as_node_try_family_connections_rotates_witness :
  as_node_try_family_connections only_v6 creatable idle AF_INET 0 2 1
  = family_walked only_v6 idle AF_INET (rotation 0 2 1)
  /\ head (rotation 0 2 1) = Some 1
  /\ NoDup (rotation 0 2 1)
  /\ (forall i, i ∈ rotation 0 2 1 <-> 0 <= i < 2).
Proof.
  apply (as_node_try_family_connections_rotates only_v6 creatable idle
           AF_INET 0 2 1); unfold creatable; lia.
Defined.

Lemma as_node_create_socket_first_accepting_witness :
  match first_accepting only_v6 (attempts idle) (connect_order 4 sample_node) with
  | (Some j, t) =>
      exists st',
        as_node_create_socket 4 only_v6 creatable sample_node idle
        = Some (None, with_index sample_node j, st')
        /\ attempts st' = t
        /\ open_sockets st' = open_sockets idle + 1
        /\ node_wf 4 8 (with_index sample_node j)
  | (None, t) =>
      exists st',
        as_node_create_socket 4 only_v6 creatable sample_node idle
        = Some (Some connect_error, sample_node, st')
        /\ attempts st' = attempts idle ++ connect_order 4 sample_node
        /\ open_sockets st' = open_sockets idle
  end
  /\ NoDup (connect_order 4 sample_node)
  /\ (forall i, i ∈ connect_order 4 sample_node <-> in_use 4 sample_node i).
Proof.
  apply (as_node_create_socket_first_accepting 4 8 only_v6 creatable
           sample_node idle); unfold creatable; try lia.
  exact sample_node_wf.
Defined.

(** On the sample node the walk tries the primary, the other IPv4 address
    and then the IPv6 address, which becomes the primary; the IPv4 socket
    has been closed, the IPv6 socket is open. *)
Example sample_walk :
  as_node_create_socket 4 only_v6 creatable sample_node idle
  = Some (None, with_index sample_node 4,
          {| attempts := [1; 0; 4]; created := [AF_INET; AF_INET6];
             closed := 1 |}).
Proof. vm_compute. reflexivity. Qed.

End Addresses.

(** ** The connection search on a node with one sub-pool *)

Module PoolSearch.

Import ConnPool.

Section Search.

Variable as_socket_validate : as_socket -> Z -> Z.
Variable connect : as_node -> Z * as_socket.
Variable as_authenticate : as_node -> as_socket -> as_status.

(** An idle connection of sub-pool 0 that fails validation. *)
Definition unusable (node : as_node) (s : as_socket) : Prop :=
  as_socket_validate s (max_socket_idle_ns (cluster node)) <> 0
  /\ sock_pool s = 0%nat.

(** The node after the connections [bad] at the head of its only sub-pool
    [p] have been taken, closed and released: [rest] stays in the queue,
    the count goes down by one for each, with [extra] added. *)
Definition swept (node : as_node) (p : as_queue) (bad rest : list as_socket)
    (extra : Z) : as_node :=
  {| cluster := cluster node;
     sync_conn_pools :=
       [ {| q_items := rest; q_capacity := q_capacity p;
            q_total := q_total p - Z.of_nat (length bad) + extra |} ];
     conn_iter := conn_iter node;
     address_index := address_index node;
     perform_login := perform_login node;
     closed := closed node ++ bad |}.

Lemma single_pool_closes_unusable bad : forall node p fuel rest,
  sync_conn_pools node = [p] ->
  q_items p = bad ++ rest ->
  Forall (unusable node) bad ->
  Z.of_nat (length bad) <= q_total p < 2 ^ 32 ->
  get_connection_loop as_socket_validate connect as_authenticate
    (length bad + fuel) node 1 0 0%nat 0 false
  = get_connection_loop as_socket_validate connect as_authenticate
      fuel (swept node p bad rest 0) 1 0 0%nat 0 false.
Proof.
  induction bad as [|b bad IH]; intros node p fuel rest Hpools Hitems Hbad Htotal.
  - cbn [length Nat.add]. f_equal. unfold swept. destruct node as [c pools it ai pl cl].
    cbn in *. subst pools. destruct p as [items cap tot]. cbn in *. subst items.
    rewrite app_nil_r. do 2 f_equal. f_equal. lia.
  - apply Forall_cons in Hbad as [[Hb Hpool] Hbad].
    cbn [length Nat.add get_connection_loop]. rewrite Hpools.
    cbn [lookup list_lookup]. unfold as_conn_pool_pop_head. rewrite Hitems.
    cbn [app]. cbn [store_pool set_pools cluster].
    destruct (Z.eqb_spec (as_socket_validate b (max_socket_idle_ns (cluster node))) 0)
      as [He|_]; [contradiction|].
    unfold as_node_close_connection. rewrite Hpool.
    unfold update_pool, as_socket_close, store_pool, set_pools.
    cbn [sync_conn_pools cluster conn_iter address_index perform_login closed
         alter list_alter insert list_insert].
    rewrite Hpools.
    match goal with
    | |- context [alter ?f 0%nat (<[0%nat := ?x]> [p])] =>
        change (alter f 0%nat (<[0%nat := x]> [p])) with [f x]
    end.
    unfold as_conn_pool_decr. cbn [q_items q_capacity q_total].
    cbn [length] in Htotal.
    rewrite (u32_small (q_total p - 1)) by (unfold is_u32; lia).
    erewrite IH; [| reflexivity | reflexivity | | cbn [q_total]; lia].
    + f_equal. unfold swept.
      cbn [cluster sync_conn_pools conn_iter address_index perform_login closed
           q_items q_capacity q_total length].
      rewrite <- app_assoc. cbn [app]. do 2 f_equal. f_equal. lia.
    + eapply Forall_impl; [exact Hbad|]. intros s Hs. exact Hs.
Qed.

(** The loop on a sub-pool whose queue holds a connection that passes
    validation behind connections that fail it. *)
Lemma get_connection_loop_first_healthy (fuel : nat) (node : as_node)
    (p : as_queue) (bad : list as_socket) (s : as_socket)
    (rest : list as_socket) :
  sync_conn_pools node = [p] ->
  q_items p = bad ++ s :: rest ->
  Forall (unusable node) bad ->
  as_socket_validate s (max_socket_idle_ns (cluster node)) = 0 ->
  Z.of_nat (length bad) <= q_total p < 2 ^ 32 ->
  get_connection_loop as_socket_validate connect as_authenticate
    (length bad + S fuel) node 1 0 0%nat 0 false
  = (ConnOk (with_pool s 0), swept node p bad rest 0).
Proof.
  intros Hpools Hitems Hbad Hs Htotal.
  rewrite (single_pool_closes_unusable bad node p _ (s :: rest))
    by assumption.
  cbn [get_connection_loop swept sync_conn_pools].
  change ([?x] !! 0%nat) with (Some x).
  unfold as_conn_pool_pop_head, store_pool, set_pools, swept.
  cbn [q_items q_capacity q_total cluster sync_conn_pools conn_iter
       address_index perform_login closed].
  rewrite Hs. cbn [Z.eqb]. reflexivity.
Qed.

(** The loop on a sub-pool whose idle connections all fail validation. *)
Lemma get_connection_loop_none_healthy (fuel : nat) (node : as_node)
    (p : as_queue) :
  sync_conn_pools node = [p] ->
  Forall (unusable node) (q_items p) ->
  Z.of_nat (length (q_items p)) <= q_total p < 2 ^ 32 - 1 ->
  get_connection_loop as_socket_validate connect as_authenticate
    (length (q_items p) + S fuel) node 1 0 0%nat 0 false
  = if q_total p - Z.of_nat (length (q_items p)) <? q_capacity p
    then as_node_create_connection connect as_authenticate
           (swept node p (q_items p) [] 1) 0
    else (ConnError no_more_connections, swept node p (q_items p) [] 0).
Proof.
  intros Hpools Hbad Htotal.
  rewrite (single_pool_closes_unusable (q_items p) node p _ [])
    by (try assumption; try lia; rewrite app_nil_r; reflexivity).
  cbn [get_connection_loop swept sync_conn_pools].
  change ([?x] !! 0%nat) with (Some x).
  unfold as_conn_pool_pop_head, as_conn_pool_incr, store_pool, set_pools, swept.
  cbn [q_items q_capacity q_total cluster sync_conn_pools conn_iter
       address_index perform_login closed].
  rewrite Z.add_0_r.
  set (t := q_total p - Z.of_nat (length (q_items p))).
  rewrite (u32_small (t + 1)) by (unfold is_u32; subst t; lia).
  destruct (Z.ltb_spec t (q_capacity p)) as [Hroom|Hfull].
  - reflexivity.
  - unfold update_pool, set_pools.
    cbn [sync_conn_pools cluster conn_iter address_index perform_login closed].
    match goal with
    | |- context [alter ?f 0%nat (<[0%nat := ?x]> [?y])] =>
        change (alter f 0%nat (<[0%nat := x]> [y])) with [f x]
    end.
    unfold as_conn_pool_decr. cbn [q_items q_capacity q_total].
    replace (t + 1 - 1) with t by lia.
    rewrite (u32_small t) by (unfold is_u32; subst t; lia).
    change (u32 (0 + 1)) with 1. cbn [Z.leb Z.compare Pos.compare Pos.compare_cont].
    reflexivity.
Qed.

(** With one sub-pool the search starts at sub-pool 0 and goes forward. *)
Lemma as_node_get_connection_single (fuel : nat) (node : as_node) :
  conn_pools_per_node (cluster node) = 1 ->
  as_node_get_connection as_socket_validate connect as_authenticate fuel node
  = get_connection_loop as_socket_validate connect as_authenticate
      fuel node 1 0 0%nat 0 false.
Proof.
  intros Hmax. unfold as_node_get_connection. rewrite Hmax. reflexivity.
Qed.

(** A new connection is opened against a reserved slot, which is given
    back when the connection fails: after [as_node_create_connection] on
    sub-pool 0 the count is the one before the call when it succeeds and
    one less when it fails, whether on connecting or on authenticating. *)
Lemma as_node_create_connection_count (node : as_node) (p : as_queue)
    (r : conn_result) (node' : as_node) :
  sync_conn_pools node = [p] ->
  0 < q_total p < 2 ^ 32 ->
  as_node_create_connection connect as_authenticate node 0 = (r, node') ->
  exists p',
    sync_conn_pools node' = [p']
    /\ q_items p' = q_items p /\ q_capacity p' = q_capacity p
    /\ match r with
       | ConnOk sock => q_total p' = q_total p /\ sock_pool sock = 0%nat
       | ConnError _ => q_total p' = q_total p - 1
       | ConnOutOfBounds _ | ConnNoFuel => False
       end.
Proof.
  intros Hpools Htotal. unfold as_node_create_connection, as_node_create_socket.
  assert (Hdecr : alter as_conn_pool_decr 0%nat [p]
                  = [ {| q_items := q_items p; q_capacity := q_capacity p;
                         q_total := q_total p - 1 |} ]).
  { change (alter as_conn_pool_decr 0%nat [p]) with [as_conn_pool_decr p].
    unfold as_conn_pool_decr. rewrite u32_small by (unfold is_u32; lia).
    reflexivity. }
  destruct (connect node) as [rv sock].
  destruct (Z.ltb_spec rv 0).
  - intros [= <- <-]. unfold update_pool, set_pools. cbn [sync_conn_pools].
    rewrite Hpools, Hdecr. eexists. split; [reflexivity|]. repeat split.
  - set (node1 := if rv =? address_index node then node
                  else set_address_index node rv).
    assert (Hpools1 : sync_conn_pools node1 = [p])
      by (subst node1; destruct (rv =? address_index node); assumption).
    destruct (cluster_user (cluster node1)).
    + destruct (as_authenticate node1 (with_pool sock 0)) eqn:Hauth;
        intros [= <- <-];
        try (exists p; rewrite Hpools1; repeat split; reflexivity);
        unfold update_pool, set_pools, as_socket_close, as_node_signal_login;
        destruct (perform_login node1);
        cbn [sync_conn_pools set_perform_login]; rewrite Hpools1, Hdecr;
        (eexists; split; [reflexivity|]); repeat split.
    + intros [= <- <-]. exists p. rewrite Hpools1. repeat split; reflexivity.
Qed.

(** A queue whose connections all belong to sub-pool 0 is either unusable
    throughout, or a run of unusable connections followed by the first one
    that passes validation. *)
Lemma first_healthy_split (node : as_node) (items : list as_socket) :
  Forall (fun s => sock_pool s = 0%nat) items ->
  Forall (unusable node) items
  \/ exists bad s rest,
       items = bad ++ s :: rest /\ Forall (unusable node) bad
       /\ as_socket_validate s (max_socket_idle_ns (cluster node)) = 0.
Proof.
  induction 1 as [|s items Hs _ IH]; [left; constructor|].
  destruct (Z.eq_dec (as_socket_validate s (max_socket_idle_ns (cluster node))) 0)
    as [Hok|Hbad].
  - right. exists [], s, items. repeat split; [constructor | exact Hok].
  - destruct IH as [Hall | (bad & s' & rest & -> & Hb & Hok)].
    + left. constructor; [split; assumption | exact Hall].
    + right. exists (s :: bad), s', rest. split; [reflexivity|].
      split; [|exact Hok]. constructor; [split; assumption | exact Hb].
Qed.

(** The connections of a sub-pool that are out with a caller: counted, and
    not idle in the queue. *)
Definition leased (p : as_queue) : Z :=
  q_total p - Z.of_nat (length (q_items p)).

(** With one sub-pool, the connection handed out is the first idle
    connection from the head that passes validation; the connections in
    front of it, which fail it, are closed and released one by one, and
    the rest of the queue is left as it was. *)
Theorem as_node_get_connection_first_healthy (fuel : nat) (node : as_node)
    (p : as_queue) (bad : list as_socket) (s : as_socket)
    (rest : list as_socket) :
  conn_pools_per_node (cluster node) = 1 ->
  sync_conn_pools node = [p] ->
  q_items p = bad ++ s :: rest ->
  Forall (unusable node) bad ->
  as_socket_validate s (max_socket_idle_ns (cluster node)) = 0 ->
  Z.of_nat (length bad) <= q_total p < 2 ^ 32 ->
  (length bad < fuel)%nat ->
  as_node_get_connection as_socket_validate connect as_authenticate fuel node
  = (ConnOk (with_pool s 0), swept node p bad rest 0).
Proof.
  intros Hmax Hpools Hitems Hbad Hs Htotal Hfuel.
  rewrite as_node_get_connection_single by exact Hmax.
  replace fuel with (length bad + S (fuel - length bad - 1))%nat by lia.
  apply get_connection_loop_first_healthy; assumption.
Qed.

(** With one sub-pool and no idle connection that passes validation, every
    idle connection is closed and released; then, if the connections still
    counted are fewer than the capacity, a slot is reserved and a new
    connection is opened against it, and otherwise the call fails with "no
    more connections" and reserves nothing. *)
Theorem as_node_get_connection_opens_or_refuses (fuel : nat) (node : as_node)
    (p : as_queue) :
  conn_pools_per_node (cluster node) = 1 ->
  sync_conn_pools node = [p] ->
  Forall (unusable node) (q_items p) ->
  Z.of_nat (length (q_items p)) <= q_total p < 2 ^ 32 - 1 ->
  (length (q_items p) < fuel)%nat ->
  as_node_get_connection as_socket_validate connect as_authenticate fuel node
  = if q_total p - Z.of_nat (length (q_items p)) <? q_capacity p
    then as_node_create_connection connect as_authenticate
           (swept node p (q_items p) [] 1) 0
    else (ConnError no_more_connections, swept node p (q_items p) [] 0).
Proof.
  intros Hmax Hpools Hbad Htotal Hfuel.
  rewrite as_node_get_connection_single by exact Hmax.
  replace fuel with (length (q_items p) + S (fuel - length (q_items p) - 1))%nat
    by lia.
  apply get_connection_loop_none_healthy; assumption.
Qed.

(** The accounting of a sub-pool across a call, on a node with one
    sub-pool whose idle connections are counted and whose count is within
    the capacity: the call returns a connection or an error, never leaves
    the pool array; the count stays within the capacity; and the number of
    connections out with callers goes up by one when a connection is
    returned and stays as it was when the call fails, whatever was closed
    on the way. *)
Theorem as_node_get_connection_leases_one (fuel : nat) (node : as_node)
    (p : as_queue) (r : conn_result) (node' : as_node) :
  conn_pools_per_node (cluster node) = 1 ->
  sync_conn_pools node = [p] ->
  Forall (fun s => sock_pool s = 0%nat) (q_items p) ->
  Z.of_nat (length (q_items p)) <= q_total p <= q_capacity p ->
  q_capacity p < 2 ^ 32 - 1 ->
  (length (q_items p) < fuel)%nat ->
  as_node_get_connection as_socket_validate connect as_authenticate fuel node
  = (r, node') ->
  exists p',
    sync_conn_pools node' = [p']
    /\ q_capacity p' = q_capacity p
    /\ Z.of_nat (length (q_items p')) <= q_total p' <= q_capacity p'
    /\ match r with
       | ConnOk sock => leased p' = leased p + 1 /\ sock_pool sock = 0%nat
       | ConnError _ => leased p' = leased p
       | ConnOutOfBounds _ | ConnNoFuel => False
       end.
Proof.
  intros Hmax Hpools Hzero Htotal Hcap Hfuel.
  destruct (first_healthy_split node (q_items p) Hzero)
    as [Hall | (bad & s & rest & Hitems & Hbad & Hok)].
  - rewrite as_node_get_connection_single by exact Hmax.
    replace fuel with (length (q_items p) + S (fuel - length (q_items p) - 1))%nat
      by lia.
    rewrite get_connection_loop_none_healthy by (try assumption; lia).
    destruct (Z.ltb_spec (q_total p - Z.of_nat (length (q_items p))) (q_capacity p))
      as [Hroom|Hfull].
    + intros Hrun.
      eapply as_node_create_connection_count in Hrun;
        [| reflexivity | cbn [q_total]; lia].
      destruct Hrun as (p' & Hp' & Hi & Hc & Hr). exists p'.
      cbn [q_items q_capacity q_total] in Hi, Hc, Hr.
      split; [exact Hp'|]. split; [exact Hc|]. unfold leased.
      rewrite Hi, Hc. cbn [length].
      destruct r as [sock|err|i|]; [destruct Hr as [Ht Hs] | | |]; try contradiction.
      * rewrite Ht. repeat split; lia.
      * rewrite Hr. repeat split; lia.
    + intros [= <- <-]. eexists. split; [reflexivity|].
      unfold leased. cbn [q_items q_capacity q_total length]. repeat split; lia.
  - assert (Hlen : length (q_items p) = (length bad + S (length rest))%nat)
      by (rewrite Hitems, length_app; reflexivity).
    rewrite as_node_get_connection_single by exact Hmax.
    replace fuel with (length bad + S (fuel - length bad - 1))%nat by lia.
    rewrite (get_connection_loop_first_healthy _ node p bad s rest)
      by (try assumption; lia).
    intros [= <- <-]. eexists. split; [reflexivity|].
    unfold leased. cbn [q_items q_capacity q_total with_pool sock_pool].
    repeat split; lia.
Qed.

End Search.

(** A validation that rejects the connection on descriptor 7. *)
Definition rejects_7 (s : as_socket) (max_idle : Z) : Z :=
  if sock_fd s =? 7 then 1 else 0.

(** One sub-pool of capacity 4 that counts three connections, two of them
    idle: the one on descriptor 7 at the head, the one on 8 behind it. *)
Definition one_pool_node (items : list as_socket) : as_node :=
  {| cluster := {| conn_pools_per_node := 1; max_conns_per_node := 4;
                   max_socket_idle_ns := 0; cluster_user := false |};
     sync_conn_pools :=
       [ {| q_items := items; q_capacity := 4; q_total := 3 |} ];
     conn_iter := 0; address_index := 0; perform_login := false;
     closed := [] |}.

Definition stale_then_good : list as_socket :=
  [idle_socket 7 0 0; idle_socket 8 0 0].

Definition sample_pool (items : list as_socket) : as_queue :=
  {| q_items := items; q_capacity := 4; q_total := 3 |}.

Lemma as_node_get_connection_first_healthy_witness :
  as_node_get_connection rejects_7 connect_ok authenticate_ok 4
    (one_pool_node stale_then_good)
  = (ConnOk (with_pool (idle_socket 8 0 0) 0),
     swept (one_pool_node stale_then_good) (sample_pool stale_then_good)
       [idle_socket 7 0 0] [] 0).
Proof.
  apply (as_node_get_connection_first_healthy rejects_7 connect_ok
           authenticate_ok 4 (one_pool_node stale_then_good)
           (sample_pool stale_then_good) [idle_socket 7 0 0]
           (idle_socket 8 0 0) []).
  - reflexivity.
  - reflexivity.
  - reflexivity.
  - repeat constructor. vm_compute. discriminate.
  - reflexivity.
  - vm_compute. split; [discriminate | reflexivity].
  - vm_compute. lia.
Defined.

Lemma as_node_get_connection_opens_or_refuses_witness :
  as_node_get_connection rejects_7 connect_ok authenticate_ok 4
    (one_pool_node [idle_socket 7 0 0])
  = if q_total (sample_pool [idle_socket 7 0 0])
       - Z.of_nat (length (q_items (sample_pool [idle_socket 7 0 0])))
       <? q_capacity (sample_pool [idle_socket 7 0 0])
    then as_node_create_connection connect_ok authenticate_ok
           (swept (one_pool_node [idle_socket 7 0 0])
              (sample_pool [idle_socket 7 0 0])
              (q_items (sample_pool [idle_socket 7 0 0])) [] 1) 0
    else (ConnError no_more_connections,
          swept (one_pool_node [idle_socket 7 0 0])
            (sample_pool [idle_socket 7 0 0])
            (q_items (sample_pool [idle_socket 7 0 0])) [] 0).
Proof.
  apply (as_node_get_connection_opens_or_refuses rejects_7 connect_ok
           authenticate_ok 4 (one_pool_node [idle_socket 7 0 0])
           (sample_pool [idle_socket 7 0 0])).
  - reflexivity.
  - reflexivity.
  - repeat constructor. vm_compute. discriminate.
  - vm_compute. split; [discriminate | reflexivity].
  - vm_compute. lia.
Defined.

Lemma as_node_get_connection_leases_one_witness :
  exists p',
    sync_conn_pools
      (as_node_get_connection rejects_7 connect_ok authenticate_ok 4
         (one_pool_node stale_then_good)).2 = [p']
    /\ q_capacity p' = 4
    /\ Z.of_nat (length (q_items p')) <= q_total p' <= q_capacity p'
    /\ leased p' = leased (sample_pool stale_then_good) + 1.
Proof.
  destruct (as_node_get_connection_leases_one rejects_7 connect_ok
              authenticate_ok 4 (one_pool_node stale_then_good)
              (sample_pool stale_then_good)
              (as_node_get_connection rejects_7 connect_ok authenticate_ok 4
                 (one_pool_node stale_then_good)).1
              (as_node_get_connection rejects_7 connect_ok authenticate_ok 4
                 (one_pool_node stale_then_good)).2)
    as (p' & Hp & Hc & Ht & Hr).
  - reflexivity.
  - reflexivity.
  - repeat constructor.
  - vm_compute. repeat split; discriminate.
  - reflexivity.
  - vm_compute. lia.
  - reflexivity.
  - exists p'. split; [exact Hp|]. split; [exact Hc|]. split; [exact Ht|].
    exact (proj1 Hr).
Defined.

End PoolSearch.

(** ** Tending a node: what a refresh leaves behind *)

Module Tend.

Import Info.

Definition set_partition_generation (node : as_node) (gen : Z) : as_node :=
  {| cluster := cluster node; name := name node;
     info_socket_fd := info_socket_fd node;
     session_token := session_token node;
     session_expiration := session_expiration node;
     perform_login := perform_login node;
     peers_generation := peers_generation node;
     partition_generation := gen;
     rebalance_generation := rebalance_generation node;
     partition_changed := partition_changed node;
     rebalance_changed := rebalance_changed node; active := active node |}.

Definition INFO_STR_GET_REPLICAS_ALL : string :=
  "partition-generation" ++ String "010" ("replicas-all" ++ String "010" "").
Definition INFO_STR_GET_REPLICAS_REGIME : string :=
  "partition-generation" ++ String "010" ("replicas" ++ String "010" "").

Section Partitions.

(** Collaborators as in [Info]: the split of a response into name/value
    pairs and the C library's [strtoul(value, NULL, 10)]; and the feature
    bit [AS_FEATURES_REPLICAS] of [as_node.h]. *)
Variable as_info_parse_multi_response : list byte -> list (string * string).
Variable strtoul10 : string -> Z.
Variable AS_FEATURES_REPLICAS : Z.

(** [as_node_process_partitions].  [updates] lists the calls of
    [as_partition_tables_update_all] ([as_partition.c]), each with its
    value and its [has_regime] argument, oldest first. *)
Fixpoint as_node_process_partitions (node : as_node)
    (updates : list (string * bool)) (values : list (string * string))
  : option as_error * as_node * list (string * bool) :=
  match values with
  | [] => (None, node, updates)
  | (nv_name, nv_value) :: values =>
      if String.eqb nv_name "partition-generation" then
        as_node_process_partitions
          (set_partition_generation node (u32 (strtoul10 nv_value)))
          updates values
      else if String.eqb nv_name "replicas" then
        as_node_process_partitions node (updates ++ [(nv_value, true)]) values
      else if String.eqb nv_name "replicas-all" then
        as_node_process_partitions node (updates ++ [(nv_value, false)]) values
      else
        (Some (as_error_update AEROSPIKE_ERR_CLIENT "Node did not request info"),
         node, updates)
  end.

Definition partitions_command (features : Z) : string :=
  if negb (Z.land features AS_FEATURES_REPLICAS =? 0)
  then INFO_STR_GET_REPLICAS_REGIME
  else INFO_STR_GET_REPLICAS_ALL.

(** [as_node_refresh_partitions]; [features] is [node->features].  The
    result is as for [as_node_refresh], with the table updates. *)
Definition as_node_refresh_partitions (a : allocator) (w : wire)
    (garbage : nat -> byte) (features : Z) (node : as_node)
    (updates : list (string * bool))
  : option (as_status * as_node * list (string * bool) * wire) :=
  let command := String.list_byte_of_string (partitions_command features) in
  let stack_buf := fresh_stack_buf garbage in
  match as_node_get_info a w command stack_buf with
  | (InfoNull err, w) =>
      Some (err_code err, close_info_socket node, updates, w)
  | (InfoOutOfBounds, w) => None
  | (InfoStack buf, w) | (InfoHeap buf, w) =>
      let values := as_info_parse_multi_response buf in
      match as_node_process_partitions node updates values with
      | (err, node, updates) => Some (status_of err, node, updates, w)
      end
  end.

(** *** Properties of the refresh *)

(** The fields of the node that processing a response never assigns. *)
Definition same_identity (node node' : as_node) : Prop :=
  cluster node' = cluster node
  /\ name node' = name node
  /\ info_socket_fd node' = info_socket_fd node
  /\ session_token node' = session_token node
  /\ session_expiration node' = session_expiration node
  /\ perform_login node' = perform_login node.

Lemma as_node_process_response_scope values : forall node peers err node' peers',
  as_node_process_response strtoul10 node peers values = (err, node', peers') ->
  same_identity node node'
  /\ peers_generation node' = peers_generation node
  /\ partition_generation node' = partition_generation node
  /\ rebalance_generation node' = rebalance_generation node
  /\ (partition_changed node = true -> partition_changed node' = true)
  /\ (rebalance_changed node = true -> rebalance_changed node' = true)
  /\ (gen_changed peers = true -> gen_changed peers' = true)
  /\ use_peers peers' = use_peers peers
  /\ status_of err ∈ [AEROSPIKE_OK; AEROSPIKE_ERR_CLIENT]
  /\ (active node' <> active node ->
      active node' = false /\ status_of err = AEROSPIKE_ERR_CLIENT).
Proof.
  induction values as [|[nv_name nv_value] values IH];
    intros node peers err node' peers'; cbn [as_node_process_response].
  - intros [= <- <- <-]. unfold same_identity. repeat split; try tauto.
    cbn [status_of]. apply elem_of_cons. left. reflexivity.
  - destruct (String.eqb nv_name "node").
    { unfold as_node_verify_name.
      destruct (String.eqb nv_value ""); [|destruct (negb (String.eqb (name node) nv_value))].
      - intros [= <- <- <-]. unfold same_identity. repeat split; try tauto.
        cbn [status_of err_code as_error_update].
        apply elem_of_cons. right. apply elem_of_cons. left. reflexivity.
      - intros [= <- <- <-]. unfold same_identity, set_inactive.
        cbn [cluster name info_socket_fd session_token session_expiration
             perform_login peers_generation partition_generation
             rebalance_generation partition_changed rebalance_changed active].
        repeat split; try tauto.
        cbn [status_of err_code as_error_update].
        apply elem_of_cons. right. apply elem_of_cons. left. reflexivity.
      - apply IH. }
    destruct (String.eqb nv_name "peers-generation").
    { intros H. apply IH in H.
      destruct (peers_generation node =? u32 (strtoul10 nv_value));
        [exact H|].
      unfold same_identity, set_gen_changed in *.
      cbn [gen_changed use_peers] in H. intuition auto. }
    destruct (String.eqb nv_name "partition-generation").
    { intros H. apply IH in H.
      destruct (partition_generation node =? u32 (strtoul10 nv_value));
        [exact H|].
      unfold same_identity, set_partition_changed in *.
      cbn [cluster name info_socket_fd session_token session_expiration
           perform_login peers_generation partition_generation
           rebalance_generation partition_changed rebalance_changed active] in H.
      intuition auto. }
    destruct (String.eqb nv_name "rebalance-generation").
    { intros H. apply IH in H.
      destruct (rebalance_generation node =? u32 (strtoul10 nv_value));
        [exact H|].
      unfold same_identity, set_rebalance_changed in *.
      cbn [cluster name info_socket_fd session_token session_expiration
           perform_login peers_generation partition_generation
           rebalance_generation partition_changed rebalance_changed active] in H.
      intuition auto. }
    destruct (String.eqb nv_name "services" || String.eqb nv_name "services-alternate").
    { intros H. apply IH in H.
      cbn [as_peers_parse_services gen_changed use_peers] in H. exact H. }
    intros [= <- <- <-]. unfold same_identity. repeat split; try tauto.
    cbn [status_of err_code as_error_update].
    apply elem_of_cons. right. apply elem_of_cons. left. reflexivity.
Qed.

(** Processing the response of a refresh only raises flags: it never
    stores a generation, never lowers [partition_changed],
    [rebalance_changed] or the peers' [gen_changed], leaves the name, the
    session and the tend socket of the node alone, ends with no error or
    with a client error, and deactivates the node only together with a
    client error. *)
Theorem as_node_process_response_only_raises_flags (node : as_node)
    (peers : as_peers) (values : list (string * string)) :
  let r := as_node_process_response strtoul10 node peers values in
  same_identity node r.1.2
  /\ peers_generation r.1.2 = peers_generation node
  /\ partition_generation r.1.2 = partition_generation node
  /\ rebalance_generation r.1.2 = rebalance_generation node
  /\ (partition_changed node = true -> partition_changed r.1.2 = true)
  /\ (rebalance_changed node = true -> rebalance_changed r.1.2 = true)
  /\ (gen_changed peers = true -> gen_changed r.2 = true)
  /\ use_peers r.2 = use_peers peers
  /\ status_of r.1.1 ∈ [AEROSPIKE_OK; AEROSPIKE_ERR_CLIENT]
  /\ (active r.1.2 <> active node ->
      active r.1.2 = false /\ status_of r.1.1 = AEROSPIKE_ERR_CLIENT).
Proof.
  intros r. subst r.
  destruct (as_node_process_response strtoul10 node peers values)
    as [[err node'] peers'] eqn:Hrun.
  cbn [fst snd]. eapply as_node_process_response_scope. exact Hrun.
Qed.

(** The names that [as_node_process_response] accepts besides [node]. *)
Definition status_name (nv : string * string) : Prop :=
  nv.1 ∈ ["peers-generation"%string; "partition-generation"%string;
          "rebalance-generation"%string; "services"%string;
          "services-alternate"%string].

Lemma as_node_process_response_skips pre : forall node peers rest,
  Forall status_name pre ->
  exists node1 peers1,
    as_node_process_response strtoul10 node peers (pre ++ rest)
    = as_node_process_response strtoul10 node1 peers1 rest
    /\ name node1 = name node
    /\ info_socket_fd node1 = info_socket_fd node.
Proof.
  induction pre as [|[nv_name nv_value] pre IH]; intros node peers rest Hpre.
  - exists node, peers. repeat split.
  - apply Forall_cons in Hpre as [Hnv Hpre]. unfold status_name in Hnv.
    cbn [fst] in Hnv. cbn [app as_node_process_response].
    repeat (apply elem_of_cons in Hnv as [-> | Hnv]); [..|inversion Hnv];
      cbn [String.eqb Ascii.eqb Bool.eqb orb];
      match goal with
      | |- context [as_node_process_response strtoul10 ?n ?p (pre ++ rest)] =>
          destruct (IH n p rest Hpre) as (node1 & peers1 & Heq & Hname & Hfd);
          exists node1, peers1; rewrite Heq, Hname, Hfd; split; [reflexivity|]
      end;
      repeat match goal with
             | |- context [if ?c then _ else _] => destruct c
             end; split; reflexivity.
Qed.

(** The nodes that differ only in the stored partition generation. *)
Lemma as_node_process_partitions_scope values : forall node updates,
  let r := as_node_process_partitions node updates values in
  r.1.2 = set_partition_generation node (partition_generation r.1.2)
  /\ status_of r.1.1 ∈ [AEROSPIKE_OK; AEROSPIKE_ERR_CLIENT].
Proof.
  induction values as [|[nv_name nv_value] values IH]; intros node updates;
    cbn [as_node_process_partitions].
  - cbn. split; [destruct node; reflexivity|]. apply elem_of_cons. left. reflexivity.
  - destruct (String.eqb nv_name "partition-generation").
    { destruct (IH (set_partition_generation node (u32 (strtoul10 nv_value)))
                  updates) as [H1 H2].
      split; [|exact H2]. rewrite H1 at 1. reflexivity. }
    destruct (String.eqb nv_name "replicas"); [apply IH|].
    destruct (String.eqb nv_name "replicas-all"); [apply IH|].
    cbn. split; [destruct node; reflexivity|].
    apply elem_of_cons. right. apply elem_of_cons. left. reflexivity.
Qed.

Lemma partitions_command_fits garbage features :
  (AS_PROTO_SIZE
   + length (String.list_byte_of_string (partitions_command features))
   <= length (fresh_stack_buf garbage))%nat.
Proof.
  unfold fresh_stack_buf. rewrite length_map, length_seq.
  unfold partitions_command.
  destruct (negb (Z.land features AS_FEATURES_REPLICAS =? 0)); vm_compute; lia.
Qed.

Lemma fresh_stack_buf_length garbage :
  Z.of_nat (length (fresh_stack_buf garbage)) = INFO_STACK_BUF_SIZE.
Proof.
  unfold fresh_stack_buf. rewrite length_map, length_seq. vm_compute. reflexivity.
Qed.

(** A partitions refresh closes the tend socket exactly when the info
    request itself fails, and then returns the error of the request.  Once
    a response has been read the socket stays as it was, even when the
    response carries a name that was not requested, which gives a client
    error; of the node only the stored partition generation can change. *)
Theorem as_node_refresh_partitions_socket (a : allocator) (w : wire)
    (garbage : nat -> byte) (features : Z) (node : as_node)
    (updates : list (string * bool)) :
  let request :=
    as_node_get_info a w
      (String.list_byte_of_string (partitions_command features))
      (fresh_stack_buf garbage) in
  exists status node' updates',
    as_node_refresh_partitions a w garbage features node updates
    = Some (status, node', updates', request.2)
    /\ match request.1 with
       | InfoNull err =>
           status = err_code err /\ node' = close_info_socket node
           /\ updates' = updates
       | _ =>
           node' = set_partition_generation node (partition_generation node')
           /\ status ∈ [AEROSPIKE_OK; AEROSPIKE_ERR_CLIENT]
       end.
Proof.
  intros request. subst request. unfold as_node_refresh_partitions.
  pose proof (as_node_get_info_in_bounds a w _ _
                (fresh_stack_buf_length garbage)
                (partitions_command_fits garbage features)) as Hin.
  destruct (as_node_get_info a w _ (fresh_stack_buf garbage)) as [out w1].
  cbn [fst snd] in *.
  destruct out as [err|buf|buf|]; [| | |congruence].
  - eexists _, _, _. split; [reflexivity|]. repeat split.
  - pose proof (as_node_process_partitions_scope
                  (as_info_parse_multi_response buf) node updates) as Hscope.
    destruct (as_node_process_partitions node updates _) as [[err node'] ups'].
    cbn [fst snd] in Hscope. eexists _, _, _. split; [reflexivity|]. exact Hscope.
  - pose proof (as_node_process_partitions_scope
                  (as_info_parse_multi_response buf) node updates) as Hscope.
    destruct (as_node_process_partitions node updates _) as [[err node'] ups'].
    cbn [fst snd] in Hscope. eexists _, _, _. split; [reflexivity|]. exact Hscope.
Qed.

(** Whether a refresh response carries a partition generation other than
    [gen]. *)
Definition other_generation (gen : Z) (nv : string * string) : bool :=
  String.eqb nv.1 "partition-generation" && negb (gen =? u32 (strtoul10 nv.2)).

Lemma as_node_process_response_partition_flag values :
  forall node peers node' peers',
    as_node_process_response strtoul10 node peers values = (None, node', peers') ->
    partition_changed node'
    = partition_changed node
      || existsb (other_generation (partition_generation node)) values.
Proof.
  induction values as [|[nv_name nv_value] values IH];
    intros node peers node' peers'; cbn [as_node_process_response existsb].
  - intros [= <- <-]. rewrite orb_false_r. reflexivity.
  - unfold other_generation at 1. cbn [fst snd].
    destruct (String.eqb nv_name "node") eqn:Hnode.
    { assert (String.eqb nv_name "partition-generation" = false) as ->.
      { apply String.eqb_eq in Hnode. subst nv_name. reflexivity. }
      cbn [andb orb]. unfold as_node_verify_name.
      destruct (String.eqb nv_value ""); [discriminate|].
      destruct (negb (String.eqb (name node) nv_value)); [discriminate|].
      apply IH. }
    destruct (String.eqb nv_name "peers-generation") eqn:Hpeers.
    { assert (String.eqb nv_name "partition-generation" = false) as ->.
      { apply String.eqb_eq in Hpeers. subst nv_name. reflexivity. }
      cbn [andb orb]. apply IH. }
    destruct (String.eqb nv_name "partition-generation").
    { cbn [andb]. intros H. apply IH in H. rewrite H.
      destruct (partition_generation node =? u32 (strtoul10 nv_value));
        cbn [negb orb]; [reflexivity|].
      cbn [set_partition_changed partition_changed partition_generation].
      rewrite orb_true_r. reflexivity. }
    cbn [andb orb].
    destruct (String.eqb nv_name "rebalance-generation").
    { intros H. apply IH in H. rewrite H.
      destruct (rebalance_generation node =? u32 (strtoul10 nv_value));
        reflexivity. }
    destruct (String.eqb nv_name "services" || String.eqb nv_name "services-alternate");
      [apply IH | discriminate].
Qed.

(** The generation that a partitions refresh stores is the one that the
    next refresh compares with: after [as_node_process_partitions] has
    read [partition-generation] as [v], a refresh response raises
    [partition_changed] exactly when it carries a partition generation that
    differs from [v] as a 32-bit number. *)
Theorem partition_generation_round_trip (node : as_node)
    (updates : list (string * bool)) (v : string) :
  let stored :=
    (as_node_process_partitions node updates [("partition-generation"%string, v)]).1.2 in
  partition_generation stored = u32 (strtoul10 v)
  /\ partition_changed stored = partition_changed node
  /\ forall peers values node' peers',
       as_node_process_response strtoul10 stored peers values
       = (None, node', peers') ->
       partition_changed node'
       = partition_changed node
         || existsb (other_generation (u32 (strtoul10 v))) values.
Proof.
  intros stored. subst stored. cbn [as_node_process_partitions String.eqb
    Ascii.eqb Bool.eqb fst snd].
  split; [reflexivity|]. split; [reflexivity|].
  intros peers values node' peers' H.
  apply as_node_process_response_partition_flag in H. exact H.
Qed.

End Partitions.

Section Refresh.

Variable create_socket : as_node -> as_error + Z.
Variable as_cluster_login : as_node -> Z -> as_error + (list byte * Z).
Variable as_authenticate : as_node -> Z -> as_status.
Variable cf_getns : Z.
Variable as_info_parse_multi_response : list byte -> list (string * string).
Variable strtoul10 : string -> Z.

Lemma as_node_login_socket node sock err node' :
  as_node_login as_cluster_login node sock = (err, node') ->
  info_socket_fd node' = info_socket_fd node.
Proof.
  unfold as_node_login.
  destruct (as_cluster_login node sock) as [e|[token expiration]];
    intros [= <- <-]; reflexivity.
Qed.

Lemma as_node_get_tend_connection_failure node err node' :
  as_node_get_tend_connection create_socket as_cluster_login as_authenticate
    cf_getns node = (Some err, node') ->
  info_socket_fd node' < 0.
Proof.
  unfold as_node_get_tend_connection, as_node_ensure_login.
  destruct (Z.ltb_spec (info_socket_fd node) 0) as [Hclosed|Hopen].
  - destruct (create_socket node) as [e|sock]; [intros [= <- <-]; exact Hclosed|].
    destruct (cluster_user (cluster node)); [|discriminate].
    destruct (perform_login node || _).
    + destruct (as_node_login as_cluster_login node sock) as [[e|] node1] eqn:Hlogin;
        [|discriminate].
      intros [= <- <-]. apply as_node_login_socket in Hlogin. lia.
    + destruct (as_authenticate node sock); try discriminate;
        destruct (as_node_login as_cluster_login node sock) as [[e|] node1] eqn:Hlogin;
        try discriminate;
        intros [= <- <-]; apply as_node_login_socket in Hlogin; lia.
  - destruct (cluster_user (cluster node)); [|discriminate].
    destruct (perform_login node || _).
    + destruct (as_node_login as_cluster_login node (info_socket_fd node))
        as [[e|] node1]; [|discriminate].
      intros [= <- <-]. cbn. lia.
    + discriminate.
Qed.

(** A refresh that does not succeed never leaves the tend socket open:
    whether opening or logging in failed, the info request failed, or the
    response was refused, the node's info socket is closed when
    [as_node_refresh] returns another status than [AEROSPIKE_OK]. *)
Theorem as_node_refresh_failure_closes_socket (a : allocator) (w : wire)
    (garbage : nat -> byte) (node : as_node) (peers : as_peers) :
  exists status node' peers' w',
    as_node_refresh create_socket as_cluster_login as_authenticate cf_getns
      as_info_parse_multi_response strtoul10 a w garbage node peers
    = Some (status, node', peers', w')
    /\ (status <> AEROSPIKE_OK -> info_socket_fd node' < 0).
Proof.
  unfold as_node_refresh.
  destruct (as_node_get_tend_connection _ _ _ _ node) as [[err|] tended] eqn:Htend.
  - eexists _, _, _, _. split; [reflexivity|]. intros _.
    eapply as_node_get_tend_connection_failure. exact Htend.
  - cbv zeta.
    pose proof (as_node_get_info_in_bounds a w _ _
                  (fresh_stack_buf_length garbage)
                  (refresh_command_fits garbage tended peers)) as Hin.
    destruct (as_node_get_info a w _ (fresh_stack_buf garbage)) as [out w1].
    cbn [fst] in Hin.
    assert (Hbuf : forall buf,
      exists status node' peers' w',
        (let values := as_info_parse_multi_response buf in
         let (p, peers0) := as_node_process_response strtoul10 tended peers values in
         let (err, node0) := p in
         Some (status_of err,
               if as_status_eqb (status_of err) AEROSPIKE_ERR_CLIENT
               then close_info_socket node0 else node0, peers0, w1))
        = Some (status, node', peers', w')
        /\ (status <> AEROSPIKE_OK -> info_socket_fd node' < 0)).
    { intros buf. cbv zeta.
      destruct (as_node_process_response strtoul10 tended peers _)
        as [[err node0] peers0] eqn:Hrun.
      apply as_node_process_response_scope in Hrun
        as (_ & _ & _ & _ & _ & _ & _ & _ & Hstatus & _).
      eexists _, _, _, _. split; [reflexivity|].
      apply elem_of_cons in Hstatus as [-> | Hstatus]; [congruence|].
      apply elem_of_cons in Hstatus as [-> | Hstatus]; [|inversion Hstatus].
      intros _. cbn. lia. }
    destruct out as [err|buf|buf|]; [| apply Hbuf | apply Hbuf | congruence].
    eexists _, _, _, _. split; [reflexivity|]. intros _. cbn. lia.
Qed.

(** A node whose name has changed is taken out of service at once: when
    the response of a refresh reports, before any name that was not
    requested, a node name other than the one the client holds, the refresh
    fails with a client error, marks the node inactive and closes the tend
    socket. *)
Theorem as_node_refresh_name_changed (a : allocator) (w w' : wire)
    (garbage : nat -> byte) (node tended : as_node) (peers : as_peers)
    (out : info_outcome) (buf : list byte)
    (pre post : list (string * string)) (v : string) :
  as_node_get_tend_connection create_socket as_cluster_login as_authenticate
    cf_getns node = (None, tended) ->
  as_node_get_info a w
    (String.list_byte_of_string (refresh_command tended peers))
    (fresh_stack_buf garbage) = (out, w') ->
  returned_buffer out = Some buf ->
  as_info_parse_multi_response buf = pre ++ ("node"%string, v) :: post ->
  Forall status_name pre ->
  v <> ""%string -> v <> name tended ->
  exists node' peers',
    as_node_refresh create_socket as_cluster_login as_authenticate cf_getns
      as_info_parse_multi_response strtoul10 a w garbage node peers
    = Some (AEROSPIKE_ERR_CLIENT, node', peers', w')
    /\ active node' = false
    /\ info_socket_fd node' = -1
    /\ name node' = name tended.
Proof.
  intros Htend Hinfo Hret Hparse Hpre Hv Hname.
  unfold as_node_refresh. rewrite Htend. cbv zeta. rewrite Hinfo.
  destruct (as_node_process_response_skips strtoul10 pre tended peers
              (("node"%string, v) :: post) Hpre)
    as (node1 & peers1 & Heq & Hname1 & _).
  assert (Hrun : as_node_process_response strtoul10 tended peers
                   (as_info_parse_multi_response buf)
                 = (Some (as_error_update AEROSPIKE_ERR_CLIENT
                            "Node name has changed."),
                    set_inactive node1, peers1)).
  { rewrite Hparse, Heq. cbn [as_node_process_response String.eqb Ascii.eqb
      Bool.eqb]. unfold as_node_verify_name.
    destruct (String.eqb_spec v ""); [contradiction|].
    destruct (String.eqb_spec (name node1) v); [congruence|]. reflexivity. }
  destruct out as [err|b|b|]; try discriminate; injection Hret as ->;
    rewrite Hrun; cbn [status_of err_code as_error_update as_status_eqb];
    eexists _, _; (split; [reflexivity|]); cbn; repeat split; exact Hname1.
Qed.

End Refresh.

(** *** A sample refresh *)

(** The server answers under another name, ["node<TAB>CC7<LF>"]. *)
Definition renamed_wire : wire :=
  answering (response_header 9
             ++ String.list_byte_of_string
                  ("node" ++ String "009" ("CC7" ++ String "010" ""))).

Definition renamed_run : info_outcome * wire :=
  as_node_get_info sample_allocator renamed_wire
    (String.list_byte_of_string (refresh_command open_node sample_peers))
    (fresh_stack_buf sample_garbage).

Definition renamed_buffer : list byte :=
  match returned_buffer renamed_run.1 with Some b => b | None => [] end.

(** The split of the sample response into its pairs. *)
Definition renamed_values (buf : list byte) : list (string * string) :=
  [("node"%string, "CC7"%string)].

Lemma as_node_refresh_name_changed_witness :
  exists node' peers',
    as_node_refresh (fun _ => inr 5) (fun _ _ => inr ([], 0))
      (fun _ _ => AEROSPIKE_OK) 0 renamed_values (fun _ => 0)
      sample_allocator renamed_wire sample_garbage open_node sample_peers
    = Some (AEROSPIKE_ERR_CLIENT, node', peers', renamed_run.2)
    /\ active node' = false
    /\ info_socket_fd node' = -1
    /\ name node' = name open_node.
Proof.
  apply (as_node_refresh_name_changed (fun _ => inr 5) (fun _ _ => inr ([], 0))
           (fun _ _ => AEROSPIKE_OK) 0 renamed_values (fun _ => 0)
           sample_allocator renamed_wire renamed_run.2 sample_garbage
           open_node open_node sample_peers renamed_run.1 renamed_buffer
           [] [] "CC7").
  - reflexivity.
  - vm_compute. reflexivity.
  - vm_compute. reflexivity.
  - reflexivity.
  - constructor.
  - discriminate.
  - discriminate.
Defined.

End Tend.

(** ** Looking a rack up in the published snapshot *)

Module RackLookup.

Import Racks.

(** [strcmp(a, b) == 0] on the characters of two C strings. *)
Fixpoint strcmp_eq (a b : list ascii) : bool :=
  match a, b with
  | [], [] => true
  | x :: a, y :: b => Ascii.eqb x y && strcmp_eq a b
  | _, _ => false
  end.

Definition with_ref_count (racks : as_racks) (count : Z) : as_racks :=
  {| ref_count := count; racks_rack_id := racks_rack_id racks;
     racks_size := racks_size racks; racks_array := racks_array racks |}.

(** [as_racks_release]: drop one reference; the snapshot is freed when the
    count comes to zero, which the second component tells. *)
Definition as_racks_release (racks : as_racks) : as_racks * bool :=
  let count := u32 (ref_count racks - 1) in
  (with_ref_count racks count, count =? 0).

(** The [for] loop of [as_node_has_rack] from entry [i] on, [n] entries to
    go; [None] is the read of an entry that was never written. *)
Fixpoint search_racks (n : nat) (array : list as_rack) (i : nat)
    (ns : list ascii) (id : Z) : option bool :=
  match n with
  | O => Some false
  | S n =>
      match array !! i with
      | None => None
      | Some r =>
          if strcmp_eq (rack_ns r) ns then Some (rack_id r =? id)
          else search_racks n array (S i) ns id
      end
  end.

(** [as_node_has_rack]: the answer, the store with the snapshot as the call
    leaves it, and whether the call freed the snapshot. *)
Definition as_node_has_rack (store : rack_store) (ns : list ascii) (id : Z)
  : option (bool * rack_store * bool) :=
  match node_racks store with
  | None => Some (false, store, false)
  | Some racks =>
      (* Reserve racks. *)
      let racks := with_ref_count racks (u32 (ref_count racks + 1)) in
      let found :=
        (* Try optimized check. *)
        if racks_size racks =? 0 then Some (racks_rack_id racks =? id)
        else
          (* Must search through namespaces. *)
          search_racks (Z.to_nat (racks_size racks)) (racks_array racks) 0 ns id in
      match found with
      | None => None
      | Some result =>
          let '(racks, freed) := as_racks_release racks in
          Some (result, {| node_racks := Some racks; gc := gc store |}, freed)
      end
  end.

(** *** Properties *)

Lemma strcmp_eq_spec a : forall b, strcmp_eq a b = true <-> a = b.
Proof.
  induction a as [|x a IH]; intros [|y b]; cbn [strcmp_eq];
    try (split; [discriminate | congruence]); [split; reflexivity|].
  rewrite andb_true_iff, IH. split.
  - intros [Hxy ->]. apply Ascii.eqb_eq in Hxy. subst. reflexivity.
  - intros [= -> ->]. split; [apply Ascii.eqb_refl | reflexivity].
Qed.

(** The rack that a response assigns to a namespace: the id of the first
    pair with that namespace. *)
Definition rack_in_response (entries : list entry) (ns : list ascii)
  : option Z :=
  rack_int ∘ snd <$> List.find (fun e : entry => strcmp_eq e.1 ns) entries.

Lemma search_racks_entries rest : forall pre ns id,
  search_racks (length rest) (pre ++ List.map rack_of rest) (length pre) ns id
  = Some (match rack_in_response rest ns with
          | Some r => r =? id
          | None => false
          end).
Proof.
  induction rest as [|e rest IH]; intros pre ns id;
    cbn [length search_racks List.map]; [reflexivity|].
  rewrite list_lookup_middle by reflexivity.
  unfold rack_in_response. cbn [List.find rack_of rack_ns rack_id].
  destruct (strcmp_eq e.1 ns); [reflexivity|].
  specialize (IH (pre ++ [rack_of e]) ns id).
  rewrite <- app_assoc, length_app in IH. cbn [app length] in IH.
  rewrite Nat.add_1_r in IH. exact IH.
Qed.

(** The snapshot that [as_node_parse_racks] publishes for a response. *)
Definition snapshot (entries : list entry) : as_racks :=
  if same_rack entries then
    {| ref_count := 1; racks_rack_id := common_rack entries; racks_size := 0;
       racks_array := [] |}
  else
    {| ref_count := 1; racks_rack_id := 0;
       racks_size := u32 (Z.of_nat (length entries));
       racks_array := List.map rack_of entries |}.

Lemma as_node_parse_racks_snapshot store entries last slack :
  Forall entry_wf entries ->
  last = NUL \/ last = LF ->
  (same_rack entries = false -> forallb ns_valid entries = true) ->
  exists store' mem',
    as_node_parse_racks store (layout entries last ++ NUL :: slack)
    = RacksOk store' mem'
    /\ node_racks store' = Some (snapshot entries)
    /\ gc store' = gc store ++ match node_racks store with
                              | Some old => [old]
                              | None => []
                              end.
Proof.
  intros Hwf Hlast Hvalid. set (buf := layout entries last ++ NUL :: slack).
  unfold as_node_parse_racks.
  assert (Hfuel : (length (layout entries last) + 1 <= S (length buf))%nat).
  { subst buf. rewrite length_app. cbn [length]. lia. }
  pose proof (prescan_layout entries [] slack
                {| ps_rack_id := 0; ps_first := true; ps_same := true;
                   ps_size := 0 |} (S (length buf)) 0%nat last eq_refl Hwf Hlast Hfuel)
    as Hscan.
  cbn [app] in Hscan. fold buf in Hscan. rewrite Hscan.
  destruct (prescan_entries_initial entries) as (Hid & Hsame & Hsize).
  rewrite Hsame, Hid, Hsize. unfold snapshot.
  destruct (same_rack entries).
  - eexists _, _. split; [reflexivity|]. unfold as_node_replace_racks.
    destruct (node_racks store); cbn; rewrite ?app_nil_r; split; reflexivity.
  - destruct (parse_layout entries [] slack (S (length buf)) 0%nat last []
                eq_refl Hwf Hlast Hfuel) as [mem' Hrun].
    cbn [app] in Hrun. fold buf in Hrun. rewrite Hrun, Hvalid by reflexivity.
    eexists _, _. split; [reflexivity|]. unfold as_node_replace_racks.
    destruct (node_racks store); cbn; rewrite ?app_nil_r; split; reflexivity.
Qed.

Lemma as_node_has_rack_snapshot store entries ns id :
  Z.of_nat (length entries) < 2 ^ 32 ->
  node_racks store = Some (snapshot entries) ->
  as_node_has_rack store ns id
  = Some (if same_rack entries then common_rack entries =? id
          else match rack_in_response entries ns with
               | Some r => r =? id
               | None => false
               end,
          store, false).
Proof.
  intros Hlen Hracks. unfold as_node_has_rack. rewrite Hracks.
  unfold snapshot, as_racks_release, with_ref_count.
  destruct store as [racks gc0]. cbn [node_racks gc] in *. subst racks.
  unfold snapshot.
  destruct (same_rack entries) eqn:Hsame;
    cbn [ref_count racks_rack_id racks_size racks_array Z.eqb].
  - reflexivity.
  - rewrite (u32_small (Z.of_nat (length entries))) by (unfold is_u32; lia).
    destruct entries as [|e rest]; [discriminate|].
    change (Z.of_nat (length (e :: rest)) =? 0) with false. cbv iota.
    rewrite Nat2Z.id.
    pose proof (search_racks_entries (e :: rest) [] ns id) as Hsearch.
    cbn [app length] in Hsearch. cbn [length]. rewrite Hsearch.
    reflexivity.
Qed.

(** Parsing a rack-ids response and asking for a rack agree: after
    [as_node_parse_racks] has published the snapshot of a well-formed
    response, [as_node_has_rack] answers, for a namespace and a rack id,
    whether the response as a whole names that one rack, when all its rack
    ids are the same, and otherwise whether the first pair with that
    namespace carries that id (false when there is none).  The rack ids of
    the response are taken as the parser reads them, [rack_int]: [strtol]
    converted to [int], which is the id as written up to [2^31 - 1].  The
    lookup takes and gives back one reference and leaves the snapshot in
    place. *)
Theorem as_node_has_rack_after_parse (store : rack_store)
    (entries : list entry) (last : ascii) (slack : list ascii)
    (ns : list ascii) (id : Z) :
  Forall entry_wf entries ->
  last = NUL \/ last = LF ->
  (same_rack entries = false -> forallb ns_valid entries = true) ->
  Z.of_nat (length entries) < 2 ^ 32 ->
  exists store' mem',
    as_node_parse_racks store (layout entries last ++ NUL :: slack)
    = RacksOk store' mem'
    /\ as_node_has_rack store' ns id
       = Some (if same_rack entries then common_rack entries =? id
               else match rack_in_response entries ns with
                    | Some r => r =? id
                    | None => false
                    end,
               store', false).
Proof.
  intros Hwf Hlast Hvalid Hlen.
  destruct (as_node_parse_racks_snapshot store entries last slack Hwf Hlast Hvalid)
    as (store' & mem' & Hparse & Hracks & _).
  exists store', mem'. split; [exact Hparse|].
  apply as_node_has_rack_snapshot; assumption.
Qed.

Lemma as_node_has_rack_after_parse_witness :
  exists store' mem',
    as_node_parse_racks no_racks
      (layout [(chars "ns1", chars "1"); (chars "ns2", chars "2")] LF
       ++ NUL :: [])
    = RacksOk store' mem'
    /\ as_node_has_rack store' (chars "ns2") 2
       = Some (if same_rack [(chars "ns1", chars "1"); (chars "ns2", chars "2")]
               then common_rack [(chars "ns1", chars "1"); (chars "ns2", chars "2")]
                    =? 2
               else match rack_in_response
                            [(chars "ns1", chars "1"); (chars "ns2", chars "2")]
                            (chars "ns2") with
                    | Some r => r =? 2
                    | None => false
                    end,
               store', false).
Proof.
  apply (as_node_has_rack_after_parse no_racks
           [(chars "ns1", chars "1"); (chars "ns2", chars "2")] LF []
           (chars "ns2") 2).
  - repeat constructor; vm_compute; congruence.
  - right. reflexivity.
  - intros _. reflexivity.
  - vm_compute. reflexivity.
Defined.

(** An id beyond the range of [int]: the response [a:4294967297;b:1] is
    read as naming rack 1 alone, and the node is found in rack 1 for the
    namespace [a] and not in rack 4294967297. *)
Example has_rack_wide_id :
  match as_node_parse_racks no_racks (chars "a:4294967297;b:1" ++ [NUL; NUL]) with
  | RacksOk store' _ =>
      (fun r => r.1.1) <$> as_node_has_rack store' (chars "a") 1 = Some true
      /\ (fun r => r.1.1) <$> as_node_has_rack store' (chars "a") 4294967297
         = Some false
  | RacksError _ _ _ | RacksOutOfBounds => False
  end.
Proof. vm_compute. split; reflexivity. Qed.

(** A node without a snapshot has no rack; a compact snapshot answers for
    every namespace, whether the response named it or not. *)
Example has_rack_samples :
  as_node_has_rack no_racks (chars "ns1") 0 = Some (false, no_racks, false)
  /\ (forall store,
        published (as_node_parse_racks no_racks (chars "ns1:2;ns2:2" ++ [NUL]))
        = node_racks store ->
        fst <$> as_node_has_rack store (chars "other") 2
        = Some (true, store)).
Proof.
  split; [reflexivity|]. intros [racks gc0]. cbn [node_racks].
  intros <-. vm_compute. reflexivity.
Qed.

(** *** [as_node_process_racks] *)

Section ProcessRacks.

(** The C library's [strtoul(value, NULL, 10)]. *)
Variable strtoul10 : list ascii -> Z.

(** What processing a racks response comes to: the error if any, with
    the rebalance generation and the racks of the node as the call leaves
    them; or a read outside the response. *)
Inductive process_result : Type :=
| Processed (err : option as_error) (rebalance_generation : Z)
    (store : rack_store)
| ProcessOutOfBounds.

(** [gen] is [node->rebalance_generation]; each value is a name with the
    text that follows it in the response buffer. *)
Fixpoint as_node_process_racks (gen : Z) (store : rack_store)
    (values : list (string * list ascii)) : process_result :=
  match values with
  | [] => Processed None gen store
  | (nv_name, nv_value) :: values =>
      if String.eqb nv_name "rebalance-generation" then
        as_node_process_racks (u32 (strtoul10 nv_value)) store values
      else if String.eqb nv_name "rack-ids" then
        match as_node_parse_racks store nv_value with
        | RacksOk store _ => Processed None gen store
        | RacksError err store _ => Processed (Some err) gen store
        | RacksOutOfBounds => ProcessOutOfBounds
        end
      else
        Processed
          (Some (as_error_update AEROSPIKE_ERR_CLIENT "Node did not request info"))
          gen store
  end.

Definition generation_entry (nv : string * list ascii) : Prop :=
  nv.1 = "rebalance-generation"%string.

(** The generation that a run of generation entries leaves. *)
Definition last_generation (gen : Z) (pre : list (string * list ascii)) : Z :=
  default gen (u32 ∘ strtoul10 ∘ snd <$> last pre).

Lemma as_node_process_racks_generations pre : forall gen store rest,
  Forall generation_entry pre ->
  as_node_process_racks gen store (pre ++ rest)
  = as_node_process_racks (last_generation gen pre) store rest.
Proof.
  induction pre as [|[nv_name nv_value] pre IH]; intros gen store rest Hpre;
    [reflexivity|].
  apply Forall_cons in Hpre as [Hname Hpre]. unfold generation_entry in Hname.
  cbn [fst] in Hname. subst nv_name.
  cbn [app as_node_process_racks]. rewrite String.eqb_refl.
  rewrite IH by exact Hpre. f_equal. unfold last_generation.
  destruct pre as [|nv pre]; [reflexivity|].
  change (last ((("rebalance-generation"%string, nv_value)) :: nv :: pre))
    with (last (nv :: pre)).
  destruct (last (nv :: pre)) eqn:Hlast; [reflexivity|].
  apply last_None in Hlast. discriminate.
Qed.


End ProcessRacks.

(** A response with two generations, the racks, and then a name that was
    not requested. *)
Definition racks_response : list (string * list ascii) :=
  [ ("rebalance-generation"%string, chars "4");
    ("rebalance-generation"%string, chars "5") ].


(** The sample response stores generation 5 and publishes rack 2. *)
Example racks_response_processed :
  exists store,
    as_node_process_racks decimal 0 no_racks
      (racks_response
       ++ ("rack-ids"%string, chars "ns1:2;ns2:2" ++ [NUL])
          :: [("statistics"%string, chars "x")])
    = Processed None 5 store
    /\ racks_rack_id <$> node_racks store = Some 2.
Proof. eexists. vm_compute. split; reflexivity. Qed.

End RackLookup.

(** ** The wakeup handler neither loses nor duplicates a command *)

Module EvQueue.

Import EvLoop.

Section Conservation.

Variable as_event_threads_created : bool.
Variable run : nat -> Z -> as_event_loop -> as_event_loop.

(** The commands that the function with a given number submits to the
    loop when it is called on a given argument. *)
Variable emitted : nat -> Z -> list as_event_commander.

(** Executing a command does nothing to the queue but put behind it the
    commands that its function submits. *)
Definition submits_emitted : Prop :=
  forall f u el, queue (run f u el) = queue el ++ emitted f u.

(** The commands submitted by the functions of the commands [cmds], in
    the order of their execution. *)
Definition submitted_by (cmds : list as_event_commander)
  : list as_event_commander :=
  flat_map (fun cmd => match executable cmd with
                       | Some f => emitted f (udata cmd)
                       | None => []
                       end) cmds.

(** What a wakeup has taken from the queue: the commands it executed and,
    when it tore the loop down, the stop signal behind them. *)
Definition consumed (r : wakeup_result) (stop : list as_event_commander)
  : list as_event_commander :=
  executed r ++ stop.

(** What the wakeup consumed and what it left in the queue are, in this
    order, the commands that the queue held followed by those that the
    executed commands submitted; [stop] is the stop signal when the wakeup
    met one, and nothing when not. *)
Definition conserved (r : wakeup_result) (before : list as_event_commander)
  : Prop :=
  exists stop,
    consumed r stop ++ queue (final r) = before ++ submitted_by (executed r)
    /\ if torn_down r
       then exists c, stop = [c] /\ executable c = None
       else stop = [].

Lemma submitted_by_app a b :
  submitted_by (a ++ b) = submitted_by a ++ submitted_by b.
Proof. unfold submitted_by. apply flat_map_app. Qed.

Lemma wakeup_loop_conserves (Hsub : submits_emitted) rest :
  forall fuel i size cmd el done extras,
    queue el = rest ++ extras ->
    size = i + 1 + Z.of_nat (length rest) ->
    0 <= i -> size < 2 ^ 32 ->
    (length rest <= fuel)%nat ->
    let r := wakeup_loop as_event_threads_created run fuel i size cmd el done in
    exists stop ran,
      executed r = done ++ ran
      /\ consumed r stop ++ queue (final r)
         = done ++ cmd :: queue el ++ submitted_by ran
      /\ if torn_down r
         then exists c, stop = [c] /\ executable c = None
         else stop = [].
Proof.
  induction rest as [|next rest IH];
    intros fuel i size cmd el done extras Hq Hsize Hi Hmax Hfuel r; subst r.
  - destruct fuel as [|fuel]; cbn [wakeup_loop];
      destruct (executable cmd) as [f|] eqn:Hcmd.
    1,3: cbn [length] in Hsize;
         rewrite (u32_small (i + 1)) by (unfold is_u32; lia);
         destruct (Z.ltb_spec (i + 1) size); [lia|];
         exists [], [cmd]; unfold consumed, submitted_by;
         cbn [executed torn_down final flat_map];
         rewrite Hcmd, (Hsub f (udata cmd) el), !app_nil_r, <- app_assoc;
         repeat split; reflexivity.
    1,2: exists [cmd], []; unfold consumed, as_event_close_loop, submitted_by;
         cbn [executed torn_down final queue flat_map];
         rewrite !app_nil_r, <- app_assoc;
         repeat split; try reflexivity;
         exists cmd; split; [reflexivity | exact Hcmd].
  - cbn [length] in Hsize, Hfuel. destruct fuel as [|fuel]; [lia|].
    cbn [wakeup_loop]. destruct (executable cmd) as [f|] eqn:Hcmd.
    + rewrite (u32_small (i + 1)) by (unfold is_u32; lia).
      destruct (Z.ltb_spec (i + 1) size); [|lia].
      rewrite (Hsub f (udata cmd) el), Hq. cbn [app as_queue_pop].
      specialize (IH fuel (i + 1) size next
                    (set_queue (run f (udata cmd) el)
                       (rest ++ extras ++ emitted f (udata cmd)))
                    (done ++ [cmd]) (extras ++ emitted f (udata cmd))).
      rewrite <- app_assoc.
      destruct IH as (stop & ran & Hran & Heq & Hstop);
        [reflexivity | lia | lia | lia | lia |].
      exists stop, (cmd :: ran). split; [|split; [|exact Hstop]].
      * rewrite Hran, <- app_assoc. reflexivity.
      * rewrite Heq. cbn [set_queue queue].
        change (cmd :: ran) with ([cmd] ++ ran).
        rewrite submitted_by_app. unfold submitted_by at 2.
        cbn [flat_map]. rewrite Hcmd, app_nil_r, <- !app_assoc. reflexivity.
    + exists [cmd], []. unfold consumed, as_event_close_loop, submitted_by.
      cbn [executed torn_down final queue flat_map].
      rewrite !app_nil_r, <- app_assoc.
      repeat split; try reflexivity.
      exists cmd; split; [reflexivity | exact Hcmd].
Qed.

(** A wakeup neither loses nor duplicates a command, of those that the
    queue held and of those that the commands it executes submit: the
    commands it executed, the stop signal if it met one, and the commands
    it left in the queue are, in this order, the commands that the queue
    held followed by the commands that the executed ones submitted, each
    once and in the order of execution. *)
Theorem as_ev_wakeup_conserves_commands (el : as_event_loop) :
  submits_emitted ->
  as_queue_size (queue el) < 2 ^ 32 ->
  conserved (as_ev_wakeup as_event_threads_created run el) (queue el).
Proof.
  intros Hsub Hsize. unfold as_ev_wakeup, conserved.
  destruct (queue el) as [|cmd q] eqn:Hq; cbn [as_queue_pop].
  - exists []. unfold consumed, submitted_by. cbn [executed final torn_down flat_map].
    rewrite Hq. split; reflexivity.
  - unfold as_queue_size in *. cbn [length] in *.
    destruct (wakeup_loop_conserves Hsub q
                (Z.to_nat (Z.of_nat (S (length q)))) 0
                (Z.of_nat (S (length q))) cmd (set_queue el q) [] [])
      as (stop & ran & Hran & Heq & Hstop);
      [cbn; rewrite app_nil_r; reflexivity | lia | lia | lia | lia |].
    exists stop. split; [|exact Hstop].
    rewrite Heq, Hran. reflexivity.
Qed.

End Conservation.

(** What the functions of the sample submit: function 1 a command for
    function 2 on its own argument, function 2 nothing. *)
Definition sample_emitted (f : nat) (u : Z) : list as_event_commander :=
  if (f =? 1)%nat then [{| executable := Some 2%nat; udata := u |}] else [].

Lemma as_ev_wakeup_conserves_commands_witness :
  conserved sample_emitted (as_ev_wakeup true sample_run sample_loop)
    (queue sample_loop).
Proof.
  apply (as_ev_wakeup_conserves_commands true sample_run sample_emitted
           sample_loop).
  - intros f u el. unfold sample_run, sample_emitted.
    destruct (f =? 1)%nat; [reflexivity | rewrite app_nil_r; reflexivity].
  - vm_compute. reflexivity.
Defined.

(** The wakeup of the sample: the commands for functions 1 and 2 were
    executed, the stop signal tore the loop down, and the queue is left
    with the command behind the stop signal and, behind it, the command
    that function 1 submitted. *)
Example sample_wakeup_conserved :
  executed (as_ev_wakeup true sample_run sample_loop) = [call 1 10; call 2 20]
  /\ queue (final (as_ev_wakeup true sample_run sample_loop))
     = [call 2 30; call 2 10]
  /\ submitted_by sample_emitted
       (executed (as_ev_wakeup true sample_run sample_loop))
     = [call 2 10].
Proof. vm_compute. repeat split. Qed.

End EvQueue.

(** ** The read path stays inside the buffer of the command *)

Module EvSafety.

Import EvCommand.

(** The read position is inside the block being read, the block fits the
    capacity, the buffer of the command holds [read_capacity] bytes at
    least, an end block fits the capacity too, and the capacity is a
    [uint32_t]. *)
Definition safe (cmd : as_event_command) : Prop :=
  0 <= pos cmd <= len cmd
  /\ len cmd <= read_capacity cmd
  /\ read_capacity cmd <= Z.of_nat (length (buf cmd))
  /\ AS_MSG_SIZE <= read_capacity cmd < 2 ^ 32.

(** What a read leaves of the command as it found it; a plain socket
    stays one. *)
Definition same_block (cmd cmd' : as_event_command) : Prop :=
  length (buf cmd') = length (buf cmd)
  /\ len cmd' = len cmd
  /\ read_capacity cmd' = read_capacity cmd
  /\ 0 <= pos cmd' <= len cmd'
  /\ (ctx (socket cmd) = false -> ctx (socket cmd') = false).

(** Safe, and on a plain socket where [plain] asks for that. *)
Definition guarded (plain : bool) (cmd : as_event_command) : Prop :=
  safe cmd /\ (plain = true -> ctx (socket cmd) = false).

(** The outcome is not a store outside the buffer; a command that is
    returned satisfies [Q]; the cut of a loop is met only as [cut] says. *)
Definition fine (cut : Prop) (Q : as_event_command -> Prop) (out : ev_outcome)
  : Prop :=
  match out with
  | EvReturn _ cmd' => Q cmd'
  | EvOutOfBounds => False
  | EvNoFuel => cut
  end.

Lemma fine_weaken (cut cut' : Prop) (Q Q' : as_event_command -> Prop) out :
  (cut -> cut') -> (forall c, Q c -> Q' c) -> fine cut Q out -> fine cut' Q' out.
Proof.
  intros Hcut HQ. destruct out; cbn [fine]; auto.
Qed.

Section Read.

Variable as_event_socket_retry : as_event_command -> bool.
Variable as_event_proto_parse : list byte -> option (Z * Z).
Variable as_event_decompress : as_event_command -> option as_event_command.
Variable cf_malloc_bytes : nat -> byte.
Variable as_tls_read_once : ev_socket -> Z -> Z * list byte * ev_socket.
Variable tls_turns : nat.

(** What the read path relies on in [as_tls_read_once]: a positive return
    value is the number of bytes stored, and it is not more than the count
    asked for. *)
Definition tls_reads_within : Prop :=
  forall s count rv data s',
    as_tls_read_once s count = (rv, data, s') -> 0 < rv ->
    Z.of_nat (length data) = rv /\ rv <= count.

Lemma as_ev_watch_read_pos cmd : pos (as_ev_watch_read cmd) = pos cmd.
Proof. unfold as_ev_watch_read. destruct (_ =? _); reflexivity. Qed.

Lemma as_ev_watch_read_len cmd : len (as_ev_watch_read cmd) = len cmd.
Proof. unfold as_ev_watch_read. destruct (_ =? _); reflexivity. Qed.

Lemma same_block_watch_read cmd0 cmd :
  same_block cmd0 cmd -> same_block cmd0 (as_ev_watch_read cmd).
Proof.
  intros H. unfold as_ev_watch_read. destruct (_ =? _); exact H.
Qed.

Lemma same_block_watch_write cmd0 cmd :
  same_block cmd0 cmd -> same_block cmd0 (as_ev_watch_write cmd).
Proof.
  intros H. unfold as_ev_watch_write. destruct (_ =? _); exact H.
Qed.

Lemma socket_failed_same (cut : Prop) cmd c code msg :
  same_block cmd c ->
  fine cut (same_block cmd) (socket_failed as_event_socket_retry c code msg).
Proof.
  intros H. unfold socket_failed. destruct (as_event_socket_retry c); exact H.
Qed.

(** The loop on a plain socket: every store is inside the buffer, and the
    loop ends, as each turn that goes on has taken a byte. *)
Lemma as_ev_read_loop_in_bounds fuel : forall cmd0 cmd,
  same_block cmd0 cmd ->
  len cmd <= Z.of_nat (length (buf cmd)) -> len cmd < 2 ^ 32 ->
  (length (rx (socket cmd)) < fuel)%nat ->
  fine False (same_block cmd0) (as_ev_read_loop as_event_socket_retry fuel cmd).
Proof.
  induction fuel as [|fuel IH]; intros cmd0 cmd Hsame Hfit Hsmall Hfuel; [lia|].
  pose proof Hsame as (Hbuf & Hlen & Hcap & Hpos & Hctx).
  cbn [as_ev_read_loop].
  rewrite (u32_small (len cmd - pos cmd)) by (unfold is_u32; lia).
  unfold sys_read.
  destruct (Z.leb_spec (len cmd - pos cmd) 0) as [Hle|Hgt];
    [apply socket_failed_same; exact Hsame|].
  destruct (rx (socket cmd)) as [|b bytes] eqn:Hrx.
  - destruct (empty (socket cmd)).
    + change (EWOULDBLOCK =? EWOULDBLOCK) with true. cbv iota.
      apply same_block_watch_read. exact Hsame.
    + apply socket_failed_same. exact Hsame.
    + destruct (errno =? EWOULDBLOCK);
        [apply same_block_watch_read | apply socket_failed_same]; exact Hsame.
  - set (data := take (Z.to_nat (len cmd - pos cmd)) (b :: bytes)).
    assert (Hdata : Z.of_nat (length data) <= len cmd - pos cmd)
      by (subst data; rewrite length_take; lia).
    assert (Hsome : (0 < length data)%nat)
      by (subst data; rewrite length_take; cbn [length]; lia).
    destruct (Info.store_bytes_fits (Z.to_nat (pos cmd)) data (buf cmd))
      as (mem & Hstore & Hmem); [lia|].
    rewrite Hstore. cbn [pos len set_received].
    rewrite (u32_small (pos cmd + Z.of_nat (length data)))
      by (unfold is_u32; lia).
    assert (Hnext : same_block cmd0
              (set_received cmd mem (pos cmd + Z.of_nat (length data))
                 {| ctx := ctx (socket cmd);
                    rx := drop (Z.to_nat (len cmd - pos cmd)) (b :: bytes);
                    empty := empty (socket cmd) |})).
    { unfold same_block.
      cbn [buf len read_capacity pos socket set_received ctx].
      repeat split; try congruence; try lia. exact Hctx. }
    destruct (Z.ltb_spec (pos cmd + Z.of_nat (length data)) (len cmd)).
    + apply IH; cbn [buf len socket set_received rx]; try lia; try assumption.
      rewrite length_drop. cbn [length] in *. lia.
    + exact Hnext.
Qed.

(** The loop on a socket with TLS: every store is inside the buffer. *)
Lemma as_ev_read_tls_in_bounds fuel : forall cmd0 cmd,
  tls_reads_within ->
  ctx (socket cmd0) = true -> same_block cmd0 cmd ->
  len cmd <= Z.of_nat (length (buf cmd)) -> len cmd < 2 ^ 32 ->
  fine True (same_block cmd0)
    (as_ev_read_tls as_event_socket_retry as_tls_read_once fuel cmd).
Proof.
  induction fuel as [|fuel IH]; intros cmd0 cmd Htls Hctx0 Hsame Hfit Hsmall;
    pose proof Hsame as (Hbuf & Hlen & Hcap & Hpos & _);
    cbn [as_ev_read_tls];
    rewrite (u32_small (len cmd - pos cmd)) by (unfold is_u32; lia);
    destruct (as_tls_read_once (socket cmd) (len cmd - pos cmd))
      as [[rv data] s] eqn:Hread;
    (assert (Hsock : same_block cmd0 (set_socket cmd s))
       by (unfold same_block;
           cbn [buf len read_capacity pos socket set_socket];
           repeat split; try congruence; try lia));
    cbn [pos len buf set_socket];
    (destruct (Z.ltb_spec 0 rv) as [Hrv|Hrv];
     [ destruct (Htls _ _ _ _ _ Hread Hrv) as [Hdata Hcount];
       (destruct (Info.store_bytes_fits (Z.to_nat (pos cmd)) data (buf cmd))
          as (mem & Hstore & Hmem); [lia|]);
       rewrite Hstore, as_ev_watch_read_pos;
       cbn [pos set_socket];
       rewrite (u32_small (pos cmd + rv)) by (unfold is_u32; lia)
     | ]).
  - (* no turn is left *)
    set (c := as_ev_watch_read (set_socket cmd s)).
    assert (Hc : same_block cmd0 c)
      by (apply same_block_watch_read; exact Hsock).
    pose proof Hc as (Hbuf' & Hlen' & Hcap' & Hpos' & _).
    assert (Hnext : same_block cmd0 (set_received c mem (pos cmd + rv) s)).
    { unfold same_block. cbn [buf len read_capacity pos socket set_received].
      repeat split; try congruence; try lia. }
    cbn [pos len set_received].
    destruct (Z.ltb_spec (pos cmd + rv) (len c)); [exact I | exact Hnext].
  - destruct (rv =? -1); [apply same_block_watch_read; exact Hsock|].
    destruct (rv =? -2); [apply same_block_watch_write; exact Hsock|].
    destruct (rv <? -2); [apply socket_failed_same; exact Hsock|].
    destruct (pos cmd <? len cmd); [exact I | exact Hsock].
  - set (c := as_ev_watch_read (set_socket cmd s)).
    assert (Hc : same_block cmd0 c)
      by (apply same_block_watch_read; exact Hsock).
    pose proof Hc as (Hbuf' & Hlen' & Hcap' & Hpos' & _).
    assert (Hnext : same_block cmd0 (set_received c mem (pos cmd + rv) s)).
    { unfold same_block. cbn [buf len read_capacity pos socket set_received].
      repeat split; try congruence; try lia. }
    cbn [pos len set_received].
    destruct (Z.ltb_spec (pos cmd + rv) (len c)); [|exact Hnext].
    apply IH; try assumption;
      cbn [buf len set_received]; congruence || lia.
  - destruct (rv =? -1); [apply same_block_watch_read; exact Hsock|].
    destruct (rv =? -2); [apply same_block_watch_write; exact Hsock|].
    destruct (rv <? -2); [apply socket_failed_same; exact Hsock|].
    destruct (pos cmd <? len cmd); [|exact Hsock].
    apply IH; try assumption; cbn [buf len set_socket]; assumption.
Qed.

(** A read stays in the buffer; it returns on a plain socket, and with
    TLS unless the loop is cut. *)
Lemma as_ev_read_in_bounds cmd :
  tls_reads_within ->
  0 <= pos cmd <= len cmd -> len cmd <= Z.of_nat (length (buf cmd)) ->
  len cmd < 2 ^ 32 ->
  fine (ctx (socket cmd) = true) (same_block cmd)
    (as_ev_read as_event_socket_retry as_tls_read_once tls_turns cmd).
Proof.
  intros Htls Hpos Hfit Hsmall. unfold as_ev_read.
  set (c := set_flags cmd (Z.lor (flags cmd) AS_ASYNC_FLAGS_EVENT_RECEIVED)).
  assert (Hsame : same_block cmd c) by (repeat split; try apply Hpos; auto).
  change (ctx (socket c)) with (ctx (socket cmd)).
  destruct (ctx (socket cmd)) eqn:Hctx.
  - apply (fine_weaken True _ (same_block cmd) _); [reflexivity | auto |].
    apply as_ev_read_tls_in_bounds; assumption.
  - apply (fine_weaken False _ (same_block cmd) _); [contradiction | auto |].
    apply as_ev_read_loop_in_bounds; try assumption. apply Nat.lt_succ_diag_r.
Qed.

(** The collaborators respect the buffer: a parsed header gives a size
    that is not negative, and decompression hands back a command whose
    buffer still holds what its capacity says and, where [plain] asks for
    it, a plain socket. *)
Definition sizes_not_negative : Prop :=
  forall hdr type size, as_event_proto_parse hdr = Some (type, size) -> 0 <= size.

Definition decompress_keeps (plain : bool) : Prop :=
  forall cmd cmd',
    guarded plain cmd -> as_event_decompress cmd = Some cmd' ->
    guarded plain cmd'.

Section Guarded.

Variable plain : bool.
Hypothesis tls_contract : tls_reads_within.
Hypothesis sizes : sizes_not_negative.
Hypothesis decompress : decompress_keeps plain.

(** Every outcome is a return with a guarded command, but for the cut of
    a TLS loop. *)
Definition guarded_outcome (out : ev_outcome) : Prop :=
  fine (plain = false) (guarded plain) out.

Lemma as_ev_read_guarded cmd :
  guarded plain cmd ->
  fine (plain = false)
    (fun cmd' => guarded plain cmd' /\ len cmd' = len cmd
                 /\ read_capacity cmd' = read_capacity cmd)
    (as_ev_read as_event_socket_retry as_tls_read_once tls_turns cmd).
Proof.
  intros ((Hpos & Hlen & Hcap & Hmsg) & Hplain).
  apply (fine_weaken (ctx (socket cmd) = true) _ (same_block cmd) _).
  - intros Hctx. destruct plain; [|reflexivity].
    rewrite Hplain in Hctx by reflexivity. discriminate.
  - intros c (Hb & Hl & Hc & Hp & Hk).
    repeat split; try lia; try assumption.
    intros Hp'. apply Hk, Hplain, Hp'.
  - apply as_ev_read_in_bounds; try assumption; lia.
Qed.

Lemma set_progress_guarded cmd st l :
  guarded plain cmd -> 0 <= l <= read_capacity cmd ->
  guarded plain (set_progress cmd st l 0).
Proof.
  intros ((Hpos & Hlen & Hcap & Hmsg) & Hplain) Hl.
  split; [|exact Hplain]. unfold safe, set_progress.
  cbn [pos len read_capacity buf]. lia.
Qed.

Lemma set_pos_guarded cmd :
  guarded plain cmd -> guarded plain (set_pos cmd 0).
Proof.
  intros ((Hpos & Hlen & Hcap & Hmsg) & Hplain).
  split; [|exact Hplain]. unfold safe, set_pos, set_progress.
  cbn [pos len read_capacity buf]. lia.
Qed.

Lemma u32_le size : 0 <= size -> 0 <= u32 size <= size.
Proof.
  intros H. unfold u32. split; [apply Z.mod_pos_bound; lia|].
  apply Z.mod_le; lia.
Qed.

Lemma u32_lt size : u32 size < 2 ^ 32.
Proof. unfold u32. apply Z.mod_pos_bound. lia. Qed.

(** After a header has been parsed and the buffer grown where the block
    does not fit, the command is guarded again. *)
Lemma grow_buffer_guarded cmd cmd1 size :
  guarded plain cmd ->
  parse_header as_event_proto_parse cmd = Some (cmd1, size) ->
  guarded plain (grow_buffer cf_malloc_bytes cmd1 size)
  /\ (len cmd1 <= read_capacity cmd1 -> guarded plain cmd1)
  /\ read_capacity cmd1 = read_capacity cmd.
Proof.
  intros ((Hpos & Hlen & Hcap & Hmsg) & Hplain). unfold parse_header.
  destruct (as_event_proto_parse _) as [[type sz]|] eqn:Hparse; [|discriminate].
  intros [= <- <-]. apply sizes in Hparse.
  pose proof (u32_le sz Hparse) as Hu. pose proof (u32_lt sz) as Hu'.
  unfold guarded, grow_buffer, safe, set_progress, set_proto_type_rcv,
    set_buffer.
  cbn [pos len read_capacity buf socket].
  split; [|split; [intros; split; [lia | exact Hplain] | reflexivity]].
  destruct (Z.ltb_spec (read_capacity cmd) (u32 sz));
    cbn [pos len read_capacity buf socket];
    (split; [|exact Hplain]); [rewrite length_map, length_seq|]; lia.
Qed.

Lemma as_ev_command_peek_block_guarded cmd :
  guarded plain cmd ->
  guarded_outcome
    (as_ev_command_peek_block as_event_socket_retry as_event_proto_parse
       cf_malloc_bytes as_tls_read_once tls_turns cmd).
Proof.
  intros Hsafe. unfold as_ev_command_peek_block, guarded_outcome.
  assert (Hmsg : AS_MSG_SIZE <= read_capacity cmd) by apply Hsafe.
  assert (Hhdr : guarded plain
                   (set_progress cmd AS_ASYNC_STATE_COMMAND_READ_HEADER
                      AS_PROTO_SIZE 0)).
  { apply set_progress_guarded; [exact Hsafe|].
    unfold AS_PROTO_SIZE, AS_MSG_SIZE in *. lia. }
  pose proof (as_ev_read_guarded _ Hhdr) as Hread.
  destruct (as_ev_read _ _ _ _) as [rv cmd1| |]; [|exact Hread..].
  destruct Hread as (Hsafe1 & _ & Hcap1).
  cbn [read_capacity set_progress] in Hcap1.
  destruct rv; try exact Hsafe1.
  destruct (parse_header as_event_proto_parse cmd1) as [[cmd2 size]|] eqn:Hparse;
    [|exact Hsafe1].
  destruct (grow_buffer_guarded cmd1 cmd2 size Hsafe1 Hparse)
    as (Hgrown & Hfits & Hcap2).
  destruct (Z.eqb_spec (len cmd2) AS_MSG_SIZE) as [Hend|_]; cbn [andb];
    [|exact Hgrown].
  destruct (negb (proto_type_rcv cmd2 =? AS_COMPRESSED_MESSAGE_TYPE));
    [|exact Hgrown].
  assert (Hsafe2 : guarded plain cmd2).
  { apply Hfits. rewrite Hend, Hcap2, Hcap1. exact Hmsg. }
  pose proof (as_ev_read_guarded _ Hsafe2) as Hread2.
  destruct (as_ev_read _ _ _ cmd2) as [rv cmd3| |]; [|exact Hread2..].
  destruct Hread2 as (Hsafe3 & _ & Hcap3).
  destruct rv; try exact Hsafe3.
  pose proof (set_pos_guarded _ Hsafe3) as Hsafe4.
  destruct (negb (parse_results _ _)); [|exact Hsafe4].
  apply set_progress_guarded; [exact Hsafe4|].
  cbn [read_capacity set_pos set_progress].
  rewrite Hcap3, Hcap2, Hcap1.
  unfold AS_PROTO_SIZE, AS_MSG_SIZE in *. lia.
Qed.

Lemma read_body_guarded cmd :
  guarded plain cmd ->
  guarded_outcome
    (read_body as_event_socket_retry as_event_proto_parse as_event_decompress
       cf_malloc_bytes as_tls_read_once tls_turns cmd).
Proof.
  intros Hsafe. unfold read_body, guarded_outcome.
  pose proof (as_ev_read_guarded _ Hsafe) as Hread.
  destruct (as_ev_read _ _ _ _) as [rv cmd1| |]; [|exact Hread..].
  destruct Hread as (Hsafe1 & _).
  destruct rv; try exact Hsafe1.
  unfold body_received.
  pose proof (set_pos_guarded _ Hsafe1) as Hsafe2.
  assert (Hparse : forall c, guarded plain c ->
            guarded_outcome
              (if negb (parse_results c (block c))
               then as_ev_command_peek_block as_event_socket_retry
                      as_event_proto_parse cf_malloc_bytes as_tls_read_once
                      tls_turns c
               else EvReturn AS_EVENT_COMMAND_DONE c)).
  { intros c Hc. destruct (negb (parse_results c (block c)));
      [apply as_ev_command_peek_block_guarded; assumption | exact Hc]. }
  destruct (proto_type_rcv (set_pos cmd1 0) =? AS_COMPRESSED_MESSAGE_TYPE);
    [|apply Hparse; exact Hsafe2].
  destruct (as_event_decompress (set_pos cmd1 0)) as [cmd2|] eqn:Hd;
    [|exact Hsafe2].
  apply Hparse. eapply decompress; eassumption.
Qed.

Lemma as_ev_command_read_guarded cmd :
  guarded plain cmd ->
  guarded_outcome
    (as_ev_command_read as_event_socket_retry as_event_proto_parse
       as_event_decompress cf_malloc_bytes as_tls_read_once tls_turns cmd).
Proof.
  intros Hsafe. unfold as_ev_command_read.
  destruct (state cmd); try (apply read_body_guarded; assumption).
  pose proof (as_ev_read_guarded _ Hsafe) as Hread.
  unfold guarded_outcome.
  destruct (as_ev_read _ _ _ _) as [rv cmd1| |]; [|exact Hread..].
  destruct Hread as (Hsafe1 & _).
  destruct rv; try exact Hsafe1.
  destruct (parse_header as_event_proto_parse cmd1) as [[cmd2 size]|] eqn:Hparse;
    [|exact Hsafe1].
  apply read_body_guarded.
  exact (proj1 (grow_buffer_guarded cmd1 cmd2 size Hsafe1 Hparse)).
Qed.

End Guarded.


End Read.

(** A TLS layer that delivers what has arrived, a byte at a time. *)
Definition tls_byte_by_byte (s : ev_socket) (count : Z)
  : Z * list byte * ev_socket :=
  match rx s with
  | b :: bytes =>
      if 0 <? count
      then (1, [b], {| ctx := ctx s; rx := bytes; empty := empty s |})
      else (-1, [], s)
  | [] => (-1, [], s)
  end.


(** With TLS, delivering a byte at a time: the response of two blocks is
    read to its end in one call, and every byte is stored inside the
    buffer. *)
Example tls_two_blocks :
  summary
    (as_ev_command_read no_retry decode_header no_compression zeroed
       tls_byte_by_byte 64%nat
       (set_socket (waiting [])
          {| ctx := true; rx := two_block_stream; empty := WouldBlock |}))
  = Some (AS_EVENT_COMMAND_DONE, AS_ASYNC_STATE_COMMAND_READ_BODY, 0,
          AS_MSG_SIZE, 4%nat).
Proof. vm_compute. reflexivity. Qed.

End EvSafety.

(** ** Sending a command *)

Module EvWrite.

(** A non-blocking socket on the sending side: whether it has a TLS
    context ([socket.ctx]), the bytes the peer has been sent so far, how
    many bytes each of the next calls of [send] will take at most, and
    what [send] reports after that. *)
Record tx_socket : Type := mk_tx_socket {
  ctx : bool;
  sent : list byte;
  room : list positive;
  full : EvCommand.when_empty
}.

(** The return value of [send]: a number of bytes taken, 0, or -1 with
    [errno]. *)
Inductive send_rv : Type :=
| SendBytes (n : Z)
| SendZero
| SendFailed (errno : Z).

(** [send(fd, mem + off, count, MSG_NOSIGNAL)] on a plain socket, [count]
    a [size_t]; [None] when the bytes it takes are not all inside [mem]. *)
Definition sys_send (s : tx_socket) (mem : list byte) (off count : Z)
  : option (send_rv * tx_socket) :=
  if count <=? 0 then Some (SendZero, s)
  else
    match room s with
    | [] =>
        Some (match full s with
              | EvCommand.WouldBlock => SendFailed EvCommand.EWOULDBLOCK
              | EvCommand.PeerClosed => SendZero
              | EvCommand.Failure errno => SendFailed errno
              end, s)
    | n :: rest =>
        let n := Z.min (Z.pos n) count in
        if (off <? 0) || (Z.of_nat (length mem) <? off + n) then None
        else
          Some (SendBytes n,
                {| ctx := ctx s;
                   sent := sent s ++ take (Z.to_nat n) (drop (Z.to_nat off) mem);
                   room := rest; full := full s |})
    end.

(** The fields of [as_event_command] and of its connection that the write
    path uses.  [len] and [pos] are [uint32_t]; [wbuf] is the memory at
    [(uint8_t* )cmd + cmd->write_offset]; [pipe_listener] tells whether the
    listener is set; [failure] is the error handed to the error path. *)
Record as_event_command : Type := mk_command {
  len : Z;
  pos : Z;
  wbuf : list byte;
  flags : Z;
  pipe_listener : bool;
  socket : tx_socket;
  watching : Z;
  failure : option as_error
}.

Definition set_sent (cmd : as_event_command) (p : Z) (s : tx_socket)
  : as_event_command :=
  {| len := len cmd; pos := p; wbuf := wbuf cmd; flags := flags cmd;
     pipe_listener := pipe_listener cmd; socket := s;
     watching := watching cmd; failure := failure cmd |}.

Definition set_socket (cmd : as_event_command) (s : tx_socket)
  : as_event_command :=
  set_sent cmd (pos cmd) s.

Definition set_flags (cmd : as_event_command) (f : Z) : as_event_command :=
  {| len := len cmd; pos := pos cmd; wbuf := wbuf cmd; flags := f;
     pipe_listener := pipe_listener cmd; socket := socket cmd;
     watching := watching cmd; failure := failure cmd |}.

Definition set_watching (cmd : as_event_command) (w : Z) : as_event_command :=
  {| len := len cmd; pos := pos cmd; wbuf := wbuf cmd; flags := flags cmd;
     pipe_listener := pipe_listener cmd; socket := socket cmd;
     watching := w; failure := failure cmd |}.

Definition set_failure (cmd : as_event_command) (err : as_error)
  : as_event_command :=
  {| len := len cmd; pos := pos cmd; wbuf := wbuf cmd; flags := flags cmd;
     pipe_listener := pipe_listener cmd; socket := socket cmd;
     watching := watching cmd; failure := Some err |}.

Definition as_ev_watch_write (cmd : as_event_command) : as_event_command :=
  let watch :=
    if pipe_listener cmd then Z.lor EvCommand.EV_WRITE EvCommand.EV_READ
    else EvCommand.EV_WRITE in
  (* Skip if we're already watching the right stuff. *)
  if watch =? watching cmd then cmd else set_watching cmd watch.

Definition as_ev_watch_read (cmd : as_event_command) : as_event_command :=
  let watch := EvCommand.EV_READ in
  (* Skip if we're already watching the right stuff. *)
  if watch =? watching cmd then cmd else set_watching cmd watch.

(** What a call of [as_ev_write] comes to: a return code with the command
    as the call leaves it, or a [send] from outside the command's memory;
    [WrNoFuel] is the model's own, a loop cut short. *)
Inductive write_outcome : Type :=
| WrReturn (rv : EvCommand.as_event_rv) (cmd : as_event_command)
| WrOutOfBounds
| WrNoFuel.

Section Write.

(** Collaborators that are not among the sources.
    [as_event_socket_retry] of [as_event.c] decides whether a failed
    command is rescheduled.  [as_tls_write_once] of [as_tls.c], on a
    socket, the memory, an offset into it and a count, yields its return
    value and the socket as it leaves it.  The loop that goes on for as
    long as TLS takes bytes has no bound of its own; [tls_turns] cuts it. *)
Variable as_event_socket_retry : as_event_command -> bool.
Variable as_tls_write_once : tx_socket -> list byte -> Z -> Z -> Z * tx_socket.
Variable tls_turns : nat.

Definition socket_failed (cmd : as_event_command) (code : as_status)
    (msg : string) : write_outcome :=
  WrReturn EvCommand.AS_EVENT_WRITE_ERROR
    (if as_event_socket_retry cmd then cmd
     else set_failure cmd (as_error_update code msg)).

(** The end of [as_ev_write], behind the loops. *)
Definition write_complete (cmd : as_event_command) : write_outcome :=
  (* Socket timeout applies only to read events.  Reset event received
     because we are switching from a write to a read state. *)
  WrReturn EvCommand.AS_EVENT_WRITE_COMPLETE
    (set_flags cmd
       (Z.land (flags cmd) (Z.lnot EvCommand.AS_ASYNC_FLAGS_EVENT_RECEIVED))).

(** The [do ... while (cmd->pos < cmd->len)] loop of [as_ev_write] on a
    socket with a TLS context. *)
Fixpoint as_ev_write_tls (fuel : nat) (cmd : as_event_command)
  : write_outcome :=
  let '(rv, s) :=
    as_tls_write_once (socket cmd) (wbuf cmd) (pos cmd)
      (u32 (len cmd - pos cmd)) in
  let cmd := set_socket cmd s in
  let go_on cmd :=
    if pos cmd <? len cmd then
      match fuel with
      | S fuel => as_ev_write_tls fuel cmd
      | O => WrNoFuel
      end
    else write_complete cmd in
  if 0 <? rv then
    let cmd := as_ev_watch_write cmd in
    go_on (set_sent cmd (u32 (pos cmd + rv)) s)
  else if rv =? -1 then
    (* TLS sometimes need to read even when we are writing. *)
    WrReturn EvCommand.AS_EVENT_TLS_NEED_READ (as_ev_watch_read cmd)
  else if rv =? -2 then
    (* TLS wants a write, we're all set for that. *)
    WrReturn EvCommand.AS_EVENT_WRITE_INCOMPLETE (as_ev_watch_write cmd)
  else if rv <? -2 then
    socket_failed cmd AEROSPIKE_ERR_TLS_ERROR "TLS write failed"
  else go_on cmd.

(** The [do ... while (cmd->pos < cmd->len)] loop of [as_ev_write] on a
    plain socket; [cmd->len - cmd->pos] and [cmd->pos += bytes] are
    computed in [uint32_t].  Every turn that goes on has sent at least one
    byte in a call of [send] of its own. *)
Fixpoint as_ev_write_loop (fuel : nat) (cmd : as_event_command)
  : write_outcome :=
  match sys_send (socket cmd) (wbuf cmd) (pos cmd) (u32 (len cmd - pos cmd)) with
  | None => WrOutOfBounds
  | Some (SendBytes bytes, s) =>
      let cmd := set_sent cmd (u32 (pos cmd + bytes)) s in
      if pos cmd <? len cmd then
        match fuel with
        | S fuel => as_ev_write_loop fuel cmd
        | O => WrNoFuel
        end
      else write_complete cmd
  | Some (SendFailed errno, _) =>
      if errno =? EvCommand.EWOULDBLOCK
      then WrReturn EvCommand.AS_EVENT_WRITE_INCOMPLETE (as_ev_watch_write cmd)
      else socket_failed cmd AEROSPIKE_ERR_ASYNC_CONNECTION "Socket write failed"
  | Some (SendZero, _) =>
      socket_failed cmd AEROSPIKE_ERR_ASYNC_CONNECTION
        "Socket write closed by peer"
  end.

Definition as_ev_write (cmd : as_event_command) : write_outcome :=
  if ctx (socket cmd) then as_ev_write_tls tls_turns cmd
  else as_ev_write_loop (S (length (room (socket cmd)))) cmd.

(** *** Properties *)

(** The bytes of the command from offset [from] up to offset [to]. *)
Definition segment (cmd : as_event_command) (from to : Z) : list byte :=
  take (Z.to_nat (to - from)) (drop (Z.to_nat from) (wbuf cmd)).

(** What a call has done to a command: it moved [pos] forward within the
    command and handed the bytes it moved over to the socket, in order;
    the command's memory and length are as they were. *)
Definition progressed (cmd cmd' : as_event_command) : Prop :=
  wbuf cmd' = wbuf cmd /\ len cmd' = len cmd
  /\ pos cmd <= pos cmd' <= len cmd
  /\ sent (socket cmd') = sent (socket cmd) ++ segment cmd (pos cmd) (pos cmd').

(** What the write path relies on in [as_tls_write_once]: a positive
    return value is a number of bytes, not more than the count, that have
    gone to the peer from the offset it was given. *)
Definition tls_writes_within : Prop :=
  forall s mem off count rv s',
    as_tls_write_once s mem off count = (rv, s') ->
    (0 < rv ->
     rv <= count
     /\ sent s' = sent s ++ take (Z.to_nat rv) (drop (Z.to_nat off) mem))
    /\ (rv <= 0 -> sent s' = sent s).

Lemma segment_empty cmd p : segment cmd p p = [].
Proof. unfold segment. rewrite Z.sub_diag. reflexivity. Qed.

Lemma segment_app cmd a b c :
  0 <= a <= b -> b <= c ->
  segment cmd a b ++ segment cmd b c = segment cmd a c.
Proof.
  intros Hab Hbc. unfold segment.
  replace (Z.to_nat (c - a)) with (Z.to_nat (b - a) + Z.to_nat (c - b))%nat by lia.
  rewrite <- take_take_drop, drop_drop. do 3 f_equal. lia.
Qed.

Lemma progressed_refl cmd : pos cmd <= len cmd -> progressed cmd cmd.
Proof.
  intros H. unfold progressed. rewrite segment_empty, app_nil_r.
  repeat split; lia.
Qed.

Lemma progressed_trans cmd cmd1 cmd2 :
  0 <= pos cmd -> progressed cmd cmd1 -> progressed cmd1 cmd2 ->
  progressed cmd cmd2.
Proof.
  intros Hpos (Hb1 & Hl1 & Hp1 & Hs1) (Hb2 & Hl2 & Hp2 & Hs2).
  unfold progressed. repeat split; try congruence; try lia.
  rewrite Hs2, Hs1, <- app_assoc. f_equal.
  replace (segment cmd1 (pos cmd1) (pos cmd2))
    with (segment cmd (pos cmd1) (pos cmd2))
    by (unfold segment; rewrite Hb1; reflexivity).
  apply segment_app; lia.
Qed.

Lemma progressed_watch_write cmd0 cmd :
  progressed cmd0 cmd -> progressed cmd0 (as_ev_watch_write cmd).
Proof.
  intros H. unfold as_ev_watch_write. destruct (_ =? _); exact H.
Qed.

Lemma progressed_watch_read cmd0 cmd :
  progressed cmd0 cmd -> progressed cmd0 (as_ev_watch_read cmd).
Proof.
  intros H. unfold as_ev_watch_read. destruct (_ =? _); exact H.
Qed.

Lemma as_ev_watch_write_pos cmd : pos (as_ev_watch_write cmd) = pos cmd.
Proof. unfold as_ev_watch_write. destruct (_ =? _); reflexivity. Qed.

Lemma socket_failed_progressed cmd0 cmd code msg :
  progressed cmd0 cmd ->
  exists cmd',
    socket_failed cmd code msg = WrReturn EvCommand.AS_EVENT_WRITE_ERROR cmd'
    /\ progressed cmd0 cmd'.
Proof.
  intros H. unfold socket_failed.
  destruct (as_event_socket_retry cmd); (eexists; split; [reflexivity|exact H]).
Qed.

(** What the return code tells about the command on a plain socket. *)
Definition settled (rv : EvCommand.as_event_rv) (cmd cmd' : as_event_command)
  : Prop :=
  match rv with
  | EvCommand.AS_EVENT_WRITE_COMPLETE =>
      pos cmd' = len cmd
      /\ Z.testbit (flags cmd') 4 = false
      /\ watching cmd' = watching cmd
  | EvCommand.AS_EVENT_WRITE_INCOMPLETE =>
      pos cmd' < len cmd
      /\ watching cmd'
         = (if pipe_listener cmd
            then Z.lor EvCommand.EV_WRITE EvCommand.EV_READ
            else EvCommand.EV_WRITE)
      /\ flags cmd' = flags cmd
  | EvCommand.AS_EVENT_WRITE_ERROR => True
  | _ => False
  end.

Lemma write_complete_flag cmd :
  Z.testbit
    (Z.land (flags cmd) (Z.lnot EvCommand.AS_ASYNC_FLAGS_EVENT_RECEIVED)) 4
  = false.
Proof.
  rewrite Z.land_spec, Z.lnot_spec by lia.
  change (Z.testbit EvCommand.AS_ASYNC_FLAGS_EVENT_RECEIVED 4) with true.
  apply andb_false_r.
Qed.

Lemma as_ev_watch_write_settled cmd :
  pos cmd < len cmd ->
  settled EvCommand.AS_EVENT_WRITE_INCOMPLETE cmd (as_ev_watch_write cmd).
Proof.
  intros Hpos. unfold as_ev_watch_write, settled.
  destruct (pipe_listener cmd) eqn:Hpipe;
    match goal with
    | |- context [if ?w =? watching cmd then _ else _] =>
        destruct (Z.eqb_spec w (watching cmd)) as [Hw|Hw]
    end;
    cbn [len pos watching flags set_watching];
    repeat split; try lia; try (symmetry; exact Hw).
Qed.

Lemma as_ev_write_loop_progress : forall fuel cmd,
  0 <= pos cmd <= len cmd -> len cmd < 2 ^ 32 ->
  len cmd <= Z.of_nat (length (wbuf cmd)) ->
  (length (room (socket cmd)) < fuel)%nat ->
  exists rv cmd',
    as_ev_write_loop fuel cmd = WrReturn rv cmd'
    /\ progressed cmd cmd' /\ settled rv cmd cmd'.
Proof.
  induction fuel as [|fuel IH]; intros cmd Hpos Hsmall Hlen Hfuel; [lia|].
  cbn [as_ev_write_loop].
  rewrite (u32_small (len cmd - pos cmd)) by (unfold is_u32; lia).
  unfold sys_send.
  destruct (Z.leb_spec (len cmd - pos cmd) 0) as [Hnone|Hsome].
  { destruct (socket_failed_progressed cmd cmd AEROSPIKE_ERR_ASYNC_CONNECTION
                "Socket write closed by peer" (progressed_refl cmd ltac:(lia)))
      as (cmd' & -> & Hp).
    exists EvCommand.AS_EVENT_WRITE_ERROR, cmd'. split; [reflexivity|].
    split; [exact Hp | exact I]. }
  destruct (room (socket cmd)) as [|n rest] eqn:Hroom.
  - destruct (full (socket cmd)) as [| |errno].
    + change (EvCommand.EWOULDBLOCK =? EvCommand.EWOULDBLOCK) with true.
      cbv iota. eexists _, _. split; [reflexivity|].
      split; [apply progressed_watch_write, progressed_refl; lia
             | apply as_ev_watch_write_settled; lia].
    + destruct (socket_failed_progressed cmd cmd AEROSPIKE_ERR_ASYNC_CONNECTION
                  "Socket write closed by peer" (progressed_refl cmd ltac:(lia)))
        as (cmd' & -> & Hp).
      exists EvCommand.AS_EVENT_WRITE_ERROR, cmd'. split; [reflexivity|].
      split; [exact Hp | exact I].
    + destruct (errno =? EvCommand.EWOULDBLOCK) eqn:He.
      * eexists _, _. split; [reflexivity|].
        split; [apply progressed_watch_write, progressed_refl; lia
               | apply as_ev_watch_write_settled; lia].
      * destruct (socket_failed_progressed cmd cmd
                    AEROSPIKE_ERR_ASYNC_CONNECTION "Socket write failed"
                    (progressed_refl cmd ltac:(lia)))
          as (cmd' & -> & Hp).
        exists EvCommand.AS_EVENT_WRITE_ERROR, cmd'. split; [reflexivity|].
        split; [exact Hp | exact I].
  - set (k := Z.min (Z.pos n) (len cmd - pos cmd)).
    assert (Hk : 0 < k <= len cmd - pos cmd) by (subst k; lia).
    destruct (Z.ltb_spec (pos cmd) 0); [lia|].
    destruct (Z.ltb_spec (Z.of_nat (length (wbuf cmd))) (pos cmd + k)); [lia|].
    cbn [orb].
    rewrite (u32_small (pos cmd + k)) by (unfold is_u32; lia).
    cbn [set_sent pos len].
    set (s := {| ctx := ctx (socket cmd);
                 sent := sent (socket cmd)
                         ++ take (Z.to_nat k) (drop (Z.to_nat (pos cmd)) (wbuf cmd));
                 room := rest; full := full (socket cmd) |}).
    assert (Hstep : progressed cmd (set_sent cmd (pos cmd + k) s)).
    { unfold progressed, segment. cbn [wbuf len pos socket sent set_sent s].
      repeat split; try lia. do 3 f_equal. lia. }
    destruct (Z.ltb_spec (pos cmd + k) (len cmd)) as [Hmore|Hdone].
    + destruct (IH (set_sent cmd (pos cmd + k) s))
        as (rv & cmd' & Hrun & Hp & Hs);
        cbn [pos len wbuf socket room set_sent s]; try lia.
      { cbn [length] in Hfuel. lia. }
      exists rv, cmd'. split; [exact Hrun|].
      split; [exact (progressed_trans cmd _ _ (proj1 Hpos) Hstep Hp)|].
      destruct rv; cbn [settled len pipe_listener watching flags set_sent] in *;
        exact Hs.
    + eexists _, _. split; [reflexivity|]. split.
      * exact Hstep.
      * unfold settled. cbn [pos flags watching set_flags set_sent].
        split; [lia|]. split; [apply write_complete_flag | reflexivity].
Qed.

(** What a return code of the TLS branch tells: complete means that the
    whole command is out and the flag cleared. *)
Definition tls_settled (rv : EvCommand.as_event_rv)
    (cmd cmd' : as_event_command) : Prop :=
  rv = EvCommand.AS_EVENT_WRITE_COMPLETE ->
  pos cmd' = len cmd /\ Z.testbit (flags cmd') 4 = false.

Lemma as_ev_write_tls_progress : forall fuel cmd0 cmd,
  tls_writes_within ->
  0 <= pos cmd0 -> progressed cmd0 cmd -> len cmd < 2 ^ 32 ->
  match as_ev_write_tls fuel cmd with
  | WrReturn rv cmd' => progressed cmd0 cmd' /\ tls_settled rv cmd0 cmd'
  | WrOutOfBounds => False
  | WrNoFuel => True
  end.
Proof.
  induction fuel as [|fuel IH]; intros cmd0 cmd Htls Hpos0 Hp Hsmall;
    pose proof Hp as (Hb & Hl & Hpp & Hsent);
    cbn [as_ev_write_tls];
    rewrite (u32_small (len cmd - pos cmd)) by (unfold is_u32; lia);
    destruct (as_tls_write_once (socket cmd) (wbuf cmd) (pos cmd)
                (len cmd - pos cmd)) as [rv s] eqn:Hwrite;
    destruct (Htls _ _ _ _ _ _ Hwrite) as [Htook Hnone];
    (destruct (Z.ltb_spec 0 rv) as [Hrv|Hrv];
     [ destruct (Htook Hrv) as [Hcount Hs];
       rewrite as_ev_watch_write_pos; cbn [pos set_socket set_sent];
       rewrite (u32_small (pos cmd + rv)) by (unfold is_u32; lia);
       assert (Hnext : progressed cmd0
                 (set_sent (as_ev_watch_write (set_socket cmd s))
                    (pos cmd + rv) s))
         by (apply (progressed_trans cmd0 cmd); [lia | exact Hp |];
             unfold progressed, segment;
             cbn [wbuf len pos socket sent set_sent];
             assert (Hw : wbuf (as_ev_watch_write (set_socket cmd s)) = wbuf cmd)
               by (unfold as_ev_watch_write; destruct (_ =? _); reflexivity);
             assert (Hn : len (as_ev_watch_write (set_socket cmd s)) = len cmd)
               by (unfold as_ev_watch_write; destruct (_ =? _); reflexivity);
             rewrite Hw, Hn, Hs; repeat split; try lia;
             do 3 f_equal; lia);
       cbn [pos len set_sent];
       assert (Hn : len (as_ev_watch_write (set_socket cmd s)) = len cmd)
         by (unfold as_ev_watch_write; destruct (_ =? _); reflexivity);
       rewrite Hn
     | specialize (Hnone Hrv);
       assert (Hsock : progressed cmd0 (set_socket cmd s))
         by (unfold progressed; cbn [wbuf len pos socket set_socket set_sent];
             rewrite Hnone; repeat split; assumption || lia);
       (destruct (rv =? -1);
        [split; [apply progressed_watch_read; exact Hsock | discriminate]|]);
       (destruct (rv =? -2);
        [split; [apply progressed_watch_write; exact Hsock | discriminate]|]);
       (destruct (rv <? -2);
        [ destruct (socket_failed_progressed cmd0 (set_socket cmd s)
                      AEROSPIKE_ERR_TLS_ERROR "TLS write failed" Hsock)
            as (cmd' & -> & Hp'); split; [exact Hp' | discriminate] |]);
       cbn [pos len set_socket set_sent] ]);
    match goal with
    | |- context [if ?a <? ?b then _ else _] =>
        destruct (Z.ltb_spec a b) as [Hmore|Hdone]
    end;
    try exact I;
    try (apply IH; try assumption; cbn [len set_sent set_socket]; lia);
    unfold write_complete;
    (split;
     [ first [exact Hnext | exact Hsock]
     | intros _; cbn [pos flags set_flags set_sent set_socket];
       split; [lia | apply write_complete_flag] ]).
Qed.

(** [as_ev_write] hands the command to the socket in order and without a
    gap.  On a command whose [pos] is inside it and whose bytes lie inside
    its memory, the count and the new position, computed in [uint32_t], do
    not wrap.  On a plain socket the call returns, having moved [pos]
    forward and sent exactly the bytes it moved over; when it reports the
    write complete the whole command is out and the event-received flag is
    cleared; when it reports it incomplete there are bytes left and the
    connection is watched for writing (and for reading too with a pipeline
    listener).  With TLS, as long as [as_tls_write_once] sends what it
    says it took, whatever the call returns it has sent exactly the bytes
    that it moved [pos] over, and all of the command when it reports the
    write complete. *)
Theorem as_ev_write_sends_in_order (cmd : as_event_command) :
  0 <= pos cmd <= len cmd -> len cmd < 2 ^ 32 ->
  len cmd <= Z.of_nat (length (wbuf cmd)) ->
  (ctx (socket cmd) = false ->
   exists rv cmd',
     as_ev_write cmd = WrReturn rv cmd'
     /\ progressed cmd cmd' /\ settled rv cmd cmd')
  /\ (ctx (socket cmd) = true -> tls_writes_within ->
      match as_ev_write cmd with
      | WrReturn rv cmd' => progressed cmd cmd' /\ tls_settled rv cmd cmd'
      | WrOutOfBounds => False
      | WrNoFuel => True
      end).
Proof.
  intros Hpos Hsmall Hlen. unfold as_ev_write. split; intros Hctx; rewrite Hctx.
  - apply as_ev_write_loop_progress; try assumption. apply Nat.lt_succ_diag_r.
  - intros Htls.
    apply as_ev_write_tls_progress; try assumption; try lia.
    apply progressed_refl. lia.
Qed.

End Write.

Definition no_retry (cmd : as_event_command) : bool := false.

(** A TLS layer that takes two bytes at a time at most and sends them as
    they are. *)
Definition tls_two_at_a_time (s : tx_socket) (mem : list byte) (off count : Z)
  : Z * tx_socket :=
  if 0 <? count then
    let n := Z.min 2 count in
    (n, {| ctx := ctx s;
           sent := sent s ++ take (Z.to_nat n) (drop (Z.to_nat off) mem);
           room := room s; full := full s |})
  else (-2, s).

(** A command of five bytes on a socket that takes two bytes, then one,
    and then would block. *)
Definition slow_socket : tx_socket :=
  {| ctx := false; sent := []; room := [2%positive; 1%positive];
     full := EvCommand.WouldBlock |}.

Definition five_bytes : as_event_command :=
  {| len := 5; pos := 0; wbuf := [x01; x02; x03; x04; x05]; flags := 16;
     pipe_listener := false; socket := slow_socket; watching := 1;
     failure := None |}.

Lemma as_ev_write_sends_in_order_witness :
  exists rv cmd',
    as_ev_write no_retry tls_two_at_a_time 8%nat five_bytes = WrReturn rv cmd'
    /\ progressed five_bytes cmd' /\ settled rv five_bytes cmd'.
Proof.
  destruct (as_ev_write_sends_in_order no_retry tls_two_at_a_time 8%nat
              five_bytes) as [Hplain _].
  - vm_compute. split; discriminate.
  - reflexivity.
  - vm_compute. discriminate.
  - apply Hplain. reflexivity.
Defined.

(** The slow socket takes three of the five bytes in two calls. *)
Example five_bytes_partial :
  exists cmd',
    as_ev_write no_retry tls_two_at_a_time 8%nat five_bytes
    = WrReturn EvCommand.AS_EVENT_WRITE_INCOMPLETE cmd'
    /\ pos cmd' = 3 /\ sent (socket cmd') = [x01; x02; x03]
    /\ watching cmd' = EvCommand.EV_WRITE.
Proof. eexists. vm_compute. repeat split. Qed.

(** The same command with TLS: it goes out in three turns, and the
    connection is watched for writing. *)
Example five_bytes_tls :
  exists cmd',
    as_ev_write no_retry tls_two_at_a_time 8%nat
      (set_socket five_bytes
         {| ctx := true; sent := []; room := []; full := EvCommand.WouldBlock |})
    = WrReturn EvCommand.AS_EVENT_WRITE_COMPLETE cmd'
    /\ pos cmd' = 5 /\ sent (socket cmd') = [x01; x02; x03; x04; x05]
    /\ watching cmd' = EvCommand.EV_WRITE.
Proof. eexists. vm_compute. repeat split. Qed.

End EvWrite.

(** ** The benchmark's linear write: workers that share a key counter *)

Module LinearWrite.

(** [uint64_t] arithmetic. *)
Definition u64 (x : Z) : Z := x mod 2 ^ 64.

(** The fields of [clientdata] that the workers of [linear_write.c] share,
    and two logs: the keys handed to [write_record_sync], in the order of
    the calls, and the totals of the summary lines printed. *)
Record clientdata : Type := mk_clientdata {
  key_min : Z;
  key_max : Z;
  key_count : Z;
  valid : bool;
  written : list Z;
  summaries : list Z
}.

Definition set_key_count (d : clientdata) (c : Z) : clientdata :=
  {| key_min := key_min d; key_max := key_max d; key_count := c;
     valid := valid d; written := written d; summaries := summaries d |}.

Definition set_valid (d : clientdata) (b : bool) : clientdata :=
  {| key_min := key_min d; key_max := key_max d; key_count := key_count d;
     valid := b; written := written d; summaries := summaries d |}.

(** [write_record_sync(cdata, tdata, key)] of the benchmark's
    [record.c], not among the sources: the call is logged. *)
Definition write_record_sync (d : clientdata) (key : Z) : clientdata :=
  {| key_min := key_min d; key_max := key_max d; key_count := key_count d;
     valid := valid d; written := written d ++ [key];
     summaries := summaries d |}.

(** The summary line [blog_info("write(... total=%" PRIu64 ")", ..., total)]. *)
Definition blog_summary (d : clientdata) (total : Z) : clientdata :=
  {| key_min := key_min d; key_max := key_max d; key_count := key_count d;
     valid := valid d; written := written d;
     summaries := summaries d ++ [total] |}.

(** Where a thread that runs [linear_write_worker] stands: at the test of
    the [while], at the fetch-and-add, with the key it drew, or behind the
    loop.  The locals [min_key] and [key_max] hold [cdata->key_min] and
    [cdata->key_max], which no thread assigns. *)
Inductive worker : Type :=
| Testing
| Drawing
| Holding (key : Z)
| Finished.

(** One access of the worker to the shared data. *)
Definition worker_step (w : worker) (d : clientdata) : worker * clientdata :=
  match w with
  | Testing =>
      (* while (cdata->valid) *)
      if valid d then (Drawing, d) else (Finished, d)
  | Drawing =>
      (* key = ck_pr_faa_64(&cdata->key_count, 1) + min_key *)
      (Holding (u64 (key_count d + key_min d)),
       set_key_count d (u64 (key_count d + 1)))
  | Holding key =>
      if key_max d <? key then
        (Finished,
         if u64 (key - 1) =? key_max d
         then blog_summary d (u64 (key_max d - key_min d))
         else d)
      else
        (* write_record_sync(cdata, tdata, key); throttle(cdata); *)
        (Testing, write_record_sync d key)
  | Finished => (Finished, d)
  end.

(** What happens next: thread [i] makes its next access, or [valid] is
    cleared from outside the workers, as [linear_write] does at its end. *)
Inductive event : Type :=
| Run (i : nat)
| Invalidate.

Definition step (s : list worker * clientdata) (e : event)
  : list worker * clientdata :=
  match e with
  | Run i =>
      match s.1 !! i with
      | Some w =>
          let '(w', d) := worker_step w s.2 in (<[i := w']> s.1, d)
      | None => s
      end
  | Invalidate => (s.1, set_valid s.2 false)
  end.

(** The threads of [linear_write] in synchronous mode, interleaved as
    [schedule] says. *)
Definition run (schedule : list event) (s : list worker * clientdata)
  : list worker * clientdata :=
  fold_left step schedule s.

(** [threads] workers started on fresh client data. *)
Definition start (threads : nat) (min_key max_key : Z)
  : list worker * clientdata :=
  (replicate threads Testing,
   {| key_min := min_key; key_max := max_key; key_count := 0; valid := true;
      written := []; summaries := [] |}).

(** *** Properties *)

(** The keys that threads hold. *)
Definition held (ws : list worker) : list Z :=
  omap (fun w => match w with Holding k => Some k | _ => None end) ws.

Definition is_finished (w : worker) : bool :=
  match w with Finished => true | _ => false end.

Definition finished (ws : list worker) : nat :=
  length (List.filter is_finished ws).

Definition low (M : Z) (keys : list Z) : list Z :=
  List.filter (fun k => k <=? M) keys.

Definition high (M : Z) (keys : list Z) : list Z :=
  List.filter (fun k => M <? k) keys.

(** The keys drawn so far are the first [key_count] keys from [key_min],
    each drawn once: those up to [key_max] are written or held, those
    above it are held or were spent by a thread that left the loop; the
    summary has been printed exactly if the first key above [key_max] was
    spent. *)
Record invariant (n : nat) (m M : Z) (s : list worker * clientdata)
  : Prop := mk_invariant {
  inv_min : key_min s.2 = m;
  inv_max : key_max s.2 = M;
  inv_threads : length s.1 = n;
  inv_count : 0 <= key_count s.2;
  inv_low :
    written s.2 ++ low M (held s.1)
    ≡ₚ seqZ m (Z.min (key_count s.2) (M - m + 1));
  inv_high :
    exists spent,
      high M (held s.1) ++ spent
      ≡ₚ seqZ (M + 1) (key_count s.2 - Z.min (key_count s.2) (M - m + 1))
      /\ (length spent <= finished s.1)%nat
      /\ (valid s.2 = true -> length spent = finished s.1)
      /\ (((M + 1) ∈ spent /\ summaries s.2 = [M - m])
          \/ (((M + 1) ∉ spent) /\ summaries s.2 = []))
}.

Lemma held_app l1 l2 : held (l1 ++ l2) = held l1 ++ held l2.
Proof. apply omap_app. Qed.

Lemma finished_app l1 l2 : finished (l1 ++ l2) = (finished l1 + finished l2)%nat.
Proof. unfold finished. rewrite List.filter_app, length_app. reflexivity. Qed.

Lemma low_app M l1 l2 : low M (l1 ++ l2) = low M l1 ++ low M l2.
Proof. apply List.filter_app. Qed.

Lemma high_app M l1 l2 : high M (l1 ++ l2) = high M l1 ++ high M l2.
Proof. apply List.filter_app. Qed.

Lemma high_length M l : (length (high M l) <= length l)%nat.
Proof. apply List.filter_length_le. Qed.

Lemma held_finished_length ws : (length (held ws) + finished ws <= length ws)%nat.
Proof.
  induction ws as [|w ws IH]; [reflexivity|].
  change (w :: ws) with ([w] ++ ws). rewrite held_app, finished_app, !length_app.
  destruct w; cbn; lia.
Qed.

(** A thread and the threads around it. *)
Lemma lookup_split (ws : list worker) i w w' :
  ws !! i = Some w ->
  exists l1 l2, ws = l1 ++ w :: l2 /\ <[i := w']> ws = l1 ++ w' :: l2.
Proof.
  intros Hi. exists (take i ws), (drop (S i) ws). split.
  - symmetry. apply take_drop_middle. exact Hi.
  - apply insert_take_drop. apply lookup_lt_Some in Hi. exact Hi.
Qed.

Lemma held_replicate_Testing k : held (replicate k Testing) = [].
Proof. induction k as [|k IH]; [reflexivity | exact IH]. Qed.

Lemma finished_replicate_Testing k : finished (replicate k Testing) = 0%nat.
Proof. induction k as [|k IH]; [reflexivity | exact IH]. Qed.

Lemma seqZ_snoc m c : 0 <= c -> seqZ m (c + 1) = seqZ m c ++ [m + c].
Proof. intros Hc. rewrite seqZ_app by lia. reflexivity. Qed.

Section Keys.

Variable n : nat.
Variable m M : Z.
Hypothesis Hmin : 0 <= m <= M.
Hypothesis Hmax : M + Z.of_nat n + 1 < 2 ^ 64.

Lemma u64_small x : 0 <= x < 2 ^ 64 -> u64 x = x.
Proof. intros H. apply Z.mod_small. exact H. Qed.

(** The counter stays ahead of the last key by no more than one draw for
    each thread. *)
Lemma count_bound s :
  invariant n m M s ->
  key_count s.2 - Z.min (key_count s.2) (M - m + 1)
  <= Z.of_nat (length (held s.1)) + Z.of_nat (finished s.1).
Proof.
  intros [_ _ _ Hc _ (spent & Hperm & Hspent & _)].
  apply Permutation_length in Hperm.
  rewrite length_app, length_seqZ in Hperm.
  pose proof (high_length M (held s.1)). lia.
Qed.

Lemma invariant_start : invariant n m M (start n m M).
Proof.
  split; cbn [start fst snd key_min key_max key_count written summaries valid].
  - reflexivity.
  - reflexivity.
  - apply length_replicate.
  - lia.
  - rewrite held_replicate_Testing. rewrite Z.min_l by lia. reflexivity.
  - exists []. rewrite held_replicate_Testing, finished_replicate_Testing.
    rewrite Z.min_l by lia. cbn.
    split; [reflexivity|]. split; [lia|]. split; [reflexivity|].
    right. split; [apply not_elem_of_nil | reflexivity].
Qed.

Lemma invariant_step s e : invariant n m M s -> invariant n m M (step s e).
Proof.
  intros Hinv. destruct s as [ws d]. destruct e as [i|]; cbn [step fst snd].
  2: { destruct Hinv as [H1 H2 H3 H4 H5 (spent & Hp & Hs & Hv & Hsum)].
       split; cbn [fst snd set_valid key_min key_max key_count written
                   summaries valid] in *; try assumption.
       exists spent. repeat split; try assumption. discriminate. }
  destruct (ws !! i) as [w|] eqn:Hi; [|exact Hinv].
  pose proof (count_bound _ Hinv) as Hbound.
  destruct Hinv as [H1 H2 H3 H4 H5 (spent & Hp & Hs & Hv & Hsum)].
  cbn [fst snd] in *.
  destruct w as [| |key|]; cbn [worker_step].
  - (* the test of the loop *)
    case_eq (valid d); intros Hvalid.
    + destruct (lookup_split ws i Testing Drawing Hi) as (l1 & l2 & -> & ->).
      rewrite held_app, finished_app in *.
      change (held (Testing :: l2)) with (held l2) in *.
      change (held (Drawing :: l2)) with (held l2).
      change (finished (Testing :: l2)) with (finished l2) in *.
      change (finished (Drawing :: l2)) with (finished l2).
      split; cbn [fst snd]; try assumption.
      * rewrite ?length_app in *. exact H3.
      * rewrite held_app. exact H5.
      * exists spent. rewrite held_app, finished_app.
        change (held (Drawing :: l2)) with (held l2).
        change (finished (Drawing :: l2)) with (finished l2).
        repeat split; assumption.
    + destruct (lookup_split ws i Testing Finished Hi) as (l1 & l2 & -> & ->).
      rewrite held_app, finished_app in *.
      change (held (Testing :: l2)) with (held l2) in *.
      change (finished (Testing :: l2)) with (finished l2) in *.
      split; cbn [fst snd]; try assumption.
      * rewrite ?length_app in *. exact H3.
      * rewrite held_app. exact H5.
      * exists spent. rewrite held_app, finished_app.
        change (held (Finished :: l2)) with (held l2).
        change (finished (Finished :: l2)) with (S (finished l2)).
        split; [exact Hp|]. split; [lia|]. split; [congruence | exact Hsum].
  - (* the fetch-and-add *)
    destruct (lookup_split ws i Drawing
                (Holding (u64 (key_count d + key_min d))) Hi)
      as (l1 & l2 & -> & ->).
    pose proof (held_finished_length (l1 ++ l2)) as Hroom.
    rewrite held_app, finished_app in *.
    change (held (Drawing :: l2)) with (held l2) in *.
    change (finished (Drawing :: l2)) with (finished l2) in *.
    rewrite ?length_app in *. cbn [length] in H3.
    set (c := key_count d) in *.
    assert (Hc : c <= M - m + 1 + Z.of_nat n - 1) by lia.
    rewrite H1. rewrite (u64_small (c + m)), (u64_small (c + 1)) by lia.
    split; cbn [fst snd set_key_count key_min key_max key_count written
                summaries valid]; try assumption.
    + rewrite length_app. exact H3.
    + lia.
    + rewrite held_app.
      change (held (Holding (c + m) :: l2)) with ((c + m) :: held l2).
      rewrite low_app. unfold low at 2. cbn [List.filter]. fold (low M (held l2)).
      rewrite low_app in H5.
      destruct (Z.leb_spec (c + m) M) as [Hlow|Hhigh].
      * rewrite !Z.min_l in * by lia. rewrite seqZ_snoc by lia.
        rewrite <- H5. rewrite (Z.add_comm m c). solve_Permutation.
      * rewrite !Z.min_r in * by lia. exact H5.
    + exists spent. rewrite held_app, finished_app.
      change (held (Holding (c + m) :: l2)) with ((c + m) :: held l2).
      change (finished (Holding (c + m) :: l2)) with (finished l2).
      rewrite high_app. unfold high at 2. cbn [List.filter].
      fold (high M (held l2)). rewrite high_app in Hp.
      split; [|repeat split; assumption].
      destruct (Z.ltb_spec M (c + m)) as [Hhigh|Hlow].
      * rewrite !Z.min_r in * by lia.
        replace (c + 1 - (M - m + 1)) with (c - (M - m + 1) + 1) by lia.
        rewrite seqZ_snoc by lia. rewrite <- Hp.
        replace (M + 1 + (c - (M - m + 1))) with (c + m) by lia.
        solve_Permutation.
      * rewrite !Z.min_l in * by lia.
        replace (c + 1 - (c + 1)) with (c - c) by lia. exact Hp.
  - (* the key drawn *)
    rewrite H2.
    assert (Hkey : key ∈ held ws).
    { unfold held. apply list_elem_of_omap. exists (Holding key).
      split; [|reflexivity]. eapply list_elem_of_lookup_2. exact Hi. }
    destruct (Z.ltb_spec M key) as [Hhigh|Hlow].
    + destruct (lookup_split ws i (Holding key) Finished Hi) as (l1 & l2 & -> & ->).
      pose proof (held_finished_length (l1 ++ l2)) as Hroom.
      rewrite held_app, finished_app in *.
      change (held (Holding key :: l2)) with (key :: held l2) in *.
      change (finished (Holding key :: l2)) with (finished l2) in *.
      rewrite ?length_app in *. cbn [length] in *.
      rewrite high_app in Hp. unfold high at 2 in Hp. cbn [List.filter] in Hp.
      fold (high M (held l2)) in Hp.
      destruct (Z.ltb_spec M key) as [_|]; [|lia].
      rewrite low_app in H5. unfold low at 2 in H5. cbn [List.filter] in H5.
      fold (low M (held l2)) in H5.
      destruct (Z.leb_spec key M) as [|_]; [lia|].
      assert (Hin : key ∈ seqZ (M + 1)
                      (key_count d - Z.min (key_count d) (M - m + 1))).
      { rewrite <- Hp. apply elem_of_app. left. apply elem_of_app. right.
        apply elem_of_cons. left. reflexivity. }
      apply elem_of_seqZ in Hin.
      assert (Hfresh : key ∉ spent).
      { intros Hspent.
        assert (Hnd : NoDup ((high M (held l1) ++ key :: high M (held l2)) ++ spent)).
        { rewrite Hp. apply NoDup_seqZ. }
        apply NoDup_app in Hnd as (_ & Hdisj & _).
        apply (Hdisj key); [|exact Hspent].
        apply elem_of_app. right. apply elem_of_cons. left. reflexivity. }
      rewrite (u64_small (key - 1)), (u64_small (M - key_min d)) by lia.
      assert (Hperm : (high M (held l1) ++ high M (held l2)) ++ key :: spent
                      ≡ₚ seqZ (M + 1)
                           (key_count d - Z.min (key_count d) (M - m + 1))).
      { rewrite <- Hp. solve_Permutation. }
      assert (Hcount : (length (key :: spent)
                        <= finished l1 + S (finished l2))%nat)
        by (cbn [length]; lia).
      destruct (Z.eqb_spec (key - 1) M) as [Heq|Hne].
      * split; cbn [fst snd blog_summary key_min key_max key_count written
                    summaries valid]; try assumption.
        -- rewrite length_app. exact H3.
        -- rewrite held_app, low_app.
           change (held (Finished :: l2)) with (held l2).
           exact H5.
        -- exists (key :: spent). rewrite held_app, high_app, finished_app.
           change (held (Finished :: l2)) with (held l2).
           change (finished (Finished :: l2)) with (S (finished l2)).
           split; [exact Hperm|]. split; [exact Hcount|].
           split; [intros Hvalid; cbn [length]; rewrite (Hv Hvalid); lia|].
           left. split; [apply elem_of_cons; left; lia|].
           destruct Hsum as [[Hin' _] | [_ ->]].
           ++ exfalso. apply Hfresh. replace key with (M + 1) by lia. exact Hin'.
           ++ rewrite H1. reflexivity.
      * split; cbn [fst snd key_min key_max key_count written summaries valid];
          try assumption.
        -- rewrite length_app. exact H3.
        -- rewrite held_app, low_app.
           change (held (Finished :: l2)) with (held l2).
           exact H5.
        -- exists (key :: spent). rewrite held_app, high_app, finished_app.
           change (held (Finished :: l2)) with (held l2).
           change (finished (Finished :: l2)) with (S (finished l2)).
           split; [exact Hperm|]. split; [exact Hcount|].
           split; [intros Hvalid; cbn [length]; rewrite (Hv Hvalid); lia|].
           destruct Hsum as [[Hin' Hs'] | [Hout Hs']].
           ++ left. split; [apply elem_of_cons; right; exact Hin' | exact Hs'].
           ++ right. split; [|exact Hs']. intros Hin'.
              apply elem_of_cons in Hin' as [Hin'|Hin']; [lia | contradiction].
    + destruct (lookup_split ws i (Holding key) Testing Hi) as (l1 & l2 & -> & ->).
      rewrite held_app, finished_app in *.
      change (held (Holding key :: l2)) with (key :: held l2) in *.
      change (finished (Holding key :: l2)) with (finished l2) in *.
      rewrite ?length_app in *. cbn [length] in *.
      rewrite high_app in Hp. unfold high at 2 in Hp. cbn [List.filter] in Hp.
      fold (high M (held l2)) in Hp.
      destruct (Z.ltb_spec M key) as [|_]; [lia|].
      rewrite low_app in H5. unfold low at 2 in H5. cbn [List.filter] in H5.
      fold (low M (held l2)) in H5.
      destruct (Z.leb_spec key M) as [_|]; [|lia].
      split; cbn [fst snd write_record_sync key_min key_max key_count written
                  summaries valid]; try assumption.
      * rewrite length_app. exact H3.
      * rewrite held_app, low_app.
        change (held (Testing :: l2)) with (held l2).
        rewrite <- H5. solve_Permutation.
      * exists spent. rewrite held_app, high_app, finished_app.
        change (held (Testing :: l2)) with (held l2).
        change (finished (Testing :: l2)) with (finished l2).
        repeat split; assumption.
  - (* behind the loop *)
    rewrite list_insert_id by exact Hi.
    split; cbn [fst snd]; try assumption.
    exists spent. repeat split; assumption.
Qed.

Lemma invariant_run schedule : forall s,
  invariant n m M s -> invariant n m M (run schedule s).
Proof.
  induction schedule as [|e schedule IH]; intros s Hs; [exact Hs|].
  apply IH. apply invariant_step. exact Hs.
Qed.

(** However the threads are interleaved and whenever they are stopped, no
    key is written twice, every key written lies between [key_min] and
    [key_max], and the summary line is printed once at most; it reports
    [key_max - key_min]. *)
Theorem linear_write_worker_no_key_twice (schedule : list event) :
  let d := (run schedule (start n m M)).2 in
  NoDup (written d)
  /\ Forall (fun key => m <= key <= M) (written d)
  /\ (summaries d = [] \/ summaries d = [M - m]).
Proof.
  intros d. subst d.
  destruct (invariant_run schedule _ invariant_start)
    as [_ _ _ Hc Hlow (spent & _ & _ & _ & Hsum)].
  assert (Hnd : NoDup (written (run schedule (start n m M)).2
                       ++ low M (held (run schedule (start n m M)).1)))
    by (rewrite Hlow; apply NoDup_seqZ).
  split; [apply NoDup_app in Hnd; apply Hnd|]. split.
  - apply Forall_forall. intros key Hkey.
    assert (Hin : key ∈ seqZ m (Z.min (key_count (run schedule (start n m M)).2)
                                  (M - m + 1))).
    { rewrite <- Hlow. apply elem_of_app. left. exact Hkey. }
    apply elem_of_seqZ in Hin. lia.
  - destruct Hsum as [[_ ->] | [_ ->]]; [right | left]; reflexivity.
Qed.

(** When every thread has left the loop and [valid] is still set, each
    key from [key_min] to [key_max] has been written exactly once, which
    makes [key_max - key_min + 1] records, and the summary line has been
    printed exactly once, by the thread that drew the first key behind
    [key_max]; the total it reports is [key_max - key_min]. *)
Theorem linear_write_worker_writes_every_key (schedule : list event) :
  (0 < n)%nat ->
  let s := run schedule (start n m M) in
  Forall (fun w => w = Finished) s.1 ->
  valid s.2 = true ->
  written s.2 ≡ₚ seqZ m (M - m + 1)
  /\ Z.of_nat (length (written s.2)) = M - m + 1
  /\ summaries s.2 = [M - m].
Proof.
  intros Hn s Hdone Hvalid. subst s.
  destruct (invariant_run schedule _ invariant_start)
    as [_ _ Hlen Hc Hlow (spent & Hhigh & _ & Hv & Hsum)].
  set (s := run schedule (start n m M)) in *.
  assert (Hheld : held s.1 = []).
  { clear -Hdone. induction Hdone as [|w ws -> _ IH]; [reflexivity | exact IH]. }
  assert (Hfin : finished s.1 = length s.1).
  { clear -Hdone. induction Hdone as [|w ws -> _ IH]; [reflexivity|].
    unfold finished in *. cbn. rewrite IH. reflexivity. }
  rewrite Hheld in Hlow, Hhigh. cbn [low high List.filter app] in Hlow, Hhigh.
  rewrite app_nil_r in Hlow.
  specialize (Hv Hvalid). rewrite Hfin, Hlen in Hv.
  pose proof (Permutation_length Hhigh) as Hcount.
  rewrite length_seqZ, Hv in Hcount.
  assert (Hpast : M - m + 1 < key_count s.2) by lia.
  rewrite Z.min_r in Hlow, Hhigh by lia.
  split; [exact Hlow|]. split.
  - rewrite (Permutation_length Hlow), length_seqZ. lia.
  - destruct Hsum as [[_ Hs] | [Hout _]]; [exact Hs|].
    exfalso. apply Hout. rewrite Hhigh. apply elem_of_seqZ. lia.
Qed.

End Keys.

(** Two threads on the keys 10 and 11: the first draws 10, the second
    draws 11 and writes it before the first writes 10; then each draws a
    key behind the range and leaves. *)
Definition two_threads : list event :=
  [ Run 0; Run 1; Run 0; Run 1; Run 1; Run 0;
    Run 1; Run 1; Run 1; Run 0; Run 0; Run 0 ]%nat.

Lemma linear_write_worker_writes_every_key_witness :
  let s := run two_threads (start 2 10 11) in
  written s.2 ≡ₚ seqZ 10 (11 - 10 + 1)
  /\ Z.of_nat (length (written s.2)) = 11 - 10 + 1
  /\ summaries s.2 = [11 - 10].
Proof.
  apply (linear_write_worker_writes_every_key 2 10 11).
  - lia.
  - vm_compute. reflexivity.
  - lia.
  - vm_compute. repeat constructor.
  - reflexivity.
Defined.

Lemma linear_write_worker_no_key_twice_witness :
  let d := (run two_threads (start 2 10 11)).2 in
  NoDup (written d)
  /\ Forall (fun key => 10 <= key <= 11) (written d)
  /\ (summaries d = [] \/ summaries d = [11 - 10]).
Proof.
  apply (linear_write_worker_no_key_twice 2 10 11).
  - lia.
  - vm_compute. reflexivity.
Defined.

(** The sample run writes 11 before 10, and reports 1 for two records. *)
Example two_threads_run :
  written (run two_threads (start 2 10 11)).2 = [11; 10]
  /\ summaries (run two_threads (start 2 10 11)).2 = [1].
Proof. vm_compute. split; reflexivity. Qed.

End LinearWrite.
